(** * SpatialGDK replication change tracking: a shallow embedding

    The development follows two translation units of the GDK:

    - [SpatialActorChannel.cpp]: the per-object change-history ring
      ([UpdateChangelistHistory]), the initial change state
      ([CreateInitialRepChangeState]), the handover differ
      ([GetHandoverChangeList]), one replication pass ([ReplicateActor])
      and the two response handlers of the entity-creation handshake;
    - [SpatialSender.cpp]: the unresolved-reference bookkeeping
      ([QueueOutgoingUpdate], [ResetOutgoingUpdate],
      [ResolveOutgoingOperations]), [SendComponentUpdates], [CreateEntity]
      and [SendRPC].

    Conventions.  A [check(...)] of the source that fails, and an access
    the C++ leaves undefined (an index outside a fixed array), end the call
    without a result: the model returns [None].  Engine integers are [Z];
    C++ [%] is [Z.rem].  Engine types that the two files only use
    (replication layouts, properties, the component factory, the worker
    connection) appear as data or as fields of an environment record. *)

From Stdlib Require Import ZArith Lia.
From stdpp Require Import base option list strings gmap sets.

Open Scope Z_scope.

(** ** Common helpers *)

(** [check(b)]: continue when [b] holds, no result otherwise. *)
Definition check (b : bool) : option unit := if b then Some () else None.

(** [Array[i]] for a C array or a [TArray] indexed by a signed integer. *)
Definition array_get {A : Type} (l : list A) (i : Z) : option A :=
  if i <? 0 then None else l !! Z.to_nat i.

(** [Array[i] = x]; only used after [array_get] succeeded at [i]. *)
Definition array_set {A : Type} (l : list A) (i : Z) (x : A) : list A :=
  <[Z.to_nat i := x]> l.

(** Conversion to [uint16], as [TArray<uint16>::Add] does on an [int32]. *)
Definition to_uint16 (z : Z) : Z := z mod 65536.

(** ** The change-history ring ([FRepState], [FRepChangelistState]) *)

Record FPacketIdRange := { First : Z; Last : Z }.

Definition INDEX_NONE : Z := -1.

(** The default-constructed range. *)
Definition FPacketIdRange_new : FPacketIdRange :=
  {| First := INDEX_NONE; Last := INDEX_NONE |}.

Record FRepChangedHistory := {
  Changed : list Z;
  OutPacketIdRange : FPacketIdRange
}.

(** The per-consumer state: its private ring of merged change lists and
    its cursors into the shared ledger. *)
Module FRepState.
Record t := {
  HistoryStart : Z;
  HistoryEnd : Z;
  ChangeHistory : list FRepChangedHistory;
  LastChangelistIndex : Z;
  LastCompareIndex : Z
}.
End FRepState.

(** The shared ledger kept by the changelist manager of an object. *)
Module FRepChangelistState.
Record t := {
  HistoryStart : Z;
  HistoryEnd : Z;
  CompareIndex : Z;
  ChangeHistory : list FRepChangedHistory
}.
End FRepChangelistState.

(** The body of the [for] loop of [UpdateChangelistHistory]; [i] and
    [HistoryStart] advance together and [HistoryEnd] is not written, so
    [fuel] bounds the number of iterations from above. *)
Fixpoint UpdateChangelistHistory_loop (MAX_CHANGE_HISTORY : Z) (fuel : nat)
    (i : Z) (RepState : FRepState.t) : option FRepState.t :=
  if i <? FRepState.HistoryEnd RepState then
    match fuel with
    | O => None
    | S fuel' =>
        let HistoryIndex := Z.rem i MAX_CHANGE_HISTORY in
        HistoryItem ← array_get (FRepState.ChangeHistory RepState) HistoryIndex;
        _ ← check (0 <? Z.of_nat (length (Changed HistoryItem)));
        UpdateChangelistHistory_loop MAX_CHANGE_HISTORY fuel' (i + 1)
          {| FRepState.HistoryStart := FRepState.HistoryStart RepState + 1;
             FRepState.HistoryEnd := FRepState.HistoryEnd RepState;
             FRepState.ChangeHistory :=
               array_set (FRepState.ChangeHistory RepState) HistoryIndex
                 {| Changed := []; OutPacketIdRange := FPacketIdRange_new |};
             FRepState.LastChangelistIndex := FRepState.LastChangelistIndex RepState;
             FRepState.LastCompareIndex := FRepState.LastCompareIndex RepState |}
    end
  else Some RepState.

(** [UpdateChangelistHistory], called with a pointer to the [FRepState]. *)
Definition UpdateChangelistHistory (MAX_CHANGE_HISTORY : Z)
    (RepState : FRepState.t) : option FRepState.t :=
  _ ← check (FRepState.HistoryStart RepState <=? FRepState.HistoryEnd RepState);
  let HistoryCount := FRepState.HistoryEnd RepState - FRepState.HistoryStart RepState in
  _ ← check (HistoryCount <? MAX_CHANGE_HISTORY);
  RepState ← UpdateChangelistHistory_loop MAX_CHANGE_HISTORY
               (S (Z.to_nat HistoryCount)) (FRepState.HistoryStart RepState) RepState;
  let NewHistoryCount := FRepState.HistoryEnd RepState - FRepState.HistoryStart RepState in
  _ ← check (NewHistoryCount <=? MAX_CHANGE_HISTORY);
  let NewStart := Z.rem (FRepState.HistoryStart RepState) MAX_CHANGE_HISTORY in
  Some {| FRepState.HistoryStart := NewStart;
          FRepState.HistoryEnd := NewStart + NewHistoryCount;
          FRepState.ChangeHistory := FRepState.ChangeHistory RepState;
          FRepState.LastChangelistIndex := FRepState.LastChangelistIndex RepState;
          FRepState.LastCompareIndex := FRepState.LastCompareIndex RepState |}.


(** The gather loop of [ReplicateActor] and of [ReplicateSubobject]: every
    shared change list from the consumer's cursor up to the ledger's end is
    merged into the slot [RepChanged] refers to.  [MergeChangeList d1 d2]
    stands for the engine's [FRepLayout::MergeChangeList(Data, d1, d2, out)]. *)
Fixpoint GatherChangelists_loop (MAX_CHANGE_HISTORY CL_MAX_CHANGE_HISTORY : Z)
    (MergeChangeList : list Z → list Z → list Z)
    (ChangelistState : FRepChangelistState.t) (PossibleNewHistoryIndex : Z)
    (fuel : nat) (i : Z) (RepState : FRepState.t) : option FRepState.t :=
  if i <? FRepChangelistState.HistoryEnd ChangelistState then
    match fuel with
    | O => None
    | S fuel' =>
        let HistoryIndex := Z.rem i CL_MAX_CHANGE_HISTORY in
        HistoryItem ← array_get (FRepChangelistState.ChangeHistory ChangelistState) HistoryIndex;
        PossibleNewHistoryItem ← array_get (FRepState.ChangeHistory RepState) PossibleNewHistoryIndex;
        let Temp := Changed PossibleNewHistoryItem in
        GatherChangelists_loop MAX_CHANGE_HISTORY CL_MAX_CHANGE_HISTORY MergeChangeList
          ChangelistState PossibleNewHistoryIndex fuel' (i + 1)
          {| FRepState.HistoryStart := FRepState.HistoryStart RepState;
             FRepState.HistoryEnd := FRepState.HistoryEnd RepState;
             FRepState.ChangeHistory :=
               array_set (FRepState.ChangeHistory RepState) PossibleNewHistoryIndex
                 {| Changed := MergeChangeList (Changed HistoryItem) Temp;
                    OutPacketIdRange := OutPacketIdRange PossibleNewHistoryItem |};
             FRepState.LastChangelistIndex := FRepState.LastChangelistIndex RepState;
             FRepState.LastCompareIndex := FRepState.LastCompareIndex RepState |}
    end
  else Some RepState.

Definition GatherChangelists (MAX_CHANGE_HISTORY CL_MAX_CHANGE_HISTORY : Z)
    (MergeChangeList : list Z → list Z → list Z)
    (ChangelistState : FRepChangelistState.t) (RepState : FRepState.t)
    : option (FRepState.t * list Z) :=
  let PossibleNewHistoryIndex := Z.rem (FRepState.HistoryEnd RepState) MAX_CHANGE_HISTORY in
  _ ← array_get (FRepState.ChangeHistory RepState) PossibleNewHistoryIndex;
  RepState ← GatherChangelists_loop MAX_CHANGE_HISTORY CL_MAX_CHANGE_HISTORY MergeChangeList
               ChangelistState PossibleNewHistoryIndex
               (S (Z.to_nat (FRepChangelistState.HistoryEnd ChangelistState
                             - FRepState.LastChangelistIndex RepState)))
               (FRepState.LastChangelistIndex RepState) RepState;
  PossibleNewHistoryItem ← array_get (FRepState.ChangeHistory RepState) PossibleNewHistoryIndex;
  Some ({| FRepState.HistoryStart := FRepState.HistoryStart RepState;
           FRepState.HistoryEnd := FRepState.HistoryEnd RepState;
           FRepState.ChangeHistory := FRepState.ChangeHistory RepState;
           FRepState.LastChangelistIndex := FRepState.LastChangelistIndex RepState;
           FRepState.LastCompareIndex := FRepChangelistState.CompareIndex ChangelistState |},
        Changed PossibleNewHistoryItem).

(** ** Replication layouts ([FRepLayout]) *)

(** The command kinds the two files distinguish; every other kind of the
    engine's enumeration behaves like [REPCMD_Property] here. *)
Inductive ERepLayoutCmdType :=
  | REPCMD_DynamicArray
  | REPCMD_Return
  | REPCMD_Property.

Global Instance ERepLayoutCmdType_eq_dec : EqDecision ERepLayoutCmdType.
Proof. solve_decision. Defined.

Record FRepLayoutCmd := {
  Type_ : ERepLayoutCmdType;
  EndCmd : Z;
  RelativeHandle : Z
}.

Record FHandleToCmdIndex := { CmdIndex : Z }.

Record FRepLayout := {
  Cmds : list FRepLayoutCmd;
  BaseHandleToCmdIndex : list FHandleToCmdIndex
}.

Record FRepChangeState := {
  RepChanged : list Z;
  RepLayout : FRepLayout
}.

(** The loop of [CreateInitialRepChangeState] over [Cmds], from index
    [CmdIdx] on, with the handles collected so far. *)
Fixpoint CreateInitialRepChangeState_loop (CmdCount : Z)
    (cmds : list FRepLayoutCmd) (CmdIdx : Z) (DynamicArrayDepth : Z)
    (InitialRepChanged : list Z) : option (list Z) :=
  match cmds with
  | [] => Some InitialRepChanged
  | Cmd :: cmds' =>
      let InitialRepChanged := InitialRepChanged ++ [RelativeHandle Cmd] in
      match Type_ Cmd with
      | REPCMD_DynamicArray =>
          let DynamicArrayDepth := DynamicArrayDepth + 1 in
          let InitialRepChanged :=
            if DynamicArrayDepth =? 1
            then InitialRepChanged ++ [to_uint16 ((EndCmd Cmd - CmdIdx) - 2)]
            else InitialRepChanged in
          CreateInitialRepChangeState_loop CmdCount cmds' (CmdIdx + 1)
            DynamicArrayDepth InitialRepChanged
      | REPCMD_Return =>
          let DynamicArrayDepth := DynamicArrayDepth - 1 in
          _ ← check ((0 <=? DynamicArrayDepth) || (CmdIdx =? CmdCount - 1));
          CreateInitialRepChangeState_loop CmdCount cmds' (CmdIdx + 1)
            DynamicArrayDepth InitialRepChanged
      | REPCMD_Property =>
          CreateInitialRepChangeState_loop CmdCount cmds' (CmdIdx + 1)
            DynamicArrayDepth InitialRepChanged
      end
  end.

(** [CreateInitialRepChangeState] on the layout of the object's replicator.
    The loop counter is a [uint16] compared with the [int32] count: with
    65536 commands or more it wraps before reaching the count and the loop
    never ends, so there is no result. *)
Definition CreateInitialRepChangeState (Layout : FRepLayout) : option FRepChangeState :=
  let CmdCount := Z.of_nat (length (Cmds Layout)) in
  _ ← check (CmdCount <? 65536);
  InitialRepChanged ← CreateInitialRepChangeState_loop CmdCount (Cmds Layout) 0 0 [];
  Some {| RepChanged := InitialRepChanged; RepLayout := Layout |}.

(** [IsDynamicArrayHandle(Object, Handle)]; [Replicator] is the object's
    replicator on the channel, [None] when the channel has none. *)
Definition IsDynamicArrayHandle (Replicator : option FRepLayout) (Handle : Z)
    : option bool :=
  Layout ← Replicator;
  _ ← check (Handle - 1 <? Z.of_nat (length (BaseHandleToCmdIndex Layout)));
  Entry ← array_get (BaseHandleToCmdIndex Layout) (Handle - 1);
  Cmd ← array_get (Cmds Layout) (CmdIndex Entry);
  Some (bool_decide (Type_ Cmd = REPCMD_DynamicArray)).

(** ** Handover properties and their shadow buffer *)

Global Instance byte_eq_dec : EqDecision Byte.byte := Byte.byte_eq_dec.

Record UProperty := {
  MinAlignment : Z;
  ElementSize : Z;
  ArrayDim : Z
}.

Record FHandoverPropertyInfo := {
  Handle : Z;
  Offset : Z;
  ArrayIdx : Z;
  Property : UProperty
}.

(** The engine's [Align(Val, Alignment)] at type [uint32]. *)
Definition Align (Val Alignment : Z) : Z :=
  Z.land (Val + Alignment - 1) (Z.lnot (Alignment - 1)) mod 2^32.

(** [Size] bytes of [Mem] from [Off] on; no result outside the buffer. *)
Definition read_bytes (Mem : list Byte.byte) (Off Size : Z) : option (list Byte.byte) :=
  if (0 <=? Off) && (0 <=? Size) && (Off + Size <=? Z.of_nat (length Mem))
  then Some (take (Z.to_nat Size) (drop (Z.to_nat Off) Mem))
  else None.

(** [Mem] with [Data] stored from [Off] on. *)
Definition write_bytes (Mem : list Byte.byte) (Off : Z) (Data : list Byte.byte)
    : list Byte.byte :=
  take (Z.to_nat Off) Mem ++ Data ++ drop (Z.to_nat Off + length Data) Mem.

(** Modelled from the spec: [UProperty::Identical] of the engine, on a
    handover field, is equality of the packed representation, the
    [ElementSize] bytes of the value. *)
Definition Identical (P : UProperty) (StoredData Data : list Byte.byte) : bool :=
  bool_decide (StoredData = Data).

(** The loop of [GetHandoverChangeList] over [HandoverProperties]. *)
Fixpoint GetHandoverChangeList_loop (bCreatingNewEntity : bool)
    (Object : list Byte.byte) (Props : list FHandoverPropertyInfo)
    (ShadowDataOffset : Z) (ShadowData : list Byte.byte) (HandoverChanged : list Z)
    : option (list Z * list Byte.byte) :=
  match Props with
  | [] => Some (HandoverChanged, ShadowData)
  | PropertyInfo :: Props' =>
      let P := Property PropertyInfo in
      let ShadowDataOffset := Align ShadowDataOffset (MinAlignment P) in
      Data ← read_bytes Object (Offset PropertyInfo) (ElementSize P);
      StoredData ← read_bytes ShadowData ShadowDataOffset (ElementSize P);
      if bCreatingNewEntity || negb (Identical P StoredData Data)
      then GetHandoverChangeList_loop bCreatingNewEntity Object Props'
             ((ShadowDataOffset + ElementSize P) mod 2^32)
             (write_bytes ShadowData ShadowDataOffset Data)
             (HandoverChanged ++ [Handle PropertyInfo])
      else GetHandoverChangeList_loop bCreatingNewEntity Object Props'
             ((ShadowDataOffset + ElementSize P) mod 2^32)
             ShadowData HandoverChanged
  end.

(** [GetHandoverChangeList(ShadowData, Object)]; [ClassInfoProps] is the
    handover property list of the object's class info, [None] when the
    class has no class info. *)
Definition GetHandoverChangeList (bCreatingNewEntity : bool)
    (ClassInfoProps : option (list FHandoverPropertyInfo))
    (ShadowData Object : list Byte.byte) : option (list Z * list Byte.byte) :=
  Props ← ClassInfoProps;
  GetHandoverChangeList_loop bCreatingNewEntity Object Props 0 ShadowData [].

(** [CreateInitialHandoverChangeState(ClassInfo)]. *)
Definition CreateInitialHandoverChangeState (Props : list FHandoverPropertyInfo)
    : list Z :=
  Handle <$> Props.

(** ** The sender ([USpatialSender]) *)

(** Objects, channels, classes and functions are identified by their
    address; a parameter block by the value it holds. *)
Definition ObjectId := nat.
Definition ChannelId := nat.
Definition ClassId := nat.
Definition FunctionId := nat.
Definition ParamBlock := Z.

(** [TPair<TWeakObjectPtr<USpatialActorChannel>, TWeakObjectPtr<UObject>>]. *)
Definition FChannelObjectPair : Type := ChannelId * ObjectId.

(** [FUnresolvedEntry] is a [TSharedPtr] to a set of objects: the model
    keeps the address, the set lives in [UnresolvedSets]. *)
Definition FUnresolvedEntry := nat.

Abbreviation FHandleToUnresolved := (gmap Z FUnresolvedEntry).
Abbreviation FChannelToHandleToUnresolved :=
  (gmap FChannelObjectPair (gmap Z FUnresolvedEntry)).
Abbreviation FOutgoingRepUpdates :=
  (gmap ObjectId (gmap FChannelObjectPair (gmap Z FUnresolvedEntry))).

(** The two maps of one kind (fine-grained or handover) together with the
    shared sets their entries point to.  A set allocated by
    [QueueOutgoingUpdate] for one kind is only ever stored in the two maps
    of that kind, so each kind carries its own part of the heap. *)
Record FUnresolvedContainers := {
  PropertyToUnresolved : FChannelToHandleToUnresolved;
  ObjectToUnresolved : FOutgoingRepUpdates;
  UnresolvedSets : gmap FUnresolvedEntry (gset ObjectId);
  NextUnresolvedEntry : FUnresolvedEntry
}.

Definition FUnresolvedContainers_empty : FUnresolvedContainers :=
  {| PropertyToUnresolved := ∅; ObjectToUnresolved := ∅;
     UnresolvedSets := ∅; NextUnresolvedEntry := O |}.

Record FPendingRPCParams := {
  TargetObject : ObjectId;
  Function : FunctionId;
  Parameters : ParamBlock
}.

Record USpatialSender := {
  RepContainers : FUnresolvedContainers;
  HandoverContainers : FUnresolvedContainers;
  OutgoingRPCs : gmap ObjectId (list FPendingRPCParams);
  PendingActorRequests : gmap Z ChannelId;
  NextRequestId : Z
}.

Definition RepPropertyToUnresolved (Sender : USpatialSender) := PropertyToUnresolved (RepContainers Sender).
Definition RepObjectToUnresolved (Sender : USpatialSender) := ObjectToUnresolved (RepContainers Sender).
Definition HandoverPropertyToUnresolved (Sender : USpatialSender) := PropertyToUnresolved (HandoverContainers Sender).
Definition HandoverObjectToUnresolved (Sender : USpatialSender) := ObjectToUnresolved (HandoverContainers Sender).

Definition USpatialSender_new : USpatialSender :=
  {| RepContainers := FUnresolvedContainers_empty;
     HandoverContainers := FUnresolvedContainers_empty;
     OutgoingRPCs := ∅; PendingActorRequests := ∅; NextRequestId := 1 |}.

(** "Choose the correct container based on whether it's handover or not". *)
Definition containers (bIsHandover : bool) (Sender : USpatialSender) : FUnresolvedContainers :=
  if bIsHandover then HandoverContainers Sender else RepContainers Sender.

Definition set_containers (bIsHandover : bool) (U : FUnresolvedContainers)
    (Sender : USpatialSender) : USpatialSender :=
  if bIsHandover
  then {| RepContainers := RepContainers Sender; HandoverContainers := U;
          OutgoingRPCs := OutgoingRPCs Sender;
          PendingActorRequests := PendingActorRequests Sender;
          NextRequestId := NextRequestId Sender |}
  else {| RepContainers := U; HandoverContainers := HandoverContainers Sender;
          OutgoingRPCs := OutgoingRPCs Sender;
          PendingActorRequests := PendingActorRequests Sender;
          NextRequestId := NextRequestId Sender |}.

(** [Map.Num() == 0] and [Set.Num() == 0]. *)
Definition map_Num_is_zero {K : Type} `{Countable K} {V : Type} (m : gmap K V) : bool :=
  bool_decide (size m = 0%nat).

Definition set_Num_is_zero {K : Type} `{Countable K} (s : gset K) : bool :=
  bool_decide (size s = 0%nat).

(** *** Removing and adding one entry of the two maps *)

(** One round of the loop of [ResetOutgoingUpdate]: drop the handle from
    the reverse index of [UnresolvedObject], and the maps left empty. *)
Definition ResetOutgoingUpdate_step (ChannelObjectPair : FChannelObjectPair)
    (Handle : Z) (ObjectToUnresolved : FOutgoingRepUpdates)
    (UnresolvedObject : ObjectId) : option FOutgoingRepUpdates :=
  ChannelToUnresolved ← ObjectToUnresolved !! UnresolvedObject;
  OtherHandleToUnresolved ← ChannelToUnresolved !! ChannelObjectPair;
  let OtherHandleToUnresolved := delete Handle OtherHandleToUnresolved in
  if map_Num_is_zero OtherHandleToUnresolved then
    let ChannelToUnresolved := delete ChannelObjectPair ChannelToUnresolved in
    if map_Num_is_zero ChannelToUnresolved
    then Some (delete UnresolvedObject ObjectToUnresolved)
    else Some (<[UnresolvedObject := ChannelToUnresolved]> ObjectToUnresolved)
  else Some (<[UnresolvedObject :=
                 <[ChannelObjectPair := OtherHandleToUnresolved]> ChannelToUnresolved]>
               ObjectToUnresolved).

(** A loop over a list whose body may end the call. *)
Fixpoint foldM {A B : Type} (f : B → A → option B) (l : list A) (b : B) : option B :=
  match l with
  | [] => Some b
  | a :: l' => b' ← f b a; foldM f l' b'
  end.

(** [ResetOutgoingUpdate] on the containers of the chosen kind. *)
Definition ResetOutgoingUpdate_on (ChannelObjectPair : FChannelObjectPair)
    (Handle : Z) (U : FUnresolvedContainers) : option FUnresolvedContainers :=
  match PropertyToUnresolved U !! ChannelObjectPair with
  | None => Some U
  | Some HandleToUnresolved =>
      match HandleToUnresolved !! Handle with
      | None => Some U
      | Some UnresolvedPtr =>
          Unresolved ← UnresolvedSets U !! UnresolvedPtr;
          ObjectToUnresolved' ←
            foldM (ResetOutgoingUpdate_step ChannelObjectPair Handle)
                  (elements Unresolved) (ObjectToUnresolved U);
          let HandleToUnresolved := delete Handle HandleToUnresolved in
          Some {| PropertyToUnresolved :=
                    if map_Num_is_zero HandleToUnresolved
                    then delete ChannelObjectPair (PropertyToUnresolved U)
                    else <[ChannelObjectPair := HandleToUnresolved]> (PropertyToUnresolved U);
                  ObjectToUnresolved := ObjectToUnresolved';
                  UnresolvedSets := UnresolvedSets U;
                  NextUnresolvedEntry := NextUnresolvedEntry U |}
      end
  end.

(** One round of the loop of [QueueOutgoingUpdate]: the two [FindOrAdd],
    the [check] and the [Add] on the reverse index of [UnresolvedObject]. *)
Definition QueueOutgoingUpdate_step (ChannelObjectPair : FChannelObjectPair)
    (Handle : Z) (Unresolved : FUnresolvedEntry)
    (ObjectToUnresolved : FOutgoingRepUpdates)
    (UnresolvedObject : ObjectId) : option FOutgoingRepUpdates :=
  let ChannelToUnresolved := default ∅ (ObjectToUnresolved !! UnresolvedObject) in
  let AnotherHandleToUnresolved := default ∅ (ChannelToUnresolved !! ChannelObjectPair) in
  _ ← check (bool_decide (AnotherHandleToUnresolved !! Handle = None));
  Some (<[UnresolvedObject :=
            <[ChannelObjectPair := <[Handle := Unresolved]> AnotherHandleToUnresolved]>
              ChannelToUnresolved]> ObjectToUnresolved).

(** [QueueOutgoingUpdate] on the containers of the chosen kind. *)
Definition QueueOutgoingUpdate_on (ChannelObjectPair : FChannelObjectPair)
    (Handle : Z) (UnresolvedObjects : gset ObjectId) (U : FUnresolvedContainers)
    : option FUnresolvedContainers :=
  let Unresolved := NextUnresolvedEntry U in
  let HandleToUnresolved := default ∅ (PropertyToUnresolved U !! ChannelObjectPair) in
  _ ← check (bool_decide (HandleToUnresolved !! Handle = None));
  ObjectToUnresolved' ←
    foldM (QueueOutgoingUpdate_step ChannelObjectPair Handle Unresolved)
          (elements UnresolvedObjects) (ObjectToUnresolved U);
  Some {| PropertyToUnresolved :=
            <[ChannelObjectPair := <[Handle := Unresolved]> HandleToUnresolved]>
              (PropertyToUnresolved U);
          ObjectToUnresolved := ObjectToUnresolved';
          UnresolvedSets := <[Unresolved := UnresolvedObjects]> (UnresolvedSets U);
          NextUnresolvedEntry := S Unresolved |}.

(** *** Collaborators of the sender *)

Inductive ERPCType :=
  | RPC_Client
  | RPC_Server
  | RPC_CrossServer
  | RPC_NetMulticast
  | RPC_Count.

Record FRPCInfo := {
  RPCType : ERPCType;
  Index : Z
}.

Record FClassInfo := {
  RPCInfoMap : gmap FunctionId FRPCInfo;
  RPCComponents : ERPCType → Z;
  SingleClientComponent : Z;
  MultiClientComponent : Z;
  HandoverComponent : Z;
  HandoverProperties : list FHandoverPropertyInfo;
  SubobjectClasses : list ClassId
}.

Definition WorkerAttributeSet := list string.
Definition WorkerRequirementSet := list WorkerAttributeSet.

(** What [CreateEntity] puts in the component set of a new entity. *)
Inductive Worker_ComponentData :=
  | PositionData (Actor : ObjectId)
  | MetadataData (EntityType : string)
  | EntityAclData (ReadAcl : WorkerRequirementSet)
      (ComponentWriteAcl : gmap Z WorkerRequirementSet)
  | PersistenceData
  | RotationData (Actor : ObjectId)
  | UnrealMetadataData (ClientWorkerId : string) (Actor : ObjectId)
  | WorkingSetData (WorkingSetParentId : Z)
  | EmptyComponentData (ComponentId : Z)
  | FactoryComponentData (Data : Z).

(** A component update: built by the component factory from change
    lists, or the event of a multicast remote procedure call. *)
Inductive Worker_ComponentUpdate :=
  | FactoryComponentUpdate (Update : Z)
  | MulticastUpdate (ComponentId : Z) (EventIndex : Z)
      (Function : FunctionId) (Parameters : ParamBlock).

(** The result of [ComponentFactory::CreateComponentUpdates] and of
    [CreateComponentDatas]: the payloads, and for each handle whose value
    names objects without an entity yet, the set of those objects. *)
Record FComponentFactoryResult (Payload : Type) := {
  Payloads : list Payload;
  UnresolvedObjectsMap : gmap Z (gset ObjectId);
  HandoverUnresolvedObjectsMap : gmap Z (gset ObjectId)
}.
Arguments Payloads {_} _.
Arguments UnresolvedObjectsMap {_} _.
Arguments HandoverUnresolvedObjectsMap {_} _.

Inductive ELogVerbosity := Log_Error | Log_Warning | Log_Log | Log_Verbose.

(** What a call does to its collaborators, in order. *)
Inductive Event :=
  (* [SendComponentUpdates] entered for (channel, object) with these change lists *)
  | EvSendComponentUpdates (Channel : ChannelId) (Object : ObjectId)
      (RepChanges HandoverChanges : option (list Z))
  (* the worker connection *)
  | EvConnection_SendComponentUpdate (EntityId : Z) (Update : Worker_ComponentUpdate)
  | EvConnection_SendCommandRequest (EntityId : Z) (ComponentId : Z)
      (Function : FunctionId) (Parameters : ParamBlock) (CommandId : Z)
  | EvConnection_SendCreateEntityRequest (RequestId : Z)
      (ComponentDatas : list Worker_ComponentData) (EntityId : Z)
  | EvConnection_SendReserveEntityIdRequest (RequestId : Z)
  (* the receiver *)
  | EvReceiver_AddPendingActorRequest (RequestId : Z) (Channel : ChannelId)
  (* parameter blocks of remote procedure calls *)
  | EvCopyParameters (Parameters : ParamBlock)
  | EvDestroyParameters (Parameters : ParamBlock)
  (* the working set manager, the registry, the driver, the package map *)
  | EvWorkingSetManager_EnqueueForWorkingSet (Channel : ChannelId)
      (PlayerWorkerId : string) (WorkingSetId : Z)
  | EvWorkingSetManager_CreateWorkingSet (WorkingSetId : Z)
  | EvEntityRegistry_AddToRegistry (EntityId : Z) (Actor : ObjectId)
  | EvNetDriver_AddActorChannel (EntityId : Z) (Channel : ChannelId)
  | EvGlobalStateManager_UpdateSingletonEntityId (Class : ClassId) (EntityId : Z)
  | EvPackageMap_ResolveEntityActor (Actor : ObjectId) (EntityId : Z)
  | EvLog (Verbosity : ELogVerbosity).

(** The constants of [SpatialConstants] that [CreateEntity] names. *)
Record FSpatialConstants := {
  ServerWorkerType : string;
  ClientWorkerType : string;
  POSITION_COMPONENT_ID : Z;
  ROTATION_COMPONENT_ID : Z;
  WORKING_SET_COMPONENT_ID : Z
}.

(** The part of the world the sender reads. *)
Record FSenderEnv := {
  SpatialConstants : FSpatialConstants;
  (* [TWeakObjectPtr::IsValid] on the two halves of a pair *)
  ChannelValid : ChannelId → bool;
  ObjectValid : ObjectId → bool;
  (* the channel: its entity, its actor, the layout of an object's replicator *)
  GetEntityId : ChannelId → Z;
  ChannelActor : ChannelId → ObjectId;
  Replicator : ChannelId → ObjectId → option FRepLayout;
  FindOrCreateReplicator : ChannelId → ObjectId → FRepLayout;
  (* classes *)
  GetClass : ObjectId → ClassId;
  ClassPath : ClassId → string;
  IsServerOnlyClass : ClassId → bool;
  IsPlayerController : ObjectId → bool;
  GetDefaultSubobjects : ObjectId → list ObjectId;
  FindClassInfoByClass : ClassId → option FClassInfo;
  (* the component factory *)
  CreateComponentUpdates :
    ObjectId → option FRepChangeState → option (list Z) →
    FComponentFactoryResult Worker_ComponentUpdate;
  CreateComponentDatas :
    ObjectId → FRepChangeState → list Z → FComponentFactoryResult Z;
  (* the package map: the entity of an object's reference, [None] for
     [UNRESOLVED_OBJECT_REF]; the objects without entity in a payload *)
  GetUnrealObjectRef : ObjectId → option Z;
  PayloadUnresolvedObjects : FunctionId → ParamBlock → list ObjectId
}.

(** *** Calls on the sender: state, failure and the events emitted *)

Definition M (A : Type) : Type :=
  USpatialSender → option (A * USpatialSender * list Event).

Definition M_ret {A : Type} (a : A) : M A := λ Sender, Some (a, Sender, []).

Definition M_bind {A B : Type} (m : M A) (k : A → M B) : M B := λ Sender,
  match m Sender with
  | None => None
  | Some (a, Sender1, e1) =>
      match k a Sender1 with
      | None => None
      | Some (b, Sender2, e2) => Some (b, Sender2, e1 ++ e2)
      end
  end.

Notation "'let*' x ':=' m 'in' k" := (M_bind m (λ x, k))
  (at level 10, x name, m at level 100, k at level 200, only parsing).
Notation "m1 '>>' m2" := (M_bind m1 (λ _, m2))
  (at level 100, m2 at level 200, right associativity, only parsing).

Definition M_emit (e : Event) : M unit := λ Sender, Some ((), Sender, [e]).

(** A failed [check]: no result. *)
Definition M_check (b : bool) : M unit := λ Sender, if b then Some ((), Sender, []) else None.

Definition M_lift {A : Type} (o : option A) : M A := λ Sender,
  match o with Some a => Some (a, Sender, []) | None => None end.

Definition M_get : M USpatialSender := λ Sender, Some (Sender, Sender, []).

Definition M_modify (f : USpatialSender → USpatialSender) : M unit :=
  λ Sender, Some ((), f Sender, []).

Fixpoint M_for {A : Type} (l : list A) (body : A → M unit) : M unit :=
  match l with
  | [] => M_ret ()
  | a :: l' => body a >> M_for l' body
  end.

(** An operation on the containers of the chosen kind. *)
Definition M_on_containers (bIsHandover : bool)
    (f : FUnresolvedContainers → option FUnresolvedContainers) : M unit := λ Sender,
  match f (containers bIsHandover Sender) with
  | None => None
  | Some U => Some ((), set_containers bIsHandover U Sender, [])
  end.

(** [ResetOutgoingUpdate(DependentChannel, ReplicatedObject, Handle, bIsHandover)]. *)
Definition ResetOutgoingUpdate (DependentChannel : ChannelId)
    (ReplicatedObject : ObjectId) (Handle : Z) (bIsHandover : bool) : M unit :=
  M_on_containers bIsHandover
    (ResetOutgoingUpdate_on (DependentChannel, ReplicatedObject) Handle).

(** [QueueOutgoingUpdate(DependentChannel, ReplicatedObject, Handle,
    UnresolvedObjects, bIsHandover)]. *)
Definition QueueOutgoingUpdate (DependentChannel : ChannelId)
    (ReplicatedObject : ObjectId) (Handle : Z) (UnresolvedObjects : gset ObjectId)
    (bIsHandover : bool) : M unit :=
  M_on_containers bIsHandover
    (QueueOutgoingUpdate_on (DependentChannel, ReplicatedObject) Handle UnresolvedObjects).

(** The two loops of [SendComponentUpdates] over a change list: the
    pending entry of each handle is dropped, and queued again when the
    factory found objects without entity in the new value. *)
Definition SendComponentUpdates_requeue (Channel : ChannelId) (Object : ObjectId)
    (Unresolved : gmap Z (gset ObjectId)) (bIsHandover : bool) (Handle : Z) : M unit :=
  ResetOutgoingUpdate Channel Object Handle bIsHandover >>
  match Unresolved !! Handle with
  | Some UnresolvedObjects =>
      QueueOutgoingUpdate Channel Object Handle UnresolvedObjects bIsHandover
  | None => M_ret ()
  end.

(** [SendComponentUpdates(Object, Channel, RepChanges, HandoverChanges)]. *)
Definition SendComponentUpdates (Env : FSenderEnv) (Object : ObjectId)
    (Channel : ChannelId) (RepChanges : option FRepChangeState)
    (HandoverChanges : option (list Z)) : M unit :=
  let EntityId := GetEntityId Env Channel in
  let Factory := CreateComponentUpdates Env Object RepChanges HandoverChanges in
  M_emit (EvSendComponentUpdates Channel Object (RepChanged <$> RepChanges) HandoverChanges) >>
  match RepChanges with
  | Some Changes =>
      M_for (RepChanged Changes) (λ Handle,
        if 0 <? Handle
        then SendComponentUpdates_requeue Channel Object
               (UnresolvedObjectsMap Factory) false Handle
        else M_ret ())
  | None => M_ret ()
  end >>
  match HandoverChanges with
  | Some Changes =>
      M_for Changes (λ Handle,
        SendComponentUpdates_requeue Channel Object
          (HandoverUnresolvedObjectsMap Factory) true Handle)
  | None => M_ret ()
  end >>
  M_for (Payloads Factory) (λ Update,
    M_emit (EvConnection_SendComponentUpdate EntityId Update)).

(** One round of the inner loop of [ResolveOutgoingOperations]: [Object]
    leaves the shared set of the entry; an entry left with an empty set
    gives its handle, with the two array markers when the handle is a
    dynamic array of a fine-grained layout, and leaves the forward index. *)
Definition ResolveOutgoingOperations_handle (Env : FSenderEnv) (bIsHandover : bool)
    (Object : ObjectId) (ChannelObjectPair : FChannelObjectPair)
    (Acc : FUnresolvedContainers * list Z)
    (HandleUnresolvedPair : Z * FUnresolvedEntry)
    : option (FUnresolvedContainers * list Z) :=
  let U := Acc.1 in
  let PropertyHandles := Acc.2 in
  let Handle := HandleUnresolvedPair.1 in
  let UnresolvedPtr := HandleUnresolvedPair.2 in
  Unresolved ← UnresolvedSets U !! UnresolvedPtr;
  let Unresolved := Unresolved ∖ {[Object]} in
  let Sets := <[UnresolvedPtr := Unresolved]> (UnresolvedSets U) in
  if set_Num_is_zero Unresolved then
    bIsArray ←
      (if bIsHandover then Some false
       else IsDynamicArrayHandle
              (Replicator Env ChannelObjectPair.1 ChannelObjectPair.2) Handle);
    let PropertyHandles :=
      PropertyHandles ++ [Handle] ++ (if bIsArray : bool then [0; 0] else []) in
    AnotherHandleToUnresolved ← PropertyToUnresolved U !! ChannelObjectPair;
    let AnotherHandleToUnresolved := delete Handle AnotherHandleToUnresolved in
    Some ({| PropertyToUnresolved :=
               if map_Num_is_zero AnotherHandleToUnresolved
               then delete ChannelObjectPair (PropertyToUnresolved U)
               else <[ChannelObjectPair := AnotherHandleToUnresolved]>
                      (PropertyToUnresolved U);
             ObjectToUnresolved := ObjectToUnresolved U;
             UnresolvedSets := Sets;
             NextUnresolvedEntry := NextUnresolvedEntry U |},
          PropertyHandles)
  else
    Some ({| PropertyToUnresolved := PropertyToUnresolved U;
             ObjectToUnresolved := ObjectToUnresolved U;
             UnresolvedSets := Sets;
             NextUnresolvedEntry := NextUnresolvedEntry U |},
          PropertyHandles).

(** The inner loop, on the sender: the handles of the entries of one
    (channel, object) pair that [Object] was the last to block. *)
Definition ResolveOutgoingOperations_handles (Env : FSenderEnv) (bIsHandover : bool)
    (Object : ObjectId) (ChannelObjectPair : FChannelObjectPair)
    (HandleToUnresolved : list (Z * FUnresolvedEntry)) : M (list Z) := λ Sender,
  match foldM (ResolveOutgoingOperations_handle Env bIsHandover Object ChannelObjectPair)
              HandleToUnresolved (containers bIsHandover Sender, []) with
  | None => None
  | Some (U, PropertyHandles) =>
      Some (PropertyHandles, set_containers bIsHandover U Sender, [])
  end.

(** One round of the outer loop of [ResolveOutgoingOperations]. *)
Definition ResolveOutgoingOperations_channel (Env : FSenderEnv) (bIsHandover : bool)
    (Object : ObjectId)
    (ChannelProperties : FChannelObjectPair * list (Z * FUnresolvedEntry)) : M unit :=
  let ChannelObjectPair := ChannelProperties.1 in
  if negb (ChannelValid Env ChannelObjectPair.1) || negb (ObjectValid Env ChannelObjectPair.2)
  then M_ret ()
  else
    let DependentChannel := ChannelObjectPair.1 in
    let ReplicatingObject := ChannelObjectPair.2 in
    let* PropertyHandles :=
      ResolveOutgoingOperations_handles Env bIsHandover Object ChannelObjectPair
        ChannelProperties.2 in
    if 0 <? Z.of_nat (length PropertyHandles) then
      if bIsHandover then
        SendComponentUpdates Env ReplicatingObject DependentChannel None
          (Some PropertyHandles)
      else
        let PropertyHandles := PropertyHandles ++ [0] in
        let* Layout := M_lift (Replicator Env DependentChannel ReplicatingObject) in
        SendComponentUpdates Env ReplicatingObject DependentChannel
          (Some {| RepChanged := PropertyHandles; RepLayout := Layout |}) None
    else M_ret ().

(** [ObjectToUnresolved.Remove(Object)] on the containers of one kind. *)
Definition ObjectToUnresolved_Remove (Object : ObjectId) (U : FUnresolvedContainers)
    : FUnresolvedContainers :=
  {| PropertyToUnresolved := PropertyToUnresolved U;
     ObjectToUnresolved := delete Object (ObjectToUnresolved U);
     UnresolvedSets := UnresolvedSets U;
     NextUnresolvedEntry := NextUnresolvedEntry U |}.

(** [ResolveOutgoingOperations(Object, bIsHandover)].  The loops run over
    the entries the reverse index holds for [Object] when the call starts,
    in the order of the map. *)
Definition ResolveOutgoingOperations (Env : FSenderEnv) (Object : ObjectId)
    (bIsHandover : bool) : M unit :=
  let* Sender := M_get in
  match ObjectToUnresolved (containers bIsHandover Sender) !! Object with
  | None => M_ret ()
  | Some ChannelToUnresolved =>
      M_for (prod_map id map_to_list <$> map_to_list ChannelToUnresolved)
        (ResolveOutgoingOperations_channel Env bIsHandover Object) >>
      M_on_containers bIsHandover (λ U, Some (ObjectToUnresolved_Remove Object U))
  end.

(** *** Remote procedure calls *)

(** [QueueOutgoingRPC(UnresolvedObject, TargetObject, Function, Parameters)]. *)
Definition QueueOutgoingRPC (UnresolvedObject TargetObject : ObjectId)
    (Function : FunctionId) (Parameters : ParamBlock) : M unit :=
  M_modify (λ Sender,
    {| RepContainers := RepContainers Sender;
       HandoverContainers := HandoverContainers Sender;
       OutgoingRPCs :=
         <[UnresolvedObject :=
             default [] (OutgoingRPCs Sender !! UnresolvedObject)
             ++ [ {| TargetObject := TargetObject; Function := Function;
                     Parameters := Parameters |} ]]> (OutgoingRPCs Sender);
       PendingActorRequests := PendingActorRequests Sender;
       NextRequestId := NextRequestId Sender |}).

(** The two outputs of [CreateRPCCommandRequest], [OutEntityId] (left at
    the caller's 0 when the target has no entity) and
    [OutUnresolvedObject]: the target itself, or else the first object of
    the payload without entity. *)
Definition CreateRPCCommandRequest (Env : FSenderEnv) (TargetObject : ObjectId)
    (Function : FunctionId) (Parameters : ParamBlock) : Z * option ObjectId :=
  match GetUnrealObjectRef Env TargetObject with
  | None => (0, Some TargetObject)
  | Some Entity => (Entity, head (PayloadUnresolvedObjects Env Function Parameters))
  end.

(** [CreateMulticastUpdate] has the same two outputs. *)
Definition CreateMulticastUpdate (Env : FSenderEnv) (TargetObject : ObjectId)
    (Function : FunctionId) (Parameters : ParamBlock) : Z * option ObjectId :=
  match GetUnrealObjectRef Env TargetObject with
  | None => (0, Some TargetObject)
  | Some Entity => (Entity, head (PayloadUnresolvedObjects Env Function Parameters))
  end.

(** [SendRPC(TargetObject, Function, Parameters, bOwnParameters)]. *)
Definition SendRPC (Env : FSenderEnv) (TargetObject : ObjectId)
    (Function : FunctionId) (Parameters : ParamBlock) (bOwnParameters : bool) : M unit :=
  match FindClassInfoByClass Env (GetClass Env TargetObject) with
  | None => M_ret ()
  | Some Info =>
      let* RPCInfo := M_lift (RPCInfoMap Info !! Function) in
      let* UnresolvedObject :=
        match RPCType RPCInfo with
        | RPC_Client | RPC_Server | RPC_CrossServer =>
            let Request := CreateRPCCommandRequest Env TargetObject Function Parameters in
            match Request.2 with
            | None =>
                M_check (0 <? Request.1) >>
                M_emit (EvConnection_SendCommandRequest Request.1
                          (RPCComponents Info (RPCType RPCInfo)) Function Parameters
                          (Index RPCInfo + 1)) >>
                M_ret None
            | Some Unresolved => M_ret (Some Unresolved)
            end
        | RPC_NetMulticast =>
            let Update := CreateMulticastUpdate Env TargetObject Function Parameters in
            match Update.2 with
            | None =>
                M_check (0 <? Update.1) >>
                M_emit (EvConnection_SendComponentUpdate Update.1
                          (MulticastUpdate (RPCComponents Info (RPCType RPCInfo))
                             (Index RPCInfo + 1) Function Parameters)) >>
                M_ret None
            | Some Unresolved => M_ret (Some Unresolved)
            end
        | RPC_Count => M_check false >> M_ret None
        end in
      match UnresolvedObject with
      | Some Unresolved =>
          (if bOwnParameters then M_ret () else M_emit (EvCopyParameters Parameters)) >>
          QueueOutgoingRPC Unresolved TargetObject Function Parameters
      | None =>
          if bOwnParameters then M_emit (EvDestroyParameters Parameters) else M_ret ()
      end
  end.

(** [ResolveOutgoingRPCs(Object)]. *)
Definition ResolveOutgoingRPCs (Env : FSenderEnv) (Object : ObjectId) : M unit :=
  let* Sender := M_get in
  match OutgoingRPCs Sender !! Object with
  | None => M_ret ()
  | Some RPCList =>
      M_for RPCList (λ RPCParams,
        M_emit (EvLog Log_Log) >>
        SendRPC Env (TargetObject RPCParams) (Function RPCParams)
          (Parameters RPCParams) true) >>
      M_modify (λ Sender,
        {| RepContainers := RepContainers Sender;
           HandoverContainers := HandoverContainers Sender;
           OutgoingRPCs := delete Object (OutgoingRPCs Sender);
           PendingActorRequests := PendingActorRequests Sender;
           NextRequestId := NextRequestId Sender |})
  end.

(** *** Entity creation *)

(** The worker connection hands out request identifiers. *)
Definition Connection_NewRequestId : M Z := λ Sender,
  Some (NextRequestId Sender,
        {| RepContainers := RepContainers Sender;
           HandoverContainers := HandoverContainers Sender;
           OutgoingRPCs := OutgoingRPCs Sender;
           PendingActorRequests := PendingActorRequests Sender;
           NextRequestId := NextRequestId Sender + 1 |},
        []).

(** The write access of the components of one class, as [CreateEntity]
    adds it for the actor's class and for each subobject class. *)
Definition AddClassWriteAcl (Info : FClassInfo)
    (ServersOnly OwningClientOnly : WorkerRequirementSet)
    (ComponentWriteAcl : gmap Z WorkerRequirementSet) : gmap Z WorkerRequirementSet :=
  <[RPCComponents Info RPC_NetMulticast := ServersOnly]>
  (<[RPCComponents Info RPC_CrossServer := ServersOnly]>
  (<[RPCComponents Info RPC_Server := ServersOnly]>
  (<[RPCComponents Info RPC_Client := OwningClientOnly]>
  (<[HandoverComponent Info := ServersOnly]>
  (<[MultiClientComponent Info := ServersOnly]>
  (<[SingleClientComponent Info := ServersOnly]> ComponentWriteAcl)))))).

(** The empty data of the four remote-procedure components of a class. *)
Definition EmptyRPCComponentDatas (Info : FClassInfo) : list Worker_ComponentData :=
  [ EmptyComponentData (RPCComponents Info RPC_Client);
    EmptyComponentData (RPCComponents Info RPC_Server);
    EmptyComponentData (RPCComponents Info RPC_CrossServer);
    EmptyComponentData (RPCComponents Info RPC_NetMulticast) ].

(** The initial data of one object: the factory's component data for the
    full change lists, and one [QueueOutgoingUpdate] for each handle the
    factory found unresolved, fine-grained first, then handover. *)
Definition CreateEntity_object (Env : FSenderEnv) (Channel : ChannelId)
    (Object : ObjectId) (Info : FClassInfo) : M (list Worker_ComponentData) :=
  let* InitialRepChanges :=
    M_lift (CreateInitialRepChangeState (FindOrCreateReplicator Env Channel Object)) in
  let InitialHandoverChanges := CreateInitialHandoverChangeState (HandoverProperties Info) in
  let Factory := CreateComponentDatas Env Object InitialRepChanges InitialHandoverChanges in
  M_for (map_to_list (UnresolvedObjectsMap Factory)) (λ HandleUnresolvedObjectsPair,
    QueueOutgoingUpdate Channel Object HandleUnresolvedObjectsPair.1
      HandleUnresolvedObjectsPair.2 false) >>
  M_for (map_to_list (HandoverUnresolvedObjectsMap Factory)) (λ HandleUnresolvedObjectsPair,
    QueueOutgoingUpdate Channel Object HandleUnresolvedObjectsPair.1
      HandleUnresolvedObjectsPair.2 true) >>
  M_ret (FactoryComponentData <$> Payloads Factory).

(** The loop of [CreateEntity] over the subobject classes, for the write
    access. *)
Fixpoint CreateEntity_subobject_acls (Env : FSenderEnv)
    (ServersOnly OwningClientOnly : WorkerRequirementSet)
    (Classes : list ClassId) (ComponentWriteAcl : gmap Z WorkerRequirementSet)
    : option (gmap Z WorkerRequirementSet) :=
  match Classes with
  | [] => Some ComponentWriteAcl
  | SubobjectClass :: Classes' =>
      ClassInfo ← FindClassInfoByClass Env SubobjectClass;
      CreateEntity_subobject_acls Env ServersOnly OwningClientOnly Classes'
        (AddClassWriteAcl ClassInfo ServersOnly OwningClientOnly ComponentWriteAcl)
  end.

(** The loop of [CreateEntity] over the subobject classes, for the data. *)
Fixpoint CreateEntity_subobjects (Env : FSenderEnv) (Channel : ChannelId)
    (DefaultSubobjects : list ObjectId) (Classes : list ClassId)
    : M (list Worker_ComponentData) :=
  match Classes with
  | [] => M_ret []
  | SubobjectClass :: Classes' =>
      let* SubobjectInfo := M_lift (FindClassInfoByClass Env SubobjectClass) in
      let* Subobject :=
        M_lift (list_find (λ Obj, GetClass Env Obj = SubobjectClass) DefaultSubobjects) in
      let* ActorSubobjectDatas :=
        CreateEntity_object Env Channel Subobject.2 SubobjectInfo in
      let* Rest := CreateEntity_subobjects Env Channel DefaultSubobjects Classes' in
      M_ret (ActorSubobjectDatas ++ EmptyRPCComponentDatas SubobjectInfo ++ Rest)
  end.

(** [CreateEntity(ClientWorkerId, EntityType, Channel, WorkingSetParentId)]. *)
Definition CreateEntity (Env : FSenderEnv) (ClientWorkerId EntityType : string)
    (Channel : ChannelId) (WorkingSetParentId : option Z) : M Z :=
  let Actor := ChannelActor Env Channel in
  let ServerAttribute := [ServerWorkerType (SpatialConstants Env)] in
  let ClientAttribute := [ClientWorkerType (SpatialConstants Env)] in
  let OwningClientAttribute := [String.append "workerId:" ClientWorkerId] in
  let ServersOnly := [ServerAttribute] in
  let OwningClientOnly := [OwningClientAttribute] in
  let AnyUnrealServerOrClient := [ServerAttribute; ClientAttribute] in
  let AnyUnrealServerOrOwningClient := [ServerAttribute; OwningClientAttribute] in
  let ReadAcl :=
    if IsServerOnlyClass Env (GetClass Env Actor) then ServersOnly
    else if IsPlayerController Env Actor then AnyUnrealServerOrOwningClient
    else AnyUnrealServerOrClient in
  let* Info := M_lift (FindClassInfoByClass Env (GetClass Env Actor)) in
  let ComponentWriteAcl :=
    AddClassWriteAcl Info ServersOnly OwningClientOnly
      (<[ROTATION_COMPONENT_ID (SpatialConstants Env) := ServersOnly]>
       (<[POSITION_COMPONENT_ID (SpatialConstants Env) := ServersOnly]> ∅)) in
  let* ComponentWriteAcl :=
    M_lift (CreateEntity_subobject_acls Env ServersOnly OwningClientOnly
              (SubobjectClasses Info) ComponentWriteAcl) in
  let ComponentDatas :=
    [ PositionData Actor; MetadataData EntityType;
      EntityAclData ReadAcl ComponentWriteAcl; PersistenceData;
      RotationData Actor; UnrealMetadataData ClientWorkerId Actor ] in
  let* DynamicComponentDatas := CreateEntity_object Env Channel Actor Info in
  let ComponentDatas := ComponentDatas ++ DynamicComponentDatas in
  let ComponentWriteAcl :=
    match WorkingSetParentId with
    | Some _ => <[WORKING_SET_COMPONENT_ID (SpatialConstants Env) := ServersOnly]>
                  ComponentWriteAcl
    | None => ComponentWriteAcl
    end in
  let ComponentDatas :=
    match WorkingSetParentId with
    | Some Parent => ComponentDatas ++ [WorkingSetData Parent]
    | None => ComponentDatas
    end in
  let ComponentDatas :=
    ComponentDatas ++ [EntityAclData ReadAcl ComponentWriteAcl]
    ++ EmptyRPCComponentDatas Info in
  let* SubobjectDatas :=
    CreateEntity_subobjects Env Channel (GetDefaultSubobjects Env Actor)
      (SubobjectClasses Info) in
  let ComponentDatas := ComponentDatas ++ SubobjectDatas in
  let EntityId := GetEntityId Env Channel in
  let* CreateEntityRequestId := Connection_NewRequestId in
  M_emit (EvConnection_SendCreateEntityRequest CreateEntityRequestId
            ComponentDatas EntityId) >>
  M_modify (λ Sender,
    {| RepContainers := RepContainers Sender;
       HandoverContainers := HandoverContainers Sender;
       OutgoingRPCs := OutgoingRPCs Sender;
       PendingActorRequests :=
         <[CreateEntityRequestId := Channel]> (PendingActorRequests Sender);
       NextRequestId := NextRequestId Sender |}) >>
  M_ret CreateEntityRequestId.

(** [SendReserveEntityIdRequest(Channel)]. *)
Definition SendReserveEntityIdRequest (Channel : ChannelId) : M unit :=
  M_emit (EvLog Log_Log) >>
  let* RequestId := Connection_NewRequestId in
  M_emit (EvConnection_SendReserveEntityIdRequest RequestId) >>
  M_emit (EvReceiver_AddPendingActorRequest RequestId Channel).

(** [SendCreateEntityRequest(Channel, PlayerWorkerId, WorkingSetParentId)]. *)
Definition SendCreateEntityRequest (Env : FSenderEnv) (Channel : ChannelId)
    (PlayerWorkerId : string) (WorkingSetParentId : option Z) : M unit :=
  M_emit (EvLog Log_Log) >>
  let ActorClassPath := ClassPath Env (GetClass Env (ChannelActor Env Channel)) in
  let* RequestId :=
    CreateEntity Env PlayerWorkerId ActorClassPath Channel WorkingSetParentId in
  M_emit (EvReceiver_AddPendingActorRequest RequestId Channel).

(** ** The actor channel ([USpatialActorChannel]) *)

Record USpatialActorChannel := {
  EntityId : Z;
  bFirstTick : bool;
  bCreatingNewEntity : bool;
  WorkingSetId : Z;
  Actor : ObjectId;
  (* [ActorReplicator->RepState] *)
  ActorRepState : FRepState.t;
  HandoverShadowDataMap : gmap ObjectId (list Byte.byte)
}.

(** The part of the world a channel reads besides the sender's. *)
Record FChannelEnv := {
  SenderEnv : FSenderEnv;
  (* [FRepState::MAX_CHANGE_HISTORY], [FRepChangelistState::MAX_CHANGE_HISTORY] *)
  MAX_CHANGE_HISTORY : Z;
  CL_MAX_CHANGE_HISTORY : Z;
  (* [FRepLayout::MergeChangeList] on the actor *)
  MergeChangeList : list Z → list Z → list Z;
  IsReadyForReplication : bool;
  BunchIsError : bool;
  (* [Class->GetName().Contains(Text)] *)
  ClassNameContains : ClassId → string → bool;
  (* the unique id of the player state behind [Actor->GetNetConnection()] *)
  ActorOwningConnection : option string;
  (* the bytes of an object *)
  ObjectMemory : ObjectId → list Byte.byte;
  (* what the working set manager answers *)
  RegisterNewWorkingSet : Z;
  GetWorkingSetSize : Z → Z;
  (* the entity registry, validity and naming of the actor, the net mode *)
  GetEntityIdFromActor : ObjectId → Z;
  ActorIsValid : bool;
  IsSingletonClass : ClassId → bool;
  IsFullNameStableForNetworking : ObjectId → bool;
  NetModeIsServer : bool;
  GetHandoverSubobjects : ObjectId → list ObjectId
}.

(** The sender's view of the world while channel [Self] is in state [Ch]. *)
Definition Channel_SenderEnv (Env : FChannelEnv) (Self : ChannelId)
    (Ch : USpatialActorChannel) : FSenderEnv :=
  let E := SenderEnv Env in
  {| SpatialConstants := SpatialConstants E;
     ChannelValid := ChannelValid E;
     ObjectValid := ObjectValid E;
     GetEntityId := λ C, if decide (C = Self) then EntityId Ch else GetEntityId E C;
     ChannelActor := λ C, if decide (C = Self) then Actor Ch else ChannelActor E C;
     Replicator := Replicator E;
     FindOrCreateReplicator := FindOrCreateReplicator E;
     GetClass := GetClass E;
     ClassPath := ClassPath E;
     IsServerOnlyClass := IsServerOnlyClass E;
     IsPlayerController := IsPlayerController E;
     GetDefaultSubobjects := GetDefaultSubobjects E;
     FindClassInfoByClass := FindClassInfoByClass E;
     CreateComponentUpdates := CreateComponentUpdates E;
     CreateComponentDatas := CreateComponentDatas E;
     GetUnrealObjectRef := GetUnrealObjectRef E;
     PayloadUnresolvedObjects := PayloadUnresolvedObjects E |}.

(** [IsAValidWorkingSet(Class)]. *)
Definition IsAValidWorkingSet (Env : FChannelEnv) (Class : ClassId) : bool :=
  ClassNameContains Env Class "ProjectCharacter"
  || ClassNameContains Env Class "Controller"
  || ClassNameContains Env Class "PlayerState".

(** [GetPlayerWorkerId()]: the worker id and the events of the call. *)
Definition GetPlayerWorkerId (Env : FChannelEnv) : string * list Event :=
  match ActorOwningConnection Env with
  | Some UniqueId => (UniqueId, [])
  | None => (EmptyString, [EvLog Log_Log])
  end.

(** The size pass of [InitializeHandoverShadowData]. *)
Fixpoint InitializeHandoverShadowData_size (Props : list FHandoverPropertyInfo)
    (Size : Z) : Z :=
  match Props with
  | [] => Size
  | PropertyInfo :: Props' =>
      InitializeHandoverShadowData_size Props'
        (if ArrayIdx PropertyInfo =? 0
         then (Align Size (MinAlignment (Property PropertyInfo))
               + ElementSize (Property PropertyInfo) * ArrayDim (Property PropertyInfo))
              mod 2^32
         else Size)
  end.

(** [InitializeHandoverShadowData(ShadowData, Object)] on an empty array:
    [AddZeroed(Size)]; the engine's [InitializeValue] then initialises each
    value in place and leaves the size as it is. *)
Definition InitializeHandoverShadowData (Props : list FHandoverPropertyInfo)
    : list Byte.byte :=
  replicate (Z.to_nat (InitializeHandoverShadowData_size Props 0)) Byte.x00.

Definition set_ActorRepState (RepState : FRepState.t) (Ch : USpatialActorChannel)
    : USpatialActorChannel :=
  {| EntityId := EntityId Ch; bFirstTick := bFirstTick Ch;
     bCreatingNewEntity := bCreatingNewEntity Ch; WorkingSetId := WorkingSetId Ch;
     Actor := Actor Ch; ActorRepState := RepState;
     HandoverShadowDataMap := HandoverShadowDataMap Ch |}.

(** The change lists of one pass of [ReplicateActor]: the merged
    fine-grained list, written into the ring slot at [HistoryEnd], and the
    handover list, with the shadow data brought up to date. *)
Definition ReplicateActor_changes (Env : FChannelEnv)
    (ChangelistState : FRepChangelistState.t) (Ch : USpatialActorChannel)
    : option (USpatialActorChannel * list Z * list Z) :=
  Gathered ← GatherChangelists (MAX_CHANGE_HISTORY Env) (CL_MAX_CHANGE_HISTORY Env)
                (MergeChangeList Env) ChangelistState (ActorRepState Ch);
  ActorHandoverShadowData ← HandoverShadowDataMap Ch !! Actor Ch;
  Handover ← GetHandoverChangeList (bCreatingNewEntity Ch)
               (HandoverProperties <$>
                  FindClassInfoByClass (SenderEnv Env) (GetClass (SenderEnv Env) (Actor Ch)))
               ActorHandoverShadowData (ObjectMemory Env (Actor Ch));
  Some ({| EntityId := EntityId Ch; bFirstTick := bFirstTick Ch;
           bCreatingNewEntity := bCreatingNewEntity Ch;
           WorkingSetId := WorkingSetId Ch; Actor := Actor Ch;
           ActorRepState := Gathered.1;
           HandoverShadowDataMap :=
             <[Actor Ch := Handover.2]> (HandoverShadowDataMap Ch) |},
        Gathered.2, Handover.1).

(** The branch of [ReplicateActor] taken for a new entity: the actor joins
    a working set, created once it has three members, or the create-entity
    request is sent. *)
Definition ReplicateActor_create (Env : FChannelEnv) (Self : ChannelId)
    (Ch : USpatialActorChannel) (Sender : USpatialSender)
    : option (USpatialActorChannel * USpatialSender * list Event) :=
  if IsAValidWorkingSet Env (GetClass (SenderEnv Env) (Actor Ch)) then
    let WorkingSetId' :=
      if WorkingSetId Ch <? 0 then RegisterNewWorkingSet Env else WorkingSetId Ch in
    let Worker := GetPlayerWorkerId Env in
    Some ({| EntityId := EntityId Ch; bFirstTick := bFirstTick Ch;
             bCreatingNewEntity := bCreatingNewEntity Ch;
             WorkingSetId := WorkingSetId'; Actor := Actor Ch;
             ActorRepState := ActorRepState Ch;
             HandoverShadowDataMap := HandoverShadowDataMap Ch |},
          Sender,
          Worker.2
          ++ [EvWorkingSetManager_EnqueueForWorkingSet Self Worker.1 WorkingSetId']
          ++ (if GetWorkingSetSize Env WorkingSetId' =? 3
              then [EvWorkingSetManager_CreateWorkingSet WorkingSetId'] else []))
  else
    let Worker := GetPlayerWorkerId Env in
    match SendCreateEntityRequest (Channel_SenderEnv Env Self Ch) Self Worker.1 None Sender with
    | None => None
    | Some (_, Sender', Events) => Some (Ch, Sender', Worker.2 ++ Events)
    end.

(** [ReplicateActor()], the actor's own pass: the exits before the pass,
    the change lists, the decision, the retirement of the ring and the
    cursor.  The position and rotation updates sent before the change lists
    are computed, and the passes over subobjects that follow when the
    entity is not new, are not part of this function. *)
Definition ReplicateActor (Env : FChannelEnv) (Self : ChannelId)
    (ChangelistState : FRepChangelistState.t)
    (Ch : USpatialActorChannel) (Sender : USpatialSender)
    : option (bool * USpatialActorChannel * USpatialSender * list Event) :=
  if negb (IsReadyForReplication Env) then Some (false, Ch, Sender, [])
  else if BunchIsError Env then Some (false, Ch, Sender, [])
  else
    Changes ← ReplicateActor_changes Env ChangelistState Ch;
    let Ch := Changes.1.1 in
    let RepChanged := Changes.1.2 in
    let HandoverChangeState := Changes.2 in
    Sent ←
      (if bCreatingNewEntity Ch
          || (0 <? Z.of_nat (length RepChanged))
          || (0 <? Z.of_nat (length HandoverChangeState))
       then
         Sent ←
           (if bCreatingNewEntity Ch then ReplicateActor_create Env Self Ch Sender
            else
              match SendComponentUpdates (Channel_SenderEnv Env Self Ch) (Actor Ch) Self
                      (Some {| RepChanged := RepChanged;
                               RepLayout := FindOrCreateReplicator (SenderEnv Env) Self (Actor Ch) |})
                      (Some HandoverChangeState) Sender with
              | None => None
              | Some (_, Sender', Events) => Some (Ch, Sender', Events)
              end);
         let RepState := ActorRepState Sent.1.1 in
         Some (true,
               set_ActorRepState
                 (if 0 <? Z.of_nat (length RepChanged)
                  then {| FRepState.HistoryStart := FRepState.HistoryStart RepState;
                          FRepState.HistoryEnd := FRepState.HistoryEnd RepState + 1;
                          FRepState.ChangeHistory := FRepState.ChangeHistory RepState;
                          FRepState.LastChangelistIndex := FRepState.LastChangelistIndex RepState;
                          FRepState.LastCompareIndex := FRepState.LastCompareIndex RepState |}
                  else RepState)
                 Sent.1.1,
               Sent.1.2, Sent.2)
       else Some (false, Ch, Sender, []));
    let bWroteSomethingImportant := Sent.1.1.1 in
    let Ch := Sent.1.1.2 in
    RepState ← UpdateChangelistHistory (MAX_CHANGE_HISTORY Env) (ActorRepState Ch);
    Some (bWroteSomethingImportant,
          {| EntityId := EntityId Ch; bFirstTick := bFirstTick Ch;
             bCreatingNewEntity := false;
             WorkingSetId := WorkingSetId Ch; Actor := Actor Ch;
             ActorRepState :=
               {| FRepState.HistoryStart := FRepState.HistoryStart RepState;
                  FRepState.HistoryEnd := FRepState.HistoryEnd RepState;
                  FRepState.ChangeHistory := FRepState.ChangeHistory RepState;
                  FRepState.LastChangelistIndex :=
                    FRepChangelistState.HistoryEnd ChangelistState;
                  FRepState.LastCompareIndex := FRepState.LastCompareIndex RepState |};
             HandoverShadowDataMap := HandoverShadowDataMap Ch |},
          Sent.1.2, Sent.2).

(** [ReplicateSubobject(Object, RepFlags)] on the state of the subobject's
    replicator.  The result reads [RepChanged], a reference into the ring,
    after [UpdateChangelistHistory] ran. *)
Definition ReplicateSubobject (Env : FChannelEnv) (Self : ChannelId)
    (Ch : USpatialActorChannel) (IsSupportedClass : bool) (Object : ObjectId)
    (ChangelistState : FRepChangelistState.t) (RepState : FRepState.t)
    (Sender : USpatialSender)
    : option (bool * FRepState.t * USpatialSender * list Event) :=
  if negb IsSupportedClass then Some (false, RepState, Sender, [])
  else
    let PossibleNewHistoryIndex :=
      Z.rem (FRepState.HistoryEnd RepState) (MAX_CHANGE_HISTORY Env) in
    Gathered ← GatherChangelists (MAX_CHANGE_HISTORY Env) (CL_MAX_CHANGE_HISTORY Env)
                  (MergeChangeList Env) ChangelistState RepState;
    let RepState := Gathered.1 in
    let RepChanged := Gathered.2 in
    Sent ←
      (if 0 <? Z.of_nat (length RepChanged) then
         match SendComponentUpdates (Channel_SenderEnv Env Self Ch) Object Self
                 (Some {| RepChanged := RepChanged;
                          RepLayout := FindOrCreateReplicator (SenderEnv Env) Self Object |})
                 None Sender with
         | None => None
         | Some (_, Sender', Events) =>
             Some ({| FRepState.HistoryStart := FRepState.HistoryStart RepState;
                      FRepState.HistoryEnd := FRepState.HistoryEnd RepState + 1;
                      FRepState.ChangeHistory := FRepState.ChangeHistory RepState;
                      FRepState.LastChangelistIndex := FRepState.LastChangelistIndex RepState;
                      FRepState.LastCompareIndex := FRepState.LastCompareIndex RepState |},
                   Sender', Events)
         end
       else Some (RepState, Sender, []));
    RepState ← UpdateChangelistHistory (MAX_CHANGE_HISTORY Env) Sent.1.1;
    RepChanged ← Changed <$> array_get (FRepState.ChangeHistory RepState) PossibleNewHistoryIndex;
    Some (0 <? Z.of_nat (length RepChanged),
          {| FRepState.HistoryStart := FRepState.HistoryStart RepState;
             FRepState.HistoryEnd := FRepState.HistoryEnd RepState;
             FRepState.ChangeHistory := FRepState.ChangeHistory RepState;
             FRepState.LastChangelistIndex :=
               FRepChangelistState.HistoryEnd ChangelistState;
             FRepState.LastCompareIndex := FRepState.LastCompareIndex RepState |},
          Sent.1.2, Sent.2).

(** The loop of [SetChannelActor] over the handover subobjects. *)
Fixpoint SetChannelActor_subobjects (Env : FChannelEnv) (Subobjects : list ObjectId)
    (Map : gmap ObjectId (list Byte.byte)) : option (gmap ObjectId (list Byte.byte)) :=
  match Subobjects with
  | [] => Some Map
  | Subobject :: Subobjects' =>
      _ ← check (bool_decide (Map !! Subobject = None));
      ClassInfo ← FindClassInfoByClass (SenderEnv Env) (GetClass (SenderEnv Env) Subobject);
      SetChannelActor_subobjects Env Subobjects'
        (<[Subobject := InitializeHandoverShadowData (HandoverProperties ClassInfo)]> Map)
  end.

(** [SetChannelActor(InActor)]. *)
Definition SetChannelActor (Env : FChannelEnv) (Self : ChannelId) (InActor : ObjectId)
    (Ch : USpatialActorChannel) (Sender : USpatialSender)
    : option (USpatialActorChannel * USpatialSender * list Event) :=
  match FindClassInfoByClass (SenderEnv Env) (GetClass (SenderEnv Env) InActor) with
  | None =>
      Some ({| EntityId := EntityId Ch; bFirstTick := bFirstTick Ch;
               bCreatingNewEntity := bCreatingNewEntity Ch;
               WorkingSetId := WorkingSetId Ch; Actor := InActor;
               ActorRepState := ActorRepState Ch;
               HandoverShadowDataMap := HandoverShadowDataMap Ch |}, Sender, [])
  | Some ClassInfo =>
      _ ← check (bool_decide (HandoverShadowDataMap Ch !! InActor = None));
      Map ← SetChannelActor_subobjects Env (GetHandoverSubobjects Env InActor)
              (<[InActor := InitializeHandoverShadowData (HandoverProperties ClassInfo)]>
                 (HandoverShadowDataMap Ch));
      let EntityId' := GetEntityIdFromActor Env InActor in
      if EntityId' =? 0 then
        match SendReserveEntityIdRequest Self Sender with
        | None => None
        | Some (_, Sender', Events) =>
            Some ({| EntityId := EntityId'; bFirstTick := bFirstTick Ch;
                     bCreatingNewEntity := true;
                     WorkingSetId := WorkingSetId Ch; Actor := InActor;
                     ActorRepState := ActorRepState Ch;
                     HandoverShadowDataMap := Map |}, Sender', Events)
        end
      else
        Some ({| EntityId := EntityId'; bFirstTick := bFirstTick Ch;
                 bCreatingNewEntity := bCreatingNewEntity Ch;
                 WorkingSetId := WorkingSetId Ch; Actor := InActor;
                 ActorRepState := ActorRepState Ch;
                 HandoverShadowDataMap := Map |}, Sender,
              [EvLog Log_Log; EvNetDriver_AddActorChannel EntityId' Self])
  end.

(** [RegisterEntityId(ActorEntityId)]. *)
Definition RegisterEntityId (Env : FChannelEnv) (Self : ChannelId)
    (Ch : USpatialActorChannel) (ActorEntityId : Z) : list Event :=
  [EvEntityRegistry_AddToRegistry ActorEntityId (Actor Ch);
   EvNetDriver_AddActorChannel ActorEntityId Self]
  ++ (if IsSingletonClass Env (GetClass (SenderEnv Env) (Actor Ch))
      then [EvGlobalStateManager_UpdateSingletonEntityId
              (GetClass (SenderEnv Env) (Actor Ch)) ActorEntityId]
      else [])
  ++ (if IsFullNameStableForNetworking Env (Actor Ch)
      then [EvPackageMap_ResolveEntityActor (Actor Ch) ActorEntityId]
      else []).

(** [WORKER_STATUS_CODE_SUCCESS] of the worker interface; the handlers only
    compare the status with it. *)
Definition WORKER_STATUS_CODE_SUCCESS : Z := 1.

Record Worker_ReserveEntityIdResponseOp := {
  reserve_status_code : Z;
  reserve_entity_id : Z
}.

Record Worker_CreateEntityResponseOp := {
  create_status_code : Z;
  create_entity_id : Z
}.

(** [OnReserveEntityIdResponse(Op)]. *)
Definition OnReserveEntityIdResponse (Env : FChannelEnv) (Self : ChannelId)
    (Op : Worker_ReserveEntityIdResponseOp)
    (Ch : USpatialActorChannel) (Sender : USpatialSender)
    : option (USpatialActorChannel * USpatialSender * list Event) :=
  if negb (ActorIsValid Env) then Some (Ch, Sender, [EvLog Log_Warning])
  else if negb (reserve_status_code Op =? WORKER_STATUS_CODE_SUCCESS) then
    match SendReserveEntityIdRequest Self Sender with
    | None => None
    | Some (_, Sender', Events) => Some (Ch, Sender', EvLog Log_Error :: Events)
    end
  else
    let Ch' :=
      {| EntityId := reserve_entity_id Op; bFirstTick := bFirstTick Ch;
         bCreatingNewEntity := bCreatingNewEntity Ch;
         WorkingSetId := WorkingSetId Ch; Actor := Actor Ch;
         ActorRepState := ActorRepState Ch;
         HandoverShadowDataMap := HandoverShadowDataMap Ch |} in
    Some (Ch', Sender,
          EvLog Log_Verbose :: RegisterEntityId Env Self Ch' (reserve_entity_id Op)).

(** [OnCreateEntityResponse(Op)]. *)
Definition OnCreateEntityResponse (Env : FChannelEnv) (Self : ChannelId)
    (Op : Worker_CreateEntityResponseOp)
    (Ch : USpatialActorChannel) (Sender : USpatialSender)
    : option (USpatialActorChannel * USpatialSender * list Event) :=
  _ ← check (NetModeIsServer Env);
  if negb (ActorIsValid Env) then Some (Ch, Sender, [EvLog Log_Warning])
  else if negb (create_status_code Op =? WORKER_STATUS_CODE_SUCCESS) then
    let Worker := GetPlayerWorkerId Env in
    match SendCreateEntityRequest (Channel_SenderEnv Env Self Ch) Self Worker.1 None Sender with
    | None => None
    | Some (_, Sender', Events) =>
        Some (Ch, Sender', EvLog Log_Error :: Worker.2 ++ Events)
    end
  else Some (Ch, Sender, [EvLog Log_Verbose]).

(** ** The change-history ring *)

Definition emptied : FRepChangedHistory :=
  {| Changed := []; OutPacketIdRange := FPacketIdRange_new |}.



(** The accumulated change list: each shared list is merged with what was
    accumulated before it. *)
Definition MergeSince (Merge : list Z → list Z → list Z) (Start : list Z)
    (Lists : list (list Z)) : list Z :=
  foldl (λ Acc Dirty, Merge Dirty Acc) Start Lists.

(** [Lists] are the change lists of the shared ledger at the indices
    [From], ..., [HistoryEnd - 1]. *)
Definition SharedListsFrom (CL_MAX : Z) (cl : FRepChangelistState.t) (From : Z)
    (Lists : list (list Z)) : Prop :=
  Forall2 (λ k d, Changed <$> array_get (FRepChangelistState.ChangeHistory cl)
                                (Z.rem k CL_MAX) = Some d)
          (seqZ From (FRepChangelistState.HistoryEnd cl - From)) Lists.

(** ** One pass of [ReplicateActor] *)

Definition nonempty (l : list Z) : bool := 0 <? Z.of_nat (length l).

Definition HistoryEnd_incremented (b : bool) (rs : FRepState.t) : FRepState.t :=
  if b then
    {| FRepState.HistoryStart := FRepState.HistoryStart rs;
       FRepState.HistoryEnd := FRepState.HistoryEnd rs + 1;
       FRepState.ChangeHistory := FRepState.ChangeHistory rs;
       FRepState.LastChangelistIndex := FRepState.LastChangelistIndex rs;
       FRepState.LastCompareIndex := FRepState.LastCompareIndex rs |}
  else rs.


Ltac inv_emit H := unfold M_emit in H; simplify_eq.

Ltac inv_ret H := cbn [M_for] in H; unfold M_ret in H; simplify_eq.

Ltac inv_lift H :=
  unfold M_lift in H;
  match type of H with
  | context [match ?o with _ => _ end] =>
      let E := fresh "E" in destruct o eqn:E; [| done]; simplify_eq
  end.


(** The entry the forward index holds for a (channel, object) pair and a
    handle, the entry the reverse index holds for a target, and the set an
    entry points to. *)
Definition fwd_get (U : FUnresolvedContainers) (p : FChannelObjectPair) (h : Z)
    : option FUnresolvedEntry :=
  PropertyToUnresolved U !! p ≫= λ m, m !! h.

Definition rev_lookup (Rev : FOutgoingRepUpdates) (T : ObjectId)
    (p : FChannelObjectPair) (h : Z) : option FUnresolvedEntry :=
  Rev !! T ≫= λ m, m !! p ≫= λ m', m' !! h.

Definition rev_get (U : FUnresolvedContainers) (T : ObjectId)
    (p : FChannelObjectPair) (h : Z) : option FUnresolvedEntry :=
  rev_lookup (ObjectToUnresolved U) T p h.

(** Every entry of the reverse index of a target in [P] is an entry of the
    forward index whose set holds the target. *)
Definition sound_on (P : ObjectId → Prop) (U : FUnresolvedContainers) : Prop :=
  ∀ T p h e, P T → rev_get U T p h = Some e →
    fwd_get U p h = Some e ∧ ∃ S, UnresolvedSets U !! e = Some S ∧ T ∈ S.

(** Every target in [P] of the set of a forward entry has the entry in its
    reverse index. *)
Definition complete_on (P : ObjectId → Prop) (U : FUnresolvedContainers) : Prop :=
  ∀ T p h e S, P T → fwd_get U p h = Some e → UnresolvedSets U !! e = Some S → T ∈ S →
    rev_get U T p h = Some e.

(** The set of a forward entry is allocated, below the next address. *)
Definition allocated (U : FUnresolvedContainers) : Prop :=
  ∀ p h e, fwd_get U p h = Some e →
    is_Some (UnresolvedSets U !! e) ∧ (e < NextUnresolvedEntry U)%nat.

(** Two forward entries do not share their set. *)
Definition unshared (U : FUnresolvedContainers) : Prop :=
  ∀ p h p' h' e, fwd_get U p h = Some e → fwd_get U p' h' = Some e → p = p' ∧ h = h'.

Definition Inv (P : ObjectId → Prop) (U : FUnresolvedContainers) : Prop :=
  sound_on P U ∧ allocated U ∧ unshared U.

Definition all_objects : ObjectId → Prop := λ _, True.


Definition WellFormed (U : FUnresolvedContainers) : Prop :=
  Inv all_objects U ∧ complete_on all_objects U.

(** A call that only acts on the containers of kind [b], through [f]. *)
Definition acts_on {A : Type} (b : bool) (m : M A)
    (f : FUnresolvedContainers → option (A * FUnresolvedContainers * list Event)) : Prop :=
  ∀ Sender,
    m Sender = match f (containers b Sender) with
               | Some (a, U, evs) => Some (a, set_containers b U Sender, evs)
               | None => None
               end.

(** A loop over a list, on the containers, with the events of its rounds. *)
Fixpoint for_on {A : Type}
    (body : A → FUnresolvedContainers → option (FUnresolvedContainers * list Event))
    (l : list A) (U : FUnresolvedContainers)
    : option (FUnresolvedContainers * list Event) :=
  match l with
  | [] => Some (U, [])
  | a :: l' =>
      match body a U with
      | Some (U1, e1) =>
          match for_on body l' U1 with
          | Some (U2, e2) => Some (U2, e1 ++ e2)
          | None => None
          end
      | None => None
      end
  end.

Definition with_unit (r : option (FUnresolvedContainers * list Event))
    : option (() * FUnresolvedContainers * list Event) :=
  match r with Some (U, evs) => Some ((), U, evs) | None => None end.

(** One round of the loops of [SendComponentUpdates], on the containers. *)
Definition requeue_on (p : FChannelObjectPair) (Unresolved : gmap Z (gset ObjectId))
    (h : Z) (U : FUnresolvedContainers) : option FUnresolvedContainers :=
  U1 ← ResetOutgoingUpdate_on p h U;
  match Unresolved !! h with
  | Some Objs => QueueOutgoingUpdate_on p h Objs U1
  | None => Some U1
  end.

(** The loop of [SendComponentUpdates] over a change list; the loop over
    the fine-grained list passes over the handles that are not positive. *)
Fixpoint flush_on (bIsHandover : bool) (p : FChannelObjectPair)
    (Unresolved : gmap Z (gset ObjectId)) (l : list Z) (U : FUnresolvedContainers)
    : option FUnresolvedContainers :=
  match l with
  | [] => Some U
  | h :: l' =>
      if bIsHandover || (0 <? h)
      then U1 ← requeue_on p Unresolved h U; flush_on bIsHandover p Unresolved l' U1
      else flush_on bIsHandover p Unresolved l' U
  end.

(** One round of the outer loop of [ResolveOutgoingOperations], on the
    containers. *)
Definition round_on (Env : FSenderEnv) (b : bool) (O : ObjectId)
    (pr : FChannelObjectPair * list (Z * FUnresolvedEntry)) (U : FUnresolvedContainers)
    : option (FUnresolvedContainers * list Event) :=
  if negb (ChannelValid Env pr.1.1) || negb (ObjectValid Env pr.1.2) then Some (U, [])
  else
    match foldM (ResolveOutgoingOperations_handle Env b O pr.1) pr.2 (U, []) with
    | None => None
    | Some (U1, PropertyHandles) =>
        if 0 <? Z.of_nat (length PropertyHandles) then
          if b then
            let F := CreateComponentUpdates Env pr.1.2 None (Some PropertyHandles) in
            match flush_on true (pr.1.1, pr.1.2) (HandoverUnresolvedObjectsMap F)
                    PropertyHandles U1 with
            | Some U2 =>
                Some (U2,
                      EvSendComponentUpdates pr.1.1 pr.1.2 None (Some PropertyHandles)
                      :: (EvConnection_SendComponentUpdate (GetEntityId Env pr.1.1) <$>
                            Payloads F))
            | None => None
            end
          else
            match Replicator Env pr.1.1 pr.1.2 with
            | None => None
            | Some Layout =>
                let Changes := {| RepChanged := PropertyHandles ++ [0];
                                  RepLayout := Layout |} in
                let F := CreateComponentUpdates Env pr.1.2 (Some Changes) None in
                match flush_on false (pr.1.1, pr.1.2) (UnresolvedObjectsMap F)
                        (PropertyHandles ++ [0]) U1 with
                | Some U2 =>
                    Some (U2,
                          EvSendComponentUpdates pr.1.1 pr.1.2
                            (Some (PropertyHandles ++ [0])) None
                          :: (EvConnection_SendComponentUpdate (GetEntityId Env pr.1.1) <$>
                                Payloads F))
                | None => None
                end
            end
        else Some (U1, [])
    end.

(** [ResolveOutgoingOperations], on the containers. *)
Definition Resolve_on (Env : FSenderEnv) (b : bool) (O : ObjectId)
    (U : FUnresolvedContainers) : option (FUnresolvedContainers * list Event) :=
  match ObjectToUnresolved U !! O with
  | None => Some (U, [])
  | Some ChannelToUnresolved =>
      match for_on (round_on Env b O)
              (prod_map id map_to_list <$> map_to_list ChannelToUnresolved) U with
      | Some (U', evs) => Some (ObjectToUnresolved_Remove O U', evs)
      | None => None
      end
  end.

(** The zero markers the resolver adds after the handle of an array. *)
Definition array_markers (Env : FSenderEnv) (b : bool) (p : FChannelObjectPair) (h : Z)
    : list Z :=
  if b then []
  else match IsDynamicArrayHandle (Replicator Env p.1 p.2) h with
       | Some true => [0; 0]
       | _ => []
       end.

(** The handles one entry of the reverse index of [O] gives to the update
    of its pair: its own, with the markers, when [O] is the last target of
    its set in [Sets0]. *)
Definition resolved_handle (Env : FSenderEnv) (b : bool) (O : ObjectId)
    (Sets0 : gmap FUnresolvedEntry (gset ObjectId)) (p : FChannelObjectPair)
    (he : Z * FUnresolvedEntry) : list Z :=
  match Sets0 !! he.2 with
  | Some Unresolved =>
      if decide (Unresolved ∖ {[O]} = ∅) then he.1 :: array_markers Env b p he.1 else []
  | None => []
  end.

Definition resolved_handles (Env : FSenderEnv) (b : bool) (O : ObjectId)
    (Sets0 : gmap FUnresolvedEntry (gset ObjectId)) (p : FChannelObjectPair)
    (l : list (Z * FUnresolvedEntry)) : list Z :=
  l ≫= resolved_handle Env b O Sets0 p.

Definition valid_pair (Env : FSenderEnv) (p : FChannelObjectPair) : Prop :=
  negb (ChannelValid Env p.1) || negb (ObjectValid Env p.2) = false.

Definition pending_in (L : list (FChannelObjectPair * list (Z * FUnresolvedEntry)))
    (p : FChannelObjectPair) (h : Z) : Prop :=
  ∃ l, (p, l) ∈ L ∧ h ∈ l.*1.

(** The trace of one round of the outer loop: nothing for a pair that is
    no longer valid or has no handle resolved; else one update of the pair
    with its resolved handles, and what the update sends. *)
Definition round_events (Env : FSenderEnv) (b : bool) (O : ObjectId)
    (Sets0 : gmap FUnresolvedEntry (gset ObjectId))
    (pr : FChannelObjectPair * list (Z * FUnresolvedEntry)) : list Event :=
  if negb (ChannelValid Env pr.1.1) || negb (ObjectValid Env pr.1.2) then []
  else
    let PropertyHandles := resolved_handles Env b O Sets0 pr.1 pr.2 in
    if 0 <? Z.of_nat (length PropertyHandles) then
      if b then
        EvSendComponentUpdates pr.1.1 pr.1.2 None (Some PropertyHandles)
        :: (EvConnection_SendComponentUpdate (GetEntityId Env pr.1.1) <$>
              Payloads (CreateComponentUpdates Env pr.1.2 None (Some PropertyHandles)))
      else
        match Replicator Env pr.1.1 pr.1.2 with
        | None => []
        | Some Layout =>
            EvSendComponentUpdates pr.1.1 pr.1.2 (Some (PropertyHandles ++ [0])) None
            :: (EvConnection_SendComponentUpdate (GetEntityId Env pr.1.1) <$>
                  Payloads (CreateComponentUpdates Env pr.1.2
                              (Some {| RepChanged := PropertyHandles ++ [0];
                                       RepLayout := Layout |}) None))
        end
    else [].

(** The entries of [O] whose set [O] empties; [R0get] is the reverse
    index of [O] and [Sets0] the sets when the call starts. *)
Definition flushed (O : ObjectId)
    (R0get : FChannelObjectPair → Z → option FUnresolvedEntry)
    (Sets0 : gmap FUnresolvedEntry (gset ObjectId))
    (p : FChannelObjectPair) (h : Z) : Prop :=
  ∃ e S, R0get p h = Some e ∧ Sets0 !! e = Some S ∧ S ∖ {[O]} = ∅.

(** The invariant of the loops of [ResolveOutgoingOperations] for [O];
    [R0get], [F0get] and [Sets0] are the reverse index of [O], the forward
    index and the sets when the call starts, [Rem] holds the entries of
    [O] still to be met.  The reverse index of every other target is
    sound, the one of [O] is as at the start, the entries to be met are in
    the forward index with their set untouched, a set that still holds [O]
    belongs to an entry to be met or to a pair that is no longer valid, an
    entry met that keeps other targets has lost [O] only, an entry queued
    again is mirrored by the reverse index, and no pair and handle entered
    the forward index. *)
Record Resolving (Env : FSenderEnv) (O : ObjectId) (P : ObjectId → Prop)
    (R0get F0get : FChannelObjectPair → Z → option FUnresolvedEntry)
    (Sets0 : gmap FUnresolvedEntry (gset ObjectId))
    (Rem : FChannelObjectPair → Z → Prop) (U : FUnresolvedContainers) : Prop := {
  Resolving_inv : Inv (λ T, T ≠ O) U;
  Resolving_rev : ∀ p h, rev_get U O p h = R0get p h;
  Resolving_rem : ∀ p h e, Rem p h → R0get p h = Some e → fwd_get U p h = Some e;
  Resolving_complete : complete_on P U;
  Resolving_O : ∀ p h e S, fwd_get U p h = Some e → UnresolvedSets U !! e = Some S → O ∈ S →
          R0get p h = Some e ∧ (Rem p h ∨ ¬ valid_pair Env p);
  Resolving_sets : ∀ p h e, Rem p h → R0get p h = Some e →
          UnresolvedSets U !! e = Sets0 !! e;
  Resolving_kept : ∀ p h e S, R0get p h = Some e → ¬ Rem p h → valid_pair Env p →
          Sets0 !! e = Some S → S ∖ {[O]} ≠ ∅ →
          fwd_get U p h = Some e ∧ UnresolvedSets U !! e = Some (S ∖ {[O]});
  Resolving_fresh : ∀ p h e, flushed O R0get Sets0 p h → ¬ Rem p h → valid_pair Env p →
          fwd_get U p h = Some e →
          ∃ S, UnresolvedSets U !! e = Some S ∧ ∀ T, T ∈ S → rev_get U T p h = Some e;
  Resolving_dom : ∀ p h, is_Some (fwd_get U p h) → is_Some (F0get p h)
}.

Arguments Resolving_inv {_ _ _ _ _ _ _ _} _.

Arguments Resolving_rev {_ _ _ _ _ _ _ _} _.

Arguments Resolving_rem {_ _ _ _ _ _ _ _} _.

Arguments Resolving_sets {_ _ _ _ _ _ _ _} _.

Arguments Resolving_fresh {_ _ _ _ _ _ _ _} _.

(** The layout knows the handles that resolving [O] flushes. *)
Definition array_ok (Env : FSenderEnv) (O : ObjectId)
    (R0get : FChannelObjectPair → Z → option FUnresolvedEntry)
    (Sets0 : gmap FUnresolvedEntry (gset ObjectId)) (b : bool) : Prop :=
  ∀ p h, valid_pair Env p → flushed O R0get Sets0 p h → b = false →
    is_Some (IsDynamicArrayHandle (Replicator Env p.1 p.2) h).

(** [O] is in no set of unresolved objects the factory reports. *)
Definition without_target (O : ObjectId) (Unresolved : gmap Z (gset ObjectId)) : Prop :=
  ∀ h Objs, Unresolved !! h = Some Objs → O ∉ Objs.

(** The entries the loops run over. *)
Definition pending_rounds (M : FChannelToHandleToUnresolved)
    : list (FChannelObjectPair * list (Z * FUnresolvedEntry)) :=
  prod_map id map_to_list <$> map_to_list M.

(** The trace of a call: the rounds of the entries of [O], each with the
    sets as they are when the call starts. *)
Definition Resolve_events (Env : FSenderEnv) (b : bool) (O : ObjectId)
    (U : FUnresolvedContainers) : list Event :=
  match ObjectToUnresolved U !! O with
  | None => []
  | Some M => pending_rounds M ≫= round_events Env b O (UnresolvedSets U)
  end.

(** ** States the queuing interface can reach *)

(** The senders reached from a new one by calls of [QueueOutgoingUpdate],
    [ResetOutgoingUpdate] and [ResolveOutgoingOperations] that return;
    [Guard] restricts the pairs a call of [ResolveOutgoingOperations] may
    find in the reverse index of its object. *)
Inductive Reachable (Guard : FSenderEnv → FChannelObjectPair → Prop)
    : USpatialSender → Prop :=
| Reach_new : Reachable Guard USpatialSender_new
| Reach_queue Sender Channel Object Handle Unresolved b Sender' evs :
    Reachable Guard Sender →
    QueueOutgoingUpdate Channel Object Handle Unresolved b Sender = Some ((), Sender', evs) →
    Reachable Guard Sender'
| Reach_reset Sender Channel Object Handle b Sender' evs :
    Reachable Guard Sender →
    ResetOutgoingUpdate Channel Object Handle b Sender = Some ((), Sender', evs) →
    Reachable Guard Sender'
| Reach_resolve Env Sender Object b Sender' evs :
    Reachable Guard Sender →
    (∀ p h, is_Some (rev_get (containers b Sender) Object p h) → Guard Env p) →
    ResolveOutgoingOperations Env Object b Sender = Some ((), Sender', evs) →
    Reachable Guard Sender'.


(** ** A small scene *)

Module Scene.
(** A layout with a property (handle 1) and an array of one property
    (handle 2). *)
Definition Layout : FRepLayout :=
  {| Cmds := [ {| Type_ := REPCMD_Property; EndCmd := 0; RelativeHandle := 1 |};
               {| Type_ := REPCMD_DynamicArray; EndCmd := 4; RelativeHandle := 2 |};
               {| Type_ := REPCMD_Property; EndCmd := 0; RelativeHandle := 1 |};
               {| Type_ := REPCMD_Return; EndCmd := 0; RelativeHandle := 0 |};
               {| Type_ := REPCMD_Return; EndCmd := 0; RelativeHandle := 0 |} ];
     BaseHandleToCmdIndex := [ {| CmdIndex := 0 |}; {| CmdIndex := 1 |} ] |}.

(** Every channel and object alive, no class info, a factory that finds
    every reference resolved. *)
Definition Env : FSenderEnv :=
  {| SpatialConstants :=
       {| ServerWorkerType := "UnrealWorker"; ClientWorkerType := "UnrealClient";
          POSITION_COMPONENT_ID := 54; ROTATION_COMPONENT_ID := 100001;
          WORKING_SET_COMPONENT_ID := 100002 |};
     ChannelValid := λ _, true;
     ObjectValid := λ _, true;
     GetEntityId := λ Channel, Z.of_nat Channel + 100;
     ChannelActor := λ Channel, Channel;
     Replicator := λ _ _, Some Layout;
     FindOrCreateReplicator := λ _ _, Layout;
     GetClass := λ Object, Object;
     ClassPath := λ _, "Class";
     IsServerOnlyClass := λ _, false;
     IsPlayerController := λ _, false;
     GetDefaultSubobjects := λ _, [];
     FindClassInfoByClass := λ _, None;
     CreateComponentUpdates := λ _ _ _,
       {| Payloads := [FactoryComponentUpdate 7];
          UnresolvedObjectsMap := ∅; HandoverUnresolvedObjectsMap := ∅ |};
     CreateComponentDatas := λ _ _ _,
       {| Payloads := []; UnresolvedObjectsMap := ∅; HandoverUnresolvedObjectsMap := ∅ |};
     GetUnrealObjectRef := λ _, None;
     PayloadUnresolvedObjects := λ _ _, [] |}.


(** The sender a call leaves, the sender itself when the call fails. *)
Definition after (m : M ()) (Sender : USpatialSender) : USpatialSender :=
  match m Sender with Some (_, Sender', _) => Sender' | None => Sender end.

(** Handle 1 of object 10 on channel 1 waits for object 20. *)
Definition Waiting : USpatialSender :=
  after (QueueOutgoingUpdate 1%nat 10%nat 1 {[ 20%nat ]} false) USpatialSender_new.

Definition Resolved : USpatialSender :=
  after (ResolveOutgoingOperations Env 20%nat false) Waiting.

(** Handle 1 of object 10 on channel 1 waits for objects 20, 21 and 22. *)
Definition WaitingThree : USpatialSender :=
  after (QueueOutgoingUpdate 1%nat 10%nat 1 {[ 20%nat; 21%nat; 22%nat ]} false)
    USpatialSender_new.

(** The events of a call, none when the call fails. *)
Definition events_of (m : M ()) (Sender : USpatialSender) : list Event :=
  match m Sender with Some (_, _, evs) => evs | None => [] end.


End Scene.

(** ** Counting the updates that carry a handle *)

(** [ev] is a call of [SendComponentUpdates] for the pair [p] whose list of
    the kind [b] holds the handle [h]. *)
Definition flushes (b : bool) (p : FChannelObjectPair) (h : Z) (ev : Event) : bool :=
  match ev with
  | EvSendComponentUpdates Channel Object RepChanges HandoverChanges =>
      bool_decide ((Channel, Object) = p)
      && bool_decide (h ∈ default [] (if b then HandoverChanges else RepChanges))
  | _ => false
  end.

Definition flush_count (b : bool) (p : FChannelObjectPair) (h : Z) (evs : list Event)
    : nat :=
  length (List.filter (flushes b p h) evs).








(** The layout knows the pending handles of the valid pairs. *)
Definition array_known (Env : FSenderEnv) (b : bool) (U : FUnresolvedContainers) : Prop :=
  b = false → ∀ p h, valid_pair Env p → is_Some (fwd_get U p h) →
    is_Some (IsDynamicArrayHandle (Replicator Env p.1 p.2) h).

(** The factory of the updates never reports [T] as unresolved. *)
Definition factory_resolved (Env : FSenderEnv) (b : bool) (T : ObjectId) : Prop :=
  ∀ Obj rc hc h Objs,
    (if b then HandoverUnresolvedObjectsMap else UnresolvedObjectsMap)
      (CreateComponentUpdates Env Obj rc hc) !! h = Some Objs → T ∉ Objs.

(** ** The handover fields in the shadow buffer *)

(** The handover properties with the offset of their value in the shadow
    buffer, the values being laid out one after the other, each aligned,
    from [Off] on. *)
Fixpoint HandoverFields (Off : Z) (Props : list FHandoverPropertyInfo)
    : list (FHandoverPropertyInfo * Z) :=
  match Props with
  | [] => []
  | Info :: Props' =>
      let ShadowDataOffset := Align Off (MinAlignment (Property Info)) in
      (Info, ShadowDataOffset)
      :: HandoverFields ((ShadowDataOffset + ElementSize (Property Info)) mod 2^32) Props'
  end.

(** The packed value of a field in the object, and in a shadow buffer. *)
Definition object_value (Object : list Byte.byte) (f : FHandoverPropertyInfo * Z)
    : option (list Byte.byte) :=
  read_bytes Object (Offset f.1) (ElementSize (Property f.1)).

Definition shadow_value (ShadowData : list Byte.byte) (f : FHandoverPropertyInfo * Z)
    : option (list Byte.byte) :=
  read_bytes ShadowData f.2 (ElementSize (Property f.1)).

(** The value of the field lies in the object and in the shadow buffer,
    and the offsets do not leave the range of [uint32]. *)
Definition field_fits (ShadowData Object : list Byte.byte)
    (f : FHandoverPropertyInfo * Z) : Prop :=
  0 < MinAlignment (Property f.1)
  ∧ 0 ≤ ElementSize (Property f.1)
  ∧ 0 ≤ Offset f.1
  ∧ Offset f.1 + ElementSize (Property f.1) ≤ Z.of_nat (length Object)
  ∧ f.2 + ElementSize (Property f.1) ≤ Z.of_nat (length ShadowData)
  ∧ Z.of_nat (length ShadowData) + MinAlignment (Property f.1) ≤ 2^32.

(** The field is to be sent: the entity is being created, or the value in
    the object differs from the one in the shadow buffer. *)
Definition field_changed (bCreatingNewEntity : bool) (ShadowData Object : list Byte.byte)
    (f : FHandoverPropertyInfo * Z) : bool :=
  bCreatingNewEntity || negb (bool_decide (shadow_value ShadowData f = object_value Object f)).

(** ** The framing of arrays in the initial change list *)

(** The depth of array nesting after a command. *)
Definition depth_step (Depth : Z) (Cmd : FRepLayoutCmd) : Z :=
  match Type_ Cmd with
  | REPCMD_DynamicArray => Depth + 1
  | REPCMD_Return => Depth - 1
  | REPCMD_Property => Depth
  end.

Definition DepthAfter (Depth : Z) (cmds : list FRepLayoutCmd) : Z :=
  foldl depth_step Depth cmds.

(** The depth of array nesting at which the command of index [i] stands. *)
Definition DepthBefore (cmds : list FRepLayoutCmd) (i : nat) : Z :=
  DepthAfter 0 (take i cmds).

(** The elements a run of commands puts on the list: the handle of each,
    and the count after the handle of an array met outside of any array. *)
Fixpoint emitted (CmdIdx Depth : Z) (cmds : list FRepLayoutCmd) : list Z :=
  match cmds with
  | [] => []
  | Cmd :: cmds' =>
      RelativeHandle Cmd
      :: (if bool_decide (Type_ Cmd = REPCMD_DynamicArray ∧ Depth = 0)
          then [to_uint16 (EndCmd Cmd - CmdIdx - 2)] else [])
      ++ emitted (CmdIdx + 1) (depth_step Depth Cmd) cmds'
  end.

(** The commands after the array of index [i] up to the one before
    [EndCmd] are inside the array. *)
Definition Inside (cmds : list FRepLayoutCmd) (i : nat) (End : Z) : Prop :=
  Z.of_nat i + 2 ≤ End ≤ Z.of_nat (length cmds)
  ∧ ∀ j : nat, (i < j)%nat → Z.of_nat j < End → 1 ≤ DepthBefore cmds j.

(** The claim that the handle of every array is followed by its count. *)
Definition every_array_has_marker (Layout : FRepLayout) (out : list Z) : Prop :=
  ∀ (i : nat) Cmd, Cmds Layout !! i = Some Cmd → Type_ Cmd = REPCMD_DynamicArray →
    ∃ pre post,
      out = pre ++ RelativeHandle Cmd :: to_uint16 (EndCmd Cmd - Z.of_nat i - 2) :: post.

(** Somewhere in [l] an [a] is followed at once by a [b]. *)
Fixpoint has_pair (a b : Z) (l : list Z) : bool :=
  match l with
  | x :: ((y :: _) as l') => (bool_decide (x = a) && bool_decide (y = b)) || has_pair a b l'
  | _ => false
  end.

Module Nested.
(** An array (handle 1) of arrays (handle 1) of three properties. *)
Definition Layout : FRepLayout :=
  {| Cmds := [ {| Type_ := REPCMD_DynamicArray; EndCmd := 7; RelativeHandle := 1 |};
               {| Type_ := REPCMD_DynamicArray; EndCmd := 6; RelativeHandle := 1 |};
               {| Type_ := REPCMD_Property; EndCmd := 0; RelativeHandle := 1 |};
               {| Type_ := REPCMD_Property; EndCmd := 0; RelativeHandle := 2 |};
               {| Type_ := REPCMD_Property; EndCmd := 0; RelativeHandle := 3 |};
               {| Type_ := REPCMD_Return; EndCmd := 0; RelativeHandle := 0 |};
               {| Type_ := REPCMD_Return; EndCmd := 0; RelativeHandle := 0 |};
               {| Type_ := REPCMD_Return; EndCmd := 0; RelativeHandle := 0 |} ];
     BaseHandleToCmdIndex := [ {| CmdIndex := 0 |} ] |}.
End Nested.

(** ** A channel and its actor *)

Module Pass.
(** The class of the actor: no remote procedure, no handover property, no
  subobject. *)
Definition Info : FClassInfo :=
{| RPCInfoMap := ∅;
   RPCComponents := λ T, match T with
                         | RPC_Client => 201 | RPC_Server => 202
                         | RPC_CrossServer => 203 | RPC_NetMulticast => 204
                         | RPC_Count => 0
                         end;
   SingleClientComponent := 101;
   MultiClientComponent := 102;
   HandoverComponent := 103;
   HandoverProperties := [];
   SubobjectClasses := [] |}.

(** The scene with the class info bound, the initial data of an object
  being [Datas]. *)
Definition SenderEnvWith (Datas : FComponentFactoryResult Z) : FSenderEnv :=
{| SpatialConstants := SpatialConstants Scene.Env;
   ChannelValid := ChannelValid Scene.Env;
   ObjectValid := ObjectValid Scene.Env;
   GetEntityId := GetEntityId Scene.Env;
   ChannelActor := ChannelActor Scene.Env;
   Replicator := Replicator Scene.Env;
   FindOrCreateReplicator := FindOrCreateReplicator Scene.Env;
   GetClass := GetClass Scene.Env;
   ClassPath := ClassPath Scene.Env;
   IsServerOnlyClass := IsServerOnlyClass Scene.Env;
   IsPlayerController := IsPlayerController Scene.Env;
   GetDefaultSubobjects := GetDefaultSubobjects Scene.Env;
   FindClassInfoByClass := λ _, Some Info;
   CreateComponentUpdates := CreateComponentUpdates Scene.Env;
   CreateComponentDatas := λ _ _ _, Datas;
   GetUnrealObjectRef := GetUnrealObjectRef Scene.Env;
   PayloadUnresolvedObjects := PayloadUnresolvedObjects Scene.Env |}.

(** Every reference of the initial data has its entity. *)
Definition DatasResolved : FComponentFactoryResult Z :=
{| Payloads := [5]; UnresolvedObjectsMap := ∅; HandoverUnresolvedObjectsMap := ∅ |}.

(** Handle 1 of the initial data names object 20, which has no entity. *)
Definition DatasPending : FComponentFactoryResult Z :=
{| Payloads := [5]; UnresolvedObjectsMap := {[ 1 := {[ 20%nat ]} ]};
   HandoverUnresolvedObjectsMap := ∅ |}.

(** A server with rings of four entries over a ledger of eight. *)
Definition EnvWith (Datas : FComponentFactoryResult Z) : FChannelEnv :=
{| SenderEnv := SenderEnvWith Datas;
   MAX_CHANGE_HISTORY := 4;
   CL_MAX_CHANGE_HISTORY := 8;
   MergeChangeList := λ Dirty Acc, Acc ++ Dirty;
   IsReadyForReplication := true;
   BunchIsError := false;
   ClassNameContains := λ _ _, false;
   ActorOwningConnection := Some "worker";
   ObjectMemory := λ _, [];
   RegisterNewWorkingSet := 1;
   GetWorkingSetSize := λ _, 0;
   GetEntityIdFromActor := λ _, 0;
   ActorIsValid := true;
   IsSingletonClass := λ _, false;
   IsFullNameStableForNetworking := λ _, false;
   NetModeIsServer := true;
   GetHandoverSubobjects := λ _, [] |}.

Definition Env : FChannelEnv := EnvWith DatasResolved.

Definition Ring : FRepState.t :=
{| FRepState.HistoryStart := 0; FRepState.HistoryEnd := 0;
   FRepState.ChangeHistory := replicate 4 emptied;
   FRepState.LastChangelistIndex := 0; FRepState.LastCompareIndex := 0 |}.

(** A ring with two entries to retire, a full ring, and a ring one entry
  over its capacity. *)
Definition Entry (Handles : list Z) : FRepChangedHistory :=
{| Changed := Handles; OutPacketIdRange := FPacketIdRange_new |}.

Definition RingTwo : FRepState.t :=
{| FRepState.HistoryStart := 0; FRepState.HistoryEnd := 2;
   FRepState.ChangeHistory := [Entry [1; 0]; Entry [2; 0]; emptied; emptied];
   FRepState.LastChangelistIndex := 0; FRepState.LastCompareIndex := 0 |}.

Definition RingFull : FRepState.t :=
{| FRepState.HistoryStart := 0; FRepState.HistoryEnd := 4;
   FRepState.ChangeHistory := replicate 4 (Entry [1; 0]);
   FRepState.LastChangelistIndex := 0; FRepState.LastCompareIndex := 0 |}.

Definition RingOver : FRepState.t :=
{| FRepState.HistoryStart := 0; FRepState.HistoryEnd := 5;
   FRepState.ChangeHistory := replicate 4 (Entry [1; 0]);
   FRepState.LastChangelistIndex := 0; FRepState.LastCompareIndex := 0 |}.

(** The ledger of the actor holds two change lists no consumer has read. *)
Definition Ledger : FRepChangelistState.t :=
{| FRepChangelistState.HistoryStart := 0; FRepChangelistState.HistoryEnd := 2;
   FRepChangelistState.CompareIndex := 2;
   FRepChangelistState.ChangeHistory :=
     [Entry [1; 0]; Entry [2; 0]] ++ replicate 6 emptied |}.

(** Channel 1 of actor 10, with entity 7. *)
Definition Channel (bNew : bool) : USpatialActorChannel :=
{| EntityId := 7; bFirstTick := false; bCreatingNewEntity := bNew;
   WorkingSetId := -1; Actor := 10%nat; ActorRepState := Ring;
   HandoverShadowDataMap := {[ 10%nat := [] ]} |}.

(** A channel that has no actor yet. *)
Definition Unbound : USpatialActorChannel :=
{| EntityId := 0; bFirstTick := true; bCreatingNewEntity := false;
   WorkingSetId := -1; Actor := 0%nat; ActorRepState := Ring;
   HandoverShadowDataMap := ∅ |}.

(** The sender once the create-entity request of the new actor is out. *)
Definition Requested (Datas : FComponentFactoryResult Z) : USpatialSender :=
Scene.after (SendCreateEntityRequest (Channel_SenderEnv (EnvWith Datas) 1%nat (Channel true))
               1%nat "worker" None)
  USpatialSender_new.

Definition Failure : Worker_CreateEntityResponseOp :=
{| create_status_code := 6; create_entity_id := 7 |}.
End Pass.

(** ** An object with two handover fields *)

Module Shadow.
(** A field of four bytes at offset 0 of the object and a field of one
  byte at offset 8. *)
Definition Props : list FHandoverPropertyInfo :=
[ {| Handle := 1; Offset := 0; ArrayIdx := 0;
     Property := {| MinAlignment := 4; ElementSize := 4; ArrayDim := 1 |} |};
  {| Handle := 2; Offset := 8; ArrayIdx := 0;
     Property := {| MinAlignment := 1; ElementSize := 1; ArrayDim := 1 |} |} ].

Definition Object : list Byte.byte :=
[Byte.x01; Byte.x02; Byte.x03; Byte.x04; Byte.x00; Byte.x00; Byte.x00; Byte.x00;
 Byte.x09; Byte.x00; Byte.x00; Byte.x00].

(** The shadow buffer holds the value of the first field, not of the
  second. *)
Definition Data : list Byte.byte := [Byte.x01; Byte.x02; Byte.x03; Byte.x04; Byte.x07].
End Shadow.

(** ** Pending entries *)

(** The objects the entry of handle [h] of the pair [p] still waits for,
    read through the forward index. *)
Definition pending (U : FUnresolvedContainers) (p : FChannelObjectPair) (h : Z)
    : option (gset ObjectId) :=
  fwd_get U p h ≫= λ e, UnresolvedSets U !! e.

(** ** A factory that still finds a reference unresolved *)

Module Requeue.
(** The scene, with a factory that reports object 21 for handle 1 of
    the fine-grained list. *)
Definition Env : FSenderEnv :=
  {| SpatialConstants := SpatialConstants Scene.Env;
     ChannelValid := ChannelValid Scene.Env;
     ObjectValid := ObjectValid Scene.Env;
     GetEntityId := GetEntityId Scene.Env;
     ChannelActor := ChannelActor Scene.Env;
     Replicator := Replicator Scene.Env;
     FindOrCreateReplicator := FindOrCreateReplicator Scene.Env;
     GetClass := GetClass Scene.Env;
     ClassPath := ClassPath Scene.Env;
     IsServerOnlyClass := IsServerOnlyClass Scene.Env;
     IsPlayerController := IsPlayerController Scene.Env;
     GetDefaultSubobjects := GetDefaultSubobjects Scene.Env;
     FindClassInfoByClass := FindClassInfoByClass Scene.Env;
     CreateComponentUpdates := λ _ _ _,
       {| Payloads := [FactoryComponentUpdate 7];
          UnresolvedObjectsMap := {[ 1 := {[ 21%nat ]} ]};
          HandoverUnresolvedObjectsMap := ∅ |};
     CreateComponentDatas := CreateComponentDatas Scene.Env;
     GetUnrealObjectRef := GetUnrealObjectRef Scene.Env;
     PayloadUnresolvedObjects := PayloadUnresolvedObjects Scene.Env |}.
End Requeue.

(** ** Remote procedure calls whose references are resolved *)

(** What [SendRPC] hands to the connection for the call [r] once its target
    has an entity and its payload names no object without one: a command
    request, or the component update of a multicast event.  No result while
    a reference is unresolved, or when [SendRPC] would trip a [check]. *)
Definition resolved_RPC_event (Env : FSenderEnv) (r : FPendingRPCParams) : option Event :=
  Info ← FindClassInfoByClass Env (GetClass Env (TargetObject r));
  RPCInfo ← RPCInfoMap Info !! Function r;
  Entity ← GetUnrealObjectRef Env (TargetObject r);
  if bool_decide (PayloadUnresolvedObjects Env (Function r) (Parameters r) = [])
     && (0 <? Entity)
  then
    match RPCType RPCInfo with
    | RPC_Count => None
    | RPC_NetMulticast =>
        Some (EvConnection_SendComponentUpdate Entity
                (MulticastUpdate (RPCComponents Info RPC_NetMulticast)
                   (Index RPCInfo + 1) (Function r) (Parameters r)))
    | Kind =>
        Some (EvConnection_SendCommandRequest Entity (RPCComponents Info Kind)
                (Function r) (Parameters r) (Index RPCInfo + 1))
    end
  else None.

(** The sender with [OutgoingRPCs] replaced. *)
Definition set_OutgoingRPCs (RPCs : gmap ObjectId (list FPendingRPCParams))
    (Sender : USpatialSender) : USpatialSender :=
  {| RepContainers := RepContainers Sender;
     HandoverContainers := HandoverContainers Sender;
     OutgoingRPCs := RPCs;
     PendingActorRequests := PendingActorRequests Sender;
     NextRequestId := NextRequestId Sender |}.

(** The object a call waits for: the target while it has no entity, else
    the first object of the payload without one. *)
Definition blocking_object (Env : FSenderEnv) (r : FPendingRPCParams) : option ObjectId :=
  (CreateRPCCommandRequest Env (TargetObject r) (Function r) (Parameters r)).2.

Module Calls.
(** A class with a client procedure (function 3) and a multicast
    procedure (function 4). *)
Definition Info : FClassInfo :=
  {| RPCInfoMap := {[ 3%nat := {| RPCType := RPC_Client; Index := 0 |};
                      4%nat := {| RPCType := RPC_NetMulticast; Index := 1 |} ]};
     RPCComponents := RPCComponents Pass.Info;
     SingleClientComponent := 101;
     MultiClientComponent := 102;
     HandoverComponent := 103;
     HandoverProperties := [];
     SubobjectClasses := [] |}.

(** Every object is of that class; [Entity] is what the package map
    answers for every object. *)
Definition EnvWith (Entity : option Z) : FSenderEnv :=
  {| SpatialConstants := SpatialConstants Scene.Env;
     ChannelValid := ChannelValid Scene.Env;
     ObjectValid := ObjectValid Scene.Env;
     GetEntityId := GetEntityId Scene.Env;
     ChannelActor := ChannelActor Scene.Env;
     Replicator := Replicator Scene.Env;
     FindOrCreateReplicator := FindOrCreateReplicator Scene.Env;
     GetClass := GetClass Scene.Env;
     ClassPath := ClassPath Scene.Env;
     IsServerOnlyClass := IsServerOnlyClass Scene.Env;
     IsPlayerController := IsPlayerController Scene.Env;
     GetDefaultSubobjects := GetDefaultSubobjects Scene.Env;
     FindClassInfoByClass := λ _, Some Info;
     CreateComponentUpdates := CreateComponentUpdates Scene.Env;
     CreateComponentDatas := CreateComponentDatas Scene.Env;
     GetUnrealObjectRef := λ _, Entity;
     PayloadUnresolvedObjects := PayloadUnresolvedObjects Scene.Env |}.

(** Two calls on object 10. *)
Definition Client : FPendingRPCParams :=
  {| TargetObject := 10%nat; Function := 3%nat; Parameters := 70 |}.
Definition Multicast : FPendingRPCParams :=
  {| TargetObject := 10%nat; Function := 4%nat; Parameters := 71 |}.

(** Both wait for object 10. *)
Definition Queued : USpatialSender :=
  set_OutgoingRPCs {[ 10%nat := [Client; Multicast] ]} USpatialSender_new.
End Calls.

(** ** A channel after a pass *)

Module Settled.
(** The channel of the scene after one pass over the ledger. *)
Definition Channel : USpatialActorChannel :=
  match ReplicateActor Pass.Env 1%nat Pass.Ledger (Pass.Channel false)
          USpatialSender_new with
  | Some (_, Ch', _, _) => Ch'
  | None => Pass.Channel false
  end.
End Settled.

(** ** Layouts that [CreateInitialRepChangeState] refuses *)

Module Unbalanced.
(** A property between two returns: the first return closes an array
    that was never opened, and it is not the last command. *)
Definition Layout : FRepLayout :=
  {| Cmds := [ {| Type_ := REPCMD_Return; EndCmd := 0; RelativeHandle := 0 |};
               {| Type_ := REPCMD_Property; EndCmd := 0; RelativeHandle := 1 |};
               {| Type_ := REPCMD_Return; EndCmd := 0; RelativeHandle := 0 |} ];
     BaseHandleToCmdIndex := [ {| CmdIndex := 1 |} ] |}.
End Unbalanced.

(** ** Who may write a component *)

(** The two requirement sets [CreateEntity] gives write access with: the
    server workers, and the worker of the owning client. *)
Definition servers_or_owner (Env : FSenderEnv) (ClientWorkerId : string)
    (Requirement : WorkerRequirementSet) : Prop :=
  Requirement = [[ServerWorkerType (SpatialConstants Env)]]
  ∨ Requirement = [[String.append "workerId:" ClientWorkerId]].

(** The sender fields the queuing interface does not touch. *)
Definition same_requests (Sender Sender' : USpatialSender) : Prop :=
  OutgoingRPCs Sender' = OutgoingRPCs Sender
  ∧ PendingActorRequests Sender' = PendingActorRequests Sender
  ∧ NextRequestId Sender' = NextRequestId Sender.

(** ** A reserve response *)

Module Handshake.
(** The connection reserved entity 42. *)
Definition Reserved : Worker_ReserveEntityIdResponseOp :=
  {| reserve_status_code := WORKER_STATUS_CODE_SUCCESS; reserve_entity_id := 42 |}.

(** The channel of a new entity once the response has been handled. *)
Definition Channel : USpatialActorChannel :=
  match OnReserveEntityIdResponse Pass.Env 1%nat Reserved (Pass.Channel true)
          USpatialSender_new with
  | Some (Ch', _, _) => Ch'
  | None => Pass.Channel true
  end.
End Handshake.

(** ** Reserve responses that fail *)

(** [k] responses to the reserve request of a channel, handled one after
    the other. *)
Fixpoint OnReserveEntityIdResponses (Env : FChannelEnv) (Self : ChannelId)
    (Op : Worker_ReserveEntityIdResponseOp) (k : nat)
    (Ch : USpatialActorChannel) (Sender : USpatialSender)
    : option (USpatialActorChannel * USpatialSender * list Event) :=
  match k with
  | O => Some (Ch, Sender, [])
  | S k' =>
      First ← OnReserveEntityIdResponse Env Self Op Ch Sender;
      Rest ← OnReserveEntityIdResponses Env Self Op k' First.1.1 First.1.2;
      Some (Rest.1.1, Rest.1.2, First.2 ++ Rest.2)
  end.

Module Refused.
(** The connection refused the reservation. *)
Definition Op : Worker_ReserveEntityIdResponseOp :=
  {| reserve_status_code := 6; reserve_entity_id := 0 |}.
End Refused.

(** ** Component interest and the access list in view *)

Record Worker_InterestOverride := {
  component_id : Z;
  is_interested : bool
}.

(** [improbable::EntityAcl], as the view holds it for an entity. *)
Module EntityAcl.
Record t := {
  ReadAcl : WorkerRequirementSet;
  ComponentWriteAcl : gmap Z WorkerRequirementSet
}.
End EntityAcl.

(** What [SendComponentInterest] and [UpdateEntityACLs] hand to the
    connection: the interest overrides of an entity, and the component
    update [CreateEntityAclUpdate] builds from an access list. *)
Inductive ViewEvent :=
  | EvConnection_SendComponentInterest (EntityId : Z)
      (ComponentInterest : list Worker_InterestOverride)
  | EvConnection_SendEntityAclUpdate (EntityId : Z) (EntityACL : EntityAcl.t).

(** [FillComponentInterests(Info, bNetOwned, ComponentInterest)]: the two
    [Add]. *)
Definition FillComponentInterests (Info : FClassInfo) (bNetOwned : bool)
    (ComponentInterest : list Worker_InterestOverride) : list Worker_InterestOverride :=
  (ComponentInterest
   ++ [ {| component_id := SingleClientComponent Info; is_interested := bNetOwned |} ])
  ++ [ {| component_id := HandoverComponent Info; is_interested := false |} ].

(** The loop of [CreateComponentInterest] over the subobject classes; a
    class without class info is dereferenced all the same: no result. *)
Fixpoint CreateComponentInterest_subobjects (Env : FSenderEnv) (bNetOwned : bool)
    (Classes : list ClassId) (ComponentInterest : list Worker_InterestOverride)
    : option (list Worker_InterestOverride) :=
  match Classes with
  | [] => Some ComponentInterest
  | SubobjectClass :: Classes' =>
      SubobjectInfo ← FindClassInfoByClass Env SubobjectClass;
      CreateComponentInterest_subobjects Env bNetOwned Classes'
        (FillComponentInterests SubobjectInfo bNetOwned ComponentInterest)
  end.

(** [CreateComponentInterest(Actor)]; [NetConnection] is the unique id of
    the player state behind [Actor->GetNetConnection()], [None] for a null
    connection. *)
Definition CreateComponentInterest (Env : FSenderEnv) (NetConnection : option string)
    (Actor : ObjectId) : option (list Worker_InterestOverride) :=
  let bNetOwned := match NetConnection with Some _ => true | None => false end in
  ActorInfo ← FindClassInfoByClass Env (GetClass Env Actor);
  CreateComponentInterest_subobjects Env bNetOwned (SubobjectClasses ActorInfo)
    (FillComponentInterests ActorInfo bNetOwned []).

(** [SendComponentInterest(Actor, EntityId)]; [IsServer] is
    [NetDriver->IsServer()]. *)
Definition SendComponentInterest (Env : FSenderEnv) (IsServer : bool)
    (NetConnection : option string) (Actor : ObjectId) (EntityId : Z)
    : option (list ViewEvent) :=
  _ ← check (negb IsServer);
  ComponentInterest ← CreateComponentInterest Env NetConnection Actor;
  Some [EvConnection_SendComponentInterest EntityId ComponentInterest].

(** [UpdateEntityACLs(Actor, EntityId)].  [View] maps an entity to the
    access list [View->GetEntityACL] points to, which the call changes in
    place.  The result, the view and what was sent. *)
Definition UpdateEntityACLs (Env : FSenderEnv) (NetConnection : option string)
    (Actor : ObjectId) (EntityId : Z) (View : gmap Z EntityAcl.t)
    : option (bool * gmap Z EntityAcl.t * list ViewEvent) :=
  match View !! EntityId with
  | None => Some (false, View, [])
  | Some EntityACL =>
      Info ← FindClassInfoByClass Env (GetClass Env Actor);
      let PlayerWorkerId :=
        match NetConnection with
        | Some UniqueId => UniqueId
        | None => EmptyString
        end in
      let OwningClientAttribute := [String.append "workerId:" PlayerWorkerId] in
      let OwningClientOnly := [OwningClientAttribute] in
      let ComponentWriteAcl :=
        if bool_decide (is_Some (EntityAcl.ComponentWriteAcl EntityACL
                                   !! RPCComponents Info RPC_Client))
        then <[RPCComponents Info RPC_Client := OwningClientOnly]>
               (EntityAcl.ComponentWriteAcl EntityACL)
        else <[RPCComponents Info RPC_Client := OwningClientOnly]>
               (EntityAcl.ComponentWriteAcl EntityACL) in
      let EntityACL :=
        {| EntityAcl.ReadAcl := EntityAcl.ReadAcl EntityACL;
           EntityAcl.ComponentWriteAcl := ComponentWriteAcl |} in
      Some (true, <[EntityId := EntityACL]> View,
            [EvConnection_SendEntityAclUpdate EntityId EntityACL])
  end.

Definition set_bFirstTick (b : bool) (Ch : USpatialActorChannel) : USpatialActorChannel :=
  {| EntityId := EntityId Ch; bFirstTick := b;
     bCreatingNewEntity := bCreatingNewEntity Ch; WorkingSetId := WorkingSetId Ch;
     Actor := Actor Ch; ActorRepState := ActorRepState Ch;
     HandoverShadowDataMap := HandoverShadowDataMap Ch |}.

(** [SpatialViewTick()].  [bNetOwned] is the channel's member of that
    name; the result is the channel, the member, the view and what was
    sent. *)
Definition SpatialViewTick (Env : FChannelEnv) (IsServer : bool)
    (Ch : USpatialActorChannel) (bNetOwned : bool) (View : gmap Z EntityAcl.t)
    : option (USpatialActorChannel * bool * gmap Z EntityAcl.t * list ViewEvent) :=
  if ActorIsValid Env && IsReadyForReplication Env then
    let bOldNetOwned := bNetOwned in
    let bNetOwned :=
      match ActorOwningConnection Env with Some _ => true | None => false end in
    if bFirstTick Ch || negb (eqb bOldNetOwned bNetOwned) then
      if IsServer then
        Updated ← UpdateEntityACLs (SenderEnv Env) (ActorOwningConnection Env)
                    (Actor Ch) (EntityId Ch) View;
        let bSuccess := Updated.1.1 in
        Some (if bFirstTick Ch && bSuccess then set_bFirstTick false Ch else Ch,
              bNetOwned, Updated.1.2, Updated.2)
      else
        Sent ← SendComponentInterest (SenderEnv Env) IsServer (ActorOwningConnection Env)
                 (Actor Ch) (EntityId Ch);
        Some (set_bFirstTick false Ch, bNetOwned, View, Sent)
    else Some (Ch, bNetOwned, View, [])
  else Some (Ch, bNetOwned, View, []).

Module Tick.
(** The scene on a server, with a player behind the actor or not. *)
Definition EnvWith (Owner : option string) : FChannelEnv :=
  {| SenderEnv := SenderEnv Pass.Env;
     MAX_CHANGE_HISTORY := MAX_CHANGE_HISTORY Pass.Env;
     CL_MAX_CHANGE_HISTORY := CL_MAX_CHANGE_HISTORY Pass.Env;
     MergeChangeList := MergeChangeList Pass.Env;
     IsReadyForReplication := true;
     BunchIsError := false;
     ClassNameContains := ClassNameContains Pass.Env;
     ActorOwningConnection := Owner;
     ObjectMemory := ObjectMemory Pass.Env;
     RegisterNewWorkingSet := RegisterNewWorkingSet Pass.Env;
     GetWorkingSetSize := GetWorkingSetSize Pass.Env;
     GetEntityIdFromActor := GetEntityIdFromActor Pass.Env;
     ActorIsValid := true;
     IsSingletonClass := IsSingletonClass Pass.Env;
     IsFullNameStableForNetworking := IsFullNameStableForNetworking Pass.Env;
     NetModeIsServer := true;
     GetHandoverSubobjects := GetHandoverSubobjects Pass.Env |}.

(** A channel on its first tick, and after it. *)
Definition First : USpatialActorChannel := set_bFirstTick true (Pass.Channel false).
Definition Later : USpatialActorChannel := set_bFirstTick false (Pass.Channel false).

(** The access list of entity 7: servers write the client component. *)
Definition Acl : EntityAcl.t :=
  {| EntityAcl.ReadAcl := [["UnrealWorker"]; ["UnrealClient"]];
     EntityAcl.ComponentWriteAcl := {[ 54 := [["UnrealWorker"]];
                                       201 := [["UnrealWorker"]] ]} |}.
End Tick.

(** ** The objects of a new entity *)

(** The actor of a channel and, for each subobject class of its class, the
    default subobject of that class, as [CreateEntity] finds them; no
    result when a class has no class info or no default subobject. *)
Definition CreateEntity_subobject_of (Env : FSenderEnv) (Actor : ObjectId)
    (SubobjectClass : ClassId) : option ObjectId :=
  _ ← FindClassInfoByClass Env SubobjectClass;
  snd <$> list_find (λ Obj, GetClass Env Obj = SubobjectClass)
            (GetDefaultSubobjects Env Actor).

Definition CreateEntity_objects (Env : FSenderEnv) (Actor : ObjectId)
    : option (list ObjectId) :=
  Info ← FindClassInfoByClass Env (GetClass Env Actor);
  Subobjects ← mapM (CreateEntity_subobject_of Env Actor) (SubobjectClasses Info);
  Some (Actor :: Subobjects).

(** The handles of [Object] for which the factory, given the full initial
    change lists, reports objects without entity: fine-grained, or
    handover. *)
Definition initial_unresolved (Env : FSenderEnv) (Channel : ChannelId)
    (bIsHandover : bool) (Object : ObjectId) : gmap Z (gset ObjectId) :=
  match CreateInitialRepChangeState (FindOrCreateReplicator Env Channel Object),
        FindClassInfoByClass Env (GetClass Env Object) with
  | Some InitialRepChanges, Some Info =>
      let Factory :=
        CreateComponentDatas Env Object InitialRepChanges
          (CreateInitialHandoverChangeState (HandoverProperties Info)) in
      if bIsHandover then HandoverUnresolvedObjectsMap Factory
      else UnresolvedObjectsMap Factory
  | _, _ => ∅
  end.

(** * Theorems *)

(** * Properties *)

(** ** Helpers *)

Lemma check_Some b u : check b = Some u ↔ b = true.
Proof. destruct b, u; simpl; split; congruence. Qed.

Lemma check_None b : check b = None ↔ b = false.
Proof. destruct b; simpl; split; congruence. Qed.

Lemma array_get_Some {A} (l : list A) i x :
  array_get l i = Some x ↔ 0 ≤ i ∧ l !! Z.to_nat i = Some x.
Proof.
  unfold array_get. destruct (Z.ltb_spec i 0); split.
  - done.
  - intros [? _]. lia.
  - intros. split; [lia | done].
  - by intros [_ ?].
Qed.

Lemma array_get_set_eq {A} (l : list A) i x y :
  array_get l i = Some y → array_get (array_set l i x) i = Some x.
Proof.
  rewrite !array_get_Some. intros [? H]. split; [done|].
  apply list_lookup_insert_eq. by eapply lookup_lt_Some.
Qed.

Lemma array_get_set_ne {A} (l : list A) i j x :
  0 ≤ i → 0 ≤ j → i ≠ j → array_get (array_set l i x) j = array_get l j.
Proof.
  intros. unfold array_get, array_set. destruct (j <? 0); [done|].
  apply list_lookup_insert_ne. lia.
Qed.

Lemma length_array_set {A} (l : list A) i x : length (array_set l i x) = length l.
Proof. apply length_insert. Qed.


(** Two indices less than a ring length apart fall into different slots. *)
Lemma rem_slots_distinct MAX i k :
  i < k → k - i < MAX → Z.rem k MAX ≠ Z.rem i MAX.
Proof.
  intros Hik Hlt Heq.
  assert (MAX ≠ 0) by lia.
  pose proof (Z.quot_rem' k MAX). pose proof (Z.quot_rem' i MAX).
  assert (k - i = MAX * (Z.quot k MAX - Z.quot i MAX)) as Hm by lia.
  assert (Z.quot k MAX - Z.quot i MAX ≤ 0 ∨ 1 ≤ Z.quot k MAX - Z.quot i MAX) as [?|?] by lia; nia.
Qed.

(** The loop stops with a result only if every entry it met held a change
    list. *)
Lemma UpdateChangelistHistory_loop_nonempty MAX fuel : ∀ i rs rs',
  UpdateChangelistHistory_loop MAX fuel i rs = Some rs' →
  ∀ k, i ≤ k < FRepState.HistoryEnd rs →
  ∃ item, array_get (FRepState.ChangeHistory rs) (Z.rem k MAX) = Some item
          ∧ Changed item ≠ [].
Proof.
  induction fuel as [|fuel IH]; intros i rs rs' Hloop k Hk; simpl in Hloop.
  - destruct (Z.ltb_spec i (FRepState.HistoryEnd rs)); [done | lia].
  - destruct (Z.ltb_spec i (FRepState.HistoryEnd rs)); [| lia].
    destruct (array_get (FRepState.ChangeHistory rs) (Z.rem i MAX)) as [item|] eqn:Hget;
      simpl in Hloop; [| done].
    destruct (check _) eqn:Hchk; simpl in Hloop; [| done].
    apply check_Some in Hchk. apply Z.ltb_lt in Hchk.
    destruct (decide (k = i)) as [-> | Hne].
    + exists item. split; [done|]. destruct (Changed item); [simpl in Hchk; lia | done].
    + apply IH with (k := k) in Hloop; [| simpl; lia].
      destruct Hloop as (item' & Hget' & Hne'). simpl in Hget'.
      destruct (decide (Z.rem k MAX = Z.rem i MAX)) as [Heq | Hidx].
      * rewrite Heq in Hget'. erewrite array_get_set_eq in Hget' by done.
        by simplify_eq.
      * apply array_get_Some in Hget as [? _].
        assert (0 ≤ Z.rem k MAX).
        { apply array_get_Some in Hget' as [? _]. done. }
        rewrite array_get_set_ne in Hget' by done. eauto.
Qed.

(** What the loop leaves: the start cursor is at the end cursor, the
    entries met are emptied, every other slot and both consumer cursors are
    as before. *)
Lemma UpdateChangelistHistory_loop_result MAX fuel : ∀ i rs rs',
  UpdateChangelistHistory_loop MAX fuel i rs = Some rs' →
  i ≤ FRepState.HistoryEnd rs →
  FRepState.HistoryEnd rs - i ≤ MAX →
  FRepState.HistoryEnd rs' = FRepState.HistoryEnd rs
  ∧ FRepState.HistoryStart rs' = FRepState.HistoryStart rs + (FRepState.HistoryEnd rs - i)
  ∧ FRepState.LastChangelistIndex rs' = FRepState.LastChangelistIndex rs
  ∧ FRepState.LastCompareIndex rs' = FRepState.LastCompareIndex rs
  ∧ length (FRepState.ChangeHistory rs') = length (FRepState.ChangeHistory rs)
  ∧ (∀ k, i ≤ k < FRepState.HistoryEnd rs →
       array_get (FRepState.ChangeHistory rs') (Z.rem k MAX) = Some emptied)
  ∧ (∀ j, 0 ≤ j → (∀ k, i ≤ k < FRepState.HistoryEnd rs → Z.rem k MAX ≠ j) →
       array_get (FRepState.ChangeHistory rs') j = array_get (FRepState.ChangeHistory rs) j).
Proof.
  induction fuel as [|fuel IH]; intros i rs rs' Hloop Hi Hcount; simpl in Hloop.
  - destruct (Z.ltb_spec i (FRepState.HistoryEnd rs)); [done|].
    simplify_eq. repeat split; try lia; intros; lia.
  - destruct (Z.ltb_spec i (FRepState.HistoryEnd rs)).
    2:{ simplify_eq. repeat split; try lia; intros; lia. }
    destruct (array_get (FRepState.ChangeHistory rs) (Z.rem i MAX)) as [item|] eqn:Hget;
      simpl in Hloop; [| done].
    destruct (check _) eqn:Hchk; simpl in Hloop; [| done].
    apply IH in Hloop; [| simpl; lia | simpl; lia]. simpl in Hloop.
    destruct Hloop as (HE & HS & HL & HC & Hlen & Hcleared & Hrest).
    rewrite length_array_set in Hlen.
    pose proof Hget as Hget0. apply array_get_Some in Hget0 as [Hidx _].
    repeat split; try lia; try done.
    + intros k Hk. destruct (decide (k = i)) as [-> | Hne].
      * rewrite Hrest; [by erewrite array_get_set_eq | done |].
        intros k' ?. apply rem_slots_distinct; lia.
      * apply Hcleared. lia.
    + intros j Hj Hno. rewrite Hrest; [| done | intros k ?; apply Hno; lia].
      apply array_get_set_ne; [done | done |]. apply Hno. lia.
Qed.

(** The loop has a result when the active entries are fewer than the
    slots and each holds a change list. *)
Lemma UpdateChangelistHistory_loop_total MAX fuel : ∀ i rs,
  (Z.to_nat (FRepState.HistoryEnd rs - i) < fuel)%nat →
  FRepState.HistoryEnd rs - i < MAX →
  (∀ k, i ≤ k < FRepState.HistoryEnd rs →
     ∃ item, array_get (FRepState.ChangeHistory rs) (Z.rem k MAX) = Some item
             ∧ Changed item ≠ []) →
  is_Some (UpdateChangelistHistory_loop MAX fuel i rs).
Proof.
  induction fuel as [|fuel IH]; intros i rs Hfuel Hcount Hentries; [lia|].
  simpl. destruct (Z.ltb_spec i (FRepState.HistoryEnd rs)); [| done].
  destruct (Hentries i) as (item & Hget & Hne); [lia|].
  rewrite Hget. simpl.
  replace (check _) with (Some ()); simpl.
  2:{ symmetry. apply check_Some, Z.ltb_lt. destruct (Changed item); [done | simpl; lia]. }
  apply IH; simpl; [lia | lia |].
  intros k Hk. destruct (Hentries k) as (item' & Hget' & Hne'); [lia|].
  exists item'. split; [| done].
  pose proof Hget as Hget0. apply array_get_Some in Hget0 as [? _].
  pose proof Hget' as Hget0. apply array_get_Some in Hget0 as [? _].
  rewrite array_get_set_ne; [done | done | done |].
  intros Heq. eapply (rem_slots_distinct MAX i k); [lia | lia | done].
Qed.

(** [UpdateChangelistHistory] has a result exactly when the start cursor
    is not past the end cursor, the active entries are fewer than
    [MAX_CHANGE_HISTORY], and each of them holds a change list. *)
Lemma UpdateChangelistHistory_is_Some MAX rs :
  is_Some (UpdateChangelistHistory MAX rs) ↔
  FRepState.HistoryStart rs ≤ FRepState.HistoryEnd rs
  ∧ FRepState.HistoryEnd rs - FRepState.HistoryStart rs < MAX
  ∧ ∀ k, FRepState.HistoryStart rs ≤ k < FRepState.HistoryEnd rs →
      ∃ item, array_get (FRepState.ChangeHistory rs) (Z.rem k MAX) = Some item
              ∧ Changed item ≠ [].
Proof.
  unfold UpdateChangelistHistory. split.
  - intros [rs' H].
    apply bind_Some in H as (? & H1 & H).
    apply bind_Some in H as (? & H2 & H).
    apply bind_Some in H as (rs1 & Hloop & H).
    apply check_Some in H1, H2. apply Z.leb_le in H1. apply Z.ltb_lt in H2.
    split; [done|]. split; [done|].
    by eapply UpdateChangelistHistory_loop_nonempty.
  - intros (H1 & H2 & H3).
    destruct (UpdateChangelistHistory_loop_total MAX
                (S (Z.to_nat (FRepState.HistoryEnd rs - FRepState.HistoryStart rs)))
                (FRepState.HistoryStart rs) rs) as [rs1 Hloop]; [lia | done | done |].
    pose proof Hloop as Hres.
    apply UpdateChangelistHistory_loop_result in Hres as (HE & HS & _); [| done | lia].
    eexists. apply bind_Some. exists (). split; [apply check_Some, Z.leb_le; lia|].
    apply bind_Some. exists (). split; [apply check_Some, Z.ltb_lt; lia|].
    apply bind_Some. exists rs1. split; [done|].
    apply bind_Some. exists (). split; [apply check_Some, Z.leb_le; lia|].
    done.
Qed.

Lemma GatherChangelists_loop_spec MAX CL_MAX Merge cl p fuel : ∀ i rs rs' item0,
  GatherChangelists_loop MAX CL_MAX Merge cl p fuel i rs = Some rs' →
  array_get (FRepState.ChangeHistory rs) p = Some item0 →
  ∃ Lists, SharedListsFrom CL_MAX cl i Lists
    ∧ FRepState.HistoryStart rs' = FRepState.HistoryStart rs
    ∧ FRepState.HistoryEnd rs' = FRepState.HistoryEnd rs
    ∧ FRepState.LastChangelistIndex rs' = FRepState.LastChangelistIndex rs
    ∧ FRepState.LastCompareIndex rs' = FRepState.LastCompareIndex rs
    ∧ FRepState.ChangeHistory rs' =
        array_set (FRepState.ChangeHistory rs) p
          {| Changed := MergeSince Merge (Changed item0) Lists;
             OutPacketIdRange := OutPacketIdRange item0 |}.
Proof.
  unfold SharedListsFrom.
  induction fuel as [|fuel IH]; intros i rs rs' item0 Hloop Hslot; simpl in Hloop.
  - destruct (Z.ltb_spec i (FRepChangelistState.HistoryEnd cl)); [done|].
    simplify_eq. exists []. rewrite seqZ_nil by lia.
    repeat split; try done. simpl. destruct item0. simpl.
    apply array_get_Some in Hslot as [_ Hslot]. unfold array_set.
    by rewrite list_insert_id.
  - destruct (Z.ltb_spec i (FRepChangelistState.HistoryEnd cl)).
    2:{ simplify_eq. exists []. rewrite seqZ_nil by lia.
        repeat split; try done. simpl. destruct item0. simpl.
        apply array_get_Some in Hslot as [_ Hslot]. unfold array_set.
        by rewrite list_insert_id. }
    apply bind_Some in Hloop as (HistoryItem & Hcl & Hloop).
    apply bind_Some in Hloop as (item & Hitem & Hloop).
    rewrite Hslot in Hitem. simplify_eq.
    eapply IH in Hloop; [| simpl; by eapply array_get_set_eq].
    destruct Hloop as (Lists & HLists & HS & HE & HL & HC & Hring).
    simpl in *. exists (Changed HistoryItem :: Lists).
    repeat split; try done.
    + rewrite seqZ_cons by lia. constructor.
      * by rewrite Hcl.
      * by replace (Z.succ i) with (i + 1) by lia;
          replace (Z.pred (FRepChangelistState.HistoryEnd cl - i))
            with (FRepChangelistState.HistoryEnd cl - (i + 1)) by lia.
    + rewrite Hring. unfold array_set. by rewrite list_insert_insert_eq.
Qed.

Lemma GatherChangelists_spec MAX CL_MAX Merge cl rs rs' RepChanged :
  GatherChangelists MAX CL_MAX Merge cl rs = Some (rs', RepChanged) →
  ∃ item0 Lists,
    array_get (FRepState.ChangeHistory rs) (Z.rem (FRepState.HistoryEnd rs) MAX) = Some item0
    ∧ SharedListsFrom CL_MAX cl (FRepState.LastChangelistIndex rs) Lists
    ∧ RepChanged = MergeSince Merge (Changed item0) Lists
    ∧ FRepState.HistoryStart rs' = FRepState.HistoryStart rs
    ∧ FRepState.HistoryEnd rs' = FRepState.HistoryEnd rs
    ∧ FRepState.LastChangelistIndex rs' = FRepState.LastChangelistIndex rs
    ∧ FRepState.ChangeHistory rs' =
        array_set (FRepState.ChangeHistory rs) (Z.rem (FRepState.HistoryEnd rs) MAX)
          {| Changed := RepChanged; OutPacketIdRange := OutPacketIdRange item0 |}.
Proof.
  unfold GatherChangelists. intros H.
  apply bind_Some in H as (item0 & Hslot & H).
  apply bind_Some in H as (rs1 & Hloop & H).
  apply bind_Some in H as (item1 & Hslot1 & H).
  eapply GatherChangelists_loop_spec in Hloop as (Lists & HLists & HS & HE & HL & HC & Hring);
    [| done].
  rewrite Hring in Hslot1. erewrite array_get_set_eq in Hslot1 by done.
  simplify_eq. simpl. exists item0, Lists. by rewrite Hring.
Qed.

(** ** Calls on the sender *)

Lemma M_bind_Some {A B} (m : M A) (k : A → M B) Sender b Sender2 evs :
  M_bind m k Sender = Some (b, Sender2, evs) ↔
  ∃ a Sender1 e1 e2,
    m Sender = Some (a, Sender1, e1) ∧ k a Sender1 = Some (b, Sender2, e2)
    ∧ evs = e1 ++ e2.
Proof.
  unfold M_bind. split.
  - destruct (m Sender) as [[[a Sender1] e1]|]; [| done].
    destruct (k a Sender1) as [[[b' Sender2'] e2]|] eqn:Hk; [| done].
    intros ?; simplify_eq. by exists a, Sender1, e1, e2.
  - intros (a & Sender1 & e1 & e2 & -> & -> & ->). done.
Qed.

Lemma SendComponentUpdates_first_event Env Object Channel RepChanges HandoverChanges
    Sender u Sender' evs :
  SendComponentUpdates Env Object Channel RepChanges HandoverChanges Sender
    = Some (u, Sender', evs) →
  ∃ rest, evs = EvSendComponentUpdates Channel Object (RepChanged <$> RepChanges)
                  HandoverChanges :: rest.
Proof.
  unfold SendComponentUpdates. intros H.
  apply M_bind_Some in H as (? & ? & e1 & e2 & Hemit & _ & ->).
  unfold M_emit in Hemit. simplify_eq. by eexists.
Qed.

Lemma nonempty_true l : nonempty l = true ↔ l ≠ [].
Proof.
  unfold nonempty. destruct l; simpl; split; done.
Qed.

(** The steps of a pass that gets past the two early exits. *)
Lemma ReplicateActor_inv Env Self cl Ch Sender wrote Ch' Sender' evs :
  IsReadyForReplication Env = true → BunchIsError Env = false →
  ReplicateActor Env Self cl Ch Sender = Some (wrote, Ch', Sender', evs) →
  ∃ Ch1 Merged Handover Ch2 rs',
    ReplicateActor_changes Env cl Ch = Some (Ch1, Merged, Handover)
    ∧ wrote = bCreatingNewEntity Ch1 || nonempty Merged || nonempty Handover
    ∧ (if wrote then
         if bCreatingNewEntity Ch1
         then ReplicateActor_create Env Self Ch1 Sender = Some (Ch2, Sender', evs)
         else Ch2 = Ch1
              ∧ SendComponentUpdates (Channel_SenderEnv Env Self Ch1) (Actor Ch1) Self
                  (Some {| RepChanged := Merged;
                           RepLayout := FindOrCreateReplicator (SenderEnv Env) Self (Actor Ch1) |})
                  (Some Handover) Sender = Some ((), Sender', evs)
       else Ch2 = Ch1 ∧ Sender' = Sender ∧ evs = [])
    ∧ ActorRepState Ch2 = ActorRepState Ch1
    ∧ UpdateChangelistHistory (MAX_CHANGE_HISTORY Env)
        (HistoryEnd_incremented (wrote && nonempty Merged) (ActorRepState Ch1)) = Some rs'
    ∧ bCreatingNewEntity Ch' = false
    ∧ Actor Ch' = Actor Ch2
    ∧ EntityId Ch' = EntityId Ch2
    ∧ HandoverShadowDataMap Ch' = HandoverShadowDataMap Ch2
    ∧ FRepState.HistoryStart (ActorRepState Ch') = FRepState.HistoryStart rs'
    ∧ FRepState.HistoryEnd (ActorRepState Ch') = FRepState.HistoryEnd rs'
    ∧ FRepState.ChangeHistory (ActorRepState Ch') = FRepState.ChangeHistory rs'
    ∧ FRepState.LastChangelistIndex (ActorRepState Ch')
        = FRepChangelistState.HistoryEnd cl.
Proof.
  intros Hready Hbunch. unfold ReplicateActor. rewrite Hready, Hbunch. simpl.
  intros H.
  apply bind_Some in H as ([[Ch1 Merged] Handover] & Hchanges & H). simpl in H.
  apply bind_Some in H as ([[[w Ch3] Sender3] evs3] & Hsent & H). simpl in H.
  apply bind_Some in H as (rs' & Hupd & H). simplify_eq. simpl.
  fold (nonempty Merged) in *. fold (nonempty Handover) in *.
  destruct (bCreatingNewEntity Ch1 || nonempty Merged || nonempty Handover) eqn:Hcond.
  - apply bind_Some in Hsent as ([[Ch2 Sender2] evs2] & Hsend & Hsent).
    simpl in Hsent. simplify_eq. simpl in *.
    exists Ch1, Merged, Handover, Ch2, rs'.
    assert (ActorRepState Ch2 = ActorRepState Ch1) as HRS.
    { destruct (bCreatingNewEntity Ch1).
      - unfold ReplicateActor_create in Hsend.
        destruct (IsAValidWorkingSet _ _); simplify_eq; [done|].
        destruct (SendCreateEntityRequest _ _ _ _ _) as [[[? ?] ?]|]; by simplify_eq.
      - destruct (SendComponentUpdates _ _ _ _ _ _) as [[[? ?] ?]|]; by simplify_eq. }
    split; [done|]. split; [done|]. split.
    { destruct (bCreatingNewEntity Ch1); [done|].
      destruct (SendComponentUpdates _ _ _ _ _ _) as [[[[] ?] ?]|]; by simplify_eq. }
    split; [done|]. split.
    { rewrite <- Hupd. f_equal. unfold HistoryEnd_incremented, set_ActorRepState. simpl.
      rewrite HRS. by destruct (nonempty Merged). }
    done.
  - simplify_eq. simpl in *. do 5 eexists.
    split; [done|]. rewrite Hcond. simpl. repeat split; try done.
Qed.

Lemma ReplicateActor_changes_inv Env cl Ch Ch1 Merged Handover :
  ReplicateActor_changes Env cl Ch = Some (Ch1, Merged, Handover) →
  ∃ rs1 Shadow Shadow',
    GatherChangelists (MAX_CHANGE_HISTORY Env) (CL_MAX_CHANGE_HISTORY Env)
      (MergeChangeList Env) cl (ActorRepState Ch) = Some (rs1, Merged)
    ∧ HandoverShadowDataMap Ch !! Actor Ch = Some Shadow
    ∧ GetHandoverChangeList (bCreatingNewEntity Ch)
        (HandoverProperties <$>
           FindClassInfoByClass (SenderEnv Env) (GetClass (SenderEnv Env) (Actor Ch)))
        Shadow (ObjectMemory Env (Actor Ch)) = Some (Handover, Shadow')
    ∧ ActorRepState Ch1 = rs1
    ∧ bCreatingNewEntity Ch1 = bCreatingNewEntity Ch
    ∧ Actor Ch1 = Actor Ch
    ∧ EntityId Ch1 = EntityId Ch
    ∧ WorkingSetId Ch1 = WorkingSetId Ch
    ∧ HandoverShadowDataMap Ch1 = <[Actor Ch := Shadow']> (HandoverShadowDataMap Ch).
Proof.
  unfold ReplicateActor_changes. intros H.
  apply bind_Some in H as ([rs1 M] & HG & H).
  apply bind_Some in H as (Shadow & HS & H).
  apply bind_Some in H as ([Hd Shadow'] & HH & H).
  simplify_eq. simpl. by exists rs1, Shadow, Shadow'.
Qed.

(** C7. The ring never holds as many entries as it has slots.
    [UpdateChangelistHistory] goes through exactly when the start cursor is
    not past the end cursor, [HistoryEnd - HistoryStart] is below
    [MAX_CHANGE_HISTORY] and every entry in between holds a non-empty change
    list; it then leaves no active entry.  A ring on which the end cursor is
    [MAX_CHANGE_HISTORY] entries ahead of the start cursor or more, as
    after [MAX_CHANGE_HISTORY + 1] appends without a retirement, is
    rejected by the [check]: the call has no result. *)
Theorem ring_capacity_checked (MAX : Z) (rs : FRepState.t) :
  (∀ rs', UpdateChangelistHistory MAX rs = Some rs' →
     0 ≤ FRepState.HistoryEnd rs - FRepState.HistoryStart rs < MAX
     ∧ (∀ k, FRepState.HistoryStart rs ≤ k < FRepState.HistoryEnd rs →
          ∃ item, array_get (FRepState.ChangeHistory rs) (Z.rem k MAX) = Some item
                  ∧ Changed item ≠ [])
     ∧ FRepState.HistoryEnd rs' - FRepState.HistoryStart rs' = 0)
  ∧ (MAX ≤ FRepState.HistoryEnd rs - FRepState.HistoryStart rs →
     UpdateChangelistHistory MAX rs = None)
  ∧ (FRepState.HistoryEnd rs = FRepState.HistoryStart rs + (MAX + 1) →
     UpdateChangelistHistory MAX rs = None).
Proof.
  assert (MAX ≤ FRepState.HistoryEnd rs - FRepState.HistoryStart rs →
          UpdateChangelistHistory MAX rs = None) as Hfull.
  { intros Hfull. apply eq_None_not_Some. intros Hsome.
    apply UpdateChangelistHistory_is_Some in Hsome. lia. }
  split; [| split; [done | intros; apply Hfull; lia]].
  intros rs' Hupd.
  assert (is_Some (UpdateChangelistHistory MAX rs)) as Hsome by eauto.
  apply UpdateChangelistHistory_is_Some in Hsome as (H1 & H2 & H3).
  split; [lia|]. split; [done|].
  unfold UpdateChangelistHistory in Hupd.
  apply bind_Some in Hupd as (? & _ & Hupd).
  apply bind_Some in Hupd as (? & _ & Hupd).
  apply bind_Some in Hupd as (rs1 & Hloop & Hupd).
  apply bind_Some in Hupd as (? & _ & Hupd).
  apply UpdateChangelistHistory_loop_result in Hloop as (HE & HS & _); [| done | lia].
  simplify_eq. simpl. lia.
Qed.




(** ** Events of the sender's calls *)

Lemma M_on_containers_Some bIsHandover f Sender u Sender' evs :
  M_on_containers bIsHandover f Sender = Some (u, Sender', evs) ↔
  ∃ U, f (containers bIsHandover Sender) = Some U
       ∧ Sender' = set_containers bIsHandover U Sender ∧ evs = [].
Proof.
  unfold M_on_containers. destruct (f _) as [U|]; split.
  - intros ?; simplify_eq. by exists U.
  - intros (U' & ? & -> & ->). destruct u. by simplify_eq.
  - done.
  - by intros (U' & ? & _).
Qed.

Lemma M_for_Some_cons {A} (a : A) l body Sender u Sender' evs :
  M_for (a :: l) body Sender = Some (u, Sender', evs) ↔
  ∃ Sender1 e1 e2,
    body a Sender = Some ((), Sender1, e1)
    ∧ M_for l body Sender1 = Some (u, Sender', e2) ∧ evs = e1 ++ e2.
Proof.
  simpl. rewrite M_bind_Some. split.
  - intros ([] & Sender1 & e1 & e2 & ? & ? & ?). by exists Sender1, e1, e2.
  - intros (Sender1 & e1 & e2 & ? & ? & ?). by exists (), Sender1, e1, e2.
Qed.

(** A loop whose rounds emit nothing emits nothing. *)
Lemma M_for_silent {A} (l : list A) body :
  (∀ a Sender u Sender' evs, body a Sender = Some (u, Sender', evs) → evs = []) →
  ∀ Sender u Sender' evs, M_for l body Sender = Some (u, Sender', evs) → evs = [].
Proof.
  intros Hbody. induction l as [|a l IH]; intros Sender u Sender' evs H.
  - unfold M_for, M_ret in H. by simplify_eq.
  - apply M_for_Some_cons in H as (Sender1 & e1 & e2 & H1 & H2 & ->).
    apply Hbody in H1 as ->. by apply IH in H2 as ->.
Qed.

Lemma QueueOutgoingUpdate_silent C O h Objs b Sender u Sender' evs :
  QueueOutgoingUpdate C O h Objs b Sender = Some (u, Sender', evs) → evs = [].
Proof. intros H. by apply M_on_containers_Some in H as (? & _ & _ & ->). Qed.




Lemma CreateEntity_object_inv Env Channel Object Info Sender Datas Sender' evs :
  CreateEntity_object Env Channel Object Info Sender = Some (Datas, Sender', evs) →
  ∃ InitialRepChanges,
    CreateInitialRepChangeState (FindOrCreateReplicator Env Channel Object)
      = Some InitialRepChanges
    ∧ Datas = FactoryComponentData <$>
        Payloads (CreateComponentDatas Env Object InitialRepChanges
                    (CreateInitialHandoverChangeState (HandoverProperties Info)))
    ∧ evs = [].
Proof.
  unfold CreateEntity_object. intros H.
  apply M_bind_Some in H as (? & ? & ? & ? & Hinit & H & ->). inv_lift Hinit.
  apply M_bind_Some in H as (? & ? & ? & ? & H1 & H & ->).
  eapply M_for_silent in H1 as ->;
    [| intros; by eapply QueueOutgoingUpdate_silent].
  apply M_bind_Some in H as (? & ? & ? & ? & H1 & H & ->).
  eapply M_for_silent in H1 as ->;
    [| intros; by eapply QueueOutgoingUpdate_silent].
  inv_ret H. by eexists.
Qed.

Lemma CreateEntity_subobjects_silent Env Channel Subs Classes :
  ∀ Sender Datas Sender' evs,
  CreateEntity_subobjects Env Channel Subs Classes Sender = Some (Datas, Sender', evs) →
  evs = [].
Proof.
  induction Classes as [|Class Classes IH]; intros Sender Datas Sender' evs H; simpl in H.
  - by inv_ret H.
  - apply M_bind_Some in H as (? & ? & ? & ? & H1 & H & ->). inv_lift H1.
    apply M_bind_Some in H as (? & ? & ? & ? & H1 & H & ->). inv_lift H1.
    apply M_bind_Some in H as (? & ? & ? & ? & H1 & H & ->). apply CreateEntity_object_inv in H1 as (? & _ & _ & ->).
    apply M_bind_Some in H as (? & ? & ? & ? & H1 & H & ->). apply IH in H1 as ->. by inv_ret H.
Qed.




(** ** The two indices of pending updates *)

Lemma map_Num_is_zero_true {K} `{Countable K} {V} (m : gmap K V) :
  map_Num_is_zero m = true ↔ m = ∅.
Proof.
  unfold map_Num_is_zero. rewrite bool_decide_eq_true. apply map_size_empty_iff.
Qed.

Lemma set_Num_is_zero_true {K} `{Countable K} (s : gset K) :
  set_Num_is_zero s = true ↔ s = ∅.
Proof.
  unfold set_Num_is_zero. rewrite bool_decide_eq_true, size_empty_iff.
  by unfold_leibniz.
Qed.

(** Removing a handle from a map of maps, dropping the inner map when it
    is left empty, as the three functions do. *)
Lemma lookup_prune_inner {K} `{Countable K} (M : gmap K (gmap Z FUnresolvedEntry))
    (k : K) (m : gmap Z FUnresolvedEntry) (h : Z) (k' : K) (h' : Z) :
  M !! k = Some m →
  (if map_Num_is_zero (delete h m) then delete k M else <[k := delete h m]> M) !! k'
    ≫= (λ m', m' !! h')
  = if decide (k' = k ∧ h' = h) then None else M !! k' ≫= (λ m', m' !! h').
Proof.
  intros Hm. destruct (map_Num_is_zero (delete h m)) eqn:Hz.
  - apply map_Num_is_zero_true in Hz.
    destruct (decide (k' = k)) as [-> | Hk].
    + rewrite lookup_delete_eq. simpl. case_decide as Hd; [done|].
      rewrite Hm. simpl.
      assert (h' ≠ h) by intuition congruence.
      rewrite <- (lookup_delete_ne m h h') by done. by rewrite Hz, lookup_empty.
    + rewrite lookup_delete_ne by done. case_decide; intuition congruence.
  - destruct (decide (k' = k)) as [-> | Hk].
    + rewrite lookup_insert_eq, Hm. simpl. case_decide as Hd.
      * destruct Hd as [_ ->]. by rewrite lookup_delete_eq.
      * rewrite lookup_delete_ne; [done | intuition congruence].
    + rewrite lookup_insert_ne by done. case_decide; intuition congruence.
Qed.

Lemma ResetOutgoingUpdate_step_spec p h Rev T Rev' :
  ResetOutgoingUpdate_step p h Rev T = Some Rev' →
  ∀ T' p' h', rev_lookup Rev' T' p' h'
              = if decide (T' = T ∧ p' = p ∧ h' = h) then None
                else rev_lookup Rev T' p' h'.
Proof.
  unfold ResetOutgoingUpdate_step. intros Hstep T' p' h'.
  apply bind_Some in Hstep as (mT & HT & Hstep).
  apply bind_Some in Hstep as (mp & Hp & Hstep).
  unfold rev_lookup.
  destruct (decide (T' = T)) as [-> | HneT].
  2:{ rewrite decide_False by intuition congruence.
      destruct (map_Num_is_zero (delete h mp)); [destruct (map_Num_is_zero _)|];
        simplify_eq; by rewrite ?lookup_delete_ne, ?lookup_insert_ne by done. }
  rewrite HT. simpl.
  pose proof (lookup_prune_inner mT p mp h p' h' Hp) as Hprune.
  destruct (map_Num_is_zero (delete h mp)) eqn:Hz1.
  - destruct (map_Num_is_zero (delete p mT)) eqn:Hz2; simplify_eq.
    + rewrite lookup_delete_eq. simpl.
      apply map_Num_is_zero_true in Hz2. rewrite Hz2, lookup_empty in Hprune.
      simpl in Hprune. case_decide as Hd1; case_decide as Hd2; try done; intuition congruence.
    + rewrite lookup_insert_eq. simpl. rewrite Hprune.
      case_decide as Hd1; case_decide as Hd2; try done; intuition congruence.
  - simplify_eq. rewrite lookup_insert_eq. simpl. rewrite Hprune.
    case_decide as Hd1; case_decide as Hd2; try done; intuition congruence.
Qed.

Lemma ResetOutgoingUpdate_step_is_Some p h Rev T :
  is_Some (Rev !! T ≫= λ m, m !! p) → is_Some (ResetOutgoingUpdate_step p h Rev T).
Proof.
  unfold ResetOutgoingUpdate_step. intros [mp Hmp].
  apply bind_Some in Hmp as (mT & -> & Hp). simpl. rewrite Hp. simpl.
  destruct (map_Num_is_zero _); [destruct (map_Num_is_zero _)|]; eauto.
Qed.

Lemma foldM_app {A B} (f : B → A → option B) l1 l2 b :
  foldM f (l1 ++ l2) b = foldM f l1 b ≫= foldM f l2.
Proof.
  revert b. induction l1 as [|a l1 IH]; intros b; simpl; [done|].
  destruct (f b a); simpl; [apply IH | done].
Qed.

(** The loop of [ResetOutgoingUpdate] over the targets of an entry. *)
Lemma ResetOutgoingUpdate_loop_spec p h (Ts : list ObjectId) : ∀ Rev Rev',
  foldM (ResetOutgoingUpdate_step p h) Ts Rev = Some Rev' →
  ∀ T' p' h', rev_lookup Rev' T' p' h'
              = if decide (T' ∈ Ts ∧ p' = p ∧ h' = h) then None
                else rev_lookup Rev T' p' h'.
Proof.
  induction Ts as [|T Ts IH]; intros Rev Rev' Hfold T' p' h'; simpl in Hfold.
  - simplify_eq. rewrite decide_False; [done|]. rewrite elem_of_nil. tauto.
  - apply bind_Some in Hfold as (Rev1 & Hstep & Hfold).
    rewrite (IH _ _ Hfold), (ResetOutgoingUpdate_step_spec _ _ _ _ _ Hstep).
    repeat case_decide; try done; exfalso;
      repeat match goal with H : context [_ ∈ _ :: _] |- _ => rewrite elem_of_cons in H end;
      intuition congruence.
Qed.

Lemma ResetOutgoingUpdate_loop_is_Some p h (Ts : list ObjectId) : ∀ Rev,
  NoDup Ts →
  (∀ T, T ∈ Ts → is_Some (rev_lookup Rev T p h)) →
  is_Some (foldM (ResetOutgoingUpdate_step p h) Ts Rev).
Proof.
  induction Ts as [|T Ts IH]; intros Rev Hnd Hall; simpl; [done|].
  apply NoDup_cons in Hnd as [HT Hnd].
  destruct (ResetOutgoingUpdate_step_is_Some p h Rev T) as [Rev1 Hstep].
  { destruct (Hall T) as [e He]; [set_solver|].
    unfold rev_lookup in He. apply bind_Some in He as (mT & HmT & He).
    apply bind_Some in He as (mp & Hmp & He). rewrite HmT. simpl. eauto. }
  rewrite Hstep. simpl. apply IH; [done|].
  intros T' HT'. rewrite (ResetOutgoingUpdate_step_spec _ _ _ _ _ Hstep).
  rewrite decide_False; [apply Hall; set_solver|]. intros (-> & _). done.
Qed.

Lemma QueueOutgoingUpdate_step_Some p h e Rev T Rev' :
  QueueOutgoingUpdate_step p h e Rev T = Some Rev' →
  rev_lookup Rev T p h = None
  ∧ ∀ T' p' h', rev_lookup Rev' T' p' h'
                = if decide (T' = T ∧ p' = p ∧ h' = h) then Some e
                  else rev_lookup Rev T' p' h'.
Proof.
  unfold QueueOutgoingUpdate_step. intros Hstep.
  apply bind_Some in Hstep as (? & Hchk & Hstep).
  apply check_Some, bool_decide_eq_true in Hchk. simplify_eq.
  assert (rev_lookup Rev T p h = None) as Hnone.
  { unfold rev_lookup. destruct (Rev !! T) as [mT|]; simpl in *; [| done].
    destruct (mT !! p) as [mp|]; simpl in *; done. }
  split; [done|]. intros T' p' h'. unfold rev_lookup in *.
  destruct (decide (T' = T)) as [-> | HneT].
  2:{ rewrite lookup_insert_ne by done. rewrite decide_False; [done | tauto]. }
  rewrite lookup_insert_eq. simpl.
  destruct (decide (p' = p)) as [-> | Hnep].
  2:{ rewrite lookup_insert_ne by done. rewrite decide_False by tauto.
      destruct (Rev !! T); simpl; [done|]. by rewrite lookup_empty. }
  rewrite lookup_insert_eq. simpl.
  destruct (decide (h' = h)) as [-> | Hneh].
  - rewrite lookup_insert_eq. by rewrite decide_True.
  - rewrite lookup_insert_ne by done. rewrite decide_False by tauto.
    destruct (Rev !! T) as [mT|]; simpl; [| by rewrite lookup_empty].
    destruct (mT !! p); simpl; [done | by rewrite lookup_empty].
Qed.

Lemma QueueOutgoingUpdate_step_is_Some p h e Rev T :
  rev_lookup Rev T p h = None → is_Some (QueueOutgoingUpdate_step p h e Rev T).
Proof.
  unfold QueueOutgoingUpdate_step, rev_lookup. intros Hnone.
  replace (check _) with (Some ()); [simpl; eauto|].
  symmetry. apply check_Some, bool_decide_eq_true.
  destruct (Rev !! T) as [mT|]; simpl in *; [| by rewrite lookup_empty].
  destruct (mT !! p); simpl in *; [done | by rewrite lookup_empty].
Qed.

(** The loop of [QueueOutgoingUpdate] over the targets. *)
Lemma QueueOutgoingUpdate_loop_Some p h e (Ts : list ObjectId) : ∀ Rev Rev',
  foldM (QueueOutgoingUpdate_step p h e) Ts Rev = Some Rev' →
  (∀ T, T ∈ Ts → rev_lookup Rev T p h = None)
  ∧ ∀ T' p' h', rev_lookup Rev' T' p' h'
                = if decide (T' ∈ Ts ∧ p' = p ∧ h' = h) then Some e
                  else rev_lookup Rev T' p' h'.
Proof.
  induction Ts as [|T Ts IH]; intros Rev Rev' Hfold; simpl in Hfold.
  - simplify_eq. split; [intros T HT; by apply elem_of_nil in HT|].
    intros. rewrite decide_False; [done|]. rewrite elem_of_nil. tauto.
  - apply bind_Some in Hfold as (Rev1 & Hstep & Hfold).
    apply QueueOutgoingUpdate_step_Some in Hstep as [Hnone Hstep].
    apply IH in Hfold as [Hnones Hfold]. split.
    + intros T' HT'. apply elem_of_cons in HT' as [-> | HT']; [done|].
      specialize (Hnones T' HT'). rewrite Hstep in Hnones.
      case_decide; [done | done].
    + intros T' p' h'. rewrite Hfold, Hstep.
      repeat case_decide; try done; exfalso;
        repeat match goal with H : context [_ ∈ _ :: _] |- _ => rewrite elem_of_cons in H end;
        intuition congruence.
Qed.

Lemma QueueOutgoingUpdate_loop_is_Some p h e (Ts : list ObjectId) : ∀ Rev,
  NoDup Ts →
  (∀ T, T ∈ Ts → rev_lookup Rev T p h = None) →
  is_Some (foldM (QueueOutgoingUpdate_step p h e) Ts Rev).
Proof.
  induction Ts as [|T Ts IH]; intros Rev Hnd Hall; simpl; [done|].
  apply NoDup_cons in Hnd as [HT Hnd].
  destruct (QueueOutgoingUpdate_step_is_Some p h e Rev T) as [Rev1 Hstep].
  { apply Hall. set_solver. }
  rewrite Hstep. simpl. apply IH; [done|].
  intros T' HT'. apply QueueOutgoingUpdate_step_Some in Hstep as [_ Hstep].
  rewrite Hstep, decide_False; [apply Hall; set_solver|]. intros (-> & _). done.
Qed.

(** [ResetOutgoingUpdate] on the containers: without entry for the pair
    and the handle nothing changes; otherwise the entry leaves the forward
    index and the reverse index of each object of its set. *)
Lemma ResetOutgoingUpdate_on_spec p h U U' :
  ResetOutgoingUpdate_on p h U = Some U' →
  match fwd_get U p h with
  | None => U' = U
  | Some e =>
      ∃ S, UnresolvedSets U !! e = Some S
        ∧ (∀ p' h', fwd_get U' p' h'
                    = if decide (p' = p ∧ h' = h) then None else fwd_get U p' h')
        ∧ (∀ T p' h', rev_get U' T p' h'
                      = if decide (T ∈ S ∧ p' = p ∧ h' = h) then None
                        else rev_get U T p' h')
        ∧ UnresolvedSets U' = UnresolvedSets U
        ∧ NextUnresolvedEntry U' = NextUnresolvedEntry U
  end.
Proof.
  unfold ResetOutgoingUpdate_on, fwd_get. intros H.
  destruct (PropertyToUnresolved U !! p) as [m|] eqn:Hm; simpl; [| by simplify_eq].
  destruct (m !! h) as [e|] eqn:He; [| by simplify_eq].
  apply bind_Some in H as (S & HS & H).
  apply bind_Some in H as (Rev' & Hloop & H). simplify_eq.
  exists S. split; [done|]. simpl. split; [| split; [| done]].
  - intros p' h'. by apply lookup_prune_inner.
  - intros T p' h'. unfold rev_get. simpl.
    rewrite (ResetOutgoingUpdate_loop_spec _ _ _ _ _ Hloop).
    repeat case_decide; try done; exfalso;
      repeat match goal with H : context [_ ∈ elements _] |- _ => rewrite elem_of_elements in H end;
      intuition congruence.
Qed.

Lemma ResetOutgoingUpdate_on_absent p h U :
  fwd_get U p h = None → ResetOutgoingUpdate_on p h U = Some U.
Proof.
  unfold ResetOutgoingUpdate_on, fwd_get. intros H.
  destruct (PropertyToUnresolved U !! p) as [m|]; simpl in *; [| done].
  by rewrite H.
Qed.

Lemma ResetOutgoingUpdate_on_is_Some p h U :
  (∀ e, fwd_get U p h = Some e →
     ∃ S, UnresolvedSets U !! e = Some S ∧ ∀ T, T ∈ S → is_Some (rev_get U T p h)) →
  is_Some (ResetOutgoingUpdate_on p h U).
Proof.
  intros Hok. unfold ResetOutgoingUpdate_on, fwd_get in *.
  destruct (PropertyToUnresolved U !! p) as [m|]; simpl in *; [| done].
  destruct (m !! h) as [e|]; [| done].
  destruct (Hok e eq_refl) as (S & -> & Hall). simpl.
  destruct (ResetOutgoingUpdate_loop_is_Some p h (elements S) (ObjectToUnresolved U))
    as [Rev' ->]; [apply NoDup_elements | | done].
  intros T HT. apply Hall. by apply elem_of_elements.
Qed.

(** [QueueOutgoingUpdate] on the containers: it goes through only when
    neither index holds the pair and the handle; a new entry for the set
    then enters the forward index and the reverse index of each target. *)
Lemma QueueOutgoingUpdate_on_spec p h S U U' :
  QueueOutgoingUpdate_on p h S U = Some U' →
  fwd_get U p h = None
  ∧ (∀ T, T ∈ S → rev_get U T p h = None)
  ∧ (∀ p' h', fwd_get U' p' h'
              = if decide (p' = p ∧ h' = h) then Some (NextUnresolvedEntry U)
                else fwd_get U p' h')
  ∧ (∀ T p' h', rev_get U' T p' h'
                = if decide (T ∈ S ∧ p' = p ∧ h' = h) then Some (NextUnresolvedEntry U)
                  else rev_get U T p' h')
  ∧ UnresolvedSets U' = <[NextUnresolvedEntry U := S]> (UnresolvedSets U)
  ∧ NextUnresolvedEntry U' = Datatypes.S (NextUnresolvedEntry U).
Proof.
  unfold QueueOutgoingUpdate_on. intros H.
  apply bind_Some in H as (? & Hchk & H).
  apply check_Some, bool_decide_eq_true in Hchk.
  apply bind_Some in H as (Rev' & Hloop & H). simplify_eq. simpl.
  apply QueueOutgoingUpdate_loop_Some in Hloop as [Hnone Hloop].
  assert (fwd_get U p h = None) as Hf.
  { unfold fwd_get. destruct (PropertyToUnresolved U !! p); simpl in *; done. }
  split; [done|]. split.
  { intros T HT. apply Hnone. by apply elem_of_elements. }
  split; [| split; [| done]].
  - intros p' h'. unfold fwd_get in *. simpl.
    destruct (decide (p' = p)) as [-> | Hp].
    + rewrite lookup_insert_eq. simpl. destruct (decide (h' = h)) as [-> | Hh].
      * rewrite lookup_insert_eq. by rewrite decide_True.
      * rewrite lookup_insert_ne by done. rewrite decide_False by tauto.
        destruct (PropertyToUnresolved U !! p); simpl; [done | by rewrite lookup_empty].
    + rewrite lookup_insert_ne by done. rewrite decide_False; [done | tauto].
  - intros T p' h'. unfold rev_get. simpl. rewrite Hloop.
    repeat case_decide; try done; exfalso;
      repeat match goal with H : context [_ ∈ elements _] |- _ => rewrite elem_of_elements in H end;
      intuition congruence.
Qed.

Lemma QueueOutgoingUpdate_on_is_Some p h S U :
  fwd_get U p h = None →
  (∀ T, T ∈ S → rev_get U T p h = None) →
  is_Some (QueueOutgoingUpdate_on p h S U).
Proof.
  intros Hf Hr. unfold QueueOutgoingUpdate_on.
  replace (check _) with (Some ()).
  2:{ symmetry. apply check_Some, bool_decide_eq_true. unfold fwd_get in Hf.
      destruct (PropertyToUnresolved U !! p); simpl in *; [done | by rewrite lookup_empty]. }
  simpl.
  destruct (QueueOutgoingUpdate_loop_is_Some p h (NextUnresolvedEntry U) (elements S)
              (ObjectToUnresolved U)) as [Rev' ->]; [apply NoDup_elements | | done].
  intros T HT. apply Hr. by apply elem_of_elements.
Qed.

(** *** Invariants of the two indices *)


Lemma WellFormed_empty : WellFormed FUnresolvedContainers_empty.
Proof.
  repeat split; intros *; unfold fwd_get, rev_get, rev_lookup; simpl;
    rewrite ?lookup_empty; simpl; try done; intros; done.
Qed.

Lemma Inv_weaken (P Q : ObjectId → Prop) U :
  (∀ T, Q T → P T) → Inv P U → Inv Q U.
Proof. intros HPQ (Hs & Ha & Hu). split; [| done]. intros T p h e HT. apply Hs. auto. Qed.

Lemma complete_on_weaken (P Q : ObjectId → Prop) U :
  (∀ T, Q T → P T) → complete_on P U → complete_on Q U.
Proof. intros HPQ Hc T p h e S HT. apply Hc. auto. Qed.

Lemma ResetOutgoingUpdate_on_Inv P p h U U' :
  Inv P U → ResetOutgoingUpdate_on p h U = Some U' → Inv P U'.
Proof.
  intros (Hs & Ha & Hu) Hreset. apply ResetOutgoingUpdate_on_spec in Hreset.
  destruct (fwd_get U p h) as [e|] eqn:He; [| by subst].
  destruct Hreset as (S & HS & Hfwd & Hrev & Hsets & Hnext).
  split; [| split].
  - intros T p' h' e' HT Hr. rewrite Hrev in Hr. case_decide as Hd; [done|].
    destruct (Hs T p' h' e' HT Hr) as (Hf & S' & HS' & HTS').
    rewrite Hfwd, Hsets. case_decide as Hd'; [| eauto].
    destruct Hd' as [-> ->]. rewrite He in Hf. simplify_eq. tauto.
  - intros p' h' e' Hf. rewrite Hfwd in Hf. case_decide; [done|].
    rewrite Hsets, Hnext. by eapply Ha.
  - intros p1 h1 p2 h2 e' H1 H2. rewrite Hfwd in H1, H2.
    repeat case_decide; try done. by eapply Hu.
Qed.

Lemma ResetOutgoingUpdate_on_complete P p h U U' :
  complete_on P U → ResetOutgoingUpdate_on p h U = Some U' → complete_on P U'.
Proof.
  intros Hc Hreset. apply ResetOutgoingUpdate_on_spec in Hreset.
  destruct (fwd_get U p h) as [e|] eqn:He; [| by subst].
  destruct Hreset as (S & HS & Hfwd & Hrev & Hsets & Hnext).
  intros T p' h' e' S' HT Hf HS' HTS'. rewrite Hfwd in Hf. rewrite Hsets in HS'.
  case_decide as Hd; [done|]. rewrite Hrev. rewrite decide_False by tauto.
  by eapply Hc.
Qed.

Lemma QueueOutgoingUpdate_on_Inv P p h S U U' :
  Inv P U → QueueOutgoingUpdate_on p h S U = Some U' → Inv P U'.
Proof.
  intros (Hs & Ha & Hu) Hqueue. apply QueueOutgoingUpdate_on_spec in Hqueue
    as (Hnone & Hrnone & Hfwd & Hrev & Hsets & Hnext).
  split; [| split].
  - intros T p' h' e' HT Hr. rewrite Hrev in Hr. rewrite Hfwd, Hsets.
    case_decide as Hd.
    + destruct Hd as (HTS & -> & ->). simplify_eq.
      rewrite decide_True by done. split; [done|]. exists S.
      by rewrite lookup_insert_eq.
    + destruct (Hs T p' h' e' HT Hr) as (Hf & S' & HS' & HTS').
      case_decide as Hd'; [destruct Hd' as [-> ->]; congruence|].
      split; [done|]. exists S'. split; [| done].
      rewrite lookup_insert_ne; [done|]. apply Ha in Hf as [_ ?]. lia.
  - intros p' h' e' Hf. rewrite Hfwd in Hf. rewrite Hsets, Hnext. case_decide.
    + simplify_eq. rewrite lookup_insert_eq. split; [done | lia].
    + apply Ha in Hf as [? ?]. split; [| lia].
      rewrite lookup_insert_ne; [done | lia].
  - intros p1 h1 p2 h2 e' H1 H2. rewrite Hfwd in H1, H2.
    repeat case_decide; simplify_eq; try (intuition congruence);
      try (match goal with
           | Hf : fwd_get U _ _ = Some (NextUnresolvedEntry U) |- _ =>
               apply Ha in Hf as [_ ?]; lia
           end).
    by eapply Hu.
Qed.

Lemma QueueOutgoingUpdate_on_complete P p h S U U' :
  allocated U → complete_on P U →
  QueueOutgoingUpdate_on p h S U = Some U' → complete_on P U'.
Proof.
  intros Ha Hc Hqueue. apply QueueOutgoingUpdate_on_spec in Hqueue
    as (Hnone & Hrnone & Hfwd & Hrev & Hsets & Hnext).
  intros T p' h' e' S' HT Hf HS' HTS'. rewrite Hfwd in Hf. rewrite Hsets in HS'.
  rewrite Hrev. case_decide as Hd.
  - destruct Hd as [-> ->]. simplify_eq. rewrite lookup_insert_eq in HS'. simplify_eq.
    by rewrite decide_True.
  - assert (e' ≠ NextUnresolvedEntry U) by (apply Ha in Hf as [_ ?]; lia).
    rewrite lookup_insert_ne in HS' by done.
    rewrite decide_False by tauto. by eapply Hc.
Qed.

(** *** The sender's loops, on the containers of one kind *)

Lemma containers_set b U Sender : containers b (set_containers b U Sender) = U.
Proof. by destruct b. Qed.

Lemma containers_set_other b U Sender :
  containers (negb b) (set_containers b U Sender) = containers (negb b) Sender.
Proof. by destruct b. Qed.

Lemma set_containers_set b U U' Sender :
  set_containers b U' (set_containers b U Sender) = set_containers b U' Sender.
Proof. by destruct b. Qed.

Lemma set_containers_id b Sender : set_containers b (containers b Sender) Sender = Sender.
Proof. by destruct b, Sender. Qed.

Lemma acts_on_ret {A} b (a : A) : acts_on b (M_ret a) (λ U, Some (a, U, [])).
Proof. intros Sender. unfold M_ret. by rewrite set_containers_id. Qed.

Lemma acts_on_emit b e : acts_on b (M_emit e) (λ U, Some ((), U, [e])).
Proof. intros Sender. unfold M_emit. by rewrite set_containers_id. Qed.

Lemma acts_on_lift {A} b (o : option A) :
  acts_on b (M_lift o) (λ U, match o with Some a => Some (a, U, []) | None => None end).
Proof. intros Sender. unfold M_lift. destruct o; by rewrite ?set_containers_id. Qed.

Lemma acts_on_containers b f :
  acts_on b (M_on_containers b f)
    (λ U, match f U with Some U' => Some ((), U', []) | None => None end).
Proof. intros Sender. unfold M_on_containers. by destruct (f _). Qed.

Lemma acts_on_bind {A B} b (m : M A) (k : A → M B) f g :
  acts_on b m f → (∀ a, acts_on b (k a) (g a)) →
  acts_on b (M_bind m k)
    (λ U, match f U with
          | Some (a, U1, e1) =>
              match g a U1 with
              | Some (b', U2, e2) => Some (b', U2, e1 ++ e2)
              | None => None
              end
          | None => None
          end).
Proof.
  intros Hm Hk Sender. unfold M_bind. rewrite Hm.
  destruct (f _) as [[[a U1] e1]|]; [| done].
  rewrite Hk, containers_set.
  destruct (g a U1) as [[[b' U2] e2]|]; [| done].
  by rewrite set_containers_set.
Qed.

Lemma acts_on_ext {A} b (m : M A) f g :
  (∀ U, f U = g U) → acts_on b m f → acts_on b m g.
Proof. intros Hfg Hm Sender. by rewrite Hm, Hfg. Qed.

Lemma acts_on_for {A} b (l : list A) (body : A → M ()) f :
  (∀ a, acts_on b (body a) (λ U, with_unit (f a U))) →
  acts_on b (M_for l body) (λ U, with_unit (for_on f l U)).
Proof.
  intros Hbody. induction l as [|a l IH]; simpl.
  - apply acts_on_ret.
  - eapply acts_on_ext; [| eapply acts_on_bind; [apply Hbody | intros; apply IH]].
    intros U. simpl. destruct (f a U) as [[U1 e1]|]; simpl; [| done].
    by destruct (for_on f l U1) as [[U2 e2]|].
Qed.

Lemma acts_on_requeue C O Unresolved b h :
  acts_on b (SendComponentUpdates_requeue C O Unresolved b h)
    (λ U, match requeue_on (C, O) Unresolved h U with
          | Some U' => Some ((), U', [])
          | None => None
          end).
Proof.
  unfold SendComponentUpdates_requeue, ResetOutgoingUpdate, QueueOutgoingUpdate.
  eapply acts_on_ext;
    [| eapply acts_on_bind with
         (g := λ _ U1,
                  match Unresolved !! h with
                  | Some Objs => match QueueOutgoingUpdate_on (C, O) h Objs U1 with
                                 | Some U' => Some ((), U', []) | None => None end
                  | None => Some ((), U1, [])
                  end);
       [apply acts_on_containers |]].
  2:{ intros []. destruct (Unresolved !! h); [apply acts_on_containers | apply acts_on_ret]. }
  intros U. unfold requeue_on. simpl.
  destruct (ResetOutgoingUpdate_on _ _ _) as [U1|]; simpl; [| done].
  destruct (Unresolved !! h); [| done].
  by destruct (QueueOutgoingUpdate_on _ _ _ _).
Qed.

Lemma for_on_flush b p Unresolved l : ∀ U,
  for_on (λ h U, if b || (0 <? h)
                 then match requeue_on p Unresolved h U with
                      | Some U' => Some (U', []) | None => None end
                 else Some (U, [])) l U
  = match flush_on b p Unresolved l U with Some U' => Some (U', []) | None => None end.
Proof.
  induction l as [|h l IH]; intros U; simpl; [done|].
  destruct (b || (0 <? h)).
  - destruct (requeue_on p Unresolved h U) as [U1|]; simpl; [| done].
    rewrite IH. by destruct (flush_on _ _ _ _ _).
  - rewrite IH. by destruct (flush_on _ _ _ _ _).
Qed.

Lemma M_for_emit {A} (l : list A) (g : A → Event) Sender :
  M_for l (λ a, M_emit (g a)) Sender = Some ((), Sender, g <$> l).
Proof.
  induction l as [|a l IH]; simpl; [done|].
  unfold M_bind, M_emit at 1. by rewrite IH.
Qed.

(** [SendComponentUpdates] with one change list, as
    [ResolveOutgoingOperations] calls it: the loop on the containers of the
    kind of the list, and the events. *)
Lemma SendComponentUpdates_on Env Object Channel (b : bool) l RepChanges HandoverChanges
    Unresolved Sender :
  (if b then RepChanges = None ∧ HandoverChanges = Some l
           ∧ Unresolved = HandoverUnresolvedObjectsMap
               (CreateComponentUpdates Env Object RepChanges HandoverChanges)
   else (RepChanged <$> RepChanges) = Some l ∧ HandoverChanges = None
        ∧ Unresolved = UnresolvedObjectsMap
            (CreateComponentUpdates Env Object RepChanges HandoverChanges)) →
  SendComponentUpdates Env Object Channel RepChanges HandoverChanges Sender
  = match flush_on b (Channel, Object) Unresolved l (containers b Sender) with
    | Some U' =>
        Some ((), set_containers b U' Sender,
              EvSendComponentUpdates Channel Object (RepChanged <$> RepChanges)
                HandoverChanges
              :: (EvConnection_SendComponentUpdate (GetEntityId Env Channel) <$>
                    Payloads (CreateComponentUpdates Env Object RepChanges
                                HandoverChanges)))
    | None => None
    end.
Proof.
  intros Hkind. unfold SendComponentUpdates.
  unfold M_bind at 1. unfold M_emit at 1.
  set (F := CreateComponentUpdates Env Object RepChanges HandoverChanges).
  destruct b.
  - destruct Hkind as (-> & -> & ->). simpl.
    unfold M_bind at 1. unfold M_ret at 1.
    unfold M_bind at 1.
    rewrite (acts_on_for true l _
               (λ h U, if true || (0 <? h)
                       then match requeue_on (Channel, Object)
                                    (HandoverUnresolvedObjectsMap F) h U with
                            | Some U' => Some (U', []) | None => None end
                       else Some (U, []))).
    2:{ intros h. eapply acts_on_ext; [| apply acts_on_requeue].
        intros U. simpl. by destruct (requeue_on _ _ _ _). }
    rewrite (for_on_flush true). simpl.
    destruct (flush_on _ _ _ _ _) as [U'|]; simpl; [| done].
    by rewrite M_for_emit.
  - destruct Hkind as (Hl & -> & ->). destruct RepChanges as [rc|]; [| done].
    simpl in Hl. simplify_eq. simpl.
    unfold M_bind at 1.
    rewrite (acts_on_for false (RepChanged rc) _
               (λ h U, if false || (0 <? h)
                       then match requeue_on (Channel, Object)
                                    (UnresolvedObjectsMap F) h U with
                            | Some U' => Some (U', []) | None => None end
                       else Some (U, []))).
    2:{ intros h. simpl. destruct (0 <? h).
        - eapply acts_on_ext; [| apply acts_on_requeue].
          intros U. simpl. by destruct (requeue_on _ _ _ _).
        - apply acts_on_ret. }
    rewrite (for_on_flush false). simpl.
    destruct (flush_on _ _ _ _ _) as [U'|]; simpl; [| done].
    unfold M_bind at 1. unfold M_ret at 1.
    by rewrite M_for_emit.
Qed.

Section ResolverLoops.
Local Arguments set_containers : simpl never.

Lemma acts_on_round Env b O pr :
  acts_on b (ResolveOutgoingOperations_channel Env b O pr)
    (λ U, with_unit (round_on Env b O pr U)).
Proof.
  intros Sender. unfold ResolveOutgoingOperations_channel, round_on.
  destruct (negb _ || negb _).
  { unfold M_ret. simpl. by rewrite set_containers_id. }
  unfold M_bind, ResolveOutgoingOperations_handles.
  destruct (foldM _ _ _) as [[U1 PH]|]; simpl; [| done].
  destruct (0 <? Z.of_nat (length PH)).
  2:{ unfold M_ret. simpl. done. }
  destruct b.
  - erewrite (SendComponentUpdates_on Env _ _ true PH) by done.
    rewrite containers_set.
    destruct (flush_on _ _ _ _ _); simpl; [| done]. by rewrite set_containers_set.
  - unfold M_bind, M_lift. destruct (Replicator _ _ _) as [Layout|]; [| done].
    erewrite (SendComponentUpdates_on Env _ _ false (PH ++ [0])) by done.
    rewrite containers_set. simpl.
    destruct (flush_on _ _ _ _ _); simpl; [| done]. by rewrite set_containers_set.
Qed.

Lemma acts_on_Resolve Env b O :
  acts_on b (ResolveOutgoingOperations Env O b)
    (λ U, with_unit (Resolve_on Env b O U)).
Proof.
  intros Sender. unfold ResolveOutgoingOperations, Resolve_on.
  unfold M_bind at 1. unfold M_get at 1.
  destruct (ObjectToUnresolved (containers b Sender) !! O) as [R0|].
  2:{ unfold M_ret. simpl. by rewrite set_containers_id. }
  unfold M_bind.
  rewrite (acts_on_for b _ _ (round_on Env b O)) by (intros; apply acts_on_round).
  destruct (for_on _ _ _) as [[U' evs]|]; simpl; [| done].
  unfold M_on_containers. rewrite containers_set, set_containers_set.
  by rewrite app_nil_r.
Qed.

(** *** One round of the inner loop *)

Lemma ResolveOutgoingOperations_handle_spec Env b O p U PH h e U' PH' :
  ResolveOutgoingOperations_handle Env b O p (U, PH) (h, e) = Some (U', PH') →
  ∃ S, UnresolvedSets U !! e = Some S
    ∧ UnresolvedSets U' = <[e := S ∖ {[O]}]> (UnresolvedSets U)
    ∧ ObjectToUnresolved U' = ObjectToUnresolved U
    ∧ NextUnresolvedEntry U' = NextUnresolvedEntry U
    ∧ if decide (S ∖ {[O]} = ∅) then
        ∃ arr : bool,
          (if b then Some false
           else IsDynamicArrayHandle (Replicator Env p.1 p.2) h) = Some arr
          ∧ PH' = PH ++ h :: (if arr then [0; 0] else [])
          ∧ is_Some (PropertyToUnresolved U !! p)
          ∧ ∀ p' h', fwd_get U' p' h'
                     = if decide (p' = p ∧ h' = h) then None else fwd_get U p' h'
      else PH' = PH ∧ PropertyToUnresolved U' = PropertyToUnresolved U.
Proof.
  unfold ResolveOutgoingOperations_handle. simpl. intros H.
  apply bind_Some in H as (S & HS & H). exists S. split; [done|].
  destruct (set_Num_is_zero (S ∖ {[O]})) eqn:Hz.
  - apply set_Num_is_zero_true in Hz. rewrite decide_True by done.
    apply bind_Some in H as (arr & Harr & H).
    apply bind_Some in H as (m & Hm & H). simplify_eq. simpl.
    repeat split; try done. exists arr. repeat split; try done.
    intros p' h'. unfold fwd_get. simpl. by apply lookup_prune_inner.
  - assert (S ∖ {[O]} ≠ ∅) as Hne.
    { intros Heq. apply set_Num_is_zero_true in Heq. congruence. }
    rewrite decide_False by done. by simplify_eq.
Qed.

Lemma ResolveOutgoingOperations_handle_is_Some Env (b : bool) O
    (p : FChannelObjectPair) U PH h e S :
  UnresolvedSets U !! e = Some S →
  (S ∖ {[O]} = ∅ →
     is_Some (if b then Some false
              else IsDynamicArrayHandle (Replicator Env p.1 p.2) h)
     ∧ is_Some (PropertyToUnresolved U !! p)) →
  is_Some (ResolveOutgoingOperations_handle Env b O p (U, PH) (h, e)).
Proof.
  unfold ResolveOutgoingOperations_handle. simpl. intros HS Hok. rewrite HS. simpl.
  destruct (set_Num_is_zero (S ∖ {[O]})) eqn:Hz; [| done].
  apply set_Num_is_zero_true in Hz. destruct (Hok Hz) as [[arr ->] [m ->]]. done.
Qed.

(** *** The invariant of the loops of [ResolveOutgoingOperations] *)

Section ResolveInvariant.

Context (Env : FSenderEnv) (O : ObjectId) (P : ObjectId → Prop).

Context (R0get : FChannelObjectPair → Z → option FUnresolvedEntry).

Context (F0get : FChannelObjectPair → Z → option FUnresolvedEntry).

Context (Sets0 : gmap FUnresolvedEntry (gset ObjectId)).

Hypothesis R0_F0 : ∀ p h e, R0get p h = Some e → F0get p h = Some e.

Local Notation J := (Resolving Env O P R0get F0get Sets0).

Local Notation flushed := (flushed O R0get Sets0).

Local Notation array_ok := (array_ok Env O R0get Sets0).

Local Notation without_target := (without_target O).

Lemma Resolving_shrink (Rem Rem' : FChannelObjectPair → Z → Prop) U :
  (∀ p h, Rem' p h → Rem p h) →
  (∀ p h, Rem p h → Rem' p h ∨ ¬ valid_pair Env p) →
  J Rem U → J Rem' U.
Proof.
  intros Hsub Hrest [Hinv Hrev Hrem Hc HO Hsets Hkept Hfresh Hdom]. split; try done.
  - intros p h e Hr. apply Hrem. auto.
  - intros p h e S Hf HS HOS. destruct (HO p h e S Hf HS HOS) as [? [Hr | ?]]; [| auto].
    split; [done|]. by apply Hrest.
  - intros p h e Hr. apply Hsets. auto.
  - intros p h e S HR Hnr Hv. apply Hkept; [done | | done].
    intros Hr. destruct (Hrest p h Hr); done.
  - intros p h e Hfl Hnr Hv. apply Hfresh; [done | | done].
    intros Hr. destruct (Hrest p h Hr); done.
Qed.

Lemma Resolving_handle (b : bool) Rem p h e U PH U' PH' :
  J Rem U → Rem p h → R0get p h = Some e →
  ResolveOutgoingOperations_handle Env b O p (U, PH) (h, e) = Some (U', PH') →
  J (λ p' h', Rem p' h' ∧ ¬ (p' = p ∧ h' = h)) U'
  ∧ PH' = PH ++ resolved_handle Env b O Sets0 p (h, e).
Proof.
  intros [(Hs & Ha & Hu) Hrev Hrem Hc HO Hsets Hkept Hfresh Hdom] Hr HR0 Hstep.
  pose proof (Hrem p h e Hr HR0) as Hf.
  pose proof (Hsets p h e Hr HR0) as HS0.
  apply ResolveOutgoingOperations_handle_spec in Hstep
    as (S & HS & Hsets' & Hrevmap & Hnext & Hcase).
  assert (∀ T p' h', rev_get U' T p' h' = rev_get U T p' h') as Hrev'.
  { intros. unfold rev_get. by rewrite Hrevmap. }
  assert (∀ p' h' e', fwd_get U' p' h' = Some e' → fwd_get U p' h' = Some e') as Hsub.
  { intros p' h' e' Hf'. destruct (decide (S ∖ {[O]} = ∅)).
    - destruct Hcase as (arr & _ & _ & _ & Hfwd). rewrite Hfwd in Hf'.
      by case_decide.
    - destruct Hcase as [_ Hfwd]. unfold fwd_get in *. by rewrite Hfwd in Hf'. }
  assert (∀ p' h', ¬ (p' = p ∧ h' = h) → fwd_get U' p' h' = fwd_get U p' h') as Hother.
  { intros p' h' Hne. destruct (decide (S ∖ {[O]} = ∅)).
    - destruct Hcase as (arr & _ & _ & _ & Hfwd). rewrite Hfwd. by rewrite decide_False.
    - destruct Hcase as [_ Hfwd]. unfold fwd_get. by rewrite Hfwd. }
  assert (∀ p' h' e', ¬ (p' = p ∧ h' = h) → fwd_get U p' h' = Some e' →
            UnresolvedSets U' !! e' = UnresolvedSets U !! e') as Hsets_other.
  { intros p' h' e' Hne Hf'. rewrite Hsets'. apply lookup_insert_ne.
    intros <-. destruct (Hu _ _ _ _ _ Hf Hf') as [<- <-]. tauto. }
  split; [split|].
  - split; [| split].
    + intros T p' h' e' HT Hr'. rewrite Hrev' in Hr'.
      destruct (Hs T p' h' e' HT Hr') as (Hf' & S' & HS' & HTS').
      destruct (decide (e' = e)) as [-> | Hne].
      * destruct (Hu _ _ _ _ _ Hf Hf') as [<- <-]. simplify_eq.
        assert (T ∈ S ∖ {[O]}) as HTin by set_solver.
        rewrite Hsets', lookup_insert_eq.
        destruct (decide (S ∖ {[O]} = ∅)) as [Hempty | _]; [set_solver|].
        destruct Hcase as [_ Hfwd]. split; [| eauto].
        unfold fwd_get in *. by rewrite Hfwd.
      * rewrite Hsets', lookup_insert_ne by done. split; [| eauto].
        rewrite Hother; [done|]. intros [-> ->]. congruence.
    + intros p' h' e' Hf'. apply Hsub in Hf'. apply Ha in Hf' as [[S' HS'] ?].
      rewrite Hsets', Hnext. split; [| done].
      destruct (decide (e' = e)) as [-> | ?];
        [rewrite lookup_insert_eq | rewrite lookup_insert_ne by done]; eauto.
    + intros p1 h1 p2 h2 e' H1 H2. apply Hsub in H1, H2. by eapply Hu.
  - intros p' h'. by rewrite Hrev'.
  - intros p' h' e' [Hr' Hne] HR0'. rewrite Hother by done. by apply Hrem.
  - intros T p' h' e' S' HT Hf' HS' HTS'. rewrite Hrev'.
    apply Hsub in Hf'. rewrite Hsets' in HS'.
    destruct (decide (e' = e)) as [-> | Hne].
    + rewrite lookup_insert_eq in HS'. simplify_eq.
      eapply Hc; [done | done | done | set_solver].
    + rewrite lookup_insert_ne in HS' by done. by eapply Hc.
  - intros p' h' e' S' Hf' HS' HOS'. pose proof (Hsub _ _ _ Hf') as Hf0.
    rewrite Hsets' in HS'.
    destruct (decide (e' = e)) as [-> | Hne].
    + rewrite lookup_insert_eq in HS'. simplify_eq. set_solver.
    + rewrite lookup_insert_ne in HS' by done.
      destruct (HO p' h' e' S' Hf0 HS' HOS') as [HR [Hr' | ?]]; [| auto].
      split; [done|]. left. split; [done|]. intros [-> ->]. congruence.
  - intros p' h' e' [Hr' Hne] HR0'.
    rewrite (Hsets_other p' h' e' Hne) by (by apply Hrem). by apply (Hsets p' h').
  - intros p' h' e' S' HR0' Hnr Hv HS' Hne.
    destruct (decide (p' = p ∧ h' = h)) as [[-> ->] | Hd].
    + simplify_eq. rewrite HS, HS' in HS0. simplify_eq.
      rewrite Hsets', lookup_insert_eq. split; [| done].
      rewrite decide_False in Hcase by done. destruct Hcase as [_ Hfwd].
      unfold fwd_get in *. by rewrite Hfwd.
    + assert (¬ Rem p' h') as Hnr' by tauto.
      destruct (Hkept p' h' e' S' HR0' Hnr' Hv HS' Hne) as [Hf' HSU].
      rewrite Hother by done. split; [done|].
      by rewrite (Hsets_other p' h' e' Hd Hf').
  - intros p' h' e' Hfl Hnr Hv Hf'.
    destruct (decide (p' = p ∧ h' = h)) as [[-> ->] | Hd].
    + (* the entry met: it is flushed, and out of the forward index *)
      destruct Hfl as (e0 & S0 & HR & HS0' & Hempty). simplify_eq.
      rewrite HS, HS0' in HS0. simplify_eq.
      rewrite decide_True in Hcase by done.
      destruct Hcase as (arr & _ & _ & _ & Hfwd). rewrite Hfwd in Hf'.
      by rewrite decide_True in Hf'.
    + assert (¬ Rem p' h') as Hnr' by tauto.
      rewrite Hother in Hf' by done.
      destruct (Hfresh p' h' e' Hfl Hnr' Hv Hf') as (S' & HS' & Hall).
      exists S'. rewrite (Hsets_other p' h' e' Hd Hf'). split; [done|].
      intros T HT. rewrite Hrev'. by apply Hall.
  - intros p' h' [e' Hf']. apply Hdom. apply Hsub in Hf'. eauto.
  - unfold resolved_handle. simpl. rewrite <- HS0, HS.
    destruct (decide (S ∖ {[O]} = ∅)).
    + destruct Hcase as (arr & Harr & -> & _). f_equal. f_equal.
      unfold array_markers. destruct b; simplify_eq; [done|].
      rewrite Harr. by destruct arr.
    + destruct Hcase as [-> _]. by rewrite app_nil_r.
Qed.

Lemma Resolving_reset Rem p h U U' :
  J Rem U → valid_pair Env p → ¬ Rem p h → flushed p h →
  ResetOutgoingUpdate_on p h U = Some U' →
  J Rem U' ∧ fwd_get U' p h = None.
Proof.
  intros [Hinv Hrev Hrem Hc HO Hsets Hkept Hfresh Hdom] Hvalid Hnr Hfl Hreset.
  pose proof (ResetOutgoingUpdate_on_Inv _ _ _ _ _ Hinv Hreset) as Hinv1.
  pose proof (ResetOutgoingUpdate_on_complete _ _ _ _ _ Hc Hreset) as Hc1.
  apply ResetOutgoingUpdate_on_spec in Hreset.
  destruct (fwd_get U p h) as [e|] eqn:He; [| by subst].
  destruct Hreset as (S & HS & Hfwd & Hrevs & Hsets' & Hnext).
  assert (O ∉ S) as HOS.
  { intros HOS. destruct (HO p h e S He HS HOS) as [_ [? | ?]]; done. }
  assert (∀ p' h', is_Some (R0get p' h') → ¬ flushed p' h' → ¬ (p' = p ∧ h' = h))
    as Hdiff.
  { intros p' h' _ Hnf [-> ->]. done. }
  split; [split; try done|].
  - intros p' h'. rewrite Hrevs. rewrite decide_False by tauto. apply Hrev.
  - intros p' h' e' Hr' HR'. rewrite Hfwd.
    rewrite decide_False; [by apply Hrem|]. intros [-> ->]. done.
  - intros p' h' e' S' Hf' HS' HOS'. rewrite Hfwd in Hf'. rewrite Hsets' in HS'.
    case_decide; [done|]. by eapply HO.
  - intros p' h' e' Hr' HR'. rewrite Hsets'. by apply (Hsets p' h').
  - intros p' h' e' S' HR' Hnr' Hv HS' Hne.
    rewrite Hfwd, Hsets'. rewrite decide_False; [by apply Hkept|].
    intros [-> ->]. destruct Hfl as (e0 & S0 & ? & ? & ?). by simplify_eq.
  - intros p' h' e' Hfl' Hnr' Hv Hf'. rewrite Hfwd in Hf'.
    case_decide as Hd; [done|].
    destruct (Hfresh p' h' e' Hfl' Hnr' Hv Hf') as (S' & HS' & Hall).
    exists S'. rewrite Hsets'. split; [done|].
    intros T HT. rewrite Hrevs. rewrite decide_False by tauto. by apply Hall.
  - intros p' h' [e' Hf']. rewrite Hfwd in Hf'. case_decide; [done|]. eauto.
  - rewrite Hfwd. by rewrite decide_True.
Qed.

Lemma Resolving_queue Rem p h Objs U U' :
  J Rem U → ¬ Rem p h → flushed p h →
  QueueOutgoingUpdate_on p h Objs U = Some U' → J Rem U'.
Proof.
  intros [Hinv Hrev Hrem Hc HO Hsets Hkept Hfresh Hdom] Hnr Hfl Hqueue.
  pose proof (QueueOutgoingUpdate_on_Inv _ _ _ _ _ _ Hinv Hqueue) as Hinv'.
  pose proof (QueueOutgoingUpdate_on_complete _ _ _ _ _ _ (proj1 (proj2 Hinv)) Hc Hqueue)
    as Hc'.
  apply QueueOutgoingUpdate_on_spec in Hqueue
    as (Hnone & Hrnone & Hfwd & Hrevs & Hsets' & Hnext).
  destruct Hinv as (_ & Ha & _).
  assert (O ∉ Objs) as HOS.
  { intros HOS. specialize (Hrnone O HOS). rewrite Hrev in Hrnone.
    destruct Hfl as (? & ? & ? & _). congruence. }
  assert (∀ p' h' e', fwd_get U p' h' = Some e' →
            UnresolvedSets U' !! e' = UnresolvedSets U !! e') as Hold.
  { intros p' h' e' Hf'. rewrite Hsets'. apply lookup_insert_ne.
    apply Ha in Hf' as [_ ?]. lia. }
  split; try done.
  - intros p' h'. rewrite Hrevs. rewrite decide_False by tauto. apply Hrev.
  - intros p' h' e' Hr' HR'. rewrite Hfwd.
    rewrite decide_False; [by apply Hrem|]. intros [-> ->]. done.
  - intros p' h' e' S' Hf' HS' HOS'. rewrite Hfwd in Hf'. rewrite Hsets' in HS'.
    case_decide as Hd.
    + simplify_eq. rewrite lookup_insert_eq in HS'. by simplify_eq.
    + pose proof (Ha _ _ _ Hf') as [_ ?].
      rewrite lookup_insert_ne in HS' by lia. by eapply HO.
  - intros p' h' e' Hr' HR'. rewrite (Hold p' h'); [by apply (Hsets p' h') |].
    by apply Hrem.
  - intros p' h' e' S' HR' Hnr' Hv HS' Hne.
    destruct (Hkept p' h' e' S' HR' Hnr' Hv HS' Hne) as [Hf' HSU].
    rewrite Hfwd. rewrite decide_False; [| intros [-> ->]; congruence].
    split; [done|]. by rewrite (Hold p' h').
  - intros p' h' e' Hfl' Hnr' Hv Hf'. rewrite Hfwd in Hf'.
    case_decide as Hd.
    + destruct Hd as [-> ->]. simplify_eq. exists Objs.
      rewrite Hsets', lookup_insert_eq. split; [done|].
      intros T HT. rewrite Hrevs. by rewrite decide_True.
    + destruct (Hfresh p' h' e' Hfl' Hnr' Hv Hf') as (S' & HS' & Hall).
      exists S'. rewrite (Hold p' h') by done. split; [done|].
      intros T HT. rewrite Hrevs. rewrite decide_False by tauto. by apply Hall.
  - intros p' h' [e' Hf']. rewrite Hfwd in Hf'. case_decide as Hd; [| eauto].
    destruct Hd as [-> ->]. destruct Hfl as (e0 & ? & HR & _). eauto.
Qed.

Lemma Resolving_requeue Rem p Unresolved h U U' :
  J Rem U → valid_pair Env p → ¬ Rem p h → flushed p h →
  requeue_on p Unresolved h U = Some U' → J Rem U'.
Proof.
  intros HJ Hvalid Hnr Hfl Hre. unfold requeue_on in Hre.
  apply bind_Some in Hre as (U1 & Hreset & Hqueue).
  destruct (Resolving_reset _ _ _ _ _ HJ Hvalid Hnr Hfl Hreset) as [HJ1 _].
  destruct (Unresolved !! h) as [Objs|]; [| by simplify_eq].
  by eapply Resolving_queue.
Qed.

Lemma Resolving_flush (b : bool) Rem p Unresolved l : ∀ U U',
  J Rem U → valid_pair Env p →
  (∀ h, h ∈ l → b || (0 <? h) = true → ¬ Rem p h ∧ flushed p h) →
  flush_on b p Unresolved l U = Some U' → J Rem U'.
Proof.
  induction l as [|h l IH]; intros U U' HJ Hvalid Hl Hflush; simpl in Hflush.
  - by simplify_eq.
  - destruct (b || (0 <? h)) eqn:Hb.
    + apply bind_Some in Hflush as (U1 & Hre & Hflush).
      destruct (Hl h) as [Hnr HR0]; [apply list_elem_of_here | done |].
      eapply IH; [| done | | done].
      * by eapply Resolving_requeue.
      * intros h' Hh'. apply Hl. by apply list_elem_of_further.
    + eapply IH; [done | done | | done].
      intros h' Hh'. apply Hl. by apply list_elem_of_further.
Qed.

Lemma elem_of_resolved_handle (b : bool) p h e x :
  x ∈ resolved_handle Env b O Sets0 p (h, e) →
  (∃ S, Sets0 !! e = Some S ∧ S ∖ {[O]} = ∅) ∧ (x = h ∨ (b = false ∧ x = 0)).
Proof.
  unfold resolved_handle. simpl. destruct (Sets0 !! e) as [S|]; [| by intros ?%elem_of_nil].
  case_decide; [| by intros ?%elem_of_nil].
  intros Hx. split; [eauto|]. apply elem_of_cons in Hx as [-> | Hx]; [auto|].
  right. unfold array_markers in Hx. destruct b; [by apply elem_of_nil in Hx|].
  split; [done|].
  destruct (IsDynamicArrayHandle _ _) as [[]|]; try by apply elem_of_nil in Hx.
  repeat (apply elem_of_cons in Hx as [-> | Hx]; [done|]). by apply elem_of_nil in Hx.
Qed.

Lemma Resolving_inner (b : bool) Rem p l : ∀ U PH U' PH',
  NoDup l.*1 →
  (∀ h e, (h, e) ∈ l → R0get p h = Some e) →
  (∀ h, ¬ Rem p h) →
  J (λ p' h', Rem p' h' ∨ (p' = p ∧ h' ∈ l.*1)) U →
  foldM (ResolveOutgoingOperations_handle Env b O p) l (U, PH) = Some (U', PH') →
  J Rem U' ∧ PH' = PH ++ resolved_handles Env b O Sets0 p l.
Proof.
  induction l as [|[h e] l IH]; intros U PH U' PH' Hnd HR0 Hnr HJ Hfold;
    simpl in Hfold.
  - simplify_eq. split; [| by rewrite app_nil_r].
    eapply Resolving_shrink; [| | done]; simpl; [auto|].
    intros p' h' [? | [_ Hin]]; [auto|]. by apply elem_of_nil in Hin.
  - apply bind_Some in Hfold as ([U1 PH1] & Hstep & Hfold).
    simpl in Hnd. apply NoDup_cons in Hnd as [Hh Hnd].
    destruct (Resolving_handle b _ p h e U PH U1 PH1 HJ) as [HJ1 ->]; [| | done |].
    { right. split; [done | apply list_elem_of_here]. }
    { apply HR0. apply list_elem_of_here. }
    destruct (IH U1 (PH ++ resolved_handle Env b O Sets0 p (h, e)) U' PH' Hnd)
      as [HJ' ->]; [| done | | done |].
    + intros h' e' Hin. apply HR0. by apply list_elem_of_further.
    + eapply Resolving_shrink; [| | exact HJ1].
      * simpl. intros p' h' [Hr | [-> Hin]].
        -- split; [auto|]. intros [-> ->]. by eapply Hnr.
        -- split; [right; split; [done | by apply list_elem_of_further]|].
           intros [_ ->]. done.
      * simpl. intros p' h' [[Hr | [-> Hin]] Hne]; [auto|].
        left. right. split; [done|]. apply elem_of_cons in Hin as [-> | ?]; [| done].
        destruct Hne. done.
    + split; [done|]. unfold resolved_handles. simpl. by rewrite app_assoc.
Qed.

Lemma resolved_handles_nonempty (b : bool) p l :
  resolved_handles Env b O Sets0 p l ≠ [] →
  ∃ h e, (h, e) ∈ l ∧ resolved_handle Env b O Sets0 p (h, e) ≠ [].
Proof.
  unfold resolved_handles. induction l as [|[h e] l IH]; simpl; [done|].
  intros Hne. destruct (resolved_handle Env b O Sets0 p (h, e)) eqn:Hhe.
  - destruct (IH Hne) as (h' & e' & Hin & Hne'). exists h', e'.
    split; [by apply list_elem_of_further | done].
  - exists h, e. split; [apply list_elem_of_here | congruence].
Qed.

Lemma Resolving_round (b : bool) Rem p l U U' evs :
  NoDup l.*1 →
  (∀ h e, (h, e) ∈ l → R0get p h = Some e) →
  (∀ h, ¬ Rem p h) →
  J (λ p' h', Rem p' h' ∨ (p' = p ∧ h' ∈ l.*1)) U →
  round_on Env b O (p, l) U = Some (U', evs) →
  J Rem U' ∧ evs = round_events Env b O Sets0 (p, l)
  ∧ (b = false → valid_pair Env p → resolved_handles Env b O Sets0 p l ≠ [] →
     is_Some (Replicator Env p.1 p.2)).
Proof.
  intros Hnd HR0 Hnr HJ Hround. unfold round_on, round_events in *. simpl in *.
  destruct (negb _ || negb _) eqn:Hvalid.
  { simplify_eq. split; [| split; [done|]].
    - eapply Resolving_shrink; [| | done]; simpl; [auto|].
      intros p' h' [? | [-> _]]; [auto|]. right. unfold valid_pair. congruence.
    - unfold valid_pair. intros _ Hv. congruence. }
  destruct (foldM _ _ _) as [[U1 PH]|] eqn:Hfold; [| done].
  destruct (Resolving_inner b Rem p l U [] U1 PH Hnd HR0 Hnr HJ Hfold) as [HJ1 ->].
  simpl in *.
  assert (∀ h, h ∈ resolved_handles Env b O Sets0 p l → b || (0 <? h) = true →
            ¬ Rem p h ∧ flushed p h) as Hl.
  { intros h Hh Hb. split; [apply Hnr|].
    unfold resolved_handles in Hh. apply list_elem_of_bind in Hh as ([h' e] & Hh & Hin).
    apply elem_of_resolved_handle in Hh as [(S & HS & Hempty) [-> | [-> ->]]]; [| done].
    exists e, S. split; [by apply HR0 | done]. }
  destruct (0 <? Z.of_nat (length _)) eqn:Hlen.
  2:{ simplify_eq. split; [done|]. split; [done|]. intros _ _ Hne.
      destruct (resolved_handles Env b O Sets0 p l); [done|].
      apply Z.ltb_ge in Hlen. simpl in Hlen. lia. }
  destruct p as [C Obj]. simpl in *.
  destruct b.
  - destruct (flush_on _ _ _ _ _) as [U2|] eqn:Hflush; [| done]. simplify_eq.
    split; [| done].
    eapply (Resolving_flush _ _ (C, Obj)); [apply HJ1 | exact Hvalid | | apply Hflush]. done.
  - destruct (Replicator _ _ _); [| done].
    destruct (flush_on _ _ _ _ _) as [U2|] eqn:Hflush; [| done]. simplify_eq.
    split; [| split; [done | eauto]].
    eapply (Resolving_flush _ _ (C, Obj)); [apply HJ1 | exact Hvalid | | apply Hflush].
    intros h Hh Hb. apply elem_of_app in Hh as [Hh | Hh]; [by apply Hl|].
    apply list_elem_of_singleton in Hh as ->. done.
Qed.

Lemma Resolving_outer (b : bool) L : ∀ U U' evs,
  NoDup L.*1 →
  (∀ p l, (p, l) ∈ L → NoDup l.*1) →
  (∀ p l h e, (p, l) ∈ L → (h, e) ∈ l → R0get p h = Some e) →
  J (pending_in L) U →
  for_on (round_on Env b O) L U = Some (U', evs) →
  J (λ _ _, False) U' ∧ evs = L ≫= round_events Env b O Sets0
  ∧ (∀ p l, (p, l) ∈ L → b = false → valid_pair Env p →
       resolved_handles Env b O Sets0 p l ≠ [] → is_Some (Replicator Env p.1 p.2)).
Proof.
  induction L as [|[p l] L IH]; intros U U' evs Hnd Hnds HR0 HJ Hfor; simpl in Hfor.
  - simplify_eq. split; [| split; [done|]].
    + eapply Resolving_shrink; [| | done]; simpl; [done|].
      intros p h (l & Hin & _). by apply elem_of_nil in Hin.
    + intros p l Hin. by apply elem_of_nil in Hin.
  - destruct (round_on _ _ _ _ _) as [[U1 e1]|] eqn:Hround; [| done].
    destruct (for_on _ _ _) as [[U2 e2]|] eqn:Hrest; [| done]. simplify_eq.
    simpl in Hnd. apply NoDup_cons in Hnd as [Hp Hnd].
    destruct (Resolving_round b (pending_in L) p l U U1 e1) as (HJ1 & -> & Hlay);
      [| | | | done |].
    + eapply Hnds. apply list_elem_of_here.
    + intros h e. eapply HR0. apply list_elem_of_here.
    + intros h (l' & Hin & _). apply Hp. apply list_elem_of_fmap.
      by exists (p, l').
    + eapply Resolving_shrink; [| | done]; simpl.
      * intros p' h' [(l' & Hin & Hh) | [-> Hh]].
        -- exists l'. split; [by apply list_elem_of_further | done].
        -- exists l. split; [apply list_elem_of_here | done].
      * intros p' h' (l' & Hin & Hh). left.
        apply elem_of_cons in Hin as [Heq | Hin]; [simplify_eq; auto|].
        left. by exists l'.
    + destruct (IH U1 U' e2) as (HJ' & -> & Hlays); [done | | | done | done |].
      * intros p' l' Hin. eapply Hnds. by apply list_elem_of_further.
      * intros p' l' h e Hin. eapply HR0. by apply list_elem_of_further.
      * split; [done|]. split; [done|]. intros p' l' Hin.
        apply elem_of_cons in Hin as [Heq | Hin]; [simplify_eq; done | by apply Hlays].
Qed.

(** **** The loops go through *)

Lemma Resolving_handle_is_Some (b : bool) Rem p h e U PH :
  J Rem U → array_ok b → valid_pair Env p → Rem p h → R0get p h = Some e →
  is_Some (ResolveOutgoingOperations_handle Env b O p (U, PH) (h, e)).
Proof.
  intros HJ Harr Hvalid Hr HR0.
  pose proof (Resolving_rem HJ p h e Hr HR0) as Hf.
  pose proof (Resolving_sets HJ p h e Hr HR0) as HS0.
  destruct (Resolving_inv HJ) as (_ & Ha & _).
  destruct (Ha _ _ _ Hf) as [[S HS] _].
  eapply ResolveOutgoingOperations_handle_is_Some; [done|].
  intros Hempty. split.
  - destruct b; [done|]. apply Harr; [done | | done].
    exists e, S. by rewrite <- HS0.
  - unfold fwd_get in Hf. destruct (PropertyToUnresolved U !! p); [done | done].
Qed.

Lemma Resolving_requeue_is_Some Rem p Unresolved h U :
  J Rem U → valid_pair Env p → ¬ Rem p h → flushed p h →
  without_target Unresolved →
  is_Some (requeue_on p Unresolved h U).
Proof.
  intros HJ Hvalid Hnr Hfl Hwo. unfold requeue_on.
  destruct (ResetOutgoingUpdate_on_is_Some p h U) as [U1 Hreset].
  { intros e Hf. destruct (Resolving_fresh HJ p h e Hfl Hnr Hvalid Hf) as (S & HS & Hall).
    exists S. split; [done|]. intros T HT. rewrite (Hall T HT). done. }
  rewrite Hreset. simpl.
  destruct (Resolving_reset _ _ _ _ _ HJ Hvalid Hnr Hfl Hreset) as [HJ1 Hnone].
  destruct (Unresolved !! h) as [Objs|] eqn:HObjs; [| done].
  apply QueueOutgoingUpdate_on_is_Some; [done|].
  intros T HT. destruct (rev_get U1 T p h) as [e|] eqn:Hrev; [| done].
  destruct (Resolving_inv HJ1) as (Hs & _).
  destruct (Hs T p h e) as [Hf _]; [| done | congruence].
  intros ->. by eapply Hwo.
Qed.

Lemma Resolving_flush_is_Some (b : bool) Rem p Unresolved l : ∀ U,
  J Rem U → valid_pair Env p → without_target Unresolved →
  (∀ h, h ∈ l → b || (0 <? h) = true → ¬ Rem p h ∧ flushed p h) →
  is_Some (flush_on b p Unresolved l U).
Proof.
  induction l as [|h l IH]; intros U HJ Hvalid Hwo Hl; simpl; [done|].
  destruct (b || (0 <? h)) eqn:Hb.
  - destruct (Hl h) as [Hnr Hfl]; [apply list_elem_of_here | done |].
    destruct (Resolving_requeue_is_Some Rem p Unresolved h U) as [U1 Hre]; try done.
    rewrite Hre. simpl. apply IH; [by eapply Resolving_requeue | done | done |].
    intros h' Hh'. apply Hl. by apply list_elem_of_further.
  - apply IH; [done | done | done |].
    intros h' Hh'. apply Hl. by apply list_elem_of_further.
Qed.

Lemma Resolving_inner_is_Some (b : bool) Rem p l : ∀ U PH,
  array_ok b → valid_pair Env p →
  NoDup l.*1 →
  (∀ h e, (h, e) ∈ l → R0get p h = Some e) →
  (∀ h, ¬ Rem p h) →
  J (λ p' h', Rem p' h' ∨ (p' = p ∧ h' ∈ l.*1)) U →
  is_Some (foldM (ResolveOutgoingOperations_handle Env b O p) l (U, PH)).
Proof.
  induction l as [|[h e] l IH]; intros U PH Harr Hvalid Hnd HR0 Hnr HJ; simpl; [done|].
  simpl in Hnd. apply NoDup_cons in Hnd as [Hh Hnd].
  destruct (Resolving_handle_is_Some b _ p h e U PH HJ) as [[U1 PH1] Hstep]; [done | done | | |].
  { right. split; [done | apply list_elem_of_here]. }
  { apply HR0. apply list_elem_of_here. }
  rewrite Hstep. simpl.
  destruct (Resolving_handle b _ p h e U PH U1 PH1 HJ) as [HJ1 _]; [| | done |].
  { right. split; [done | apply list_elem_of_here]. }
  { apply HR0. apply list_elem_of_here. }
  apply IH; [done | done | done | | done |].
  - intros h' e' Hin. apply HR0. by apply list_elem_of_further.
  - eapply Resolving_shrink; [| | exact HJ1].
    + simpl. intros p' h' [Hr | [-> Hin]].
      * split; [auto|]. intros [-> ->]. by eapply Hnr.
      * split; [right; split; [done | by apply list_elem_of_further]|].
        intros [_ ->]. done.
    + simpl. intros p' h' [[Hr | [-> Hin]] Hne]; [auto|].
      left. right. split; [done|]. apply elem_of_cons in Hin as [-> | ?]; [| done].
      destruct Hne. done.
Qed.

Lemma Resolving_round_is_Some (b : bool) Rem p l U :
  array_ok b →
  (∀ Obj rc hc, without_target
     ((if b then HandoverUnresolvedObjectsMap else UnresolvedObjectsMap)
        (CreateComponentUpdates Env Obj rc hc))) →
  NoDup l.*1 →
  (∀ h e, (h, e) ∈ l → R0get p h = Some e) →
  (∀ h, ¬ Rem p h) →
  J (λ p' h', Rem p' h' ∨ (p' = p ∧ h' ∈ l.*1)) U →
  is_Some (round_on Env b O (p, l) U).
Proof.
  intros Harr Hfact Hnd HR0 Hnr HJ. unfold round_on. simpl.
  destruct (negb _ || negb _) eqn:Hvalid; [done|].
  destruct (Resolving_inner_is_Some b Rem p l U [] Harr Hvalid Hnd HR0 Hnr HJ) as [[U1 PH] Hfold].
  rewrite Hfold.
  destruct (Resolving_inner b Rem p l U [] U1 PH Hnd HR0 Hnr HJ Hfold) as [HJ1 ->].
  simpl in *.
  assert (∀ h, h ∈ resolved_handles Env b O Sets0 p l →
            flushed p h ∨ (b = false ∧ h = 0)) as Hl0.
  { intros h Hh.
    unfold resolved_handles in Hh. apply list_elem_of_bind in Hh as ([h' e] & Hh & Hin).
    apply elem_of_resolved_handle in Hh as [(S & HS & Hempty) [-> | [-> ->]]]; [| auto].
    left. exists e, S. split; [by apply HR0 | done]. }
  assert (∀ h, h ∈ resolved_handles Env b O Sets0 p l → b || (0 <? h) = true →
            ¬ Rem p h ∧ flushed p h) as Hl.
  { intros h Hh Hb. split; [apply Hnr|].
    destruct (Hl0 h Hh) as [? | [-> ->]]; done. }
  destruct (0 <? Z.of_nat (length _)) eqn:Hlen; [| done].
  destruct p as [C Obj]. simpl in *.
  destruct b.
  - destruct (Resolving_flush_is_Some true Rem (C, Obj)
                (HandoverUnresolvedObjectsMap
                   (CreateComponentUpdates Env Obj None
                      (Some (resolved_handles Env true O Sets0 (C, Obj) l))))
                (resolved_handles Env true O Sets0 (C, Obj) l) U1)
      as [U2 ->]; done.
  - assert (is_Some (Replicator Env C Obj)) as [Layout ->].
    { assert (∃ h, flushed (C, Obj) h) as [h Hfl].
      { destruct (resolved_handles_nonempty false (C, Obj) l) as (h & e & Hin & Hne).
        { intros Heq. rewrite Heq in Hlen. done. }
        exists h. unfold resolved_handle in Hne. simpl in Hne.
        destruct (Sets0 !! e) as [S|] eqn:HS; [| done]. case_decide; [| done].
        exists e, S. split; [by apply HR0 | done]. }
      destruct (Harr (C, Obj) h Hvalid Hfl eq_refl) as [arr Harr'].
      simpl in Harr'. destruct (Replicator Env C Obj); [done | done]. }
    destruct (Resolving_flush_is_Some false Rem (C, Obj)
                (UnresolvedObjectsMap
                   (CreateComponentUpdates Env Obj
                      (Some {| RepChanged :=
                                 resolved_handles Env false O Sets0 (C, Obj) l ++ [0];
                               RepLayout := Layout |}) None))
                (resolved_handles Env false O Sets0 (C, Obj) l ++ [0]) U1)
      as [U2 ->]; try done.
    intros h Hh Hb. apply elem_of_app in Hh as [Hh | Hh]; [by apply Hl|].
      apply list_elem_of_singleton in Hh as ->. done.
Qed.

Lemma Resolving_outer_is_Some (b : bool) L : ∀ U,
  array_ok b →
  (∀ Obj rc hc, without_target
     ((if b then HandoverUnresolvedObjectsMap else UnresolvedObjectsMap)
        (CreateComponentUpdates Env Obj rc hc))) →
  NoDup L.*1 →
  (∀ p l, (p, l) ∈ L → NoDup l.*1) →
  (∀ p l h e, (p, l) ∈ L → (h, e) ∈ l → R0get p h = Some e) →
  J (pending_in L) U →
  is_Some (for_on (round_on Env b O) L U).
Proof.
  induction L as [|[p l] L IH]; intros U Harr Hfact Hnd Hnds HR0 HJ; simpl; [done|].
  simpl in Hnd. apply NoDup_cons in Hnd as [Hp Hnd].
  assert (J (λ p' h', pending_in L p' h' ∨ (p' = p ∧ h' ∈ l.*1)) U) as HJ0.
  { eapply Resolving_shrink; [| | done]; simpl.
    - intros p' h' [(l' & Hin & Hh) | [-> Hh]].
      + exists l'. split; [by apply list_elem_of_further | done].
      + exists l. split; [apply list_elem_of_here | done].
    - intros p' h' (l' & Hin & Hh). left.
      apply elem_of_cons in Hin as [Heq | Hin]; [simplify_eq; auto|].
      left. by exists l'. }
  assert (∀ h, ¬ pending_in L p h) as Hnr.
  { intros h (l' & Hin & _). apply Hp. apply list_elem_of_fmap. by exists (p, l'). }
  destruct (Resolving_round_is_Some b (pending_in L) p l U) as [[U1 e1] Hround]; try done.
  { eapply Hnds. apply list_elem_of_here. }
  { intros h e. eapply HR0. apply list_elem_of_here. }
  rewrite Hround.
  destruct (Resolving_round b (pending_in L) p l U U1 e1) as (HJ1 & _); try done.
  { eapply Hnds. apply list_elem_of_here. }
  { intros h e. eapply HR0. apply list_elem_of_here. }
  destruct (IH U1) as [[U2 e2] ->]; try done.
  - intros p' l' Hin. eapply Hnds. by apply list_elem_of_further.
  - intros p' l' h e Hin. eapply HR0. by apply list_elem_of_further.
Qed.

End ResolveInvariant.

(** *** [ResolveOutgoingOperations] as a whole *)

Lemma elem_of_pending_rounds M p l :
  (p, l) ∈ pending_rounds M ↔ ∃ m, M !! p = Some m ∧ l = map_to_list m.
Proof.
  unfold pending_rounds. rewrite list_elem_of_fmap. split.
  - intros ([p' m] & Heq & Hin). apply elem_of_map_to_list in Hin.
    simpl in Heq. simplify_eq. eauto.
  - intros (m & Hm & ->). exists (p, m). split; [done|]. by apply elem_of_map_to_list.
Qed.

Lemma NoDup_pending_rounds M : NoDup (pending_rounds M).*1.
Proof.
  unfold pending_rounds. rewrite <- list_fmap_compose.
  replace (fst ∘ prod_map id map_to_list) with
    (fst : FChannelObjectPair * FHandleToUnresolved → FChannelObjectPair)
    by done.
  apply NoDup_fst_map_to_list.
Qed.

Lemma pending_in_rounds U O M p h :
  ObjectToUnresolved U !! O = Some M →
  pending_in (pending_rounds M) p h ↔ is_Some (rev_get U O p h).
Proof.
  intros HM. unfold pending_in, rev_get, rev_lookup. rewrite HM. simpl. split.
  - intros (l & Hin & Hh). apply elem_of_pending_rounds in Hin as (m & -> & ->).
    simpl. apply list_elem_of_fmap in Hh as ([h' e] & -> & Hin).
    apply elem_of_map_to_list in Hin. simpl. eauto.
  - intros [e He]. destruct (M !! p) as [m|] eqn:Hm; [| done]. simpl in He.
    exists (map_to_list m). split; [apply elem_of_pending_rounds; eauto|].
    apply list_elem_of_fmap. exists (h, e). split; [done|].
    by apply elem_of_map_to_list.
Qed.

Lemma Resolving_start Env O P U M :
  Inv all_objects U → complete_on P U → P O →
  ObjectToUnresolved U !! O = Some M →
  Resolving Env O P (rev_get U O) (fwd_get U) (UnresolvedSets U)
    (pending_in (pending_rounds M)) U.
Proof.
  intros (Hs & Ha & Hu) Hc HP HM. split; try done.
  - split; [| done]. intros T p h e _. by apply Hs.
  - intros p h e _ Hr. by destruct (Hs O p h e I Hr).
  - intros p h e S Hf HS HOS. pose proof (Hc O p h e S HP Hf HS HOS) as Hr.
    split; [done|]. left. eapply pending_in_rounds; eauto.
  - intros p h e S Hr Hnr. destruct Hnr. eapply pending_in_rounds; eauto.
  - intros p h e (e' & S & Hr & _) Hnr. destruct Hnr. eapply pending_in_rounds; eauto.
Qed.

Lemma rounds_of_reverse_index U O M :
  ObjectToUnresolved U !! O = Some M →
  (∀ p l, (p, l) ∈ pending_rounds M → NoDup l.*1)
  ∧ (∀ p l h e, (p, l) ∈ pending_rounds M → (h, e) ∈ l → rev_get U O p h = Some e).
Proof.
  intros HM. split.
  - intros p l Hin. apply elem_of_pending_rounds in Hin as (m & _ & ->).
    apply NoDup_fst_map_to_list.
  - intros p l h e Hin Hhe. apply elem_of_pending_rounds in Hin as (m & Hm & ->).
    apply elem_of_map_to_list in Hhe. unfold rev_get, rev_lookup.
    rewrite HM. simpl. rewrite Hm. done.
Qed.

Lemma rev_get_Remove O U T p h :
  rev_get (ObjectToUnresolved_Remove O U) T p h
  = if decide (T = O) then None else rev_get U T p h.
Proof.
  unfold rev_get, rev_lookup. simpl. case_decide as Hd.
  - subst. by rewrite lookup_delete_eq.
  - by rewrite lookup_delete_ne.
Qed.

(** What a call of [ResolveOutgoingOperations] that returns has done. *)
Lemma Resolve_on_spec Env b O (P : ObjectId → Prop) U U' evs :
  Inv all_objects U → complete_on P U → P O →
  Resolve_on Env b O U = Some (U', evs) →
  Inv all_objects U'
  ∧ complete_on (λ T, P T ∧ T ≠ O) U'
  ∧ ((∀ p h, is_Some (rev_get U O p h) → valid_pair Env p) → complete_on P U')
  ∧ evs = Resolve_events Env b O U
  ∧ (∀ M p m, ObjectToUnresolved U !! O = Some M → M !! p = Some m →
       b = false → valid_pair Env p →
       resolved_handles Env b O (UnresolvedSets U) p (map_to_list m) ≠ [] →
       is_Some (Replicator Env p.1 p.2))
  ∧ (∀ p h e S, valid_pair Env p → fwd_get U p h = Some e →
       UnresolvedSets U !! e = Some S → O ∈ S → S ∖ {[O]} ≠ ∅ →
       fwd_get U' p h = Some e ∧ UnresolvedSets U' !! e = Some (S ∖ {[O]}))
  ∧ (∀ p h, is_Some (fwd_get U' p h) → is_Some (fwd_get U p h)).
Proof.
  intros HInv Hc HP Hres. unfold Resolve_on, Resolve_events in *.
  destruct (ObjectToUnresolved U !! O) as [M|] eqn:HM.
  2:{ simplify_eq. split; [done|]. split; [by eapply complete_on_weaken; [| done]; tauto|].
      split; [done|]. split; [done|]. split; [done|]. split; [| done].
      intros p h e S _ Hf HS HOS _. pose proof (Hc O p h e S HP Hf HS HOS) as Hr.
      unfold rev_get, rev_lookup in Hr. by rewrite HM in Hr. }
  destruct (for_on _ _ _) as [[U1 evs1]|] eqn:Hfor; [| done]. simplify_eq.
  destruct (rounds_of_reverse_index U O M HM) as [Hnds HR0].
  assert (∀ p h e, rev_get U O p h = Some e → fwd_get U p h = Some e) as HRF.
  { intros p h e Hr. destruct HInv as (Hs & _). by destruct (Hs O p h e I Hr). }
  destruct (Resolving_outer Env O P (rev_get U O) (fwd_get U) (UnresolvedSets U) HRF b
              (pending_rounds M) U U1 evs) as (HJ & -> & Hlay); try done.
  { apply NoDup_pending_rounds. }
  { by apply Resolving_start. }
  destruct HJ as [(Hs & Ha & Hu) Hrev Hrem Hc1 HO Hsets Hkept Hfresh Hdom].
  split; [| split; [| split; [| split; [done | split; [| split]]]]].
  - split; [| done]. intros T p h e _. rewrite rev_get_Remove.
    case_decide; [done|]. by apply Hs.
  - intros T p h e S [HT Hne] Hf HS HTS. rewrite rev_get_Remove.
    rewrite decide_False by done. by eapply Hc1.
  - intros Hvalid T p h e S HT Hf HS HTS. rewrite rev_get_Remove.
    case_decide as Hd; [| by eapply Hc1]. subst.
    destruct (HO p h e S Hf HS HTS) as [Hr [[] | Hnv]]. destruct Hnv.
    apply (Hvalid p h). rewrite Hr. eauto.
  - intros M' p m ? Hm. simplify_eq. apply Hlay. apply elem_of_pending_rounds. eauto.
  - intros p h e S Hv Hf HS HOS Hne.
    apply (Hkept p h e S); [by eapply Hc | tauto | done | done | done].
  - intros p h. apply Hdom.
Qed.

(** A call goes through when the two indices are well formed, the layout
    knows the handles that are pending on valid pairs, and the updates sent
    do not report the object being resolved as unresolved again. *)
Lemma Resolve_on_is_Some Env b O (P : ObjectId → Prop) U :
  Inv all_objects U → complete_on P U → P O →
  (b = false → ∀ p h, valid_pair Env p → is_Some (fwd_get U p h) →
     is_Some (IsDynamicArrayHandle (Replicator Env p.1 p.2) h)) →
  (∀ Obj rc hc h Objs,
     (if b then HandoverUnresolvedObjectsMap else UnresolvedObjectsMap)
       (CreateComponentUpdates Env Obj rc hc) !! h = Some Objs → O ∉ Objs) →
  is_Some (Resolve_on Env b O U).
Proof.
  intros HInv Hc HP Harr Hfact. unfold Resolve_on.
  destruct (ObjectToUnresolved U !! O) as [M|] eqn:HM; [| done].
  destruct (rounds_of_reverse_index U O M HM) as [Hnds HR0].
  assert (∀ p h e, rev_get U O p h = Some e → fwd_get U p h = Some e) as HRF.
  { intros p h e Hr. destruct HInv as (Hs & _). by destruct (Hs O p h e I Hr). }
  destruct (Resolving_outer_is_Some Env O P (rev_get U O) (fwd_get U) (UnresolvedSets U) HRF b
              (pending_rounds M) U) as [[U1 evs] Hfor]; try done.
  - intros p h Hv (e & S & Hr & _) ->. apply Harr; [done | done |].
    destruct HInv as (Hs & _). destruct (Hs O p h e I Hr) as [Hf _]. eauto.
  - apply NoDup_pending_rounds.
  - by apply Resolving_start.
  - fold (pending_rounds M). by rewrite Hfor.
Qed.

End ResolverLoops.

Lemma WellFormed_new b : WellFormed (containers b USpatialSender_new).
Proof. destruct b; apply WellFormed_empty. Qed.

Lemma WellFormed_set_containers b b' U Sender :
  (∀ b, WellFormed (containers b Sender)) → WellFormed U →
  WellFormed (containers b' (set_containers b U Sender)).
Proof.
  intros HW HU. destruct (decide (b' = b)) as [-> | Hne].
  - by rewrite containers_set.
  - replace b' with (negb b) by (by destruct b, b'). by rewrite containers_set_other.
Qed.

Lemma Reachable_WellFormed Sender :
  Reachable valid_pair Sender → ∀ b, WellFormed (containers b Sender).
Proof.
  induction 1 as [| Sender C Obj h Objs b0 Sender' evs _ IH Hq
                  | Sender C Obj h b0 Sender' evs _ IH Hr
                  | Env Sender O b0 Sender' evs _ IH Hvalid Hres]; intros b.
  - apply WellFormed_new.
  - unfold QueueOutgoingUpdate, M_on_containers in Hq.
    destruct (QueueOutgoingUpdate_on _ _ _ _) as [U'|] eqn:HU; [| done]. simplify_eq.
    apply WellFormed_set_containers; [done|]. destruct (IH b0) as [HI HC]. split.
    + by eapply QueueOutgoingUpdate_on_Inv.
    + eapply QueueOutgoingUpdate_on_complete; [| done | done]. apply HI.
  - unfold ResetOutgoingUpdate, M_on_containers in Hr.
    destruct (ResetOutgoingUpdate_on _ _ _) as [U'|] eqn:HU; [| done]. simplify_eq.
    apply WellFormed_set_containers; [done|]. destruct (IH b0) as [HI HC]. split.
    + by eapply ResetOutgoingUpdate_on_Inv.
    + by eapply ResetOutgoingUpdate_on_complete.
  - rewrite (acts_on_Resolve Env b0 O Sender) in Hres.
    destruct (Resolve_on _ _ _ _) as [[U' evs']|] eqn:HU; [| done].
    simpl in Hres. simplify_eq.
    apply WellFormed_set_containers; [done|]. destruct (IH b0) as [HI HC].
    destruct (Resolve_on_spec Env b0 O all_objects _ _ _ HI HC I HU)
      as (HI' & _ & HC' & _).
    split; [done | by apply HC'].
Qed.




(** *** One pending entry through a call of the resolver *)

Lemma flush_count_app b p h evs1 evs2 :
  flush_count b p h (evs1 ++ evs2) = (flush_count b p h evs1 + flush_count b p h evs2)%nat.
Proof. unfold flush_count. by rewrite List.filter_app, length_app. Qed.











Lemma ResolveOutgoingOperations_on Env O b Sender U' evs :
  Resolve_on Env b O (containers b Sender) = Some (U', evs) →
  ResolveOutgoingOperations Env O b Sender = Some ((), set_containers b U' Sender, evs).
Proof. intros H. rewrite (acts_on_Resolve Env b O Sender), H. done. Qed.


Lemma Waiting_Reachable (Unresolved : gset ObjectId) :
  Reachable valid_pair
    (Scene.after (QueueOutgoingUpdate 1%nat 10%nat 1 Unresolved false) USpatialSender_new).
Proof.
  unfold Scene.after.
  destruct (QueueOutgoingUpdate _ _ _ _ _ _) as [[[[] Sender'] evs]|] eqn:Hq.
  - eapply Reach_queue; [apply Reach_new | apply Hq].
  - apply Reach_new.
Qed.

Lemma array_known_WaitingThree :
  array_known Scene.Env false (containers false Scene.WaitingThree).
Proof.
  intros _ p h _ [e He]. unfold fwd_get in He.
  replace (PropertyToUnresolved (containers false Scene.WaitingThree))
    with ({[ (1%nat, 10%nat) := {[ 1 := 0%nat ]} ]} : FChannelToHandleToUnresolved)
    in He by (vm_compute; reflexivity).
  destruct (decide (p = (1%nat, 10%nat))) as [-> | Hp];
    [| by rewrite lookup_singleton_ne in He].
  rewrite lookup_singleton_eq in He. simpl in He.
  destruct (decide (h = 1)) as [-> | Hh]; [by exists false|].
  by rewrite lookup_singleton_ne in He.
Qed.

Lemma factory_resolved_Scene b T : factory_resolved Scene.Env b T.
Proof. intros Obj rc hc h Objs. destruct b; simpl; by rewrite lookup_empty. Qed.



(** *** The update of a pair *)







(** *** Alignment and the bytes of a buffer *)

Lemma Align_bounds Val Alignment :
  0 ≤ Val → 0 < Alignment → Val + Alignment ≤ 2^32 →
  Val ≤ Align Val Alignment ≤ Val + Alignment - 1.
Proof.
  intros HV HA Hb. unfold Align.
  assert (Z.land (Val + Alignment - 1) (Z.lnot (Alignment - 1))
          = Val + Alignment - 1 - Z.land (Val + Alignment - 1) (Alignment - 1)) as Heq.
  { rewrite <- Z.ldiff_land.
    set (x := Val + Alignment - 1). set (m := Alignment - 1).
    assert (Z.ldiff x m + Z.land x m = x) as Hsum; [| lia].
    rewrite Z.add_nocarry_lor; [apply Z.lor_ldiff_and|].
    apply Z.bits_inj'. intros n Hn.
    rewrite Z.land_spec, Z.ldiff_spec, Z.land_spec, Z.bits_0.
    by destruct (Z.testbit x n), (Z.testbit m n). }
  assert (0 ≤ Z.land (Val + Alignment - 1) (Alignment - 1) ≤ Alignment - 1) as Hl.
  { apply Z.ldiff_le; [lia|]. apply Z.bits_inj'. intros n Hn.
    rewrite Z.ldiff_spec, Z.land_spec, Z.bits_0.
    by destruct (Z.testbit (Val + Alignment - 1) n), (Z.testbit (Alignment - 1) n). }
  rewrite Heq. rewrite Z.mod_small by lia. lia.
Qed.

Lemma read_bytes_Some Mem Off Size Data :
  read_bytes Mem Off Size = Some Data ↔
  0 ≤ Off ∧ 0 ≤ Size ∧ Off + Size ≤ Z.of_nat (length Mem)
  ∧ Data = take (Z.to_nat Size) (drop (Z.to_nat Off) Mem).
Proof.
  unfold read_bytes.
  destruct (0 <=? Off) eqn:H1; [apply Z.leb_le in H1 | apply Z.leb_gt in H1];
    destruct (0 <=? Size) eqn:H2; [apply Z.leb_le in H2 | apply Z.leb_gt in H2 | apply Z.leb_le in H2 | apply Z.leb_gt in H2];
    destruct (Off + Size <=? Z.of_nat (length Mem)) eqn:H3;
    [apply Z.leb_le in H3 | apply Z.leb_gt in H3 | apply Z.leb_le in H3 | apply Z.leb_gt in H3
     | apply Z.leb_le in H3 | apply Z.leb_gt in H3 | apply Z.leb_le in H3 | apply Z.leb_gt in H3];
    simpl; split; try (intros ?; simplify_eq; done); try (intros (? & ? & ? & ?); lia).
  intros (_ & _ & _ & ->). done.
Qed.

Lemma read_bytes_is_Some Mem Off Size :
  0 ≤ Off → 0 ≤ Size → Off + Size ≤ Z.of_nat (length Mem) →
  read_bytes Mem Off Size = Some (take (Z.to_nat Size) (drop (Z.to_nat Off) Mem)).
Proof. intros. apply read_bytes_Some. done. Qed.

Lemma read_bytes_length Mem Off Size Data :
  read_bytes Mem Off Size = Some Data → Z.of_nat (length Data) = Size.
Proof.
  intros (? & ? & ? & ->)%read_bytes_Some. rewrite length_take, length_drop. lia.
Qed.

Lemma lookup_write_bytes Mem Off Data (j : nat) :
  0 ≤ Off → Off + Z.of_nat (length Data) ≤ Z.of_nat (length Mem) →
  write_bytes Mem Off Data !! j
  = if decide (Z.to_nat Off ≤ j < Z.to_nat Off + length Data)%nat
    then Data !! (j - Z.to_nat Off)%nat else Mem !! j.
Proof.
  intros HO Hb. unfold write_bytes.
  assert (length (take (Z.to_nat Off) Mem) = Z.to_nat Off) as Hlen
    by (rewrite length_take; lia).
  destruct (decide (j < Z.to_nat Off)%nat) as [Hlt | Hge].
  - rewrite lookup_app_l by lia. rewrite lookup_take_lt by lia.
    rewrite decide_False by lia. done.
  - rewrite lookup_app_r by lia. rewrite Hlen.
    destruct (decide (j - Z.to_nat Off < length Data)%nat) as [Hin | Hout].
    + rewrite lookup_app_l by lia. rewrite decide_True by lia. done.
    + rewrite lookup_app_r by lia. rewrite decide_False by lia.
      rewrite lookup_drop. f_equal. lia.
Qed.

Lemma length_write_bytes Mem Off Data :
  0 ≤ Off → Off + Z.of_nat (length Data) ≤ Z.of_nat (length Mem) →
  length (write_bytes Mem Off Data) = length Mem.
Proof.
  intros HO Hb. unfold write_bytes. rewrite !length_app, length_take, length_drop. lia.
Qed.

Lemma read_write_same Mem Off Data :
  0 ≤ Off → Off + Z.of_nat (length Data) ≤ Z.of_nat (length Mem) →
  read_bytes (write_bytes Mem Off Data) Off (Z.of_nat (length Data)) = Some Data.
Proof.
  intros HO Hb. rewrite read_bytes_is_Some; [| lia | lia | rewrite length_write_bytes; lia].
  f_equal. apply list_eq. intros i.
  destruct (decide (i < length Data)%nat) as [Hi | Hi].
  - rewrite lookup_take_lt by lia. rewrite lookup_drop, lookup_write_bytes by done.
    rewrite decide_True by lia. f_equal. lia.
  - rewrite lookup_take_ge by lia. symmetry. apply lookup_ge_None. lia.
Qed.

Lemma read_write_apart Mem Off Data o s :
  0 ≤ Off → Off + Z.of_nat (length Data) ≤ Z.of_nat (length Mem) →
  0 ≤ o → 0 ≤ s →
  o + s ≤ Off ∨ Off + Z.of_nat (length Data) ≤ o →
  read_bytes (write_bytes Mem Off Data) o s = read_bytes Mem o s.
Proof.
  intros HO Hb Ho Hs Hapart. unfold read_bytes. rewrite length_write_bytes by done.
  destruct (_ && _ && _) eqn:Hin; [| done]. f_equal.
  apply andb_true_iff in Hin as [_ Hle]. apply Z.leb_le in Hle.
  apply list_eq. intros i.
  destruct (decide (i < Z.to_nat s)%nat) as [Hi | Hi].
  - rewrite !lookup_take_lt by lia. rewrite !lookup_drop, lookup_write_bytes by done.
    rewrite decide_False by lia. done.
  - by rewrite !lookup_take_ge by lia.
Qed.

(** *** The loop of [GetHandoverChangeList] *)

Lemma field_fits_length Shadow Shadow' Object f :
  length Shadow' = length Shadow → field_fits Shadow Object f → field_fits Shadow' Object f.
Proof. unfold field_fits. intros ->. done. Qed.

Lemma HandoverFields_ge Shadow Object Props : ∀ Off,
  0 ≤ Off ≤ Z.of_nat (length Shadow) →
  Forall (field_fits Shadow Object) (HandoverFields Off Props) →
  Forall (λ f, Off ≤ f.2) (HandoverFields Off Props).
Proof.
  induction Props as [|Info Props IH]; intros Off HOff Hfits; simpl in *; [done|].
  apply Forall_cons in Hfits as [(HA & HS & _ & _ & Hin & Hb) Hfits]. simpl in *.
  pose proof (Align_bounds Off (MinAlignment (Property Info)) ltac:(lia) HA ltac:(lia))
    as HAl.
  rewrite Z.mod_small in Hfits by lia.
  apply Forall_cons. split; [simpl; lia|].
  rewrite Z.mod_small by lia.
  eapply Forall_impl; [apply IH; [lia | done]|]. simpl. intros f Hf. lia.
Qed.

Lemma GetHandoverChangeList_loop_spec bNew Object Props : ∀ Off Shadow acc,
  0 ≤ Off ≤ Z.of_nat (length Shadow) →
  Forall (field_fits Shadow Object) (HandoverFields Off Props) →
  ∃ Shadow',
    GetHandoverChangeList_loop bNew Object Props Off Shadow acc
    = Some (acc ++ (Handle ∘ fst <$>
                      List.filter (field_changed bNew Shadow Object)
                        (HandoverFields Off Props)),
            Shadow')
    ∧ length Shadow' = length Shadow
    ∧ Forall (λ f, shadow_value Shadow' f = object_value Object f)
        (HandoverFields Off Props)
    ∧ ∀ o s, 0 ≤ o → 0 ≤ s → o + s ≤ Off →
        read_bytes Shadow' o s = read_bytes Shadow o s.
Proof.
  induction Props as [|Info Props IH]; intros Off Shadow acc HOff Hfits.
  { exists Shadow. simpl. by rewrite app_nil_r. }
  cbn [HandoverFields GetHandoverChangeList_loop] in *.
  apply Forall_cons in Hfits as [Hfit Hfits].
  pose proof Hfit as (HA & HS & HO & HinO & Hin & Hb). simpl in HA, HS, HO, HinO, Hin, Hb.
  set (P := Property Info) in *.
  set (Off0 := Align Off (MinAlignment P)) in *.
  pose proof (Align_bounds Off (MinAlignment P) ltac:(lia) HA ltac:(lia)) as HAl.
  fold Off0 in HAl.
  rewrite Z.mod_small in Hfits by lia. rewrite !Z.mod_small by lia.
  rewrite (read_bytes_is_Some Object (Offset Info) (ElementSize P)) by lia.
  rewrite (read_bytes_is_Some Shadow Off0 (ElementSize P)) by lia.
  cbn [mbind option_bind].
  set (Data := take (Z.to_nat (ElementSize P)) (drop (Z.to_nat (Offset Info)) Object)).
  set (Stored := take (Z.to_nat (ElementSize P)) (drop (Z.to_nat Off0) Shadow)).
  assert (Z.of_nat (length Data) = ElementSize P) as HlenD.
  { unfold Data. rewrite length_take, length_drop. lia. }
  assert (field_changed bNew Shadow Object (Info, Off0)
          = bNew || negb (Identical P Stored Data)) as Hch.
  { unfold field_changed, shadow_value, object_value, Identical. simpl. fold P.
    rewrite (read_bytes_is_Some Object (Offset Info) (ElementSize P)) by lia.
    rewrite (read_bytes_is_Some Shadow Off0 (ElementSize P)) by lia.
    fold Data Stored. f_equal. f_equal. apply bool_decide_ext.
    split; [by intros ?; simplify_eq | by intros ->]. }
  pose proof (HandoverFields_ge Shadow Object Props (Off0 + ElementSize P)
                ltac:(lia) Hfits) as Hge.
  cbn [List.filter]. rewrite Hch.
  destruct (bNew || negb (Identical P Stored Data)) eqn:Hwrite.
  - (* the value is copied to the shadow buffer *)
    set (Shadow1 := write_bytes Shadow Off0 Data).
    assert (length Shadow1 = length Shadow) as Hlen1
      by (apply length_write_bytes; lia).
    destruct (IH (Off0 + ElementSize P) Shadow1 (acc ++ [Handle Info]))
      as (Shadow' & Hloop & Hlen & Hsync & Hlow).
    { rewrite Hlen1. lia. }
    { eapply Forall_impl; [exact Hfits|]. intros f. by apply field_fits_length. }
    exists Shadow'. rewrite Hloop. split; [| split; [congruence | split]].
    + assert (List.filter (field_changed bNew Shadow1 Object)
                (HandoverFields (Off0 + ElementSize P) Props)
              = List.filter (field_changed bNew Shadow Object)
                  (HandoverFields (Off0 + ElementSize P) Props)) as ->.
      { apply List.filter_ext_in. intros f Hf.
        apply list_elem_of_In in Hf.
        rewrite Forall_forall in Hge, Hfits.
        specialize (Hge f Hf). destruct (Hfits f Hf) as (_ & HSf & _).
        unfold field_changed, shadow_value. f_equal. f_equal. apply bool_decide_ext.
        unfold Shadow1. rewrite read_write_apart; [done | lia | lia | lia | lia | lia]. }
      by rewrite <- app_assoc.
    + apply Forall_cons. split; [| done].
      unfold shadow_value, object_value. simpl. fold P.
      rewrite (Hlow Off0 (ElementSize P)) by lia.
      rewrite (read_bytes_is_Some Object (Offset Info) (ElementSize P)) by lia.
      fold Data. rewrite <- HlenD. apply read_write_same; lia.
    + intros o s Ho Hs Hos. rewrite Hlow by lia.
      unfold Shadow1. apply read_write_apart; lia.
  - (* the value in the shadow buffer is the one of the object *)
    destruct (IH (Off0 + ElementSize P) Shadow acc) as (Shadow' & Hloop & Hlen & Hsync & Hlow);
      [lia | done |].
    exists Shadow'. rewrite Hloop. split; [done|]. split; [done|]. split.
    + apply Forall_cons. split; [| done].
      unfold shadow_value, object_value. simpl. fold P.
      rewrite (Hlow Off0 (ElementSize P)) by lia.
      rewrite (read_bytes_is_Some Object (Offset Info) (ElementSize P)) by lia.
      rewrite (read_bytes_is_Some Shadow Off0 (ElementSize P)) by lia.
      fold Data Stored. apply orb_false_iff in Hwrite as [_ Hid].
      apply negb_false_iff in Hid. unfold Identical in Hid.
      apply bool_decide_eq_true in Hid. by rewrite Hid.
    + intros o s Ho Hs Hos. apply Hlow; lia.
Qed.

(** C5. For an object whose class has handover fields, each field lying
    in the object and in the shadow buffer: [GetHandoverChangeList] returns
    the handles of the fields to be sent, in the order of the fields: when
    the entity is not being created, exactly those whose packed value in
    the object differs from the one in the shadow buffer; when it is being
    created, all of them.  After the call the shadow buffer, of the same
    size, holds for every handover field the value of the object. *)
Theorem handover_changes_are_differing_fields bNew Props Shadow Object :
  Forall (field_fits Shadow Object) (HandoverFields 0 Props) →
  ∃ Changed Shadow',
    GetHandoverChangeList bNew (Some Props) Shadow Object = Some (Changed, Shadow')
    ∧ Changed
      = (Handle ∘ fst <$>
           List.filter (λ f, bNew || negb (bool_decide (shadow_value Shadow f
                                                        = object_value Object f)))
             (HandoverFields 0 Props))
    ∧ (bNew = true → Changed = Handle <$> Props)
    ∧ length Shadow' = length Shadow
    ∧ Forall (λ f, shadow_value Shadow' f = object_value Object f) (HandoverFields 0 Props).
Proof.
  intros Hfits.
  destruct (GetHandoverChangeList_loop_spec bNew Object Props 0 Shadow [])
    as (Shadow' & Hloop & Hlen & Hsync & _); [lia | done |].
  eexists _, Shadow'. split; [exact Hloop|]. split; [done|]. split; [| done].
  intros ->. simpl. clear. generalize 0.
  induction Props as [|Info Props IH]; intros Off; [done|].
  cbn [HandoverFields List.filter]. unfold field_changed at 1. simpl. f_equal. apply IH.
Qed.

Lemma CreateInitialRepChangeState_loop_emitted CmdCount cmds :
  ∀ CmdIdx Depth acc out,
    CreateInitialRepChangeState_loop CmdCount cmds CmdIdx Depth acc = Some out →
    out = acc ++ emitted CmdIdx Depth cmds.
Proof.
  induction cmds as [|Cmd cmds IH]; intros CmdIdx Depth acc out Hloop; simpl in Hloop.
  - simplify_eq. by rewrite app_nil_r.
  - simpl. unfold depth_step. destruct (Type_ Cmd) eqn:HT.
    + apply IH in Hloop. subst. destruct (decide (Depth = 0)) as [-> | Hd].
      * rewrite bool_decide_eq_true_2 by done. simpl.
        by rewrite <- !app_assoc.
      * rewrite bool_decide_eq_false_2 by tauto.
        replace (Depth + 1 =? 1) with false by (symmetry; apply Z.eqb_neq; lia).
        by rewrite <- !app_assoc.
    + apply bind_Some in Hloop as (? & _ & Hloop). apply IH in Hloop. subst.
      rewrite bool_decide_eq_false_2 by (intros [? _]; done).
      by rewrite <- !app_assoc.
    + apply IH in Hloop. subst.
      rewrite bool_decide_eq_false_2 by (intros [? _]; done).
      by rewrite <- !app_assoc.
Qed.

Lemma emitted_app l1 : ∀ CmdIdx Depth l2,
  emitted CmdIdx Depth (l1 ++ l2)
  = emitted CmdIdx Depth l1
    ++ emitted (CmdIdx + Z.of_nat (length l1)) (DepthAfter Depth l1) l2.
Proof.
  induction l1 as [|Cmd l1 IH]; intros CmdIdx Depth l2.
  - simpl. by rewrite Z.add_0_r.
  - replace (CmdIdx + Z.of_nat (length (Cmd :: l1)))
      with (CmdIdx + 1 + Z.of_nat (length l1)) by (simpl length; lia).
    cbn [app emitted]. rewrite IH. by rewrite <- !app_assoc.
Qed.

Lemma DepthAfter_app Depth l1 l2 :
  DepthAfter Depth (l1 ++ l2) = DepthAfter (DepthAfter Depth l1) l2.
Proof. unfold DepthAfter. by rewrite foldl_app. Qed.

(** Inside an array each command puts its handle on the list, nothing else. *)
Lemma emitted_inside l : ∀ CmdIdx Depth,
  (∀ k : nat, (k < length l)%nat → 1 ≤ DepthAfter Depth (take k l)) →
  emitted CmdIdx Depth l = RelativeHandle <$> l.
Proof.
  induction l as [|Cmd l IH]; intros CmdIdx Depth Hin; simpl; [done|].
  pose proof (Hin 0%nat ltac:(simpl; lia)) as H0. simpl in H0.
  rewrite bool_decide_eq_false_2 by (intros [_ ?]; unfold DepthAfter in H0; simpl in H0; lia).
  simpl. f_equal. apply IH. intros k Hk.
  apply (Hin (S k)). simpl. lia.
Qed.

Lemma take_after_middle {A} (l : list A) (i k : nat) x :
  l !! i = Some x →
  take (i + 1 + k) l = take i l ++ x :: take k (drop (S i) l).
Proof.
  intros Hi. rewrite <- (take_drop_middle l i x Hi) at 1.
  assert (length (take i l) = i) as Hlen.
  { rewrite length_take. apply lookup_lt_Some in Hi. lia. }
  rewrite take_app. rewrite Hlen.
  rewrite take_ge by lia.
  replace (i + 1 + k - i)%nat with (S k) by lia. done.
Qed.

(** C6. In the initial change list of [CreateInitialRepChangeState], the
    handle of every array that is not inside another array is followed at
    once by one count, the distance from the array to its end less two;
    when the commands up to the end of the array are inside it, that count
    is the number of handles the list holds for the inside of the array,
    so that a reader who skips as many elements finds the handle of the
    closing command of the array. *)
Theorem root_array_count_marker Layout State (i : nat) Cmd :
  CreateInitialRepChangeState Layout = Some State →
  Cmds Layout !! i = Some Cmd →
  Type_ Cmd = REPCMD_DynamicArray →
  DepthBefore (Cmds Layout) i = 0 →
  ∃ post,
    RepChanged State
    = emitted 0 0 (take i (Cmds Layout))
      ++ RelativeHandle Cmd :: to_uint16 (EndCmd Cmd - Z.of_nat i - 2) :: post
    ∧ (Inside (Cmds Layout) i (EndCmd Cmd) →
       ∃ inside Closing rest,
         inside = take (Z.to_nat (EndCmd Cmd - Z.of_nat i - 2)) (drop (S i) (Cmds Layout))
         ∧ Cmds Layout !! Z.to_nat (EndCmd Cmd - 1) = Some Closing
         ∧ to_uint16 (EndCmd Cmd - Z.of_nat i - 2) = Z.of_nat (length inside)
         ∧ post = (RelativeHandle <$> inside) ++ RelativeHandle Closing :: rest).
Proof.
  intros Hcreate Hi HT Hdepth. unfold CreateInitialRepChangeState in Hcreate.
  apply bind_Some in Hcreate as (? & Hcount & Hcreate).
  apply check_Some, Z.ltb_lt in Hcount.
  apply bind_Some in Hcreate as (out & Hloop & Hcreate). simplify_eq. simpl.
  apply CreateInitialRepChangeState_loop_emitted in Hloop. simpl in Hloop. subst out.
  set (cmds := Cmds Layout) in *.
  pose proof (lookup_lt_Some _ _ _ Hi) as Hlt.
  assert (length (take i cmds) = i) as Hlen by (rewrite length_take; lia).
  exists (emitted (Z.of_nat i + 1) 1 (drop (S i) cmds)). split.
  { rewrite <- (take_drop_middle cmds i Cmd Hi) at 1.
    rewrite emitted_app. rewrite Hlen. fold (DepthBefore cmds i). rewrite Hdepth.
    f_equal. cbn [emitted]. rewrite bool_decide_eq_true_2 by done.
    unfold depth_step. rewrite HT. simpl. do 2 f_equal. }
  intros [[Hlo Hhi] Hin].
  set (n := Z.to_nat (EndCmd Cmd - Z.of_nat i - 2)).
  set (D := drop (S i) cmds).
  assert (length D = (length cmds - S i)%nat) as HlenD by apply length_drop.
  assert (n < length D)%nat as HnD by lia.
  destruct (lookup_lt_is_Some_2 D n HnD) as [Closing HClosing].
  exists (take n D), Closing, (emitted (Z.of_nat i + 1 + Z.of_nat (S n))
                                 (DepthAfter 1 (take (S n) D)) (drop (S n) D)).
  split; [done|]. split.
  { unfold D in HClosing. rewrite lookup_drop in HClosing.
    replace (Z.to_nat (EndCmd Cmd - 1)) with (S i + n)%nat by lia. done. }
  split.
  { rewrite length_take. unfold to_uint16. rewrite Z.mod_small by lia. lia. }
  rewrite <- (take_drop (S n) D) at 1. rewrite emitted_app.
  assert (length (take (S n) D) = S n) as HlenT by (rewrite length_take; lia).
  rewrite HlenT.
  rewrite emitted_inside.
  - rewrite (take_S_r D n Closing HClosing). rewrite fmap_app. simpl.
    by rewrite <- app_assoc.
  - intros k Hk. rewrite HlenT in Hk. rewrite take_take.
    replace (k `min` S n)%nat with k by lia.
    specialize (Hin (i + 1 + k)%nat ltac:(lia) ltac:(lia)).
    unfold DepthBefore in Hin. rewrite (take_after_middle cmds i k Cmd Hi) in Hin.
    rewrite DepthAfter_app in Hin. fold (DepthBefore cmds i) in Hin.
    rewrite Hdepth in Hin. unfold DepthAfter in Hin at 1. simpl in Hin.
    unfold depth_step in Hin at 2. rewrite HT in Hin. exact Hin.
Qed.

Lemma root_array_count_marker_witness :
  ∃ post,
    [1; 5; 1; 1; 2; 3; 0; 0; 0] = [] ++ 1 :: to_uint16 (7 - 0 - 2) :: post
    ∧ (Inside (Cmds Nested.Layout) 0 7 →
       ∃ inside Closing rest,
         inside = take (Z.to_nat (7 - 0 - 2)) (drop 1 (Cmds Nested.Layout))
         ∧ Cmds Nested.Layout !! Z.to_nat (7 - 1) = Some Closing
         ∧ to_uint16 (7 - 0 - 2) = Z.of_nat (length inside)
         ∧ post = (RelativeHandle <$> inside) ++ RelativeHandle Closing :: rest).
Proof.
  apply (root_array_count_marker Nested.Layout
           {| RepChanged := [1; 5; 1; 1; 2; 3; 0; 0; 0]; RepLayout := Nested.Layout |}
           0%nat {| Type_ := REPCMD_DynamicArray; EndCmd := 7; RelativeHandle := 1 |}).
  - vm_compute. reflexivity.
  - reflexivity.
  - reflexivity.
  - reflexivity.
Defined.

Lemma has_pair_middle a b pre post : has_pair a b (pre ++ a :: b :: post) = true.
Proof.
  induction pre as [|x pre IH].
  - cbn [app has_pair]. by rewrite !bool_decide_eq_true_2 by done.
  - change ((x :: pre) ++ a :: b :: post) with (x :: (pre ++ a :: b :: post)).
    destruct (pre ++ a :: b :: post) as [|y l'] eqn:Heq; [by destruct pre|].
    cbn [has_pair]. cbn [has_pair] in IH. rewrite IH. apply orb_true_r.
Qed.

(** C6, as stated for every array, fails: the array of index 1 stands
    inside the array of index 0, its handle 1 gets no count, and nowhere in
    the list is a 1 followed by the count 3 that array would have. *)
Lemma nested_array_has_no_marker :
  RepChanged <$> CreateInitialRepChangeState Nested.Layout
  = Some [1; 5; 1; 1; 2; 3; 0; 0; 0]
  ∧ ¬ every_array_has_marker Nested.Layout [1; 5; 1; 1; 2; 3; 0; 0; 0].
Proof.
  split; [by vm_compute|]. intros Hall.
  destruct (Hall 1%nat {| Type_ := REPCMD_DynamicArray; EndCmd := 6; RelativeHandle := 1 |}
              eq_refl eq_refl) as (pre & post & Heq).
  pose proof (has_pair_middle 1 (to_uint16 (6 - Z.of_nat 1 - 2)) pre post) as Hpair.
  simpl in Heq. rewrite <- Heq in Hpair. by vm_compute in Hpair.
Qed.



Lemma ring_capacity_checked_witness :
  (∃ rs', UpdateChangelistHistory 4 Pass.RingTwo = Some rs'
          ∧ 0 ≤ 2 - 0 < 4
          ∧ FRepState.HistoryEnd rs' - FRepState.HistoryStart rs' = 0)
  ∧ UpdateChangelistHistory 4 Pass.RingFull = None
  ∧ UpdateChangelistHistory 4 Pass.RingOver = None.
Proof.
  split; [| split].
  - eexists. split; [vm_compute; reflexivity|].
    destruct (proj1 (ring_capacity_checked 4 Pass.RingTwo) _ eq_refl) as (Hc & _ & He).
    split; [exact Hc | exact He].
  - apply (proj1 (proj2 (ring_capacity_checked 4 Pass.RingFull))). simpl. lia.
  - apply (proj2 (proj2 (ring_capacity_checked 4 Pass.RingOver))). reflexivity.
Defined.


Lemma handover_changes_are_differing_fields_witness :
  ∃ Changed Shadow',
    GetHandoverChangeList false (Some Shadow.Props) Shadow.Data Shadow.Object
    = Some (Changed, Shadow')
    ∧ Changed
      = (Handle ∘ fst <$>
           List.filter (λ f, false || negb (bool_decide (shadow_value Shadow.Data f
                                                         = object_value Shadow.Object f)))
             (HandoverFields 0 Shadow.Props))
    ∧ (false = true → Changed = Handle <$> Shadow.Props)
    ∧ length Shadow' = length Shadow.Data
    ∧ Forall (λ f, shadow_value Shadow' f = object_value Shadow.Object f)
        (HandoverFields 0 Shadow.Props).
Proof.
  apply (handover_changes_are_differing_fields false Shadow.Props Shadow.Data Shadow.Object).
  repeat constructor; vm_compute; congruence.
Defined.

(** C10. A call of [SendRPC] for a target whose class has no class info
    returns at once: the sender is as before, the map of the pending
    remote procedure calls with it, and the call has done nothing to its
    collaborators: no command request and no component update sent, the
    parameters neither copied nor destroyed. *)
Theorem SendRPC_without_class_info Env TargetObject Function Parameters bOwnParameters
    Sender :
  FindClassInfoByClass Env (GetClass Env TargetObject) = None →
  SendRPC Env TargetObject Function Parameters bOwnParameters Sender
  = Some ((), Sender, []).
Proof. intros Hnone. unfold SendRPC. by rewrite Hnone. Qed.

Lemma SendRPC_without_class_info_witness :
  SendRPC Scene.Env 10%nat 3%nat 0 true Scene.Waiting = Some ((), Scene.Waiting, []).
Proof.
  apply (SendRPC_without_class_info Scene.Env 10%nat 3%nat 0 true Scene.Waiting).
  reflexivity.
Defined.

(** The retry of the reservation: on a failure [OnReserveEntityIdResponse]
    logs the error and sends the request of [SendReserveEntityIdRequest]
    again, the channel and the pending entries as before. *)
Lemma OnReserveEntityIdResponse_failure Env Self Op Ch Sender :
  ActorIsValid Env = true →
  reserve_status_code Op ≠ WORKER_STATUS_CODE_SUCCESS →
  ∃ Sender',
    OnReserveEntityIdResponse Env Self Op Ch Sender
    = Some (Ch, Sender',
            [EvLog Log_Error; EvLog Log_Log;
             EvConnection_SendReserveEntityIdRequest (NextRequestId Sender);
             EvReceiver_AddPendingActorRequest (NextRequestId Sender) Self])
    ∧ SendReserveEntityIdRequest Self Sender
      = Some ((), Sender',
              [EvLog Log_Log;
               EvConnection_SendReserveEntityIdRequest (NextRequestId Sender);
               EvReceiver_AddPendingActorRequest (NextRequestId Sender) Self])
    ∧ RepContainers Sender' = RepContainers Sender
    ∧ HandoverContainers Sender' = HandoverContainers Sender
    ∧ OutgoingRPCs Sender' = OutgoingRPCs Sender.
Proof.
  intros Hvalid Hfail. unfold OnReserveEntityIdResponse. rewrite Hvalid. simpl.
  apply Z.eqb_neq in Hfail. rewrite Hfail. simpl.
  eexists. split; [reflexivity|]. split; [reflexivity|]. done.
Qed.

(** C9. The retry of the creation does not always go through.  When the
    first request left a handle of the initial data pending on an object
    without entity, as here handle 1 on object 20, the retry made by
    [OnCreateEntityResponse] on a failure queues that handle a second time
    and trips the check of [QueueOutgoingUpdate]: the call has no result.
    When every reference of the initial data is resolved, the retry sends
    the component set of the first request again, under a new request
    identifier, and leaves the channel as it is. *)
Theorem create_retry_trips_check :
  (* the first request, and the entry it leaves *)
  (∃ evs, SendCreateEntityRequest
            (Channel_SenderEnv (Pass.EnvWith Pass.DatasPending) 1%nat (Pass.Channel true))
            1%nat "worker" None USpatialSender_new
          = Some ((), Pass.Requested Pass.DatasPending, evs))
  ∧ fwd_get (RepContainers (Pass.Requested Pass.DatasPending)) (1%nat, 10%nat) 1
    = Some 0%nat
  (* the failure response *)
  ∧ OnCreateEntityResponse (Pass.EnvWith Pass.DatasPending) 1%nat Pass.Failure
      (Pass.Channel true) (Pass.Requested Pass.DatasPending)
    = None
  (* with nothing pending, the retry sends the component set of the first request *)
  ∧ (∃ Datas Sender',
       SendCreateEntityRequest
         (Channel_SenderEnv (Pass.EnvWith Pass.DatasResolved) 1%nat (Pass.Channel true))
         1%nat "worker" None USpatialSender_new
       = Some ((), Pass.Requested Pass.DatasResolved,
               [EvLog Log_Log; EvConnection_SendCreateEntityRequest 1 Datas 7;
                EvReceiver_AddPendingActorRequest 1 1%nat])
       ∧ OnCreateEntityResponse (Pass.EnvWith Pass.DatasResolved) 1%nat Pass.Failure
           (Pass.Channel true) (Pass.Requested Pass.DatasResolved)
         = Some (Pass.Channel true, Sender',
                 [EvLog Log_Error; EvLog Log_Log;
                  EvConnection_SendCreateEntityRequest 2 Datas 7;
                  EvReceiver_AddPendingActorRequest 2 1%nat])).
Proof.
  split; [eexists; vm_compute; reflexivity|].
  split; [vm_compute; reflexivity|].
  split; [vm_compute; reflexivity|].
  eexists _, _. split; vm_compute; reflexivity.
Qed.

(** ** The queuing interface on well-formed indices *)

Lemma ResetOutgoingUpdate_on_WellFormed p h U :
  WellFormed U →
  ∃ U', ResetOutgoingUpdate_on p h U = Some U' ∧ WellFormed U'
    ∧ fwd_get U' p h = None
    ∧ ∀ p' h', pending U' p' h'
               = if decide (p' = p ∧ h' = h) then None else pending U p' h'.
Proof.
  intros [HI Hc]. pose proof HI as (Hs & Ha & Hu).
  destruct (ResetOutgoingUpdate_on_is_Some p h U) as [U' HU'].
  { intros e He. destruct (Ha _ _ _ He) as [[S HS] _]. exists S. split; [done|].
    intros T HT. exists e. by eapply Hc. }
  exists U'. split; [done|]. split.
  { split; [by eapply ResetOutgoingUpdate_on_Inv
            | by eapply ResetOutgoingUpdate_on_complete]. }
  pose proof (ResetOutgoingUpdate_on_spec _ _ _ _ HU') as Hspec.
  destruct (fwd_get U p h) as [e|] eqn:He.
  - destruct Hspec as (S & HS & Hfwd & _ & Hsets & _). split.
    + rewrite Hfwd. by rewrite decide_True.
    + intros p' h'. unfold pending. rewrite Hfwd, Hsets. by case_decide.
  - subst U'. split; [done|]. intros p' h'. case_decide as Hd; [| done].
    destruct Hd as [-> ->]. unfold pending. by rewrite He.
Qed.

Lemma requeue_on_WellFormed p Unresolved h U :
  WellFormed U →
  ∃ U', requeue_on p Unresolved h U = Some U' ∧ WellFormed U'
    ∧ ∀ p' h', pending U' p' h'
               = if decide (p' = p ∧ h' = h) then Unresolved !! h else pending U p' h'.
Proof.
  intros HU. destruct (ResetOutgoingUpdate_on_WellFormed p h U HU)
    as (U1 & HU1 & HW1 & Hnone & Hp1).
  unfold requeue_on. rewrite HU1. simpl.
  destruct (Unresolved !! h) as [Objs|] eqn:HObjs.
  - pose proof HW1 as [HI1 Hc1]. pose proof HI1 as (Hs1 & Ha1 & Hu1).
    destruct (QueueOutgoingUpdate_on_is_Some p h Objs U1) as [U' HU']; [done| |].
    { intros T HT. destruct (rev_get U1 T p h) as [e|] eqn:Hrev; [| done].
      destruct (Hs1 T p h e I Hrev) as [Hf _]. congruence. }
    exists U'. split; [done|]. split.
    { split; [by eapply QueueOutgoingUpdate_on_Inv
              | by eapply QueueOutgoingUpdate_on_complete]. }
    destruct (QueueOutgoingUpdate_on_spec _ _ _ _ _ HU') as (_ & _ & Hfwd & _ & Hsets & _).
    intros p' h'. unfold pending at 1. rewrite Hfwd, Hsets. case_decide as Hd.
    + simpl. by rewrite lookup_insert_eq.
    + rewrite <- (decide_False (P := p' = p ∧ h' = h) None (pending U p' h')) by done.
      rewrite <- Hp1. unfold pending.
      destruct (fwd_get U1 p' h') as [e|] eqn:He; [| done]. simpl.
      apply Ha1 in He as [_ He]. rewrite lookup_insert_ne; [done | lia].
  - exists U1. split; [done|]. split; [done|]. apply Hp1.
Qed.

Lemma flush_on_WellFormed (b : bool) p Unresolved l : ∀ U,
  WellFormed U →
  ∃ U', flush_on b p Unresolved l U = Some U' ∧ WellFormed U'
    ∧ ∀ p' h', pending U' p' h'
               = if decide (p' = p ∧ h' ∈ l ∧ b || (0 <? h') = true)
                 then Unresolved !! h' else pending U p' h'.
Proof.
  induction l as [|h l IH]; intros U HU.
  - exists U. split; [done|]. split; [done|]. intros p' h'.
    rewrite decide_False; [done|]. intros (_ & Hin & _). by apply elem_of_nil in Hin.
  - cbn [flush_on]. destruct (b || (0 <? h)) eqn:Hcond.
    + destruct (requeue_on_WellFormed p Unresolved h U HU) as (U1 & -> & HW1 & Hp1).
      simpl. destruct (IH U1 HW1) as (U' & -> & HW' & Hp').
      exists U'. split; [done|]. split; [done|]. intros p' h'. rewrite Hp'.
      destruct (decide (p' = p ∧ h' ∈ l ∧ b || (0 <? h') = true)) as [Hd | Hd].
      * rewrite decide_True; [done|]. destruct Hd as (? & ? & ?).
        split_and!; [done | by apply list_elem_of_further | done].
      * rewrite Hp1. destruct (decide (p' = p ∧ h' = h)) as [[-> ->] | Hd1].
        -- rewrite decide_True; [done|]. split_and!; [done | apply list_elem_of_here | done].
        -- rewrite decide_False; [done|]. intros (? & Hin & ?).
           apply elem_of_cons in Hin as [-> | ?]; tauto.
    + destruct (IH U HU) as (U' & -> & HW' & Hp').
      exists U'. split; [done|]. split; [done|]. intros p' h'. rewrite Hp'.
      destruct (decide (p' = p ∧ h' ∈ l ∧ b || (0 <? h') = true)) as [Hd | Hd].
      * rewrite decide_True; [done|]. destruct Hd as (? & ? & ?).
        split_and!; [done | by apply list_elem_of_further | done].
      * rewrite decide_False; [done|]. intros (? & Hin & Hc).
        apply elem_of_cons in Hin as [-> | ?]; [congruence | tauto].
Qed.

(** The loop of [SendComponentUpdates] over one change list is [flush_on]
    on the containers of its kind. *)
Lemma M_for_requeue (b : bool) C O Unresolved l Sender :
  M_for l (λ Handle, if b || (0 <? Handle)
                     then SendComponentUpdates_requeue C O Unresolved b Handle
                     else M_ret ()) Sender
  = match flush_on b (C, O) Unresolved l (containers b Sender) with
    | Some U' => Some ((), set_containers b U' Sender, [])
    | None => None
    end.
Proof.
  rewrite (acts_on_for b l _
             (λ h U, if b || (0 <? h)
                     then match requeue_on (C, O) Unresolved h U with
                          | Some U' => Some (U', []) | None => None end
                     else Some (U, []))).
  2:{ intros h. destruct (b || (0 <? h)).
      - eapply acts_on_ext; [| apply acts_on_requeue].
        intros U. simpl. by destruct (requeue_on _ _ _ _).
      - apply acts_on_ret. }
  rewrite for_on_flush. by destruct (flush_on _ _ _ _ _).
Qed.

Lemma SendComponentUpdates_WellFormed Env Object Channel RepChanges HandoverChanges Sender :
  WellFormed (RepContainers Sender) → WellFormed (HandoverContainers Sender) →
  ∃ URep UHand,
    SendComponentUpdates Env Object Channel RepChanges HandoverChanges Sender
    = Some ((), {| RepContainers := URep; HandoverContainers := UHand;
                   OutgoingRPCs := OutgoingRPCs Sender;
                   PendingActorRequests := PendingActorRequests Sender;
                   NextRequestId := NextRequestId Sender |},
            EvSendComponentUpdates Channel Object (RepChanged <$> RepChanges) HandoverChanges
            :: (EvConnection_SendComponentUpdate (GetEntityId Env Channel) <$>
                  Payloads (CreateComponentUpdates Env Object RepChanges HandoverChanges)))
    ∧ WellFormed URep ∧ WellFormed UHand
    ∧ (∀ p h, pending URep p h
              = if decide (p = (Channel, Object)
                           ∧ h ∈ default [] (RepChanged <$> RepChanges) ∧ 0 < h)
                then UnresolvedObjectsMap
                       (CreateComponentUpdates Env Object RepChanges HandoverChanges) !! h
                else pending (RepContainers Sender) p h)
    ∧ (∀ p h, pending UHand p h
              = if decide (p = (Channel, Object) ∧ h ∈ default [] HandoverChanges)
                then HandoverUnresolvedObjectsMap
                       (CreateComponentUpdates Env Object RepChanges HandoverChanges) !! h
                else pending (HandoverContainers Sender) p h).
Proof.
  intros HRep HHand.
  set (F := CreateComponentUpdates Env Object RepChanges HandoverChanges).
  destruct (flush_on_WellFormed false (Channel, Object) (UnresolvedObjectsMap F)
              (default [] (RepChanged <$> RepChanges)) _ HRep) as (URep & HfR & HWR & HpR).
  destruct (flush_on_WellFormed true (Channel, Object) (HandoverUnresolvedObjectsMap F)
              (default [] HandoverChanges) _ HHand) as (UHand & HfH & HWH & HpH).
  exists URep, UHand. split; [| split; [done|]; split; [done|]; split].
  - unfold SendComponentUpdates. fold F.
    unfold M_bind at 1. unfold M_emit at 1.
    unfold M_bind at 1.
    replace (match RepChanges with
             | Some Changes =>
                 M_for (RepChanged Changes) (λ Handle,
                   if 0 <? Handle
                   then SendComponentUpdates_requeue Channel Object
                          (UnresolvedObjectsMap F) false Handle
                   else M_ret ())
             | None => M_ret ()
             end)
      with (M_for (default [] (RepChanged <$> RepChanges)) (λ Handle,
              if false || (0 <? Handle)
              then SendComponentUpdates_requeue Channel Object
                     (UnresolvedObjectsMap F) false Handle
              else M_ret ())) by (by destruct RepChanges).
    rewrite M_for_requeue. cbn [containers]. rewrite HfR.
    unfold M_bind at 1.
    replace (match HandoverChanges with
             | Some Changes =>
                 M_for Changes (λ Handle,
                   SendComponentUpdates_requeue Channel Object
                     (HandoverUnresolvedObjectsMap F) true Handle)
             | None => M_ret ()
             end)
      with (M_for (default [] HandoverChanges) (λ Handle,
              if true || (0 <? Handle)
              then SendComponentUpdates_requeue Channel Object
                     (HandoverUnresolvedObjectsMap F) true Handle
              else M_ret ())) by (by destruct HandoverChanges).
    rewrite M_for_requeue. cbn [containers set_containers HandoverContainers]. rewrite HfH.
    rewrite M_for_emit. by destruct Sender.
  - intros p h. rewrite HpR. apply decide_ext. simpl.
    rewrite Z.ltb_lt. tauto.
  - intros p h. rewrite HpH. apply decide_ext. simpl. tauto.
Qed.

(** X1. [SendComponentUpdates] on well-formed indices never trips a check:
    it returns, it emits its header followed by one connection update per
    payload of the factory, it leaves the indices of both kinds well
    formed, and it touches neither the queued remote procedure calls nor
    the pending entity requests. *)
Theorem SendComponentUpdates_goes_through Env Object Channel RepChanges HandoverChanges
    Sender :
  WellFormed (RepContainers Sender) → WellFormed (HandoverContainers Sender) →
  ∃ Sender',
    SendComponentUpdates Env Object Channel RepChanges HandoverChanges Sender
    = Some ((), Sender',
            EvSendComponentUpdates Channel Object (RepChanged <$> RepChanges) HandoverChanges
            :: (EvConnection_SendComponentUpdate (GetEntityId Env Channel) <$>
                  Payloads (CreateComponentUpdates Env Object RepChanges HandoverChanges)))
    ∧ WellFormed (RepContainers Sender') ∧ WellFormed (HandoverContainers Sender')
    ∧ OutgoingRPCs Sender' = OutgoingRPCs Sender
    ∧ PendingActorRequests Sender' = PendingActorRequests Sender
    ∧ NextRequestId Sender' = NextRequestId Sender.
Proof.
  intros HRep HHand.
  destruct (SendComponentUpdates_WellFormed Env Object Channel RepChanges HandoverChanges
              Sender HRep HHand) as (URep & UHand & Hsend & HWR & HWH & _).
  eexists. split; [exact Hsend|]. by simpl.
Qed.

Lemma SendComponentUpdates_goes_through_witness :
  ∃ Sender',
    SendComponentUpdates Scene.Env 10%nat 1%nat
      (Some {| RepChanged := [1; 0]; RepLayout := Scene.Layout |}) (Some [3])
      Scene.Waiting
    = Some ((), Sender',
            [EvSendComponentUpdates 1%nat 10%nat (Some [1; 0]) (Some [3]);
             EvConnection_SendComponentUpdate 101 (FactoryComponentUpdate 7)])
    ∧ WellFormed (RepContainers Sender') ∧ WellFormed (HandoverContainers Sender')
    ∧ OutgoingRPCs Sender' = OutgoingRPCs Scene.Waiting
    ∧ PendingActorRequests Sender' = PendingActorRequests Scene.Waiting
    ∧ NextRequestId Sender' = NextRequestId Scene.Waiting.
Proof.
  apply (SendComponentUpdates_goes_through Scene.Env 10%nat 1%nat
           (Some {| RepChanged := [1; 0]; RepLayout := Scene.Layout |}) (Some [3])
           Scene.Waiting).
  - apply (Reachable_WellFormed _ (Waiting_Reachable _) false).
  - apply (Reachable_WellFormed _ (Waiting_Reachable _) true).
Defined.

(** X2. After [SendComponentUpdates] on well-formed indices, the entry of
    each handle of the change lists (a positive handle, for the
    fine-grained list) waits for exactly the objects the factory reported
    for it, and is gone when the factory reported none; the entry of every
    other handle and pair is as before. *)
Theorem SendComponentUpdates_requeues Env Object Channel RepChanges HandoverChanges Sender :
  WellFormed (RepContainers Sender) → WellFormed (HandoverContainers Sender) →
  ∃ Sender' evs,
    SendComponentUpdates Env Object Channel RepChanges HandoverChanges Sender
    = Some ((), Sender', evs)
    ∧ (∀ p h, pending (RepContainers Sender') p h
              = if decide (p = (Channel, Object)
                           ∧ h ∈ default [] (RepChanged <$> RepChanges) ∧ 0 < h)
                then UnresolvedObjectsMap
                       (CreateComponentUpdates Env Object RepChanges HandoverChanges) !! h
                else pending (RepContainers Sender) p h)
    ∧ (∀ p h, pending (HandoverContainers Sender') p h
              = if decide (p = (Channel, Object) ∧ h ∈ default [] HandoverChanges)
                then HandoverUnresolvedObjectsMap
                       (CreateComponentUpdates Env Object RepChanges HandoverChanges) !! h
                else pending (HandoverContainers Sender) p h).
Proof.
  intros HRep HHand.
  destruct (SendComponentUpdates_WellFormed Env Object Channel RepChanges HandoverChanges
              Sender HRep HHand) as (URep & UHand & Hsend & _ & _ & HpR & HpH).
  eexists _, _. split; [exact Hsend|]. by simpl.
Qed.

Lemma SendComponentUpdates_requeues_witness :
  ∃ Sender' evs,
    SendComponentUpdates Requeue.Env 10%nat 1%nat
      (Some {| RepChanged := [1; 0]; RepLayout := Scene.Layout |}) None Scene.Waiting
    = Some ((), Sender', evs)
    ∧ (∀ p h, pending (RepContainers Sender') p h
              = if decide (p = (1%nat, 10%nat) ∧ h ∈ [1; 0] ∧ 0 < h)
                then ({[ 1 := {[ 21%nat ]} ]} : gmap Z (gset ObjectId)) !! h
                else pending (RepContainers Scene.Waiting) p h)
    ∧ (∀ p h, pending (HandoverContainers Sender') p h
              = if decide (p = (1%nat, 10%nat) ∧ h ∈ [])
                then (∅ : gmap Z (gset ObjectId)) !! h
                else pending (HandoverContainers Scene.Waiting) p h).
Proof.
  apply (SendComponentUpdates_requeues Requeue.Env 10%nat 1%nat
           (Some {| RepChanged := [1; 0]; RepLayout := Scene.Layout |}) None
           Scene.Waiting).
  - apply (Reachable_WellFormed _ (Waiting_Reachable _) false).
  - apply (Reachable_WellFormed _ (Waiting_Reachable _) true).
Defined.






(** ** [ResolveOutgoingOperations] on well-formed indices *)

Lemma ResolveOutgoingOperations_inv Env O b Sender Sender' evs :
  ResolveOutgoingOperations Env O b Sender = Some ((), Sender', evs) →
  ∃ U', Resolve_on Env b O (containers b Sender) = Some (U', evs)
        ∧ Sender' = set_containers b U' Sender.
Proof.
  intros H. rewrite (acts_on_Resolve Env b O Sender) in H.
  destruct (Resolve_on Env b O (containers b Sender)) as [[U' evs']|];
    simpl in H; simplify_eq.
  by exists U'.
Qed.

Lemma Resolve_on_forgets Env b O U U' evs :
  Resolve_on Env b O U = Some (U', evs) → ∀ p h, rev_get U' O p h = None.
Proof.
  unfold Resolve_on. intros H p h.
  destruct (ObjectToUnresolved U !! O) as [M|] eqn:HM.
  - destruct (for_on _ _ _) as [[U1 evs1]|]; simplify_eq.
    rewrite rev_get_Remove. by rewrite decide_True.
  - simplify_eq. unfold rev_get, rev_lookup. by rewrite HM.
Qed.

(** X6. After [ResolveOutgoingOperations(Object)] on well-formed indices,
    where every pair that waits for [Object] is still alive, [Object]
    blocks nothing: the reverse index has no entry under it and no pending
    set contains it.  The call adds no pending handle, and it touches
    neither the containers of the other kind nor the queued remote
    procedure calls. *)
Theorem resolved_object_blocks_nothing Env O (b : bool) Sender Sender' evs :
  WellFormed (containers b Sender) →
  (∀ p h, is_Some (rev_get (containers b Sender) O p h) → valid_pair Env p) →
  ResolveOutgoingOperations Env O b Sender = Some ((), Sender', evs) →
  (∀ p h, rev_get (containers b Sender') O p h = None)
  ∧ (∀ p h Objs, pending (containers b Sender') p h = Some Objs → O ∉ Objs)
  ∧ (∀ p h, is_Some (pending (containers b Sender') p h) →
            is_Some (pending (containers b Sender) p h))
  ∧ containers (negb b) Sender' = containers (negb b) Sender
  ∧ OutgoingRPCs Sender' = OutgoingRPCs Sender.
Proof.
  intros [HI Hc] Hvalid Hres.
  apply ResolveOutgoingOperations_inv in Hres as (U' & HU' & ->).
  rewrite containers_set, containers_set_other.
  pose proof (Resolve_on_forgets _ _ _ _ _ _ HU') as Hforget.
  destruct (Resolve_on_spec Env b O all_objects _ _ _ HI Hc I HU')
    as (HI' & _ & Hc' & _ & _ & _ & Hdom).
  specialize (Hc' Hvalid).
  split_and!; [done | | | done | by destruct b].
  - intros p h Objs Hp HO. unfold pending in Hp.
    destruct (fwd_get U' p h) as [e|] eqn:He; [| done]. simpl in Hp.
    pose proof (Hc' O p h e Objs I He Hp HO) as Hrev. by rewrite Hforget in Hrev.
  - intros p h [Objs Hp]. unfold pending in Hp |- *.
    destruct (fwd_get U' p h) as [e|] eqn:He; [| done].
    destruct (Hdom p h (mk_is_Some _ _ He)) as [e0 He0]. rewrite He0. simpl.
    destruct HI as (_ & Ha & _). by destruct (Ha _ _ _ He0) as [? _].
Qed.

Lemma resolved_object_blocks_nothing_witness :
  (∀ p h, rev_get (containers false Scene.Resolved) 20%nat p h = None)
  ∧ (∀ p h Objs, pending (containers false Scene.Resolved) p h = Some Objs → 20%nat ∉ Objs)
  ∧ (∀ p h, is_Some (pending (containers false Scene.Resolved) p h) →
            is_Some (pending (containers false Scene.Waiting) p h))
  ∧ containers (negb false) Scene.Resolved = containers (negb false) Scene.Waiting
  ∧ OutgoingRPCs Scene.Resolved = OutgoingRPCs Scene.Waiting.
Proof.
  apply (resolved_object_blocks_nothing Scene.Env 20%nat false Scene.Waiting Scene.Resolved
           (Scene.events_of (ResolveOutgoingOperations Scene.Env 20%nat false) Scene.Waiting)).
  - apply (Reachable_WellFormed _ (Waiting_Reachable _) false).
  - intros p h _. reflexivity.
  - vm_compute. reflexivity.
Defined.

(** X7. [ResolveOutgoingOperations] never trips a check on well-formed
    indices, when the layout of each live pair knows its pending
    fine-grained handles and the factory does not report the resolved
    object again.  Whether or not pairs have been closed, the reverse
    index stays sound afterwards: each of its entries is an entry of the
    forward index whose set holds the object. *)
Theorem ResolveOutgoingOperations_goes_through Env O (b : bool) Sender :
  WellFormed (containers b Sender) →
  array_known Env b (containers b Sender) →
  factory_resolved Env b O →
  ∃ Sender' evs,
    ResolveOutgoingOperations Env O b Sender = Some ((), Sender', evs)
    ∧ ∀ T p h e, rev_get (containers b Sender') T p h = Some e →
        fwd_get (containers b Sender') p h = Some e
        ∧ ∃ Objs, UnresolvedSets (containers b Sender') !! e = Some Objs ∧ T ∈ Objs.
Proof.
  intros [HI Hc] Hknown Hfactory.
  destruct (Resolve_on_is_Some Env b O all_objects (containers b Sender) HI Hc I Hknown
              Hfactory) as [[U' evs] HU'].
  exists (set_containers b U' Sender), evs.
  split; [by apply ResolveOutgoingOperations_on|].
  rewrite containers_set.
  destruct (Resolve_on_spec Env b O all_objects _ _ _ HI Hc I HU') as ((Hs & _) & _).
  intros T p h e Hrev. by apply (Hs T p h e I).
Qed.

Lemma ResolveOutgoingOperations_goes_through_witness :
  ∃ Sender' evs,
    ResolveOutgoingOperations Scene.Env 21%nat false Scene.WaitingThree
    = Some ((), Sender', evs)
    ∧ ∀ T p h e, rev_get (containers false Sender') T p h = Some e →
        fwd_get (containers false Sender') p h = Some e
        ∧ ∃ Objs, UnresolvedSets (containers false Sender') !! e = Some Objs ∧ T ∈ Objs.
Proof.
  apply (ResolveOutgoingOperations_goes_through Scene.Env 21%nat false Scene.WaitingThree).
  - apply (Reachable_WellFormed _ (Waiting_Reachable _) false).
  - apply array_known_WaitingThree.
  - apply factory_resolved_Scene.
Defined.

(** ** Remote procedure calls *)

Lemma SendRPC_resolved Env r ev (bOwnParameters : bool) Sender :
  resolved_RPC_event Env r = Some ev →
  SendRPC Env (TargetObject r) (Function r) (Parameters r) bOwnParameters Sender
  = Some ((), Sender,
          ev :: if bOwnParameters then [EvDestroyParameters (Parameters r)] else []).
Proof.
  unfold resolved_RPC_event, SendRPC. intros H.
  destruct (FindClassInfoByClass Env _) as [Info|]; [| done]. simpl in H.
  destruct (RPCInfoMap Info !! Function r) as [RPCInfo|]; [| done]. simpl in H.
  destruct (GetUnrealObjectRef Env (TargetObject r)) as [Entity|] eqn:Href; [| done].
  simpl in H.
  destruct (bool_decide _) eqn:Hpay; [| done]. apply bool_decide_eq_true in Hpay.
  destruct (0 <? Entity) eqn:Hpos; [| done]. simpl in H.
  unfold M_bind, M_lift, M_check, M_emit, M_ret, CreateRPCCommandRequest,
    CreateMulticastUpdate.
  rewrite Href, Hpay. simpl.
  destruct (RPCType RPCInfo) eqn:HT; simplify_eq; simpl; rewrite Hpos;
    by destruct bOwnParameters.
Qed.

Lemma SendRPC_blocked Env r Blocker (bOwnParameters : bool) Sender Sender' evs :
  is_Some (FindClassInfoByClass Env (GetClass Env (TargetObject r))) →
  blocking_object Env r = Some Blocker →
  SendRPC Env (TargetObject r) (Function r) (Parameters r) bOwnParameters Sender
  = Some ((), Sender', evs) →
  Sender' = set_OutgoingRPCs
              (<[Blocker := default [] (OutgoingRPCs Sender !! Blocker) ++ [r]]>
                 (OutgoingRPCs Sender)) Sender
  ∧ evs = if bOwnParameters then [] else [EvCopyParameters (Parameters r)].
Proof.
  unfold blocking_object, SendRPC. intros [Info ->] Hblock.
  assert ((CreateMulticastUpdate Env (TargetObject r) (Function r) (Parameters r)).2
          = Some Blocker) as Hblock' by done.
  unfold M_bind at 1. unfold M_lift at 1.
  destruct (RPCInfoMap Info !! Function r) as [RPCInfo|]; [| done].
  unfold M_bind at 1.
  destruct (RPCType RPCInfo); rewrite ?Hblock, ?Hblock';
    unfold M_bind, M_ret, M_check, M_emit, QueueOutgoingRPC, M_modify; simpl;
    destruct bOwnParameters; intros H; simplify_eq; by destruct r.
Qed.

Lemma M_for_resolved_RPCs Env L : ∀ Sender,
  Forall (λ r, is_Some (resolved_RPC_event Env r)) L →
  M_for L (λ RPCParams,
      M_emit (EvLog Log_Log) >>
      SendRPC Env (TargetObject RPCParams) (Function RPCParams)
        (Parameters RPCParams) true) Sender
  = Some ((), Sender,
          L ≫= λ r, [EvLog Log_Log] ++ option_list (resolved_RPC_event Env r)
                    ++ [EvDestroyParameters (Parameters r)]).
Proof.
  induction L as [|r L IH]; intros Sender HL; [done|].
  apply Forall_cons in HL as [[ev Hev] HL].
  cbn [M_for]. unfold M_bind at 1. unfold M_bind at 1. unfold M_emit at 1.
  rewrite (SendRPC_resolved Env r ev true Sender Hev). rewrite (IH Sender HL).
  by rewrite bind_cons, Hev.
Qed.

(** X8. [ResolveOutgoingRPCs(Object)] does nothing when no call waits for
    [Object].  When every call that waits for it is resolved (its target
    has an entity and its payload names no object without one), the calls
    are sent in the order they were queued, one log line, one connection
    call and one release of the parameters each, and the list of [Object]
    leaves [OutgoingRPCs]; the rest of the sender is not touched. *)
Theorem ResolveOutgoingRPCs_sends_queue_in_order Env O Sender :
  (OutgoingRPCs Sender !! O = None →
   ResolveOutgoingRPCs Env O Sender = Some ((), Sender, []))
  ∧ (∀ L, OutgoingRPCs Sender !! O = Some L →
       Forall (λ r, is_Some (resolved_RPC_event Env r)) L →
       ResolveOutgoingRPCs Env O Sender
       = Some ((), set_OutgoingRPCs (delete O (OutgoingRPCs Sender)) Sender,
               L ≫= λ r, [EvLog Log_Log] ++ option_list (resolved_RPC_event Env r)
                         ++ [EvDestroyParameters (Parameters r)])).
Proof.
  unfold ResolveOutgoingRPCs. split.
  - intros HO. unfold M_bind, M_get. by rewrite HO.
  - intros L HO HL. unfold M_bind at 1. unfold M_get at 1. rewrite HO.
    unfold M_bind at 1. rewrite (M_for_resolved_RPCs Env L Sender HL).
    unfold M_modify. by rewrite app_nil_r.
Qed.

Lemma ResolveOutgoingRPCs_sends_queue_in_order_witness :
  ResolveOutgoingRPCs (Calls.EnvWith (Some 5)) 11%nat Calls.Queued
  = Some ((), Calls.Queued, [])
  ∧ ResolveOutgoingRPCs (Calls.EnvWith (Some 5)) 10%nat Calls.Queued
    = Some ((), set_OutgoingRPCs (delete 10%nat (OutgoingRPCs Calls.Queued)) Calls.Queued,
            [EvLog Log_Log; EvConnection_SendCommandRequest 5 201 3%nat 70 1;
             EvDestroyParameters 70;
             EvLog Log_Log;
             EvConnection_SendComponentUpdate 5 (MulticastUpdate 204 2 4%nat 71);
             EvDestroyParameters 71]).
Proof.
  split.
  - apply (proj1 (ResolveOutgoingRPCs_sends_queue_in_order (Calls.EnvWith (Some 5))
                    11%nat Calls.Queued)).
    vm_compute. reflexivity.
  - apply (proj2 (ResolveOutgoingRPCs_sends_queue_in_order (Calls.EnvWith (Some 5))
                    10%nat Calls.Queued) [Calls.Client; Calls.Multicast]).
    + vm_compute. reflexivity.
    + repeat constructor; by eexists.
Defined.

(** X9. A call that [SendRPC] cannot send yet is kept, and sent later.
    When the target's class is known and the target or an object of the
    payload has no entity, a [SendRPC] that returns hands nothing to the
    connection: it copies the parameters unless it owns them, and queues
    the call under the blocking object.  Once the references are resolved,
    [ResolveOutgoingRPCs] of that object sends this very call, releases the
    parameters, and leaves the sender as it was before the call was
    queued. *)
Theorem queued_RPC_is_sent_on_resolve Env Env' r Blocker (bOwnParameters : bool)
    Sender Sender1 evs ev :
  is_Some (FindClassInfoByClass Env (GetClass Env (TargetObject r))) →
  blocking_object Env r = Some Blocker →
  OutgoingRPCs Sender !! Blocker = None →
  SendRPC Env (TargetObject r) (Function r) (Parameters r) bOwnParameters Sender
  = Some ((), Sender1, evs) →
  resolved_RPC_event Env' r = Some ev →
  evs = (if bOwnParameters then [] else [EvCopyParameters (Parameters r)])
  ∧ OutgoingRPCs Sender1 !! Blocker = Some [r]
  ∧ ResolveOutgoingRPCs Env' Blocker Sender1
    = Some ((), Sender, [EvLog Log_Log; ev; EvDestroyParameters (Parameters r)]).
Proof.
  intros HInfo Hblock Hfree Hsend Hev.
  destruct (SendRPC_blocked Env r Blocker bOwnParameters Sender Sender1 evs
              HInfo Hblock Hsend) as [-> ->].
  rewrite Hfree. simpl. rewrite lookup_insert_eq. split; [done|]. split; [done|].
  rewrite (proj2 (ResolveOutgoingRPCs_sends_queue_in_order Env' Blocker _) [r]).
  - simpl. rewrite Hev. simpl. do 2 f_equal. unfold set_OutgoingRPCs. simpl.
    rewrite delete_insert_eq, delete_id by done. by destruct Sender.
  - simpl. by rewrite lookup_insert_eq.
  - repeat constructor. by eexists.
Qed.

Lemma queued_RPC_is_sent_on_resolve_witness :
  ∃ Sender1,
    SendRPC (Calls.EnvWith None) 10%nat 3%nat 70 false USpatialSender_new
    = Some ((), Sender1, [EvCopyParameters 70])
    ∧ OutgoingRPCs Sender1 !! 10%nat = Some [Calls.Client]
    ∧ ResolveOutgoingRPCs (Calls.EnvWith (Some 5)) 10%nat Sender1
      = Some ((), USpatialSender_new,
              [EvLog Log_Log; EvConnection_SendCommandRequest 5 201 3%nat 70 1;
               EvDestroyParameters 70]).
Proof.
  destruct (SendRPC (Calls.EnvWith None) 10%nat 3%nat 70 false USpatialSender_new)
    as [[[[] Sender1] evs]|] eqn:Hsend; [| vm_compute in Hsend; discriminate Hsend].
  destruct (queued_RPC_is_sent_on_resolve (Calls.EnvWith None) (Calls.EnvWith (Some 5))
              Calls.Client 10%nat false USpatialSender_new Sender1 evs
              (EvConnection_SendCommandRequest 5 201 3%nat 70 1))
    as (-> & Hq & Hres).
  - by eexists.
  - reflexivity.
  - reflexivity.
  - exact Hsend.
  - reflexivity.
  - by exists Sender1.
Defined.

(** ** Retirement of the ring, slot by slot *)

Lemma UpdateChangelistHistory_spec MAX rs rs' :
  UpdateChangelistHistory MAX rs = Some rs' →
  FRepState.HistoryStart rs ≤ FRepState.HistoryEnd rs
  ∧ FRepState.HistoryEnd rs - FRepState.HistoryStart rs < MAX
  ∧ FRepState.HistoryStart rs' = Z.rem (FRepState.HistoryEnd rs) MAX
  ∧ FRepState.HistoryEnd rs' = Z.rem (FRepState.HistoryEnd rs) MAX
  ∧ FRepState.LastChangelistIndex rs' = FRepState.LastChangelistIndex rs
  ∧ FRepState.LastCompareIndex rs' = FRepState.LastCompareIndex rs
  ∧ length (FRepState.ChangeHistory rs') = length (FRepState.ChangeHistory rs)
  ∧ (∀ k, FRepState.HistoryStart rs ≤ k < FRepState.HistoryEnd rs →
       array_get (FRepState.ChangeHistory rs') (Z.rem k MAX) = Some emptied)
  ∧ (∀ j, 0 ≤ j →
       (∀ k, FRepState.HistoryStart rs ≤ k < FRepState.HistoryEnd rs → Z.rem k MAX ≠ j) →
       array_get (FRepState.ChangeHistory rs') j = array_get (FRepState.ChangeHistory rs) j).
Proof.
  unfold UpdateChangelistHistory. intros H.
  apply bind_Some in H as (? & H1 & H).
  apply bind_Some in H as (? & H2 & H).
  apply bind_Some in H as (rs1 & Hloop & H).
  apply bind_Some in H as (? & H3 & H).
  apply check_Some in H1, H2. apply Z.leb_le in H1. apply Z.ltb_lt in H2.
  apply UpdateChangelistHistory_loop_result in Hloop
    as (HE & HS & HL & HC & Hlen & Hcleared & Hrest); [| done | lia].
  simplify_eq. simpl.
  replace (FRepState.HistoryStart rs1) with (FRepState.HistoryEnd rs) by lia.
  rewrite HE. split_and!; try done; lia.
Qed.

(** A slot that holds no change list holds none after the loop. *)
Lemma UpdateChangelistHistory_loop_keeps_empty MAX fuel j : ∀ i rs rs' item,
  UpdateChangelistHistory_loop MAX fuel i rs = Some rs' →
  array_get (FRepState.ChangeHistory rs) j = Some item → Changed item = [] →
  ∃ item', array_get (FRepState.ChangeHistory rs') j = Some item' ∧ Changed item' = [].
Proof.
  induction fuel as [|fuel IH]; intros i rs rs' item Hloop Hj Hempty; simpl in Hloop.
  - destruct (i <? FRepState.HistoryEnd rs); [done|]. simplify_eq. eauto.
  - destruct (i <? FRepState.HistoryEnd rs); [| simplify_eq; eauto].
    destruct (array_get (FRepState.ChangeHistory rs) (Z.rem i MAX)) as [item0|] eqn:Hget;
      simpl in Hloop; [| done].
    destruct (check _) eqn:Hchk; simpl in Hloop; [| done].
    destruct (decide (Z.rem i MAX = j)) as [<- | Hne].
    + eapply IH; [exact Hloop | simpl; by erewrite array_get_set_eq | done].
    + eapply IH; [exact Hloop | simpl | exact Hempty].
      apply array_get_Some in Hget as [? _].
      pose proof Hj as Hj0. apply array_get_Some in Hj0 as [? _].
      by rewrite array_get_set_ne.
Qed.

(** X10. [UpdateChangelistHistory], when it returns, has emptied every
    slot between the two cursors and reset its packet range, has left
    every other slot, the length of the ring and the two consumer cursors
    as they were, and has moved both history cursors to
    [HistoryEnd % MAX_CHANGE_HISTORY]. *)
Theorem UpdateChangelistHistory_empties_window MAX rs rs' :
  UpdateChangelistHistory MAX rs = Some rs' →
  FRepState.HistoryStart rs' = Z.rem (FRepState.HistoryEnd rs) MAX
  ∧ FRepState.HistoryEnd rs' = Z.rem (FRepState.HistoryEnd rs) MAX
  ∧ FRepState.LastChangelistIndex rs' = FRepState.LastChangelistIndex rs
  ∧ FRepState.LastCompareIndex rs' = FRepState.LastCompareIndex rs
  ∧ length (FRepState.ChangeHistory rs') = length (FRepState.ChangeHistory rs)
  ∧ (∀ k, FRepState.HistoryStart rs ≤ k < FRepState.HistoryEnd rs →
       array_get (FRepState.ChangeHistory rs') (Z.rem k MAX)
       = Some {| Changed := []; OutPacketIdRange := FPacketIdRange_new |})
  ∧ (∀ j, 0 ≤ j →
       (∀ k, FRepState.HistoryStart rs ≤ k < FRepState.HistoryEnd rs → Z.rem k MAX ≠ j) →
       array_get (FRepState.ChangeHistory rs') j = array_get (FRepState.ChangeHistory rs) j).
Proof.
  intros H. apply UpdateChangelistHistory_spec in H.
  destruct H as (_ & _ & H). exact H.
Qed.

Lemma UpdateChangelistHistory_empties_window_witness :
  ∃ rs',
    UpdateChangelistHistory 4 Pass.RingTwo = Some rs'
    ∧ FRepState.HistoryStart rs' = Z.rem 2 4
    ∧ FRepState.HistoryEnd rs' = Z.rem 2 4
    ∧ FRepState.ChangeHistory rs' = replicate 4 emptied.
Proof.
  destruct (UpdateChangelistHistory 4 Pass.RingTwo) as [rs'|] eqn:H;
    [| vm_compute in H; discriminate H].
  exists rs'. split; [done|].
  destruct (UpdateChangelistHistory_empties_window 4 Pass.RingTwo rs' H)
    as (HS & HE & _).
  split; [exact HS|]. split; [exact HE|].
  vm_compute in H. by simplify_eq.
Defined.

(** ** The result of [ReplicateSubobject] *)

Lemma ReplicateSubobject_inv Env Self Ch Object cl rs Sender wrote rs' Sender' evs :
  ReplicateSubobject Env Self Ch true Object cl rs Sender = Some (wrote, rs', Sender', evs) →
  ∃ rs1 Merged rs2 Slot,
    GatherChangelists (MAX_CHANGE_HISTORY Env) (CL_MAX_CHANGE_HISTORY Env)
      (MergeChangeList Env) cl rs = Some (rs1, Merged)
    ∧ (if nonempty Merged
       then SendComponentUpdates (Channel_SenderEnv Env Self Ch) Object Self
              (Some {| RepChanged := Merged;
                       RepLayout := FindOrCreateReplicator (SenderEnv Env) Self Object |})
              None Sender = Some ((), Sender', evs)
       else Sender' = Sender ∧ evs = [])
    ∧ UpdateChangelistHistory (MAX_CHANGE_HISTORY Env)
        (HistoryEnd_incremented (nonempty Merged) rs1) = Some rs2
    ∧ array_get (FRepState.ChangeHistory rs2)
        (Z.rem (FRepState.HistoryEnd rs) (MAX_CHANGE_HISTORY Env)) = Some Slot
    ∧ wrote = nonempty (Changed Slot)
    ∧ FRepState.HistoryStart rs' = FRepState.HistoryStart rs2
    ∧ FRepState.HistoryEnd rs' = FRepState.HistoryEnd rs2
    ∧ FRepState.ChangeHistory rs' = FRepState.ChangeHistory rs2
    ∧ FRepState.LastChangelistIndex rs' = FRepChangelistState.HistoryEnd cl
    ∧ FRepState.LastCompareIndex rs' = FRepState.LastCompareIndex rs2.
Proof.
  unfold ReplicateSubobject. simpl. intros H.
  apply bind_Some in H as ([rs1 Merged] & Hg & H). simpl in H.
  apply bind_Some in H as ([[rs1' Sender1] evs1] & Hsent & H). simpl in H.
  apply bind_Some in H as (rs2 & Hupd & H).
  apply bind_Some in H as (l & Hslot & H).
  apply fmap_Some in Hslot as (Slot & Hslot & ->).
  simplify_eq. exists rs1, Merged, rs2, Slot. unfold nonempty, HistoryEnd_incremented.
  destruct (0 <? Z.of_nat (length Merged)).
  - destruct (SendComponentUpdates _ _ _ _ _ _) as [[[[] S1] e1]|]; simplify_eq.
    by split_and!.
  - simplify_eq. by split_and!.
Qed.

(** X11. [ReplicateSubobject] never reports a change.  Its result reads
    the change list of the ring slot it merged into after
    [UpdateChangelistHistory] has run: on a ring whose start cursor is not
    past its end cursor, the slot holds no change list by then, so the
    result is [false] also when the merged list was not empty and
    [SendComponentUpdates] was called with it.  The ring is left with no
    active entry and the consumer's cursor at the end of the ledger. *)
Theorem ReplicateSubobject_reports_no_change Env Self Ch (IsSupportedClass : bool) Object
    cl rs Sender wrote rs' Sender' evs :
  FRepState.HistoryStart rs ≤ FRepState.HistoryEnd rs →
  ReplicateSubobject Env Self Ch IsSupportedClass Object cl rs Sender
  = Some (wrote, rs', Sender', evs) →
  wrote = false
  ∧ (IsSupportedClass = false → rs' = rs ∧ Sender' = Sender ∧ evs = [])
  ∧ (IsSupportedClass = true →
     ∃ rs1 Merged,
       GatherChangelists (MAX_CHANGE_HISTORY Env) (CL_MAX_CHANGE_HISTORY Env)
         (MergeChangeList Env) cl rs = Some (rs1, Merged)
       ∧ (Merged ≠ [] →
          ∃ rest, evs = EvSendComponentUpdates Self Object (Some Merged) None :: rest)
       ∧ (Merged = [] → Sender' = Sender ∧ evs = [])
       ∧ FRepState.HistoryStart rs' = FRepState.HistoryEnd rs'
       ∧ FRepState.LastChangelistIndex rs' = FRepChangelistState.HistoryEnd cl).
Proof.
  intros Hring H. destruct IsSupportedClass.
  2:{ unfold ReplicateSubobject in H. simpl in H. by simplify_eq. }
  apply ReplicateSubobject_inv in H
    as (rs1 & Merged & rs2 & Slot & Hg & Hsent & Hupd & Hslot & -> & HS & HE & HCH & HL & HC).
  pose proof (GatherChangelists_spec _ _ _ _ _ _ _ Hg)
    as (item0 & Lists & Hget0 & _ & HMerged & HS1 & HE1 & _ & HCH1).
  pose proof (UpdateChangelistHistory_spec _ _ _ Hupd)
    as (_ & _ & HS2 & HE2 & _ & _ & _ & Hcleared & _).
  split; [| split; [done|]; intros _; exists rs1, Merged; split_and!; try done].
  - destruct (nonempty Merged) eqn:Hne; simpl in Hupd, Hcleared.
    + rewrite <- HE1 in Hslot. rewrite Hcleared in Hslot by (simpl; lia).
      by simplify_eq.
    + unfold UpdateChangelistHistory in Hupd.
      apply bind_Some in Hupd as (? & _ & Hupd).
      apply bind_Some in Hupd as (? & _ & Hupd).
      apply bind_Some in Hupd as (rsL & Hloop & Hupd).
      apply bind_Some in Hupd as (? & _ & Hupd). simplify_eq. simpl in Hslot.
      destruct (UpdateChangelistHistory_loop_keeps_empty _ _
                  (Z.rem (FRepState.HistoryEnd rs) (MAX_CHANGE_HISTORY Env)) _ _ _
                  {| Changed := MergeSince (MergeChangeList Env) (Changed item0) Lists;
                     OutPacketIdRange := OutPacketIdRange item0 |} Hloop)
        as (item' & Hitem' & Hempty).
      * rewrite HCH1. by erewrite array_get_set_eq.
      * simpl. apply not_true_iff_false in Hne. rewrite nonempty_true in Hne.
        by destruct (decide (MergeSince (MergeChangeList Env) (Changed item0) Lists = []))
          as [? | Hd]; [| destruct (Hne Hd)].
      * rewrite Hitem' in Hslot. simplify_eq. by rewrite Hempty.
  - intros Hne. apply nonempty_true in Hne. rewrite Hne in Hsent.
    by eapply SendComponentUpdates_first_event in Hsent.
  - intros ->. by simpl in Hsent.
  - lia.
Qed.

Lemma ReplicateSubobject_reports_no_change_witness :
  ∃ wrote rs' Sender' evs,
    ReplicateSubobject Pass.Env 1%nat (Pass.Channel false) true 11%nat Pass.Ledger
      Pass.Ring USpatialSender_new
    = Some (wrote, rs', Sender', evs)
    ∧ wrote = false
    ∧ ∃ rest, evs = EvSendComponentUpdates 1%nat 11%nat (Some [1; 0; 2; 0]) None :: rest.
Proof.
  destruct (ReplicateSubobject Pass.Env 1%nat (Pass.Channel false) true 11%nat Pass.Ledger
              Pass.Ring USpatialSender_new)
    as [[[[wrote rs'] Sender'] evs]|] eqn:Hsub; [| vm_compute in Hsub; discriminate Hsub].
  exists wrote, rs', Sender', evs. split; [reflexivity|].
  destruct (ReplicateSubobject_reports_no_change Pass.Env 1%nat (Pass.Channel false) true
              11%nat Pass.Ledger Pass.Ring USpatialSender_new wrote rs' Sender' evs)
    as (Hwrote & _ & Hsupported).
  - simpl. lia.
  - exact Hsub.
  - split; [exact Hwrote|].
    destruct (Hsupported eq_refl) as (rs1 & Merged & Hgather & Hsent & _).
    vm_compute in Hgather. injection Hgather as _ <-.
    apply Hsent. discriminate.
Defined.

(** ** The handover differ on a buffer that is up to date *)

Lemma GetHandoverChangeList_loop_quiet Object Props : ∀ Off Shadow acc,
  Forall (λ f, is_Some (object_value Object f)
               ∧ shadow_value Shadow f = object_value Object f)
    (HandoverFields Off Props) →
  GetHandoverChangeList_loop false Object Props Off Shadow acc = Some (acc, Shadow).
Proof.
  induction Props as [|Info Props IH]; intros Off Shadow acc Hsync; [done|].
  cbn [HandoverFields GetHandoverChangeList_loop] in *.
  apply Forall_cons in Hsync as [[[Data HData] Heq] Hsync].
  unfold object_value, shadow_value in HData, Heq. simpl in HData, Heq.
  rewrite HData in Heq. rewrite HData, Heq. cbn [mbind option_bind].
  unfold Identical. rewrite bool_decide_eq_true_2 by done. simpl.
  by apply IH.
Qed.

Lemma field_fits_object_value Shadow Object f :
  field_fits Shadow Object f → is_Some (object_value Object f).
Proof.
  intros (_ & HS & HO & Hin & _). unfold object_value.
  rewrite read_bytes_is_Some by lia. by eexists.
Qed.

(** X12. [GetHandoverChangeList] brings the shadow buffer up to date: a
    second call on the buffer the first call left, for the same object and
    an entity that is not being created, returns no handle and leaves the
    buffer as it is. *)
Theorem GetHandoverChangeList_second_call_finds_nothing (bNew : bool) Props Shadow Object :
  Forall (field_fits Shadow Object) (HandoverFields 0 Props) →
  ∃ Changed Shadow',
    GetHandoverChangeList bNew (Some Props) Shadow Object = Some (Changed, Shadow')
    ∧ GetHandoverChangeList false (Some Props) Shadow' Object = Some ([], Shadow').
Proof.
  intros Hfits.
  destruct (GetHandoverChangeList_loop_spec bNew Object Props 0 Shadow [])
    as (Shadow' & Hloop & Hlen & Hsync & _); [lia | done |].
  eexists _, Shadow'. split; [exact Hloop|].
  simpl. apply GetHandoverChangeList_loop_quiet.
  rewrite Forall_forall in Hfits, Hsync. apply Forall_forall. intros f Hf.
  split; [by eapply field_fits_object_value, Hfits | by apply Hsync].
Qed.

Lemma GetHandoverChangeList_second_call_finds_nothing_witness :
  ∃ Changed Shadow',
    GetHandoverChangeList false (Some Shadow.Props) Shadow.Data Shadow.Object
    = Some (Changed, Shadow')
    ∧ GetHandoverChangeList false (Some Shadow.Props) Shadow' Shadow.Object
      = Some ([], Shadow').
Proof.
  apply (GetHandoverChangeList_second_call_finds_nothing false Shadow.Props Shadow.Data
           Shadow.Object).
  repeat constructor; vm_compute; congruence.
Defined.

(** ** The buffer [InitializeHandoverShadowData] allocates *)

Lemma HandoverFields_fst Props : ∀ Off, (HandoverFields Off Props).*1 = Props.
Proof. induction Props as [|Info Props IH]; intros Off; simpl; [done|]. by rewrite IH. Qed.

Lemma InitializeHandoverShadowData_size_fields A Props : ∀ Off,
  0 ≤ Off → Off + A ≤ 2^32 →
  Forall (λ Info, ArrayIdx Info = 0 ∧ ArrayDim (Property Info) = 1
                  ∧ 0 < MinAlignment (Property Info) ≤ A
                  ∧ 0 ≤ ElementSize (Property Info)) Props →
  Forall (λ f, f.2 + ElementSize (Property f.1) + A ≤ 2^32) (HandoverFields Off Props) →
  Off ≤ InitializeHandoverShadowData_size Props Off
  ∧ InitializeHandoverShadowData_size Props Off + A ≤ 2^32
  ∧ InitializeHandoverShadowData_size Props Off
    = default Off ((λ f, f.2 + ElementSize (Property f.1))
                     <$> last (HandoverFields Off Props))
  ∧ Forall (λ f, f.2 + ElementSize (Property f.1)
                 ≤ InitializeHandoverShadowData_size Props Off)
      (HandoverFields Off Props).
Proof.
  induction Props as [|Info Props IH]; intros Off HOff HA HProps Hfields.
  { simpl. split_and!; [lia | lia | done | done]. }
  cbn [HandoverFields InitializeHandoverShadowData_size] in *.
  apply Forall_cons in HProps as [(HIdx & HDim & Ha & He) HProps].
  apply Forall_cons in Hfields as [Hend Hfields]. simpl in Hend.
  pose proof (Align_bounds Off (MinAlignment (Property Info)) HOff ltac:(lia) ltac:(lia))
    as HAl.
  rewrite HIdx, HDim, Z.mul_1_r. simpl.
  rewrite Z.mod_small in Hfields |- * by lia.
  destruct (IH (Align Off (MinAlignment (Property Info)) + ElementSize (Property Info))
              ltac:(lia) ltac:(lia) HProps Hfields) as (Hle & Hbound & Hlast & Hall).
  split_and!; [lia | lia | |].
  - rewrite Hlast, last_cons.
    by destruct (last (HandoverFields _ Props)).
  - apply Forall_cons. split; [simpl; lia | done].
Qed.

(** X13. The buffer is as long as the differ needs it.  For a class whose
    handover properties are single values (array index 0, dimension 1),
    with 32-bit offsets that do not wrap around,
    [InitializeHandoverShadowData] allocates a buffer that ends exactly
    where the last field of [GetHandoverChangeList] ends; on that fresh
    buffer [GetHandoverChangeList] returns, without reading or writing
    outside it, and leaves its size as it is. *)
Theorem fresh_shadow_data_fits (bNew : bool) Props Object A :
  Forall (λ Info, ArrayIdx Info = 0 ∧ ArrayDim (Property Info) = 1
                  ∧ 0 < MinAlignment (Property Info) ≤ A
                  ∧ 0 ≤ ElementSize (Property Info)
                  ∧ 0 ≤ Offset Info
                  ∧ Offset Info + ElementSize (Property Info) ≤ Z.of_nat (length Object))
    Props →
  A ≤ 2^32 →
  Forall (λ f, f.2 + ElementSize (Property f.1) + A ≤ 2^32) (HandoverFields 0 Props) →
  Z.of_nat (length (InitializeHandoverShadowData Props))
  = default 0 ((λ f, f.2 + ElementSize (Property f.1)) <$> last (HandoverFields 0 Props))
  ∧ Forall (field_fits (InitializeHandoverShadowData Props) Object) (HandoverFields 0 Props)
  ∧ ∃ Changed Shadow',
      GetHandoverChangeList bNew (Some Props) (InitializeHandoverShadowData Props) Object
      = Some (Changed, Shadow')
      ∧ length Shadow' = length (InitializeHandoverShadowData Props).
Proof.
  intros HProps HA Hfields.
  destruct (InitializeHandoverShadowData_size_fields A Props 0 ltac:(lia) ltac:(lia))
    as (Hle & Hbound & Hlast & Hall); [| done |].
  { eapply Forall_impl; [exact HProps|]. simpl. tauto. }
  assert (Z.of_nat (length (InitializeHandoverShadowData Props))
          = InitializeHandoverShadowData_size Props 0) as Hlen.
  { unfold InitializeHandoverShadowData. rewrite length_replicate. lia. }
  assert (Forall (field_fits (InitializeHandoverShadowData Props) Object)
            (HandoverFields 0 Props)) as Hfits.
  { rewrite Forall_forall in HProps. rewrite Forall_forall in Hall.
    apply Forall_forall. intros f Hf.
    assert (f.1 ∈ Props) as Hin.
    { rewrite <- (HandoverFields_fst Props 0). apply list_elem_of_fmap. by exists f. }
    destruct (HProps _ Hin) as (_ & _ & Ha & He & HO & HinO).
    specialize (Hall f Hf). simpl in Hall.
    unfold field_fits. rewrite Hlen. split_and!; lia. }
  split; [by rewrite Hlen|]. split; [done|].
  destruct (GetHandoverChangeList_loop_spec bNew Object Props 0
              (InitializeHandoverShadowData Props) [])
    as (Shadow' & Hloop & HlenS & _); [lia | done |].
  by eexists _, Shadow'.
Qed.

Lemma fresh_shadow_data_fits_witness :
  Z.of_nat (length (InitializeHandoverShadowData Shadow.Props))
  = default 0 ((λ f, f.2 + ElementSize (Property f.1))
                 <$> last (HandoverFields 0 Shadow.Props))
  ∧ Forall (field_fits (InitializeHandoverShadowData Shadow.Props) Shadow.Object)
      (HandoverFields 0 Shadow.Props)
  ∧ ∃ Changed Shadow',
      GetHandoverChangeList true (Some Shadow.Props)
        (InitializeHandoverShadowData Shadow.Props) Shadow.Object
      = Some (Changed, Shadow')
      ∧ length Shadow' = length (InitializeHandoverShadowData Shadow.Props).
Proof.
  apply (fresh_shadow_data_fits true Shadow.Props Shadow.Object 4).
  - repeat constructor; vm_compute; congruence.
  - lia.
  - repeat constructor; vm_compute; congruence.
Defined.

(** ** A pass that finds nothing new *)






(** ** When [CreateInitialRepChangeState] returns *)

Lemma DepthAfter_cons Depth Cmd cmds :
  DepthAfter Depth (Cmd :: cmds) = DepthAfter (depth_step Depth Cmd) cmds.
Proof. done. Qed.

Lemma CreateInitialRepChangeState_loop_is_Some CmdCount cmds : ∀ CmdIdx Depth acc,
  is_Some (CreateInitialRepChangeState_loop CmdCount cmds CmdIdx Depth acc)
  ↔ ∀ (k : nat) Cmd, cmds !! k = Some Cmd → Type_ Cmd = REPCMD_Return →
      1 ≤ DepthAfter Depth (take k cmds) ∨ CmdIdx + Z.of_nat k = CmdCount - 1.
Proof.
  induction cmds as [|Cmd cmds IH]; intros CmdIdx Depth acc.
  { simpl. split; [by intros _ k Cmd Hk | by eexists]. }
  assert (∀ Depth',
    (∀ (k : nat) Cmd', cmds !! k = Some Cmd' → Type_ Cmd' = REPCMD_Return →
       1 ≤ DepthAfter Depth' (take k cmds) ∨ CmdIdx + 1 + Z.of_nat k = CmdCount - 1)
    ↔ (∀ (k : nat) Cmd', (Cmd :: cmds) !! S k = Some Cmd' → Type_ Cmd' = REPCMD_Return →
         1 ≤ DepthAfter Depth' (take k cmds) ∨ CmdIdx + Z.of_nat (S k) = CmdCount - 1))
    as Hshift.
  { intros Depth'. split; intros H k Cmd' Hk HT.
    - destruct (H k Cmd' Hk HT); [by left | right; lia].
    - destruct (H k Cmd' Hk HT); [by left | right; lia]. }
  cbn [CreateInitialRepChangeState_loop].
  destruct (Type_ Cmd) eqn:HT.
  - rewrite IH, Hshift. split; intros H.
    + intros [|k] Cmd' Hk HT'; [simpl in Hk; congruence|].
      cbn [take]. rewrite DepthAfter_cons. unfold depth_step at 1. rewrite HT.
      by eapply H.
    + intros k Cmd' Hk HT'. specialize (H (S k) Cmd' Hk HT').
      cbn [take] in H. rewrite DepthAfter_cons in H. unfold depth_step at 1 in H.
      by rewrite HT in H.
  - split.
    + intros [r Hr]. apply bind_Some in Hr as (? & Hchk & Hr).
      apply check_Some in Hchk. apply orb_true_iff in Hchk.
      rewrite Z.leb_le, Z.eqb_eq in Hchk.
      intros [|k] Cmd' Hk HT'.
      * simpl. unfold DepthAfter. simpl. destruct Hchk; [left | right]; lia.
      * cbn [take]. rewrite DepthAfter_cons. unfold depth_step at 1. rewrite HT.
        assert (is_Some (CreateInitialRepChangeState_loop CmdCount cmds (CmdIdx + 1)
                           (Depth - 1) (acc ++ [RelativeHandle Cmd]))) as Hsome
          by (by eexists).
        rewrite IH, Hshift in Hsome. by eapply Hsome.
    + intros H.
      replace (check _) with (Some ()).
      2:{ symmetry. apply check_Some, orb_true_iff. rewrite Z.leb_le, Z.eqb_eq.
          destruct (H 0%nat Cmd eq_refl HT) as [H0 | H0].
          - left. unfold DepthAfter in H0. simpl in H0. lia.
          - right. lia. }
      cbn [mbind option_bind]. rewrite IH, Hshift.
      intros k Cmd' Hk HT'. specialize (H (S k) Cmd' Hk HT').
      cbn [take] in H. rewrite DepthAfter_cons in H. unfold depth_step at 1 in H.
      by rewrite HT in H.
  - rewrite IH, Hshift. split; intros H.
    + intros [|k] Cmd' Hk HT'; [simpl in Hk; congruence|].
      cbn [take]. rewrite DepthAfter_cons. unfold depth_step at 1. rewrite HT.
      by eapply H.
    + intros k Cmd' Hk HT'. specialize (H (S k) Cmd' Hk HT').
      cbn [take] in H. rewrite DepthAfter_cons in H. unfold depth_step at 1 in H.
      by rewrite HT in H.
Qed.

(** X15. [CreateInitialRepChangeState] returns exactly when the layout has
    fewer than 65536 commands (the [uint16] counter of its loop reaches the
    count) and no return command but the last one closes more arrays than
    were opened before it; otherwise its [check] trips or the loop does not
    end. *)
Theorem CreateInitialRepChangeState_returns_iff Layout :
  is_Some (CreateInitialRepChangeState Layout)
  ↔ Z.of_nat (length (Cmds Layout)) < 65536
    ∧ ∀ (i : nat) Cmd, Cmds Layout !! i = Some Cmd → Type_ Cmd = REPCMD_Return →
        1 ≤ DepthBefore (Cmds Layout) i ∨ S i = length (Cmds Layout).
Proof.
  unfold CreateInitialRepChangeState. split.
  - intros [State H].
    apply bind_Some in H as (? & Hchk & H). apply check_Some, Z.ltb_lt in Hchk.
    apply bind_Some in H as (out & Hloop & _).
    split; [done|]. intros i Cmd Hi HT.
    destruct (proj1 (CreateInitialRepChangeState_loop_is_Some _ _ _ _ _)
                (mk_is_Some _ _ Hloop) i Cmd Hi HT) as [? | ?]; [by left | right; lia].
  - intros [Hlen H].
    rewrite (proj2 (check_Some _ ())) by (by apply Z.ltb_lt). cbn [mbind option_bind].
    destruct (proj2 (CreateInitialRepChangeState_loop_is_Some
                       (Z.of_nat (length (Cmds Layout))) (Cmds Layout) 0 0 [])) as [out ->];
      [| by eexists].
    intros k Cmd Hk HT. destruct (H k Cmd Hk HT) as [? | ?]; [by left | right; lia].
Qed.

Lemma CreateInitialRepChangeState_returns_iff_witness :
  is_Some (CreateInitialRepChangeState Scene.Layout)
  ∧ CreateInitialRepChangeState Unbalanced.Layout = None.
Proof.
  split.
  - apply (proj2 (CreateInitialRepChangeState_returns_iff Scene.Layout)).
    split; [simpl; lia|]. intros i Cmd Hi HT.
    do 3 (destruct i as [|i]; [simpl in Hi; simplify_eq; discriminate HT|]).
    destruct i as [|i]; [left; vm_compute; discriminate|].
    destruct i as [|i]; [by right|]. simpl in Hi. by rewrite lookup_nil in Hi.
  - apply eq_None_not_Some. intros Hsome.
    apply (proj1 (CreateInitialRepChangeState_returns_iff Unbalanced.Layout)) in Hsome
      as [_ H].
    destruct (H 0%nat _ eq_refl eq_refl) as [H0 | H0].
    + vm_compute in H0. by apply H0.
    + discriminate H0.
Defined.

Lemma emitted_sublist cmds : ∀ CmdIdx Depth,
  sublist (RelativeHandle <$> cmds) (emitted CmdIdx Depth cmds).
Proof.
  induction cmds as [|Cmd cmds IH]; intros CmdIdx Depth; [done|].
  cbn [emitted fmap list_fmap]. apply sublist_skip.
  apply sublist_inserts_l. apply IH.
Qed.

Lemma emitted_length cmds : ∀ CmdIdx Depth,
  (length cmds ≤ length (emitted CmdIdx Depth cmds) ≤ 2 * length cmds)%nat.
Proof.
  induction cmds as [|Cmd cmds IH]; intros CmdIdx Depth; [simpl; lia|].
  cbn [emitted length]. rewrite length_app.
  specialize (IH (CmdIdx + 1) (depth_step Depth Cmd)).
  destruct (bool_decide _); simpl; lia.
Qed.

Lemma emitted_no_array cmds : ∀ CmdIdx Depth,
  Forall (λ Cmd, Type_ Cmd ≠ REPCMD_DynamicArray) cmds →
  emitted CmdIdx Depth cmds = RelativeHandle <$> cmds.
Proof.
  induction cmds as [|Cmd cmds IH]; intros CmdIdx Depth H; [done|].
  apply Forall_cons in H as [HT H]. cbn [emitted fmap list_fmap].
  rewrite bool_decide_eq_false_2 by tauto. simpl. f_equal. by apply IH.
Qed.

(** X16. The initial change state names every command.  When
    [CreateInitialRepChangeState] returns, its list holds the handle of
    every command of the layout, in the order of the commands; all it adds
    is at most one count per command, so the list is at least as long as
    the layout and at most twice as long, and for a layout without dynamic
    array it is the list of the handles itself.  The layout of the result
    is the one given. *)
Theorem initial_change_state_names_every_command Layout State :
  CreateInitialRepChangeState Layout = Some State →
  RepLayout State = Layout
  ∧ sublist (RelativeHandle <$> Cmds Layout) (RepChanged State)
  ∧ (length (Cmds Layout) ≤ length (RepChanged State) ≤ 2 * length (Cmds Layout))%nat
  ∧ (Forall (λ Cmd, Type_ Cmd ≠ REPCMD_DynamicArray) (Cmds Layout) →
     RepChanged State = RelativeHandle <$> Cmds Layout).
Proof.
  unfold CreateInitialRepChangeState. intros H.
  apply bind_Some in H as (? & _ & H).
  apply bind_Some in H as (out & Hloop & H). simplify_eq. simpl.
  apply CreateInitialRepChangeState_loop_emitted in Hloop. simpl in Hloop. subst out.
  split; [done|]. split; [apply emitted_sublist|]. split; [apply emitted_length|].
  apply emitted_no_array.
Qed.

Lemma initial_change_state_names_every_command_witness :
  ∃ State,
    CreateInitialRepChangeState Scene.Layout = Some State
    ∧ RepLayout State = Scene.Layout
    ∧ sublist [1; 2; 1; 0; 0] (RepChanged State)
    ∧ (5 ≤ length (RepChanged State) ≤ 10)%nat.
Proof.
  destruct (CreateInitialRepChangeState Scene.Layout) as [State|] eqn:H;
    [| vm_compute in H; discriminate H].
  exists State. split; [reflexivity|].
  destruct (initial_change_state_names_every_command Scene.Layout State H)
    as (HL & Hsub & Hlen & _).
  split; [exact HL|]. split; [exact Hsub | exact Hlen].
Defined.

(** ** The create-entity request *)

Lemma same_requests_refl Sender : same_requests Sender Sender.
Proof. done. Qed.

Lemma same_requests_trans S1 S2 S3 :
  same_requests S1 S2 → same_requests S2 S3 → same_requests S1 S3.
Proof. unfold same_requests. intros (-> & -> & ->) (-> & -> & ->). done. Qed.

Lemma M_for_queue_same_requests Channel Object (b : bool) (l : list (Z * gset ObjectId)) :
  ∀ Sender u Sender' evs,
  M_for l (λ HandleUnresolvedObjectsPair,
      QueueOutgoingUpdate Channel Object HandleUnresolvedObjectsPair.1
        HandleUnresolvedObjectsPair.2 b) Sender = Some (u, Sender', evs) →
  same_requests Sender Sender'.
Proof.
  induction l as [|x l IH]; intros Sender u Sender' evs H.
  - inv_ret H. apply same_requests_refl.
  - apply M_for_Some_cons in H as (Sender1 & e1 & e2 & H1 & H2 & ->).
    apply M_on_containers_Some in H1 as (U & _ & -> & _).
    eapply same_requests_trans; [| by eapply IH]. by destruct b.
Qed.

Lemma CreateEntity_object_same_requests Env Channel Object Info Sender Datas Sender' evs :
  CreateEntity_object Env Channel Object Info Sender = Some (Datas, Sender', evs) →
  same_requests Sender Sender'.
Proof.
  unfold CreateEntity_object. intros H.
  apply M_bind_Some in H as (? & ? & ? & ? & Hinit & H & ->). inv_lift Hinit.
  apply M_bind_Some in H as (? & ? & ? & ? & H1 & H & ->).
  apply M_for_queue_same_requests in H1.
  apply M_bind_Some in H as (? & ? & ? & ? & H2 & H & ->).
  apply M_for_queue_same_requests in H2.
  inv_ret H. by eapply same_requests_trans.
Qed.

Lemma CreateEntity_subobjects_inv Env Channel Subs Classes :
  ∀ Sender Datas Sender' evs,
  CreateEntity_subobjects Env Channel Subs Classes Sender = Some (Datas, Sender', evs) →
  same_requests Sender Sender'
  ∧ ∀ ReadAcl WriteAcl, EntityAclData ReadAcl WriteAcl ∉ Datas.
Proof.
  induction Classes as [|Class Classes IH]; intros Sender Datas Sender' evs H; simpl in H.
  - inv_ret H. split; [apply same_requests_refl|]. intros ? ? Hin.
    inversion Hin.
  - apply M_bind_Some in H as (? & ? & ? & ? & H1 & H & ->). inv_lift H1.
    apply M_bind_Some in H as (? & ? & ? & ? & H1 & H & ->). inv_lift H1.
    apply M_bind_Some in H as (? & ? & ? & ? & Hobj & H & ->).
    pose proof (CreateEntity_object_same_requests _ _ _ _ _ _ _ _ Hobj) as Hsame1.
    apply CreateEntity_object_inv in Hobj as (? & _ & -> & ->).
    apply M_bind_Some in H as (? & ? & ? & ? & Hrest & H & ->).
    apply IH in Hrest as [Hsame2 Hno]. inv_ret H.
    split; [by eapply same_requests_trans|].
    intros R W Hin. apply elem_of_app in Hin as [Hin | Hin].
    + apply list_elem_of_fmap in Hin as (? & ? & _). done.
    + do 4 (apply elem_of_cons in Hin as [Hin | Hin]; [discriminate Hin|]).
      by eapply Hno.
Qed.

Lemma AddClassWriteAcl_Forall (P : WorkerRequirementSet → Prop) Info ServersOnly
    OwningClientOnly (Acl : gmap Z WorkerRequirementSet) :
  P ServersOnly → P OwningClientOnly →
  map_Forall (λ _, P) Acl →
  map_Forall (λ _, P) (AddClassWriteAcl Info ServersOnly OwningClientOnly Acl).
Proof.
  intros HS HO HAcl. unfold AddClassWriteAcl.
  repeat (apply map_Forall_insert_2; [done|]). done.
Qed.

Lemma CreateEntity_subobject_acls_Forall (P : WorkerRequirementSet → Prop) Env ServersOnly
    OwningClientOnly Classes : ∀ (Acl Acl' : gmap Z WorkerRequirementSet),
  P ServersOnly → P OwningClientOnly →
  map_Forall (λ _, P) Acl →
  CreateEntity_subobject_acls Env ServersOnly OwningClientOnly Classes Acl = Some Acl' →
  map_Forall (λ _, P) Acl'.
Proof.
  induction Classes as [|Class Classes IH]; intros Acl Acl' HS HO HAcl H; simpl in H.
  - by simplify_eq.
  - apply bind_Some in H as (Info & _ & H).
    eapply IH; [done | done | | exact H]. by apply AddClassWriteAcl_Forall.
Qed.

Lemma CreateEntity_request Env ClientWorkerId EntityType Channel Parent Sender
    RequestId Sender' evs :
  CreateEntity Env ClientWorkerId EntityType Channel Parent Sender
  = Some (RequestId, Sender', evs) →
  ∃ Datas,
    evs = [EvConnection_SendCreateEntityRequest RequestId Datas (GetEntityId Env Channel)]
    ∧ RequestId = NextRequestId Sender
    ∧ NextRequestId Sender' = NextRequestId Sender + 1
    ∧ PendingActorRequests Sender'
      = <[RequestId := Channel]> (PendingActorRequests Sender)
    ∧ (∃ ReadAcl WriteAcl, EntityAclData ReadAcl WriteAcl ∈ Datas)
    ∧ ∀ ReadAcl WriteAcl Component Requirement,
        EntityAclData ReadAcl WriteAcl ∈ Datas →
        WriteAcl !! Component = Some Requirement →
        servers_or_owner Env ClientWorkerId Requirement.
Proof.
  unfold CreateEntity. intros H.
  apply M_bind_Some in H as (Info & ? & ? & ? & HInfo & H & ->). inv_lift HInfo.
  apply M_bind_Some in H as (Acl & ? & ? & ? & HAcl & H & ->). inv_lift HAcl.
  apply M_bind_Some in H as (Dyn & S1 & ? & ? & HDyn & H & ->).
  pose proof (CreateEntity_object_same_requests _ _ _ _ _ _ _ _ HDyn) as Hsame1.
  apply CreateEntity_object_inv in HDyn as (Init & HInit & -> & ->).
  apply M_bind_Some in H as (Sub & S2 & ? & ? & HSub & H & ->).
  pose proof HSub as Hsilent. apply CreateEntity_subobjects_silent in Hsilent as ->.
  apply CreateEntity_subobjects_inv in HSub as [Hsame2 HnoAcl].
  apply M_bind_Some in H as (Id & S3 & ? & ? & HId & H & ->).
  unfold Connection_NewRequestId in HId. simplify_eq.
  apply M_bind_Some in H as (? & ? & ? & ? & Hemit & H & ->). inv_emit Hemit.
  apply M_bind_Some in H as (? & ? & ? & ? & Hmod & H & ->).
  unfold M_modify in Hmod. inv_ret H. simpl.
  destruct (same_requests_trans _ _ _ Hsame1 Hsame2) as (_ & HP & HN).
  rewrite HN, HP.
  eexists. split; [reflexivity|]. split; [done|]. split; [done|]. split; [done|].
  set (SO := [[ServerWorkerType (SpatialConstants Env)]]) in *.
  set (OC := [[String.append "workerId:" ClientWorkerId]]) in *.
  assert (servers_or_owner Env ClientWorkerId SO) as HSO by (by left).
  assert (servers_or_owner Env ClientWorkerId OC) as HOC by (by right).
  assert (map_Forall (λ _, servers_or_owner Env ClientWorkerId) Acl) as HForall.
  { eapply CreateEntity_subobject_acls_Forall; [exact HSO | exact HOC | | exact E0].
    apply AddClassWriteAcl_Forall; [done | done |].
    repeat (apply map_Forall_insert_2; [done|]). apply map_Forall_empty. }
  assert (map_Forall (λ _, servers_or_owner Env ClientWorkerId)
            (match Parent with
             | Some _ => <[WORKING_SET_COMPONENT_ID (SpatialConstants Env) := SO]> Acl
             | None => Acl
             end)) as HForall'.
  { destruct Parent; [by apply map_Forall_insert_2 | done]. }
  split.
  { eexists _, _. destruct Parent; do 2 apply list_elem_of_further; apply list_elem_of_here. }
  intros R W C Req Hin HC.
  assert (W = Acl ∨ W = match Parent with
                        | Some _ => <[WORKING_SET_COMPONENT_ID (SpatialConstants Env) := SO]> Acl
                        | None => Acl
                        end) as [-> | ->].
  { unfold EmptyRPCComponentDatas in Hin. destruct Parent;
      repeat first [rewrite elem_of_app in Hin | rewrite elem_of_cons in Hin
                   | rewrite elem_of_nil in Hin];
      destruct_or?; simplify_eq;
      first [ by left | by right | done
            | by apply list_elem_of_fmap in Hin as (? & ? & _)
            | exfalso; by eapply HnoAcl ]. }
  - by eapply HForall.
  - by eapply HForall'.
Qed.

(** X17. [CreateEntity] gives write access to servers and to the owning
    client only.  A call that returns has sent one create-entity request,
    under the next request identifier of the connection, and has recorded
    the channel under that identifier in [PendingActorRequests]; the
    component set of the request carries an entity access list, and in
    every access list of the set each component is writable either by the
    server workers or by the worker of the owning client, never by another
    client. *)
Theorem CreateEntity_write_access Env ClientWorkerId EntityType Channel Parent Sender
    RequestId Sender' evs :
  CreateEntity Env ClientWorkerId EntityType Channel Parent Sender
  = Some (RequestId, Sender', evs) →
  ∃ Datas,
    evs = [EvConnection_SendCreateEntityRequest RequestId Datas (GetEntityId Env Channel)]
    ∧ RequestId = NextRequestId Sender
    ∧ NextRequestId Sender' = NextRequestId Sender + 1
    ∧ PendingActorRequests Sender'
      = <[RequestId := Channel]> (PendingActorRequests Sender)
    ∧ (∃ ReadAcl WriteAcl, EntityAclData ReadAcl WriteAcl ∈ Datas)
    ∧ ∀ ReadAcl WriteAcl Component Requirement,
        EntityAclData ReadAcl WriteAcl ∈ Datas →
        WriteAcl !! Component = Some Requirement →
        servers_or_owner Env ClientWorkerId Requirement.
Proof. apply CreateEntity_request. Qed.

Lemma CreateEntity_write_access_witness :
  ∃ RequestId Sender' Datas,
    CreateEntity (Channel_SenderEnv Pass.Env 1%nat (Pass.Channel true)) "worker" "Class"
      1%nat None USpatialSender_new
    = Some (RequestId, Sender',
            [EvConnection_SendCreateEntityRequest RequestId Datas 7])
    ∧ RequestId = 1
    ∧ NextRequestId Sender' = 1 + 1
    ∧ PendingActorRequests Sender' = <[1 := 1%nat]> ∅
    ∧ (∃ ReadAcl WriteAcl, EntityAclData ReadAcl WriteAcl ∈ Datas)
    ∧ ∀ ReadAcl WriteAcl Component Requirement,
        EntityAclData ReadAcl WriteAcl ∈ Datas →
        WriteAcl !! Component = Some Requirement →
        servers_or_owner (Channel_SenderEnv Pass.Env 1%nat (Pass.Channel true)) "worker"
          Requirement.
Proof.
  destruct (CreateEntity (Channel_SenderEnv Pass.Env 1%nat (Pass.Channel true)) "worker"
              "Class" 1%nat None USpatialSender_new)
    as [[[RequestId Sender'] evs]|] eqn:Hcreate;
    [| vm_compute in Hcreate; discriminate Hcreate].
  destruct (CreateEntity_write_access _ _ _ _ _ _ _ _ _ Hcreate)
    as (Datas & -> & -> & HN & HP & Hhas & Hacl).
  exists 1, Sender', Datas. split; [reflexivity|]. split; [reflexivity|].
  split; [exact HN|]. split; [exact HP|]. split; [exact Hhas | exact Hacl].
Defined.

(** ** The shadow buffers [SetChannelActor] allocates *)

Lemma SetChannelActor_subobjects_spec Env Subobjects : ∀ Map,
  (is_Some (SetChannelActor_subobjects Env Subobjects Map)
   ↔ NoDup Subobjects
     ∧ ∀ Subobject, Subobject ∈ Subobjects →
         Map !! Subobject = None
         ∧ is_Some (FindClassInfoByClass (SenderEnv Env)
                      (GetClass (SenderEnv Env) Subobject)))
  ∧ ∀ Map', SetChannelActor_subobjects Env Subobjects Map = Some Map' →
      ∀ Object, Map' !! Object
        = if decide (Object ∈ Subobjects)
          then InitializeHandoverShadowData ∘ HandoverProperties
                 <$> FindClassInfoByClass (SenderEnv Env) (GetClass (SenderEnv Env) Object)
          else Map !! Object.
Proof.
  induction Subobjects as [|Subobject Subobjects IH]; intros Map.
  { cbn [SetChannelActor_subobjects]. split.
    - split; [intros _; split; [constructor | intros ? Hin; inversion Hin] | by eexists].
    - intros Map' ? Object. simplify_eq. rewrite decide_False; [done|].
      intros Hin. inversion Hin. }
  cbn [SetChannelActor_subobjects]. split.
  - split.
    + intros [Map' H]. apply bind_Some in H as (? & Hchk & H).
      apply check_Some, bool_decide_eq_true in Hchk.
      apply bind_Some in H as (ClassInfo & HInfo & H).
      destruct (proj1 (proj1 (IH _)) (mk_is_Some _ _ H)) as [Hnd Hall].
      split.
      * constructor; [| done]. intros Hin. destruct (Hall _ Hin) as [Hnone _].
        by rewrite lookup_insert_eq in Hnone.
      * intros Object Hin. apply elem_of_cons in Hin as [-> | Hin]; [by rewrite HInfo|].
        destruct (Hall _ Hin) as [Hnone Hsome]. split; [| done].
        destruct (decide (Object = Subobject)) as [-> | Hne];
          [by rewrite lookup_insert_eq in Hnone | by rewrite lookup_insert_ne in Hnone].
    + intros [Hnd Hall]. apply NoDup_cons in Hnd as [Hnotin Hnd].
      destruct (Hall Subobject ltac:(apply list_elem_of_here)) as [Hnone [ClassInfo HInfo]].
      rewrite (proj2 (check_Some _ ())) by (by apply bool_decide_eq_true).
      cbn [mbind option_bind]. rewrite HInfo. cbn [mbind option_bind].
      apply (proj1 (IH _)). split; [done|].
      intros Object Hin.
      destruct (Hall Object ltac:(by apply list_elem_of_further)) as [HnoneO HsomeO].
      split; [| done]. rewrite lookup_insert_ne; [done|]. by intros ->.
  - intros Map' H. apply bind_Some in H as (? & Hchk & H).
    apply bind_Some in H as (ClassInfo & HInfo & H).
    intros Object. rewrite (proj2 (IH _) Map' H Object).
    destruct (decide (Object ∈ Subobjects)) as [Hin | Hnotin].
    + rewrite decide_True; [done | by apply list_elem_of_further].
    + destruct (decide (Object = Subobject)) as [-> | Hne].
      * rewrite lookup_insert_eq, HInfo. rewrite decide_True; [done|].
        apply list_elem_of_here.
      * rewrite lookup_insert_ne by done. rewrite decide_False; [done|].
        intros Hin. apply elem_of_cons in Hin as [? | ?]; tauto.
Qed.

(** X18. [SetChannelActor], for an actor whose class is known, allocates a
    shadow buffer for the actor and for each of its handover subobjects,
    each as [InitializeHandoverShadowData] lays it out for the class of the
    object, and leaves the buffers of other objects alone.  It returns
    exactly when none of these objects has a buffer yet, no subobject is
    listed twice or is the actor itself, and the class of every subobject
    is known; a second call for the same actor therefore trips the
    [check]. *)
Theorem SetChannelActor_allocates_shadow_data Env Self InActor Ch Sender Info :
  FindClassInfoByClass (SenderEnv Env) (GetClass (SenderEnv Env) InActor) = Some Info →
  (is_Some (SetChannelActor Env Self InActor Ch Sender)
   ↔ NoDup (InActor :: GetHandoverSubobjects Env InActor)
     ∧ ∀ Object, Object ∈ InActor :: GetHandoverSubobjects Env InActor →
         HandoverShadowDataMap Ch !! Object = None
         ∧ is_Some (FindClassInfoByClass (SenderEnv Env) (GetClass (SenderEnv Env) Object)))
  ∧ ∀ Ch' Sender' evs,
      SetChannelActor Env Self InActor Ch Sender = Some (Ch', Sender', evs) →
      Actor Ch' = InActor
      ∧ EntityId Ch' = GetEntityIdFromActor Env InActor
      ∧ (∀ Object, HandoverShadowDataMap Ch' !! Object
           = if decide (Object ∈ InActor :: GetHandoverSubobjects Env InActor)
             then InitializeHandoverShadowData ∘ HandoverProperties
                    <$> FindClassInfoByClass (SenderEnv Env)
                          (GetClass (SenderEnv Env) Object)
             else HandoverShadowDataMap Ch !! Object)
      ∧ SetChannelActor Env Self InActor Ch' Sender' = None.
Proof.
  intros HInfo.
  assert (∀ Ch0 Sender0 Ch' Sender' evs,
            SetChannelActor Env Self InActor Ch0 Sender0 = Some (Ch', Sender', evs) →
            HandoverShadowDataMap Ch0 !! InActor = None
            ∧ ∃ Map', SetChannelActor_subobjects Env (GetHandoverSubobjects Env InActor)
                        (<[InActor := InitializeHandoverShadowData (HandoverProperties Info)]>
                           (HandoverShadowDataMap Ch0)) = Some Map'
                      ∧ HandoverShadowDataMap Ch' = Map'
                      ∧ Actor Ch' = InActor
                      ∧ EntityId Ch' = GetEntityIdFromActor Env InActor) as Hinv.
  { intros Ch0 Sender0 Ch' Sender' evs H. unfold SetChannelActor in H. rewrite HInfo in H.
    apply bind_Some in H as (? & Hchk & H).
    apply check_Some, bool_decide_eq_true in Hchk.
    apply bind_Some in H as (Map' & HMap & H).
    split; [done|]. exists Map'. split; [done|].
    destruct (GetEntityIdFromActor Env InActor =? 0).
    - destruct (SendReserveEntityIdRequest Self Sender0) as [[[[] ?] ?]|]; by simplify_eq.
    - by simplify_eq. }
  split; [split|].
  - intros [[[Ch' Sender'] evs] H].
    destruct (Hinv _ _ _ _ _ H) as (Hnone & Map' & HMap & _).
    destruct (proj1 (proj1 (SetChannelActor_subobjects_spec Env _ _))
                (mk_is_Some _ _ HMap)) as [Hnd Hall].
    split.
    + constructor; [| done]. intros Hin. destruct (Hall _ Hin) as [Hn _].
      by rewrite lookup_insert_eq in Hn.
    + intros Object Hin. apply elem_of_cons in Hin as [-> | Hin]; [by rewrite HInfo|].
      destruct (Hall _ Hin) as [Hn Hs]. split; [| done].
      destruct (decide (Object = InActor)) as [-> | Hne];
        [by rewrite lookup_insert_eq in Hn | by rewrite lookup_insert_ne in Hn].
  - intros [Hnd Hall]. apply NoDup_cons in Hnd as [Hnotin Hnd].
    destruct (Hall InActor ltac:(apply list_elem_of_here)) as [Hnone _].
    destruct (proj2 (proj1 (SetChannelActor_subobjects_spec Env
                (GetHandoverSubobjects Env InActor)
                (<[InActor := InitializeHandoverShadowData (HandoverProperties Info)]>
                   (HandoverShadowDataMap Ch))))) as [Map' HMap].
    { split; [done|]. intros Object Hin.
      destruct (Hall Object ltac:(by apply list_elem_of_further)) as [Hn Hs].
      split; [| done]. rewrite lookup_insert_ne; [done|]. by intros ->. }
    unfold SetChannelActor. rewrite HInfo.
    rewrite (proj2 (check_Some _ ())) by (by apply bool_decide_eq_true).
    cbn [mbind option_bind]. rewrite HMap. cbn [mbind option_bind].
    destruct (GetEntityIdFromActor Env InActor =? 0); by eexists.
  - intros Ch' Sender' evs H.
    destruct (Hinv _ _ _ _ _ H) as (Hnone & Map' & HMap & HMap' & HActor & HEntity).
    assert (∀ Object, HandoverShadowDataMap Ch' !! Object
              = if decide (Object ∈ InActor :: GetHandoverSubobjects Env InActor)
                then InitializeHandoverShadowData ∘ HandoverProperties
                       <$> FindClassInfoByClass (SenderEnv Env)
                             (GetClass (SenderEnv Env) Object)
                else HandoverShadowDataMap Ch !! Object) as Hlookup.
    { intros Object. rewrite HMap'.
      rewrite (proj2 (SetChannelActor_subobjects_spec Env _ _) Map' HMap Object).
      destruct (decide (Object ∈ GetHandoverSubobjects Env InActor)) as [Hin | Hnotin].
      - rewrite decide_True; [done | by apply list_elem_of_further].
      - destruct (decide (Object = InActor)) as [-> | Hne].
        + rewrite lookup_insert_eq, HInfo. rewrite decide_True; [done|].
          apply list_elem_of_here.
        + rewrite lookup_insert_ne by done. rewrite decide_False; [done|].
          intros Hin. apply elem_of_cons in Hin as [? | ?]; tauto. }
    split; [done|]. split; [done|]. split; [done|].
    apply eq_None_not_Some. intros [[[Ch2 Sender2] evs2] H2].
    destruct (Hinv _ _ _ _ _ H2) as (Hnone2 & _).
    rewrite Hlookup, decide_True, HInfo in Hnone2; [done|]. apply list_elem_of_here.
Qed.

Lemma SetChannelActor_allocates_shadow_data_witness :
  ∃ Ch' Sender' evs,
    SetChannelActor Pass.Env 1%nat 10%nat Pass.Unbound USpatialSender_new
    = Some (Ch', Sender', evs)
    ∧ Actor Ch' = 10%nat
    ∧ HandoverShadowDataMap Ch' !! 10%nat = Some []
    ∧ SetChannelActor Pass.Env 1%nat 10%nat Ch' Sender' = None.
Proof.
  destruct (SetChannelActor Pass.Env 1%nat 10%nat Pass.Unbound USpatialSender_new)
    as [[[Ch' Sender'] evs]|] eqn:Hset; [| vm_compute in Hset; discriminate Hset].
  destruct (proj2 (SetChannelActor_allocates_shadow_data Pass.Env 1%nat 10%nat Pass.Unbound
                     USpatialSender_new Pass.Info eq_refl) Ch' Sender' evs Hset)
    as (HActor & _ & Hlookup & Hagain).
  exists Ch', Sender', evs. split; [reflexivity|]. split; [exact HActor|].
  split; [| exact Hagain]. rewrite Hlookup. reflexivity.
Defined.

(** ** From the reserved entity to the create-entity request *)

Lemma SendCreateEntityRequest_request Env Channel Worker Parent Sender u Sender' evs :
  SendCreateEntityRequest Env Channel Worker Parent Sender = Some (u, Sender', evs) →
  ∃ Datas,
    evs = [EvLog Log_Log;
           EvConnection_SendCreateEntityRequest (NextRequestId Sender) Datas
             (GetEntityId Env Channel);
           EvReceiver_AddPendingActorRequest (NextRequestId Sender) Channel]
    ∧ PendingActorRequests Sender'
      = <[NextRequestId Sender := Channel]> (PendingActorRequests Sender)
    ∧ NextRequestId Sender' = NextRequestId Sender + 1.
Proof.
  unfold SendCreateEntityRequest. intros H.
  apply M_bind_Some in H as (? & ? & ? & ? & Hlog & H & ->). inv_emit Hlog.
  apply M_bind_Some in H as (RequestId & ? & ? & ? & Hcreate & H & ->). inv_emit H.
  apply CreateEntity_request in Hcreate as (Datas & -> & -> & HN & HP & _).
  by exists Datas.
Qed.

(** X19. The entity the connection reserved is the entity the channel
    asks to create.  For a valid actor, [OnReserveEntityIdResponse] on a
    successful response stores the reserved identifier in the channel,
    registers the actor and the channel under it, and leaves the sender
    alone.  The next pass of [ReplicateActor], for an entity that is still
    to be created and an actor outside the working sets, sends the
    create-entity request for that identifier, records the channel under
    the request in [PendingActorRequests] as it announces it to the
    receiver, and clears [bCreatingNewEntity]. *)
Theorem reserved_entity_is_created Env Self Op cl Ch Sender Ch1 Sender1 evs1
    wrote Ch2 Sender2 evs2 :
  ActorIsValid Env = true →
  reserve_status_code Op = WORKER_STATUS_CODE_SUCCESS →
  bCreatingNewEntity Ch = true →
  IsReadyForReplication Env = true →
  BunchIsError Env = false →
  IsAValidWorkingSet Env (GetClass (SenderEnv Env) (Actor Ch)) = false →
  OnReserveEntityIdResponse Env Self Op Ch Sender = Some (Ch1, Sender1, evs1) →
  ReplicateActor Env Self cl Ch1 Sender1 = Some (wrote, Ch2, Sender2, evs2) →
  EntityId Ch1 = reserve_entity_id Op
  ∧ Sender1 = Sender
  ∧ (∃ rest,
       evs1 = EvLog Log_Verbose
              :: EvEntityRegistry_AddToRegistry (reserve_entity_id Op) (Actor Ch)
              :: EvNetDriver_AddActorChannel (reserve_entity_id Op) Self :: rest)
  ∧ wrote = true
  ∧ bCreatingNewEntity Ch2 = false
  ∧ EntityId Ch2 = reserve_entity_id Op
  ∧ ∃ log Datas,
      evs2 = log ++
             [EvLog Log_Log;
              EvConnection_SendCreateEntityRequest (NextRequestId Sender) Datas
                (reserve_entity_id Op);
              EvReceiver_AddPendingActorRequest (NextRequestId Sender) Self]
      ∧ PendingActorRequests Sender2
        = <[NextRequestId Sender := Self]> (PendingActorRequests Sender).
Proof.
  intros Hvalid Hok Hnew Hready Hbunch Hws Hres Hpass.
  unfold OnReserveEntityIdResponse in Hres. rewrite Hvalid, Hok in Hres.
  simpl in Hres. simplify_eq. simpl.
  split; [done|]. split; [done|]. split; [by eexists|].
  apply ReplicateActor_inv in Hpass
    as (Ch1 & Merged & Handover & Ch3 & rs' & Hchanges & -> & Hsent & _ & _
        & Hnew2 & HActor2 & HEntity2 & _); [| done | done].
  apply ReplicateActor_changes_inv in Hchanges
    as (rs1 & Shadow & Shadow' & _ & _ & _ & _ & Hnew1 & HActor1 & HEntity1 & _).
  simpl in Hnew1, HActor1, HEntity1. rewrite Hnew1, Hnew in *. simpl in Hsent |- *.
  unfold ReplicateActor_create in Hsent. rewrite HActor1, Hws in Hsent.
  destruct (SendCreateEntityRequest _ _ _ _ _) as [[[[] S'] Events]|] eqn:Hsend;
    [| done].
  simplify_eq.
  apply SendCreateEntityRequest_request in Hsend as (Datas & -> & HP & _).
  simpl in HP |- *. destruct (decide (Self = Self)) as [_ | ?]; [| done].
  split; [done|]. split; [done|]. split; [congruence|].
  exists (GetPlayerWorkerId Env).2, Datas. rewrite HEntity1. done.
Qed.

Lemma reserved_entity_is_created_witness :
  ∃ Ch2 Sender2 log Datas,
    ReplicateActor Pass.Env 1%nat Pass.Ledger Handshake.Channel USpatialSender_new
    = Some (true, Ch2, Sender2,
            log ++ [EvLog Log_Log; EvConnection_SendCreateEntityRequest 1 Datas 42;
                    EvReceiver_AddPendingActorRequest 1 1%nat])
    ∧ EntityId Handshake.Channel = 42
    ∧ bCreatingNewEntity Ch2 = false
    ∧ EntityId Ch2 = 42
    ∧ PendingActorRequests Sender2 = <[1 := 1%nat]> ∅.
Proof.
  destruct (OnReserveEntityIdResponse Pass.Env 1%nat Handshake.Reserved (Pass.Channel true)
              USpatialSender_new) as [[[Ch1 Sender1] evs1]|] eqn:Hres;
    [| vm_compute in Hres; discriminate Hres].
  assert (Handshake.Channel = Ch1) as HCh by (unfold Handshake.Channel; by rewrite Hres).
  assert (Sender1 = USpatialSender_new) as ->
    by (vm_compute in Hres; by injection Hres as _ <- _).
  destruct (ReplicateActor Pass.Env 1%nat Pass.Ledger Ch1 USpatialSender_new)
    as [[[[wrote Ch2] Sender2] evs2]|] eqn:Hpass.
  2:{ rewrite <- HCh in Hpass. vm_compute in Hpass. discriminate Hpass. }
  destruct (reserved_entity_is_created Pass.Env 1%nat Handshake.Reserved Pass.Ledger
              (Pass.Channel true) USpatialSender_new Ch1 USpatialSender_new evs1
              wrote Ch2 Sender2 evs2)
    as (HE1 & _ & _ & -> & Hnew2 & HE2 & log & Datas & -> & HP);
    [reflexivity | reflexivity | reflexivity | reflexivity | reflexivity | reflexivity
     | exact Hres | exact Hpass |].
  rewrite HCh. exists Ch2, Sender2, log, Datas.
  split; [exact Hpass|]. split; [exact HE1|]. split; [exact Hnew2|].
  split; [exact HE2 | exact HP].
Defined.

(** ** Reserve requests after failures *)

(** X20. A failed reserve response only causes a new reserve request.
    For a valid actor, each response with a failure status makes
    [OnReserveEntityIdResponse] log the error and send the reserve request
    again, under the next request identifier of the connection, however
    often it fails: after [k] failures in a row, [k] requests have been
    sent under [k] consecutive identifiers, each announced to the receiver
    for this channel, while the channel, the unresolved indices, the
    queued remote procedure calls and [PendingActorRequests] are as they
    were. *)
Theorem reserve_request_is_retried Env Self Op (k : nat) Ch Sender :
  ActorIsValid Env = true →
  reserve_status_code Op ≠ WORKER_STATUS_CODE_SUCCESS →
  ∃ Sender',
    OnReserveEntityIdResponses Env Self Op k Ch Sender
    = Some (Ch, Sender',
            seqZ (NextRequestId Sender) (Z.of_nat k) ≫= λ RequestId,
              [EvLog Log_Error; EvLog Log_Log;
               EvConnection_SendReserveEntityIdRequest RequestId;
               EvReceiver_AddPendingActorRequest RequestId Self])
    ∧ NextRequestId Sender' = NextRequestId Sender + Z.of_nat k
    ∧ RepContainers Sender' = RepContainers Sender
    ∧ HandoverContainers Sender' = HandoverContainers Sender
    ∧ OutgoingRPCs Sender' = OutgoingRPCs Sender
    ∧ PendingActorRequests Sender' = PendingActorRequests Sender.
Proof.
  intros Hvalid Hfail. revert Sender.
  induction k as [|k IH]; intros Sender.
  { exists Sender. simpl. split_and!; try done. lia. }
  cbn [OnReserveEntityIdResponses].
  unfold OnReserveEntityIdResponse at 1. rewrite Hvalid.
  replace (reserve_status_code Op =? WORKER_STATUS_CODE_SUCCESS) with false
    by (symmetry; by apply Z.eqb_neq).
  simpl negb. cbv iota.
  unfold SendReserveEntityIdRequest, M_bind, M_emit, Connection_NewRequestId.
  cbn [mbind option_bind fst snd app].
  set (Sender1 := {| RepContainers := RepContainers Sender;
                     HandoverContainers := HandoverContainers Sender;
                     OutgoingRPCs := OutgoingRPCs Sender;
                     PendingActorRequests := PendingActorRequests Sender;
                     NextRequestId := NextRequestId Sender + 1 |}).
  destruct (IH Sender1) as (Sender' & -> & HN & HR & HH & HO & HP).
  unfold Sender1 in HN, HR, HH, HO, HP.
  cbn [NextRequestId RepContainers HandoverContainers OutgoingRPCs PendingActorRequests]
    in HN, HR, HH, HO, HP.
  exists Sender'. cbn [mbind option_bind fst snd].
  split; [| split_and!; try done; lia].
  rewrite Nat2Z.inj_succ. rewrite (seqZ_cons (NextRequestId Sender)) by lia.
  rewrite bind_cons.
  replace (Z.pred (Z.succ (Z.of_nat k))) with (Z.of_nat k) by lia.
  replace (Z.succ (NextRequestId Sender)) with (NextRequestId Sender + 1) by lia.
  done.
Qed.

Lemma reserve_request_is_retried_witness :
  ∃ Sender',
    OnReserveEntityIdResponses Pass.Env 1%nat Refused.Op 2 (Pass.Channel true)
      USpatialSender_new
    = Some (Pass.Channel true, Sender',
            [EvLog Log_Error; EvLog Log_Log;
             EvConnection_SendReserveEntityIdRequest 1;
             EvReceiver_AddPendingActorRequest 1 1%nat;
             EvLog Log_Error; EvLog Log_Log;
             EvConnection_SendReserveEntityIdRequest 2;
             EvReceiver_AddPendingActorRequest 2 1%nat])
    ∧ NextRequestId Sender' = 1 + 2.
Proof.
  destruct (reserve_request_is_retried Pass.Env 1%nat Refused.Op 2 (Pass.Channel true)
              USpatialSender_new) as (Sender' & Hres & HN & _);
    [reflexivity | discriminate |].
  exists Sender'. split; [exact Hres | exact HN].
Defined.

(** ** Component interest *)

Lemma CreateComponentInterest_subobjects_spec Env (bNetOwned : bool) Classes : ∀ Acc,
  CreateComponentInterest_subobjects Env bNetOwned Classes Acc
  = Infos ← mapM (FindClassInfoByClass Env) Classes;
    Some (Acc ++ (Infos ≫= λ Info,
            [ {| component_id := SingleClientComponent Info; is_interested := bNetOwned |};
              {| component_id := HandoverComponent Info; is_interested := false |} ])).
Proof.
  induction Classes as [|Class Classes IH]; intros Acc.
  { simpl. by rewrite app_nil_r. }
  cbn [CreateComponentInterest_subobjects mapM].
  destruct (FindClassInfoByClass Env Class) as [Info|]; [| done].
  cbn [mbind option_bind]. rewrite IH.
  destruct (mapM (FindClassInfoByClass Env) Classes) as [Infos|]; [| done].
  simpl. unfold FillComponentInterests. by rewrite <- !app_assoc.
Qed.

(** X21. [CreateComponentInterest] lists two overrides for the class of
    the actor and two for each of its subobject classes, in that order:
    the single-client component, of interest exactly when the actor has a
    net connection, and the handover component, never of interest.  It has
    no result when the actor's class or a subobject class has no class
    info. *)
Theorem CreateComponentInterest_per_class Env NetConnection Actor :
  CreateComponentInterest Env NetConnection Actor
  = ActorInfo ← FindClassInfoByClass Env (GetClass Env Actor);
    SubobjectInfos ← mapM (FindClassInfoByClass Env) (SubobjectClasses ActorInfo);
    Some ((ActorInfo :: SubobjectInfos) ≫= λ Info,
            [ {| component_id := SingleClientComponent Info;
                 is_interested := bool_decide (is_Some NetConnection) |};
              {| component_id := HandoverComponent Info; is_interested := false |} ]).
Proof.
  unfold CreateComponentInterest.
  destruct (FindClassInfoByClass Env (GetClass Env Actor)) as [ActorInfo|]; [| done].
  cbn [mbind option_bind]. rewrite CreateComponentInterest_subobjects_spec.
  destruct (mapM _ _) as [Infos|]; [| done]. simpl.
  by destruct NetConnection.
Qed.

(** ** The access list and the ticks of a channel *)

Lemma set_bFirstTick_id Ch : set_bFirstTick (bFirstTick Ch) Ch = Ch.
Proof. by destruct Ch. Qed.

Lemma UpdateEntityACLs_inv Env NetConnection Actor EntityId View bSuccess View' evs :
  UpdateEntityACLs Env NetConnection Actor EntityId View = Some (bSuccess, View', evs) →
  (View !! EntityId = None ∧ bSuccess = false ∧ View' = View ∧ evs = [])
  ∨ (∃ EntityACL Info,
       View !! EntityId = Some EntityACL
       ∧ FindClassInfoByClass Env (GetClass Env Actor) = Some Info
       ∧ bSuccess = true
       ∧ let Updated :=
           {| EntityAcl.ReadAcl := EntityAcl.ReadAcl EntityACL;
              EntityAcl.ComponentWriteAcl :=
                <[RPCComponents Info RPC_Client :=
                    [[String.append "workerId:" (default EmptyString NetConnection)]]]>
                  (EntityAcl.ComponentWriteAcl EntityACL) |} in
         View' = <[EntityId := Updated]> View
         ∧ evs = [EvConnection_SendEntityAclUpdate EntityId Updated]).
Proof.
  unfold UpdateEntityACLs. intros H.
  destruct (View !! EntityId) as [EntityACL|]; [| left; by simplify_eq].
  right. apply bind_Some in H as (Info & HInfo & H).
  exists EntityACL, Info. split; [done|]. split; [done|].
  destruct (bool_decide _); destruct NetConnection; by simplify_eq.
Qed.

(** X22. A second tick in an unchanged world does nothing.  Whatever a
    call of [SpatialViewTick] that returns has done, on a server or on a
    client, a further call on the channel, the ownership flag and the view
    it left sends nothing and changes nothing. *)
Theorem SpatialViewTick_settles Env (IsServer : bool) Ch (bNetOwned : bool) View
    Ch1 bNetOwned1 View1 evs1 :
  SpatialViewTick Env IsServer Ch bNetOwned View = Some (Ch1, bNetOwned1, View1, evs1) →
  SpatialViewTick Env IsServer Ch1 bNetOwned1 View1 = Some (Ch1, bNetOwned1, View1, []).
Proof.
  unfold SpatialViewTick.
  destruct (ActorIsValid Env && IsReadyForReplication Env) eqn:Hlive;
    [| intros H; by simplify_eq].
  set (Owned := match ActorOwningConnection Env with Some _ => true | None => false end).
  destruct (bFirstTick Ch || negb (eqb bNetOwned Owned)) eqn:Hacts.
  2:{ intros H. simplify_eq. apply orb_false_iff in Hacts as [-> _].
      by rewrite eqb_reflx. }
  destruct IsServer.
  - intros H. apply bind_Some in H as ([[bSuccess View'] evs] & Hupd & H).
    simpl in H. simplify_eq.
    apply UpdateEntityACLs_inv in Hupd
      as [(Hnone & -> & -> & ->) | (EntityACL & Info & HACL & HInfo & -> & -> & ->)].
    + rewrite andb_false_r, eqb_reflx.
      destruct (bFirstTick Ch) eqn:Hfirst; simpl; [| done].
      unfold UpdateEntityACLs. by rewrite Hnone.
    + rewrite andb_true_r, eqb_reflx.
      by destruct (bFirstTick Ch) eqn:Hfirst; simpl; rewrite ?Hfirst.
  - intros H. apply bind_Some in H as (Sent & _ & H). simplify_eq. simpl.
    by rewrite eqb_reflx.
Qed.

Lemma SpatialViewTick_settles_witness :
  ∃ Ch1 View1 evs1,
    SpatialViewTick (Tick.EnvWith (Some "worker")) true Tick.First false {[ 7 := Tick.Acl ]}
    = Some (Ch1, true, View1, evs1)
    ∧ evs1 ≠ []
    ∧ SpatialViewTick (Tick.EnvWith (Some "worker")) true Ch1 true View1
      = Some (Ch1, true, View1, []).
Proof.
  destruct (SpatialViewTick (Tick.EnvWith (Some "worker")) true Tick.First false
              {[ 7 := Tick.Acl ]}) as [[[[Ch1 Owned1] View1] evs1]|] eqn:Htick;
    [| vm_compute in Htick; discriminate Htick].
  pose proof (SpatialViewTick_settles _ _ _ _ _ _ _ _ _ Htick) as Hagain.
  assert (Owned1 = true ∧ evs1 ≠ []) as [-> Hsent].
  { vm_compute in Htick. injection Htick as _ <- _ <-. by split. }
  by exists Ch1, View1, evs1.
Defined.

(** X23. The first access-list update waits for the access list.  On a
    server, for a valid actor that is ready for replication and a channel
    on its first tick: while the view holds no access list for the entity,
    [SpatialViewTick] sends nothing and leaves [bFirstTick] set, so that
    the next tick tries again; once the view holds one and the class of the
    actor is known, the tick sends one update of the access list in which
    the client component of the class is writable by the owning client
    only, every other component and the read access are as before, the
    view holds the updated list, and [bFirstTick] is cleared. *)
Theorem SpatialViewTick_first_update Env Ch (bNetOwned : bool) View :
  ActorIsValid Env = true →
  IsReadyForReplication Env = true →
  bFirstTick Ch = true →
  let Owned := bool_decide (is_Some (ActorOwningConnection Env)) in
  (View !! EntityId Ch = None →
   SpatialViewTick Env true Ch bNetOwned View = Some (Ch, Owned, View, []))
  ∧ (∀ EntityACL Info,
       View !! EntityId Ch = Some EntityACL →
       FindClassInfoByClass (SenderEnv Env) (GetClass (SenderEnv Env) (Actor Ch))
       = Some Info →
       ∃ Updated,
         SpatialViewTick Env true Ch bNetOwned View
         = Some (set_bFirstTick false Ch, Owned, <[EntityId Ch := Updated]> View,
                 [EvConnection_SendEntityAclUpdate (EntityId Ch) Updated])
         ∧ EntityAcl.ReadAcl Updated = EntityAcl.ReadAcl EntityACL
         ∧ EntityAcl.ComponentWriteAcl Updated !! RPCComponents Info RPC_Client
           = Some [[String.append "workerId:"
                      (default EmptyString (ActorOwningConnection Env))]]
         ∧ ∀ Component, Component ≠ RPCComponents Info RPC_Client →
             EntityAcl.ComponentWriteAcl Updated !! Component
             = EntityAcl.ComponentWriteAcl EntityACL !! Component).
Proof.
  intros Hvalid Hready Hfirst Owned.
  assert (Owned = match ActorOwningConnection Env with Some _ => true | None => false end)
    as HOwned by (unfold Owned; by destruct (ActorOwningConnection Env)).
  unfold SpatialViewTick. rewrite Hvalid, Hready, Hfirst, <- HOwned. simpl. split.
  - intros Hnone. unfold UpdateEntityACLs. by rewrite Hnone.
  - intros EntityACL Info HACL HInfo. unfold UpdateEntityACLs. rewrite HACL, HInfo.
    cbn [mbind option_bind]. eexists. split.
    + cbn [fst snd]. rewrite ?Hfirst. simpl. reflexivity.
    + cbn [EntityAcl.ReadAcl EntityAcl.ComponentWriteAcl]. split; [done|].
      destruct (bool_decide (is_Some (EntityAcl.ComponentWriteAcl EntityACL
                                        !! RPCComponents Info RPC_Client)));
        destruct (ActorOwningConnection Env); cbn [default];
        (split; [by rewrite lookup_insert_eq | intros C HC; by rewrite lookup_insert_ne]).
Qed.

Lemma SpatialViewTick_first_update_witness :
  SpatialViewTick (Tick.EnvWith (Some "worker")) true Tick.First false ∅
  = Some (Tick.First, true, ∅, [])
  ∧ ∃ Updated,
      SpatialViewTick (Tick.EnvWith (Some "worker")) true Tick.First false
        {[ 7 := Tick.Acl ]}
      = Some (Tick.Later, true, <[7 := Updated]> {[ 7 := Tick.Acl ]},
              [EvConnection_SendEntityAclUpdate 7 Updated])
      ∧ EntityAcl.ComponentWriteAcl Updated !! 201 = Some [["workerId:worker"]]
      ∧ EntityAcl.ComponentWriteAcl Updated !! 54 = Some [["UnrealWorker"]].
Proof.
  destruct (SpatialViewTick_first_update (Tick.EnvWith (Some "worker")) Tick.First false ∅
              eq_refl eq_refl eq_refl) as [Hwait _].
  destruct (SpatialViewTick_first_update (Tick.EnvWith (Some "worker")) Tick.First false
              {[ 7 := Tick.Acl ]} eq_refl eq_refl eq_refl) as [_ Hsend].
  split; [exact (Hwait eq_refl)|].
  destruct (Hsend Tick.Acl Pass.Info eq_refl eq_refl) as (Updated & Htick & _ & Hclient & Hrest).
  exists Updated. split; [exact Htick|]. split; [exact Hclient|].
  refine (eq_trans (Hrest 54 _) _); [discriminate | reflexivity].
Defined.

(** X24. A tick records the ownership before it updates the access list.
    On a server, for a channel past its first tick whose actor has changed
    owner while the view holds no access list for the entity,
    [SpatialViewTick] sends nothing and stores the new ownership; the
    following ticks then find the ownership unchanged and send nothing
    either, whatever the view holds by then. *)
Theorem SpatialViewTick_ownership_recorded_first Env Ch (bNetOwned : bool) View :
  ActorIsValid Env = true →
  IsReadyForReplication Env = true →
  bFirstTick Ch = false →
  bNetOwned ≠ bool_decide (is_Some (ActorOwningConnection Env)) →
  View !! EntityId Ch = None →
  SpatialViewTick Env true Ch bNetOwned View
  = Some (Ch, bool_decide (is_Some (ActorOwningConnection Env)), View, [])
  ∧ ∀ View',
      SpatialViewTick Env true Ch (bool_decide (is_Some (ActorOwningConnection Env))) View'
      = Some (Ch, bool_decide (is_Some (ActorOwningConnection Env)), View', []).
Proof.
  intros Hvalid Hready Hfirst Hchanged Hnone.
  assert (bool_decide (is_Some (ActorOwningConnection Env))
          = match ActorOwningConnection Env with Some _ => true | None => false end)
    as HOwned by (by destruct (ActorOwningConnection Env)).
  rewrite HOwned in *.
  unfold SpatialViewTick. rewrite Hvalid, Hready, Hfirst. simpl. split.
  - replace (eqb bNetOwned _) with false
      by (symmetry; by apply eqb_false_iff).
    simpl. unfold UpdateEntityACLs. by rewrite Hnone.
  - intros View'. by rewrite eqb_reflx.
Qed.

Lemma SpatialViewTick_ownership_recorded_first_witness :
  SpatialViewTick (Tick.EnvWith (Some "worker")) true Tick.Later false ∅
  = Some (Tick.Later, true, ∅, [])
  ∧ SpatialViewTick (Tick.EnvWith (Some "worker")) true Tick.Later true {[ 7 := Tick.Acl ]}
    = Some (Tick.Later, true, {[ 7 := Tick.Acl ]}, []).
Proof.
  destruct (SpatialViewTick_ownership_recorded_first (Tick.EnvWith (Some "worker"))
              Tick.Later false ∅) as [Hnow Hlater];
    [reflexivity | reflexivity | reflexivity | discriminate | reflexivity |].
  split; [exact Hnow | exact (Hlater {[ 7 := Tick.Acl ]})].
Defined.

(** ** Entity creation on well-formed indices *)

Lemma QueueOutgoingUpdate_on_WellFormed p h Objs U :
  WellFormed U → pending U p h = None →
  ∃ U', QueueOutgoingUpdate_on p h Objs U = Some U' ∧ WellFormed U'
    ∧ ∀ p' h', pending U' p' h'
               = if decide (p' = p ∧ h' = h) then Some Objs else pending U p' h'.
Proof.
  intros HW Hnone.
  assert (fwd_get U p h = None) as Hf.
  { destruct HW as [(_ & Ha & _) _]. unfold pending in Hnone.
    destruct (fwd_get U p h) as [e|] eqn:He; [| done]. simpl in Hnone.
    destruct (Ha _ _ _ He) as [[S HS] _]. congruence. }
  destruct (requeue_on_WellFormed p {[ h := Objs ]} h U HW) as (U' & Hre & HW' & Hp).
  unfold requeue_on in Hre. rewrite ResetOutgoingUpdate_on_absent in Hre by done.
  simpl in Hre. rewrite lookup_singleton_eq in Hre.
  exists U'. split; [done|]. split; [done|]. intros p' h'. rewrite Hp.
  by rewrite lookup_singleton_eq.
Qed.

Lemma M_for_queue_all Channel Object (b : bool) (l : list (Z * gset ObjectId)) :
  ∀ Sender,
  WellFormed (containers b Sender) → NoDup l.*1 →
  (∀ h, h ∈ l.*1 → pending (containers b Sender) (Channel, Object) h = None) →
  ∃ U',
    M_for l (λ HandleUnresolvedObjectsPair,
        QueueOutgoingUpdate Channel Object HandleUnresolvedObjectsPair.1
          HandleUnresolvedObjectsPair.2 b) Sender
    = Some ((), set_containers b U' Sender, [])
    ∧ WellFormed U'
    ∧ ∀ p' h', pending U' p' h'
               = if decide (p' = (Channel, Object) ∧ h' ∈ l.*1)
                 then (list_to_map l : gmap Z (gset ObjectId)) !! h'
                 else pending (containers b Sender) p' h'.
Proof.
  induction l as [|[h Objs] l IH]; intros Sender HW Hnd Hnone.
  { exists (containers b Sender). cbn [M_for]. unfold M_ret.
    rewrite set_containers_id. split; [done|]. split; [done|]. intros p' h'.
    rewrite decide_False; [done|]. intros [_ Hin]. inversion Hin. }
  cbn [fmap list_fmap] in Hnd, Hnone. cbn [fst] in Hnd, Hnone.
  apply NoDup_cons in Hnd as [Hnotin Hnd].
  destruct (QueueOutgoingUpdate_on_WellFormed (Channel, Object) h Objs
              (containers b Sender) HW) as (U1 & HU1 & HW1 & Hp1).
  { apply Hnone. apply list_elem_of_here. }
  destruct (IH (set_containers b U1 Sender)) as (U' & Hfor & HW' & Hp').
  { by rewrite containers_set. }
  { done. }
  { intros h' Hin. rewrite containers_set, Hp1. rewrite decide_False.
    - apply Hnone. by apply list_elem_of_further.
    - intros [_ ->]. done. }
  exists U'. split; [| split; [done|]].
  - cbn [M_for]. unfold M_bind. unfold QueueOutgoingUpdate at 1, M_on_containers.
    cbn [fst snd]. rewrite HU1, Hfor. by rewrite set_containers_set.
  - intros p' h'. rewrite Hp'. rewrite containers_set, Hp1.
    cbn [fmap list_fmap fst list_to_map foldr]. cbn [fst snd uncurry].
    destruct (decide (p' = (Channel, Object) ∧ h' ∈ l.*1)) as [[-> Hin] | Hd].
    + rewrite decide_True by (split; [done | by apply list_elem_of_further]).
      rewrite lookup_insert_ne; [done|]. by intros ->.
    + destruct (decide (p' = (Channel, Object) ∧ h' = h)) as [[-> ->] | Hd1].
      * rewrite decide_True by (split; [done | apply list_elem_of_here]).
        by rewrite lookup_insert_eq.
      * rewrite decide_False; [done|]. intros [-> Hin].
        apply elem_of_cons in Hin as [-> | Hin]; tauto.
Qed.

Lemma CreateEntity_object_WellFormed Env Channel Object Info Sender Init :
  (∀ b, WellFormed (containers b Sender)) →
  (∀ b h, pending (containers b Sender) (Channel, Object) h = None) →
  CreateInitialRepChangeState (FindOrCreateReplicator Env Channel Object) = Some Init →
  ∃ Sender',
    CreateEntity_object Env Channel Object Info Sender
    = Some (FactoryComponentData <$>
              Payloads (CreateComponentDatas Env Object Init
                          (CreateInitialHandoverChangeState (HandoverProperties Info))),
            Sender', [])
    ∧ (∀ b, WellFormed (containers b Sender'))
    ∧ same_requests Sender Sender'
    ∧ ∀ (b : bool) p' h',
        pending (containers b Sender') p' h'
        = if decide (p' = (Channel, Object))
          then (if b
                then HandoverUnresolvedObjectsMap
                       (CreateComponentDatas Env Object Init
                          (CreateInitialHandoverChangeState (HandoverProperties Info)))
                else UnresolvedObjectsMap
                       (CreateComponentDatas Env Object Init
                          (CreateInitialHandoverChangeState (HandoverProperties Info))))
               !! h'
          else pending (containers b Sender) p' h'.
Proof.
  intros HW Hnone HInit.
  set (F := CreateComponentDatas Env Object Init
              (CreateInitialHandoverChangeState (HandoverProperties Info))).
  assert (∀ (m : gmap Z (gset ObjectId)) U U0 p' h',
            (∀ h, pending U0 (Channel, Object) h = None) →
            (∀ p' h', pending U p' h'
               = if decide (p' = (Channel, Object) ∧ h' ∈ (map_to_list m).*1)
                 then (list_to_map (map_to_list m) : gmap Z (gset ObjectId)) !! h'
                 else pending U0 p' h') →
            pending U p' h'
            = if decide (p' = (Channel, Object)) then m !! h' else pending U0 p' h')
    as Hkeys.
  { intros m U U0 p' h' Hn Hp. rewrite Hp, list_to_map_to_list.
    destruct (decide (p' = (Channel, Object))) as [-> | Hne].
    - destruct (m !! h') as [Objs|] eqn:Hm.
      + rewrite decide_True; [done|]. split; [done|].
        apply list_elem_of_fmap. exists (h', Objs). split; [done|].
        by apply elem_of_map_to_list.
      + by case_decide.
    - rewrite decide_False; [done | tauto]. }
  destruct (M_for_queue_all Channel Object false (map_to_list (UnresolvedObjectsMap F))
              Sender (HW false)) as (U1 & Hfor1 & HW1 & Hp1).
  { apply NoDup_fst_map_to_list. }
  { intros h _. apply Hnone. }
  set (Sender1 := set_containers false U1 Sender).
  destruct (M_for_queue_all Channel Object true
              (map_to_list (HandoverUnresolvedObjectsMap F)) Sender1) as (U2 & Hfor2 & HW2 & Hp2).
  { apply (HW true). }
  { apply NoDup_fst_map_to_list. }
  { intros h _. apply (Hnone true). }
  exists (set_containers true U2 Sender1). split; [| split; [| split]].
  - unfold CreateEntity_object. unfold M_bind at 1. unfold M_lift. rewrite HInit.
    fold F. unfold M_bind at 1. rewrite Hfor1. fold Sender1.
    unfold M_bind at 1. rewrite Hfor2. by unfold M_ret.
  - intros []; [exact HW2 | exact HW1].
  - done.
  - intros [] p' h'.
    + apply (Hkeys _ U2 (containers true Sender)); [apply (Hnone true) | exact Hp2].
    + apply (Hkeys _ U1 (containers false Sender)); [apply (Hnone false) | exact Hp1].
Qed.

Lemma initial_unresolved_eq Env Channel (b : bool) Object Init Info :
  CreateInitialRepChangeState (FindOrCreateReplicator Env Channel Object) = Some Init →
  FindClassInfoByClass Env (GetClass Env Object) = Some Info →
  initial_unresolved Env Channel b Object
  = if b
    then HandoverUnresolvedObjectsMap
           (CreateComponentDatas Env Object Init
              (CreateInitialHandoverChangeState (HandoverProperties Info)))
    else UnresolvedObjectsMap
           (CreateComponentDatas Env Object Init
              (CreateInitialHandoverChangeState (HandoverProperties Info))).
Proof. unfold initial_unresolved. by intros -> ->. Qed.

Lemma CreateEntity_subobjects_WellFormed Env Channel Actor Classes :
  ∀ Sender Subobjects,
  mapM (CreateEntity_subobject_of Env Actor) Classes = Some Subobjects →
  NoDup Subobjects →
  (∀ o, o ∈ Subobjects →
     is_Some (CreateInitialRepChangeState (FindOrCreateReplicator Env Channel o))) →
  (∀ b, WellFormed (containers b Sender)) →
  (∀ o b h, o ∈ Subobjects → pending (containers b Sender) (Channel, o) h = None) →
  ∃ Datas Sender',
    CreateEntity_subobjects Env Channel (GetDefaultSubobjects Env Actor) Classes Sender
    = Some (Datas, Sender', [])
    ∧ (∀ b, WellFormed (containers b Sender'))
    ∧ same_requests Sender Sender'
    ∧ ∀ (b : bool) (p' : FChannelObjectPair) h',
        pending (containers b Sender') p' h'
        = if decide (p'.1 = Channel ∧ p'.2 ∈ Subobjects)
          then initial_unresolved Env Channel b p'.2 !! h'
          else pending (containers b Sender) p' h'.
Proof.
  induction Classes as [|Class Classes IH]; intros Sender Subobjects Hmap Hnd HInit HW Hnone.
  { cbn [mapM] in Hmap. unfold mret, option_ret in Hmap. simplify_eq.
    exists [], Sender. cbn [CreateEntity_subobjects].
    split; [done|]. split; [done|]. split; [apply same_requests_refl|].
    intros b p' h'. rewrite decide_False; [done|]. intros [_ Hin]. inversion Hin. }
  cbn [mapM] in Hmap.
  apply bind_Some in Hmap as (o & Ho & Hmap).
  apply bind_Some in Hmap as (os & Hos & Hmap).
  unfold mret, option_ret in Hmap. simplify_eq.
  unfold CreateEntity_subobject_of in Ho.
  apply bind_Some in Ho as (Info & HInfo & Ho).
  apply fmap_Some in Ho as ([i o'] & Hfind & ->). simpl in *.
  pose proof Hfind as Hclass. apply list_find_Some in Hclass as (_ & Hclass & _).
  apply NoDup_cons in Hnd as [Hnotin Hnd].
  destruct (HInit o' ltac:(apply list_elem_of_here)) as [Init HInit'].
  destruct (CreateEntity_object_WellFormed Env Channel o' Info Sender Init HW)
    as (Sender1 & Hobj & HW1 & Hsame1 & Hp1); [| done |].
  { intros b h. apply Hnone. apply list_elem_of_here. }
  destruct (IH Sender1 os Hos Hnd) as (Rest & Sender' & Hrest & HW' & Hsame2 & Hp').
  { intros o Hin. apply HInit. by apply list_elem_of_further. }
  { done. }
  { intros o b h Hin. rewrite Hp1. rewrite decide_False.
    - apply Hnone. by apply list_elem_of_further.
    - intros Heq. simplify_eq. done. }
  eexists _, Sender'. split; [| split; [done|]; split; [by eapply same_requests_trans|]].
  - cbn [CreateEntity_subobjects]. unfold M_bind at 1. unfold M_lift at 1. rewrite HInfo.
    unfold M_bind at 1. unfold M_lift at 1. rewrite Hfind. cbn [snd].
    unfold M_bind at 1. rewrite Hobj.
    unfold M_bind at 1. rewrite Hrest. unfold M_ret. reflexivity.
  - intros b p' h'. rewrite Hp'.
    destruct (decide (p'.1 = Channel ∧ p'.2 ∈ os)) as [[Hc Hin] | Hd].
    + rewrite decide_True; [done|]. split; [done | by apply list_elem_of_further].
    + rewrite Hp1. destruct (decide (p' = (Channel, o'))) as [-> | Hne].
      * rewrite decide_True by (split; [done | apply list_elem_of_here]). cbn [snd].
        rewrite (initial_unresolved_eq Env Channel b o' Init Info); [done | done |].
        by rewrite Hclass.
      * rewrite decide_False; [done|]. intros [Hc Hin].
        apply elem_of_cons in Hin as [Heq | Hin]; [| tauto].
        apply Hne. destruct p'. simpl in *. by subst.
Qed.

Lemma CreateEntity_subobject_acls_is_Some Env ServersOnly OwningClientOnly Actor Classes :
  ∀ Acl Subobjects,
  mapM (CreateEntity_subobject_of Env Actor) Classes = Some Subobjects →
  is_Some (CreateEntity_subobject_acls Env ServersOnly OwningClientOnly Classes Acl).
Proof.
  induction Classes as [|Class Classes IH]; intros Acl Subobjects Hmap; [by eexists|].
  cbn [mapM] in Hmap.
  apply bind_Some in Hmap as (o & Ho & Hmap).
  apply bind_Some in Hmap as (os & Hos & _).
  unfold CreateEntity_subobject_of in Ho. apply bind_Some in Ho as (Info & HInfo & _).
  cbn [CreateEntity_subobject_acls]. rewrite HInfo. cbn [mbind option_bind].
  by eapply IH.
Qed.

(** X25. The first create-entity request goes through.  When the class of
    the channel's actor and its subobject classes are known, each subobject
    class has its default subobject, these objects are distinct, their
    layouts are accepted by [CreateInitialRepChangeState], the indices are
    well formed and hold no entry for these objects on the channel, then
    [CreateEntity] trips no check: it returns the next request identifier,
    sends one create-entity request, leaves the indices well formed, and
    has queued for each of these objects exactly the handles the factory
    reported unresolved for it, fine-grained and handover; the entries of
    every other pair are as before. *)
Theorem CreateEntity_goes_through Env ClientWorkerId EntityType Channel Parent Sender
    Objects :
  CreateEntity_objects Env (ChannelActor Env Channel) = Some Objects →
  NoDup Objects →
  (∀ o, o ∈ Objects →
     is_Some (CreateInitialRepChangeState (FindOrCreateReplicator Env Channel o))) →
  (∀ b, WellFormed (containers b Sender)) →
  (∀ o b h, o ∈ Objects → pending (containers b Sender) (Channel, o) h = None) →
  ∃ Sender' Datas,
    CreateEntity Env ClientWorkerId EntityType Channel Parent Sender
    = Some (NextRequestId Sender, Sender',
            [EvConnection_SendCreateEntityRequest (NextRequestId Sender) Datas
               (GetEntityId Env Channel)])
    ∧ (∀ b, WellFormed (containers b Sender'))
    ∧ ∀ (b : bool) (p : FChannelObjectPair) h,
        pending (containers b Sender') p h
        = if decide (p.1 = Channel ∧ p.2 ∈ Objects)
          then initial_unresolved Env Channel b p.2 !! h
          else pending (containers b Sender) p h.
Proof.
  intros HObjects Hnd HInit HW Hnone.
  unfold CreateEntity_objects in HObjects.
  apply bind_Some in HObjects as (Info & HInfo & HObjects).
  apply bind_Some in HObjects as (Subobjects & HSub & HObjects). simplify_eq.
  apply NoDup_cons in Hnd as [Hnotin Hnd].
  set (Actor := ChannelActor Env Channel) in *.
  destruct (HInit Actor ltac:(apply list_elem_of_here)) as [Init HInitA].
  set (SO := [[ServerWorkerType (SpatialConstants Env)]]).
  set (OC := [[String.append "workerId:" ClientWorkerId]]).
  destruct (CreateEntity_subobject_acls_is_Some Env SO OC Actor (SubobjectClasses Info)
              (AddClassWriteAcl Info SO OC
                 (<[ROTATION_COMPONENT_ID (SpatialConstants Env) := SO]>
                    (<[POSITION_COMPONENT_ID (SpatialConstants Env) := SO]> ∅)))
              Subobjects HSub) as [Acl HAcl].
  destruct (CreateEntity_object_WellFormed Env Channel Actor Info Sender Init HW)
    as (Sender1 & Hobj & HW1 & Hsame1 & Hp1); [| done |].
  { intros b h. apply Hnone. apply list_elem_of_here. }
  destruct (CreateEntity_subobjects_WellFormed Env Channel Actor (SubobjectClasses Info)
              Sender1 Subobjects HSub Hnd)
    as (SubDatas & Sender2 & Hsubs & HW2 & Hsame2 & Hp2).
  { intros o Hin. apply HInit. by apply list_elem_of_further. }
  { done. }
  { intros o b h Hin. rewrite Hp1. rewrite decide_False.
    - apply Hnone. by apply list_elem_of_further.
    - intros Heq. simplify_eq. done. }
  destruct (same_requests_trans _ _ _ Hsame1 Hsame2) as (HO & HP & HN).
  eexists _, _. split; [| split].
  - unfold CreateEntity. fold Actor. unfold M_bind at 1. unfold M_lift at 1. rewrite HInfo.
    fold SO OC. unfold M_bind at 1. unfold M_lift at 1. rewrite HAcl.
    unfold M_bind at 1. rewrite Hobj.
    unfold M_bind at 1. rewrite Hsubs.
    unfold M_bind, Connection_NewRequestId, M_emit, M_modify, M_ret. cbn [app].
    rewrite HN. reflexivity.
  - intros b. destruct b; [apply (HW2 true) | apply (HW2 false)].
  - intros b p h.
    transitivity (pending (containers b Sender2) p h); [by destruct b|].
    rewrite Hp2.
    destruct (decide (p.1 = Channel ∧ p.2 ∈ Subobjects)) as [[Hc Hin] | Hd].
    + rewrite decide_True; [done|]. split; [done | by apply list_elem_of_further].
    + rewrite Hp1. destruct (decide (p = (Channel, Actor))) as [-> | Hne].
      * rewrite decide_True by (split; [done | apply list_elem_of_here]). cbn [snd].
        by rewrite (initial_unresolved_eq Env Channel b Actor Init Info).
      * rewrite decide_False; [done|]. intros [Hc Hin].
        apply elem_of_cons in Hin as [Heq | Hin]; [| tauto].
        apply Hne. destruct p. simpl in *. by subst.
Qed.

Lemma CreateEntity_goes_through_witness :
  ∃ Sender' Datas,
    CreateEntity (Channel_SenderEnv (Pass.EnvWith Pass.DatasPending) 1%nat (Pass.Channel true))
      "worker" "Class" 1%nat None USpatialSender_new
    = Some (1, Sender', [EvConnection_SendCreateEntityRequest 1 Datas 7])
    ∧ pending (containers false Sender') (1%nat, 10%nat) 1 = Some {[ 20%nat ]}
    ∧ pending (containers false Sender') (1%nat, 10%nat) 2 = None.
Proof.
  destruct (CreateEntity_goes_through
              (Channel_SenderEnv (Pass.EnvWith Pass.DatasPending) 1%nat (Pass.Channel true))
              "worker" "Class" 1%nat None USpatialSender_new [10%nat])
    as (Sender' & Datas & Hcreate & _ & Hpending).
  - reflexivity.
  - apply NoDup_singleton.
  - intros o _. vm_compute. by eexists.
  - apply WellFormed_new.
  - intros o b h _. unfold pending, fwd_get. destruct b; simpl; by rewrite lookup_empty.
  - exists Sender', Datas. split; [exact Hcreate|].
    split; refine (eq_trans (Hpending false (1%nat, 10%nat) _) _); vm_compute; reflexivity.
Defined.
